(** * docopt_fish: the argv-to-usage matcher of [docopt_fish.cpp]

    A shallow embedding of the narrow ([std::string]) instantiation of
    [docopt_impl]: the argv tokenizer, the tree matcher, the finalizer,
    [preflight] and the public lookups, followed by the properties that are
    proved about them.

    Conventions of the embedding.
    - [size_t] indices are [nat]; the sentinel [npos] is [None] in an
      [option nat].
    - A nullable pointer ([auto_ptr], or an out-parameter that may be
      [NULL]) is an [option].
    - A [std::map] is a [gmap], a [std::set] a [gset], a [std::vector] a
      [list].
    - A member function takes the instance ([this]) as its first argument.
    - A function that mutates through a pointer returns the new value.
    - An [assert] of the source is a precondition, written next to the
      definition; the embedding follows the build without assertions.
    - Where a call can throw on an input that the program can get to, a
      predicate of its own says when ([range_equals_string_throws],
      [separate_argv_throws]); the function is the result of the call when
      it returns. *)

From Stdlib Require Import NArith Ascii String List Lia Bool Arith Sorted.
From stdpp Require Import gmap strings list fin_maps.

Local Open Scope nat_scope.

(** ** Ranges, options, errors and flags *)

(** Modelled from the spec: [range_t] is declared in docopt_fish_types.h, which
    is not part of the sources; a range is half-open, [start, start+length). *)
Record range_t := mk_range { start : nat; rlength : nat }.

Definition range_end (r : range_t) : nat := start r + rlength r.
Definition range_empty (r : range_t) : bool := rlength r =? 0.
Definition range_eqb (a b : range_t) : bool :=
  (start a =? start b) && (rlength a =? rlength b).

(** Modelled from the spec: [range_t::merge] (same header) extends the range to
    the smallest one that covers both; an empty range does not take part. *)
Definition range_merge (r rhs : range_t) : range_t :=
  if range_empty r then rhs
  else if range_empty rhs then r
  else let s := Nat.min (start r) (start rhs) in
       mk_range s (Nat.max (range_end r) (range_end rhs) - s).

#[global] Instance range_eq_dec : EqDecision range_t.
Proof. solve_decision. Defined.

Inductive separator_t := sep_space | sep_equals | sep_none.
Inductive type_t := single_short | single_long | double_long.

#[global] Instance separator_eq_dec : EqDecision separator_t.
Proof. solve_decision. Defined.
#[global] Instance type_eq_dec : EqDecision type_t.
Proof. solve_decision. Defined.

Definition type_eqb (a b : type_t) : bool := bool_decide (a = b).
Definition separator_eqb (a b : separator_t) : bool := bool_decide (a = b).

(** Modelled from the spec: the option record of docopt_fish_types.h. *)
Record option_t := mk_option_t {
  name : range_t;
  value : range_t;
  leading_dash_count : nat;
  separator : separator_t;
  type : type_t;
  description_range : range_t;
  default_value_range : range_t;
  corresponding_long_name : range_t
}.

#[global] Instance option_eq_dec : EqDecision option_t.
Proof. solve_decision. Defined.

Definition no_range : range_t := mk_range 0 0.

(** Modelled from the spec: the constructor [option_t(name, value, dashes, sep)];
    one dash and one character is a short option, one dash and more characters
    a single-dash long option, two dashes a long option. *)
Definition new_option (n v : range_t) (dashes : nat) (sep : separator_t) : option_t :=
  mk_option_t n v dashes sep
    (if 1 <? dashes then double_long
     else if 1 <? rlength n then single_long else single_short)
    no_range no_range no_range.

Definition has_value (o : option_t) : bool := negb (range_empty (value o)).

Definition set_type (o : option_t) (t : type_t) : option_t :=
  mk_option_t (name o) (value o) (leading_dash_count o) (separator o) t
    (description_range o) (default_value_range o) (corresponding_long_name o).

Definition set_value (o : option_t) (v : range_t) : option_t :=
  mk_option_t (name o) v (leading_dash_count o) (separator o) (type o)
    (description_range o) (default_value_range o) (corresponding_long_name o).

Definition set_corresponding_long_name (o : option_t) (r : range_t) : option_t :=
  mk_option_t (name o) (value o) (leading_dash_count o) (separator o) (type o)
    (description_range o) (default_value_range o) r.

Definition set_descriptions (o : option_t) (d dv : range_t) : option_t :=
  mk_option_t (name o) (value o) (leading_dash_count o) (separator o) (type o)
    d dv (corresponding_long_name o).

(** The diagnostic kinds of the error taxonomy. *)
Inductive error_code :=
| error_excessive_dashes
| error_excessive_equal_signs
| error_invalid_variable_name
| error_invalid_option_name
| error_bad_option_separator
| error_missing_close_bracket_in_default
| error_option_duplicated_in_options_section
| error_unknown_option
| error_ambiguous_prefix_match
| error_option_has_missing_argument
| error_option_unexpected_argument
| error_wrong_separator
| error_missing_usage_section
| error_excessive_usage_sections
| error_one_variable_multiple_conditions.

#[global] Instance error_code_eq_dec : EqDecision error_code.
Proof. solve_decision. Defined.

(** Modelled from the spec: a diagnostic record
    {position in source or argv, argv index (optional), code, text}. *)
Record error_t := mk_error {
  location : option nat;
  argument_index : option nat;
  code : error_code;
  text : string
}.

Abbreviation error_list_t := (list error_t).

(** Modelled from the spec: [append_error] (docopt_fish_types.h) pushes one
    record at the back of the list; a null list is left alone, as the callers
    that pass [NULL] for the errors rely on. *)
Definition append_error (errors : option error_list_t) (pos : option nat)
    (c : error_code) (txt : string) (arg_idx : option nat) : option error_list_t :=
  match errors with
  | Some l => Some (l ++ [mk_error pos arg_idx c txt])
  | None => None
  end.

(** An error in argv: the position is within the argument [arg_idx]. *)
Definition append_argv_error (errors : option error_list_t) (arg_idx : nat)
    (c : error_code) (txt : string) (pos_in_arg : nat) : option error_list_t :=
  append_error errors (Some pos_in_arg) c txt (Some arg_idx).

(** Modelled from the spec: the parse flags are a bitset whose constants are
    declared in docopt_fish.h; only that they are distinct bits matters. *)
Abbreviation parse_flags_t := (N).
Definition flag_generate_empty_args : parse_flags_t := 1%N.
Definition flag_match_allow_incomplete : parse_flags_t := 2%N.
Definition flag_resolve_unambiguous_prefixes : parse_flags_t := 4%N.
Definition flag_short_options_strict_separators : parse_flags_t := 8%N.
Definition flag_generate_suggestions : parse_flags_t := 65536%N.

(** [flags & f] as a condition. *)
Definition has_flag (flags f : parse_flags_t) : bool :=
  negb (N.eqb (N.land flags f) 0%N).

(** ** Strings *)

Abbreviation string_t := (string).

Definition string_size (s : string_t) : nat := String.length s.

(** [string_t(src, pos, len)] and [assign(src, pos, len)]: the length is
    clamped to what the string has. *)
Definition substr (s : string_t) (pos len : nat) : string_t :=
  String.substring pos len s.

(** [str.at(i)]; the scanners only read inside the string, where the result
    is [Some]. *)
Definition char_at (s : string_t) (i : nat) : option ascii := String.get i s.

Definition char_is (c : ascii) (x : ascii) : bool := Ascii.eqb x c.

(** [isspace] in the C locale. *)
Definition isspace (c : ascii) : bool :=
  let n := nat_of_ascii c in
  (n =? 32) || ((9 <=? n) && (n <=? 13)).

Fixpoint string_mem (c : ascii) (s : string) : bool :=
  match s with
  | EmptyString => false
  | String d s' => Ascii.eqb c d || string_mem c s'
  end.

Definition tab : ascii := ascii_of_nat 9.
Definition newline : ascii := ascii_of_nat 10.

Definition invalid_in_parameter : string :=
  ".|<>,=()[] " +:+ String tab (String newline EmptyString).
Definition invalid_in_bracketed_word : string :=
  "|()[]>" +:+ String tab (String newline EmptyString).

Definition char_is_valid_in_parameter (c : ascii) : bool :=
  negb (string_mem c invalid_in_parameter).

Definition char_is_valid_in_bracketed_word (c : ascii) : bool :=
  negb (string_mem c invalid_in_bracketed_word).

Definition test_at (str : string_t) (i : nat) (f : ascii -> bool) : bool :=
  match char_at str i with
  | Some c => f c
  | None => false
  end.

(** [scan_while]: the loop moves one character from [remaining] to [result]
    per round, so it runs at most [rlength remaining] rounds. *)
Fixpoint scan_while_loop (str : string_t) (f : ascii -> bool) (rounds : nat)
    (result remaining : range_t) : range_t * range_t :=
  match rounds with
  | 0 => (result, remaining)
  | S rounds' =>
      if (range_end result <? range_end remaining) && test_at str (range_end result) f
      then scan_while_loop str f rounds'
             (mk_range (start result) (rlength result + 1))
             (mk_range (start remaining + 1) (rlength remaining - 1))
      else (result, remaining)
  end.

Definition scan_while (str : string_t) (remaining : range_t) (f : ascii -> bool)
    : range_t * range_t :=
  scan_while_loop str f (rlength remaining) (mk_range (start remaining) 0) remaining.

Definition scan_1_char (str : string_t) (remaining : range_t) (c : ascii)
    : range_t * range_t :=
  let result := mk_range (start remaining) 0 in
  if (range_end result <? range_end remaining) && test_at str (range_end result) (char_is c)
  then (mk_range (start result) (rlength result + 1),
        mk_range (start remaining + 1) (rlength remaining - 1))
  else (result, remaining).

(** [trim_whitespace]: two loops, each bounded by the length of the range. *)
Fixpoint trim_left (src : string_t) (rounds left right : nat) : nat :=
  match rounds with
  | 0 => left
  | S rounds' =>
      if (left <? right) && test_at src left isspace
      then trim_left src rounds' (left + 1) right
      else left
  end.

Fixpoint trim_right (src : string_t) (rounds left right : nat) : nat :=
  match rounds with
  | 0 => right
  | S rounds' =>
      if (left <? right) && test_at src (right - 1) isspace
      then trim_right src rounds' left (right - 1)
      else right
  end.

Definition trim_whitespace (range : range_t) (src : string_t) : range_t :=
  let left := trim_left src (rlength range) (start range) (range_end range) in
  let right := trim_right src (rlength range) left (range_end range) in
  mk_range left (right - left).

(** [range_t(start, 0)] extended by [str.find(c, start)]: the index of the
    first [c] at or after [from], [None] for [npos]. *)
Fixpoint find_char_from (s : string_t) (c : ascii) (from : nat) (i : nat) : option nat :=
  match s with
  | EmptyString => None
  | String d s' =>
      if (from <=? i) && Ascii.eqb d c then Some i
      else find_char_from s' c from (i + 1)
  end.

Definition find_char (s : string_t) (c : ascii) (from : nat) : option nat :=
  find_char_from s c from 0.

(** [str_equals(a, str)]: equality with a C string. *)
Definition str_equals (a : string) (str : string_t) : bool := String.eqb a str.

(** [substr_equals(a, b, len)]: [a] and [b] agree on their first [len]
    characters; both are read as C strings, so a string that ends early
    agrees only with one that ends at the same place. *)
Fixpoint substr_equals (a : string) (b : string_t) (len : nat) : bool :=
  match len with
  | 0 => true
  | S len' =>
      match a, b with
      | EmptyString, EmptyString => true
      | String c a', String d b' =>
          if Ascii.eqb c d then substr_equals a' b' len' else false
      | _, _ => false
      end
  end.

(** ** The usage tree *)

(** Modelled from the spec: the node types of docopt_fish_grammar.h (not part
    of the sources), with the fields that docopt_fish.cpp reads. A child is an
    [auto_ptr] and may be null. *)
Record token_t := mk_token { range : range_t }.

Definition token_empty (t : token_t) : bool := range_empty (range t).

Record opt_ellipsis_t := mk_opt_ellipsis { ellipsis_production : nat }.
Record option_clause_t := mk_option_clause { clause_option : option_t }.
Record fixed_clause_t := mk_fixed_clause { fixed_word : token_t }.
Record variable_clause_t := mk_variable_clause { variable_word : token_t }.

Record simple_clause_t := mk_simple_clause {
  sc_option : option option_clause_t;
  sc_fixed : option fixed_clause_t;
  sc_variable : option variable_clause_t
}.

Scheme All for option.

Inductive usage_t :=
| Usage (prog_name : token_t) (alternation_list : option alternation_list_t)
        (next_usage : option usage_t)
with alternation_list_t :=
| AlternationList (expression_list : option expression_list_t)
                  (or_continuation : option or_continuation_t)
with or_continuation_t :=
| OrContinuation (alternation_list : option alternation_list_t)
with expression_list_t :=
| ExpressionList (expression : option expression_t)
                 (opt_expression_list : option opt_expression_list_t)
with opt_expression_list_t :=
| OptExpressionList (expression_list : option expression_list_t)
with expression_t :=
| Expression (production : nat) (opt_ellipsis : option opt_ellipsis_t)
             (simple_clause : option simple_clause_t)
             (alternation_list : option alternation_list_t).

(** ** The parser instance *)

Abbreviation option_list_t := (list option_t).
Abbreviation range_list_t := (list range_t).

Record docopt_impl := mk_docopt_impl {
  source : string_t;
  parse_tree : option usage_t;
  shortcut_options : option_list_t;
  all_options : option_list_t;
  all_variables : range_list_t;
  all_static_arguments : range_list_t;
  errors : error_list_t;
  variables_to_conditions : gmap string_t range_t
}.

Record positional_argument_t := mk_positional { idx_in_argv : nat }.
Abbreviation positional_argument_list_t := (list positional_argument_t).

(** A resolved option references an option in argv. [value_idx_in_argv] is
    [None] when there is no value. *)
Record resolved_option_t := mk_resolved {
  opt : option_t;
  name_idx_in_argv : nat;
  value_idx_in_argv : option nat;
  value_range_in_arg : range_t
}.
Abbreviation resolved_option_list_t := (list resolved_option_t).

Abbreviation string_list_t := (list string_t).

(** [argv.at(i)]; every caller has [i < argv.size()]. *)
Definition argv_at (argv : string_list_t) (i : nat) : string_t :=
  nth i argv EmptyString.

(** [source.compare(pos, len, str, subpos, sublen) == 0]. *)
Definition compare_eq (src : string_t) (pos len : nat) (str : string_t)
    (subpos sublen : nat) : bool :=
  String.eqb (substr src pos len) (substr str subpos sublen).

(** [a - b] in [size_t], which is 64 bits wide: the difference wraps around
    when [b] is the larger one. Sizes and indexes are values of [size_t]. *)
Definition size_t_sub (a b : nat) : N :=
  if b <=? a then N.of_nat (a - b) else (2 ^ 64 - N.of_nat (b - a))%N.

(** [std::min(len_in_str, str.size() - start_in_str)], the length that
    [range_equals_string] compares; [None] is [npos], the largest [size_t]. *)
Definition clamped_length (str : string_t) (start_in_str : nat)
    (len_in_str : option nat) : N :=
  match len_in_str with
  | Some l => N.min (N.of_nat l) (size_t_sub (string_size str) start_in_str)
  | None => size_t_sub (string_size str) start_in_str
  end.

(** Returns true if the given range of the source equals the given string,
    from [start_in_str] on and for [len_in_str] characters at most.
    Preconditions of the source: the range lies in the source, and
    [start_in_str <= str.size()]. One caller can break the second one
    ([parse_unseparated_short] on an empty argument); the subtraction wraps
    around then, and [compare] throws when the lengths agree: see
    [range_equals_string_throws]. This is the result of the call when it
    returns. *)
Definition range_equals_string (this : docopt_impl) (r : range_t) (str : string_t)
    (start_in_str : nat) (len_in_str : option nat) : bool :=
  (N.of_nat (rlength r) =? clamped_length str start_in_str len_in_str)%N
  && compare_eq (source this) (start r) (rlength r) str start_in_str (rlength r).

(** The call does not return: the lengths agree and [compare] is given a
    start behind the end of the string, for which it throws
    [std::out_of_range]. *)
Definition range_equals_string_throws (r : range_t) (str : string_t)
    (start_in_str : nat) (len_in_str : option nat) : bool :=
  (N.of_nat (rlength r) =? clamped_length str start_in_str len_in_str)%N
  && (string_size str <? start_in_str).

Scheme usage_mut := Induction for usage_t Sort Prop
with alternation_list_mut := Induction for alternation_list_t Sort Prop
with or_continuation_mut := Induction for or_continuation_t Sort Prop
with expression_list_mut := Induction for expression_list_t Sort Prop
with opt_expression_list_mut := Induction for opt_expression_list_t Sort Prop
with expression_mut := Induction for expression_t Sort Prop.

Combined Scheme tree_mutind from usage_mut, alternation_list_mut,
  or_continuation_mut, expression_list_mut, opt_expression_list_mut,
  expression_mut.

(** ** The argv tokenizer *)

(** Like [parse_from_string], but parses an argument (as in argv).
    Preconditions of the source: [str] is not empty and starts with a dash. *)
Definition parse_option_from_argument (str : string_t) : option_t :=
  let remaining := mk_range 0 (string_size str) in
  let '(leading_dash_range, remaining) := scan_while str remaining (char_is "-") in
  let '(name_range, remaining) := scan_while str remaining char_is_valid_in_parameter in
  let '(equals_range, remaining) := scan_1_char str remaining "=" in
  let value_range := if negb (range_empty equals_range) then remaining else no_range in
  new_option name_range value_range (rlength leading_dash_range)
    (if range_empty equals_range then sep_space else sep_equals).

(** What a tokenizer function leaves behind: its result and the values of
    its in-out parameters. *)
Record parse_out := mk_out {
  success : bool;
  idx : nat;
  out_result : resolved_option_list_t;
  out_errors : option error_list_t;
  out_suggestion : option string_t
}.

Definition is_some {A} (o : option A) : bool :=
  match o with Some _ => true | None => false end.

(** The exact matches of [parse_long]: the catalog options of the wanted type
    whose name is the name portion of the argument. *)
Definition long_matches (this : docopt_impl) (ty : type_t) (arg : string_t)
    (arg_as_option : option_t) (options : option_list_t) : option_list_t :=
  List.filter (fun o =>
      type_eqb (type o) ty &&
      range_equals_string this (name o) arg (start (name arg_as_option))
        (Some (rlength (name arg_as_option))))
    options.

(** The prefix matches of [parse_long]: same type, a longer name, and the
    argument's name is its beginning. *)
Definition long_prefix_matches (this : docopt_impl) (ty : type_t) (arg : string_t)
    (arg_as_option : option_t) (options : option_list_t) : option_list_t :=
  List.filter (fun o =>
      type_eqb (type o) ty &&
      (rlength (name arg_as_option) <? rlength (name o)) &&
      compare_eq (source this) (start (name o)) (rlength (name arg_as_option))
        arg (start (name arg_as_option)) (rlength (name arg_as_option)))
    options.

(** The second half of [parse_long], from [bool success = false] on: what is
    done with the list of matches. Precondition of the source: at most one
    match. *)
Definition parse_long_resolve (this : docopt_impl) (argv : string_list_t)
    (flags : parse_flags_t) (i : nat) (arg_as_option : option_t)
    (matches : option_list_t) (out_result : resolved_option_list_t)
    (out_errors : option error_list_t) (out_suggestion : option string_t)
    : parse_out :=
  match matches with
  | [] =>
      mk_out false i out_result
        (append_argv_error out_errors i error_unknown_option "Unknown long option" 0)
        out_suggestion
  | match_ :: _ =>
      let name_idx := i in
      (* errored, idx, arg_index, value_range, errors, suggestion *)
      let '(errored, i, arg_index, value_range, out_errors, out_suggestion) :=
        if has_value match_ then
          if has_value arg_as_option then
            (false, i, Some i, value arg_as_option, out_errors, out_suggestion)
          else if i + 1 <? length argv then
            (false, i + 1, Some (i + 1),
             mk_range 0 (string_size (argv_at argv (i + 1))),
             out_errors, out_suggestion)
          else if has_flag flags flag_generate_suggestions && is_some out_suggestion then
            (true, i, None, no_range, out_errors,
             Some (substr (source this) (start (value match_)) (rlength (value match_))))
          else
            (true, i, None, no_range,
             append_argv_error out_errors i error_option_has_missing_argument
               "Option expects an argument" 0,
             out_suggestion)
        else if has_value arg_as_option then
          (true, i, None, no_range,
           append_argv_error out_errors i error_option_unexpected_argument
             "Option does not expect an argument" 0,
           out_suggestion)
        else (false, i, None, no_range, out_errors, out_suggestion) in
      let '(errored, out_errors) :=
        if negb errored && has_flag flags flag_short_options_strict_separators then
          if negb (separator_eqb (separator arg_as_option) (separator match_)) then
            (true, append_argv_error out_errors i error_wrong_separator
                     "Option expects a different separator" 0)
          else (errored, out_errors)
        else (errored, out_errors) in
      if negb errored then
        mk_out true (i + 1)
          (out_result ++ [mk_resolved match_ name_idx arg_index value_range])
          out_errors out_suggestion
      else mk_out false i out_result out_errors out_suggestion
  end.

(** The first step of [parse_long]: the argument parsed into an option. A
    one-character name after one dash is read as a short option; it is made a
    single-dash long option when that is the type looked for. *)
Definition arg_as_long_option (ty : type_t) (arg : string_t) : option_t :=
  let arg_as_option := parse_option_from_argument arg in
  if type_eqb ty single_long && type_eqb (type arg_as_option) single_short
  then set_type arg_as_option single_long else arg_as_option.

(** Extracts a long option from the arg at [i]. Preconditions of the source:
    [ty] is one of the two long types and the argument starts with as many
    dashes. *)
Definition parse_long (this : docopt_impl) (argv : string_list_t) (ty : type_t)
    (flags : parse_flags_t) (i : nat) (options : option_list_t)
    (out_result : resolved_option_list_t) (out_errors : option error_list_t)
    (out_suggestion : option string_t) : parse_out :=
  let arg := argv_at argv i in
  let arg_as_option := arg_as_long_option ty arg in
  let matches := long_matches this ty arg arg_as_option options in
  let '(matches, out_errors) :=
    if (length matches =? 0) && has_flag flags flag_resolve_unambiguous_prefixes then
      let prefix_matches := long_prefix_matches this ty arg arg_as_option options in
      if 1 <? length prefix_matches then
        (matches, append_argv_error out_errors i error_ambiguous_prefix_match
                    "Ambiguous prefix match" 0)
      else if length prefix_matches =? 1 then (prefix_matches, out_errors)
      else (matches, out_errors)
    else (matches, out_errors) in
  parse_long_resolve this argv flags i arg_as_option matches
    out_result out_errors out_suggestion.

(** Given a list of short options, try parsing out an unseparated short, i.e.
    -DNDEBUG. Preconditions of the source: the argument starts with a dash and
    is longer than the dash; at most one option matches. *)
Definition parse_unseparated_short (this : docopt_impl) (argv : string_list_t)
    (flags : parse_flags_t) (i : nat) (options : option_list_t)
    (out_result : resolved_option_list_t) (out_errors : option error_list_t)
    (out_suggestion : option string_t) : parse_out :=
  let arg := argv_at argv i in
  let relaxed_separators := negb (has_flag flags flag_short_options_strict_separators) in
  let matches :=
    List.filter (fun o =>
        type_eqb (type o) single_short && has_value o &&
        (relaxed_separators || separator_eqb (separator o) sep_none) &&
        range_equals_string this (name o) arg 1 (Some 1))
      options in
  match matches with
  | [match_] =>
      if string_size arg <=? 2 then
        mk_out false i out_result
          (append_argv_error out_errors i error_option_has_missing_argument
             "Option expects an argument" 0)
          out_suggestion
      else
        mk_out true (i + 1)
          (out_result ++
             [mk_resolved match_ i (Some i) (mk_range 2 (string_size arg - 2))])
          out_errors out_suggestion
  | _ => mk_out false i out_result out_errors out_suggestion
  end.

(** The first loop of [parse_short]: one short option per character after the
    dash; it stops at the first character that names no option. [rounds] is
    the number of characters left. Returns the options found, the errors and
    [errored]. *)
Fixpoint parse_short_chars (this : docopt_impl) (arg : string_t) (i : nat)
    (options : option_list_t) (rounds idx_in_arg : nat)
    (options_for_argument : option_list_t) (out_errors : option error_list_t)
    : option_list_t * option error_list_t * bool :=
  match rounds with
  | 0 => (options_for_argument, out_errors, false)
  | S rounds' =>
      let matches :=
        List.filter (fun o =>
            type_eqb (type o) single_short &&
            range_equals_string this (name o) arg idx_in_arg (Some 1))
          options in
      match matches with
      | [] =>
          (options_for_argument,
           append_argv_error out_errors i error_unknown_option
             "Unknown short option" idx_in_arg,
           true)
      | m :: _ =>
          parse_short_chars this arg i options rounds' (idx_in_arg + 1)
            (options_for_argument ++ [m]) out_errors
      end
  end.

(** The second loop of [parse_short]: no option may have a value, except the
    last one. [k] is the index of the head of [rest] in the whole list of
    [total] options. Returns the errors and [last_option_has_argument]. *)
Fixpoint parse_short_values (i : nat) (total k : nat) (rest : option_list_t)
    (out_errors : option error_list_t) (last_option_has_argument : bool)
    : option error_list_t * bool :=
  match rest with
  | [] => (out_errors, last_option_has_argument)
  | o :: rest' =>
      if has_value o then
        if k + 1 =? total then parse_short_values i total (k + 1) rest' out_errors true
        else
          parse_short_values i total (k + 1) rest'
            (append_argv_error out_errors i error_option_unexpected_argument
               "Option may not have a value unless it is the last option" (k + 1))
            last_option_has_argument
      else parse_short_values i total (k + 1) rest' out_errors last_option_has_argument
  end.

(** The last loop of [parse_short]: one resolved option per short option;
    only the last one carries the value. *)
Fixpoint parse_short_resolved (name_idx : nat) (total k : nat) (rest : option_list_t)
    (last_option_has_argument : bool) (val_idx_for_last_option : option nat)
    (val_range_for_last_option : range_t) : resolved_option_list_t :=
  match rest with
  | [] => []
  | o :: rest' =>
      (if (k + 1 =? total) && last_option_has_argument
       then mk_resolved o name_idx val_idx_for_last_option val_range_for_last_option
       else mk_resolved o name_idx None no_range)
      :: parse_short_resolved name_idx total (k + 1) rest' last_option_has_argument
           val_idx_for_last_option val_range_for_last_option
  end.

(** Given a list of short options, parse out an argument. Preconditions of the
    source: the argument starts with a dash and is longer than the dash. *)
Definition parse_short (this : docopt_impl) (argv : string_list_t)
    (flags : parse_flags_t) (i : nat) (options : option_list_t)
    (out_result : resolved_option_list_t) (out_errors : option error_list_t)
    (out_suggestion : option string_t) : parse_out :=
  let arg := argv_at argv i in
  let '(options_for_argument, out_errors, errored) :=
    parse_short_chars this arg i options (string_size arg - 1) 1 [] out_errors in
  let '(out_errors, last_option_has_argument) :=
    if negb errored then
      parse_short_values i (length options_for_argument) 0 options_for_argument
        out_errors false
    else (out_errors, false) in
  let name_idx := i in
  let '(errored, val_idx_for_last_option, val_range_for_last_option,
        out_errors, out_suggestion) :=
    if negb errored && last_option_has_argument then
      if i + 1 <? length argv then
        (errored, Some (i + 1), mk_range 0 (string_size (argv_at argv (i + 1))),
         out_errors, out_suggestion)
      else if has_flag flags flag_generate_suggestions && is_some out_suggestion then
        let match_ := List.last options_for_argument
                        (new_option no_range no_range 0 sep_space) in
        (true, None, no_range, out_errors,
         Some (substr (source this) (start (value match_)) (rlength (value match_))))
      else
        (true, None, no_range,
         append_argv_error out_errors i error_option_has_missing_argument
           "Option expects an argument" 0,
         out_suggestion)
    else (errored, None, no_range, out_errors, out_suggestion) in
  if negb errored then
    mk_out true (i + (if last_option_has_argument then 2 else 1))
      (out_result ++
         parse_short_resolved name_idx (length options_for_argument) 0
           options_for_argument last_option_has_argument
           val_idx_for_last_option val_range_for_last_option)
      out_errors out_suggestion
  else mk_out false i out_result out_errors out_suggestion.

(** What the tokenizer has produced so far. *)
Record separated_t := mk_separated {
  sep_positionals : positional_argument_list_t;
  sep_resolved_options : resolved_option_list_t;
  sep_errors : option error_list_t;
  sep_suggestion : option string_t
}.

(** [out_errors->insert(out_errors->begin(), first, last)]. *)
Definition insert_at_begin (out_errors : option error_list_t)
    (local_errors : option error_list_t) : option error_list_t :=
  match out_errors, local_errors with
  | Some l, Some loc => Some (loc ++ l)
  | _, _ => out_errors
  end.

(** One round of the loop of [separate_argv_into_options_and_positionals], at
    an index [i < argv.size()]: the index to go on with (the size of argv
    after a literal --) and the outputs. *)
Definition separate_step (this : docopt_impl) (argv : string_list_t)
    (options : option_list_t) (flags : parse_flags_t) (i : nat) (st : separated_t)
    : nat * separated_t :=
  let arg := argv_at argv i in
  if str_equals "--" arg then
    (length argv,
     mk_separated
       (sep_positionals st ++ map mk_positional (seq (i + 1) (length argv - (i + 1))))
       (sep_resolved_options st) (sep_errors st) (sep_suggestion st))
  else if substr_equals "--" arg 2 then
    let r := parse_long this argv double_long flags i options
               (sep_resolved_options st) (sep_errors st) (sep_suggestion st) in
    (if success r then idx r else idx r + 1,
     mk_separated (sep_positionals st) (out_result r) (out_errors r) (out_suggestion r))
  else if substr_equals "-" arg 1 && (1 <? string_size arg) then
    let local_long_errors := Some [] in
    let local_short_errors := Some [] in
    let r1 := parse_long this argv single_long flags i options
                (sep_resolved_options st) local_long_errors (sep_suggestion st) in
    if success r1 then
      (idx r1,
       mk_separated (sep_positionals st) (out_result r1) (sep_errors st)
         (out_suggestion r1))
    else
      let local_long_errors := out_errors r1 in
      let r2 := parse_unseparated_short this argv flags (idx r1) options
                  (out_result r1) local_short_errors (out_suggestion r1) in
      if success r2 then
        (idx r2,
         mk_separated (sep_positionals st) (out_result r2) (sep_errors st)
           (out_suggestion r2))
      else
        let r3 := parse_short this argv flags (idx r2) options
                    (out_result r2) (out_errors r2) (out_suggestion r2) in
        if success r3 then
          (idx r3,
           mk_separated (sep_positionals st) (out_result r3) (sep_errors st)
             (out_suggestion r3))
        else
          let local_short_errors := out_errors r3 in
          (idx r3 + 1,
           mk_separated (sep_positionals st) (out_result r3)
             (insert_at_begin (insert_at_begin (sep_errors st) local_long_errors)
                local_short_errors)
             (out_suggestion r3))
  else
    (i + 1,
     mk_separated (sep_positionals st ++ [mk_positional i])
       (sep_resolved_options st) (sep_errors st) (sep_suggestion st)).

(** The loop [while (idx < argv.size())]. Every round moves the index forward,
    so [argv.size()] rounds are enough ([separate_loop_enough]). *)
Fixpoint separate_loop (this : docopt_impl) (argv : string_list_t)
    (options : option_list_t) (flags : parse_flags_t) (rounds : nat) (i : nat)
    (st : separated_t) : nat * separated_t :=
  match rounds with
  | 0 => (i, st)
  | S rounds' =>
      if i <? length argv then
        let '(i', st') := separate_step this argv options flags i st in
        separate_loop this argv options flags rounds' i' st'
      else (i, st)
  end.

(** The Python implementation calls this "parse_argv". *)
Definition separate_argv_into_options_and_positionals (this : docopt_impl)
    (argv : string_list_t) (options : option_list_t) (flags : parse_flags_t)
    (out_errors : option error_list_t) (out_suggestion : option string_t)
    : separated_t :=
  snd (separate_loop this argv options flags (length argv) 0
         (mk_separated [] [] out_errors out_suggestion)).

(** ** Where the tokenizer does not return *)

(** [parse_unseparated_short] at the argument [i] throws: one of its calls of
    [range_equals_string] does. The conditions of the test are evaluated in
    order, so the call is made for the short options with a value (without a
    separator, when the separators are strict) and for no other. *)
Definition parse_unseparated_short_throws (argv : string_list_t)
    (flags : parse_flags_t) (i : nat) (options : option_list_t) : bool :=
  let arg := argv_at argv i in
  let relaxed_separators := negb (has_flag flags flag_short_options_strict_separators) in
  existsb (fun o =>
      type_eqb (type o) single_short && has_value o &&
      (relaxed_separators || separator_eqb (separator o) sep_none) &&
      range_equals_string_throws (name o) arg 1 (Some 1))
    options.

(** One round of the loop of the tokenizer throws. [parse_long] compares
    inside the argument ([parse_long_calls_return]) and [parse_short] reads
    the characters that the argument has, so it is the call of
    [parse_unseparated_short] that can throw: it is made with the index that
    [parse_long] leaves behind, which is the next argument after a value was
    taken from there and the separator was found to be the wrong one. *)
Definition separate_step_throws (this : docopt_impl) (argv : string_list_t)
    (options : option_list_t) (flags : parse_flags_t) (i : nat) (st : separated_t)
    : bool :=
  let arg := argv_at argv i in
  if str_equals "--" arg then false
  else if substr_equals "--" arg 2 then false
  else if substr_equals "-" arg 1 && (1 <? string_size arg) then
    let r1 := parse_long this argv single_long flags i options
                (sep_resolved_options st) (Some []) (sep_suggestion st) in
    if success r1 then false
    else parse_unseparated_short_throws argv flags (idx r1) options
  else false.

(** A round of the loop throws. *)
Fixpoint separate_loop_throws (this : docopt_impl) (argv : string_list_t)
    (options : option_list_t) (flags : parse_flags_t) (rounds : nat) (i : nat)
    (st : separated_t) : bool :=
  match rounds with
  | 0 => false
  | S rounds' =>
      if i <? length argv then
        separate_step_throws this argv options flags i st
        || (let '(i', st') := separate_step this argv options flags i st in
            separate_loop_throws this argv options flags rounds' i' st')
      else false
  end.

(** [separate_argv_into_options_and_positionals] throws instead of returning
    its outputs. *)
Definition separate_argv_throws (this : docopt_impl) (argv : string_list_t)
    (options : option_list_t) (flags : parse_flags_t)
    (out_errors : option error_list_t) (out_suggestion : option string_t) : bool :=
  separate_loop_throws this argv options flags (length argv) 0
    (mk_separated [] [] out_errors out_suggestion).

(** ** Names of options *)

Definition range_text (src : string_t) (r : range_t) : string_t :=
  substr src (start r) (rlength r).

(** The key of an option: the long name it is grouped with, when it has one,
    else its own name. *)
Definition key_range (o : option_t) : range_t :=
  if range_empty (corresponding_long_name o) then name o
  else corresponding_long_name o.

(** Modelled from the spec: [option_t::has_same_name] (docopt_fish_types.h,
    which is not part of the sources): two options have the same name when
    their names are the same text of the doc source. The long name that a
    short alias is grouped with takes no part: one line "-v, --verbose" of an
    Options: section gives two options of the catalog, and [preflight] notes
    that only the variant that is named in the usage is taken out of the
    shortcuts. *)
Definition has_same_name (o1 o2 : option_t) (src : string_t) : bool :=
  String.eqb (range_text src (name o1)) (range_text src (name o2)).

Fixpoint dashes (n : nat) : string :=
  match n with
  | 0 => EmptyString
  | S n' => String "-" (dashes n')
  end.

(** Modelled from the spec: [option_t::name_as_string], the canonical name of
    the option: its dashes and its name. *)
Definition name_as_string (o : option_t) (src : string_t) : string_t :=
  dashes (leading_dash_count o) +:+ range_text src (name o).

(** Modelled from the spec: [option_t::longest_name_as_string], the key under
    which the option is bound in the result: the long name with two dashes
    when the option has one, else its own name. *)
Definition longest_name_as_string (o : option_t) (src : string_t) : string_t :=
  if range_empty (corresponding_long_name o) then name_as_string o src
  else dashes 2 +:+ range_text src (corresponding_long_name o).

(** Returns true if the two options have the same name. *)
Definition options_have_same_name (this : docopt_impl) (opt1 opt2 : option_t) : bool :=
  has_same_name opt1 opt2 (source this).

(** ** Prefix resolution, in the words of the spec *)

(** The name of an argument that [parse_long] looks at: the text after its
    dashes, up to an equals sign. *)
Definition long_argument_name (ty : type_t) (arg : string_t) : string_t :=
  range_text arg (name (arg_as_long_option ty arg)).

(** [s] strictly starts with [p]: it begins with [p] and is longer. *)
Definition strictly_starts_with (p s : string_t) : bool :=
  String.prefix p s && (String.length p <? String.length s).

(** The catalog options of the type [ty] whose name is [arg_name]. *)
Definition exact_candidates (this : docopt_impl) (ty : type_t) (arg_name : string_t)
    (options : option_list_t) : option_list_t :=
  List.filter (fun o =>
      bool_decide (type o = ty) &&
      String.eqb (range_text (source this) (name o)) arg_name)
    options.

(** The catalog options of the type [ty] whose name strictly starts with
    [arg_name]. *)
Definition prefix_candidates (this : docopt_impl) (ty : type_t) (arg_name : string_t)
    (options : option_list_t) : option_list_t :=
  List.filter (fun o =>
      bool_decide (type o = ty) &&
      strictly_starts_with arg_name (range_text (source this) (name o)))
    options.

(** The two diagnostics of an ambiguous prefix, and the one of a name that
    no option has; [i] is the index of the argument. *)
Definition ambiguous_prefix_error (i : nat) : error_t :=
  mk_error (Some 0) (Some i) error_ambiguous_prefix_match "Ambiguous prefix match".

Definition unknown_long_option_error (i : nat) : error_t :=
  mk_error (Some 0) (Some i) error_unknown_option "Unknown long option".

(** ** Match states *)

(** Modelled from the spec: [base_argument_t] (docopt_fish.h) holds a count
    and an ordered list of value strings. *)
Record arg_t := mk_arg { values : list string_t; count : nat }.

Definition empty_arg : arg_t := mk_arg [] 0.

Abbreviation option_map_t := (gmap string_t arg_t).

(** [map[key]] as a value: the entry, or the default argument that the
    operator inserts. *)
Definition map_ref (m : option_map_t) (key : string_t) : arg_t :=
  default empty_arg (m !! key).

Record match_state_t := mk_state {
  option_map : option_map_t;
  next_positional_index : nat;
  consumed_options : list bool;
  suggested_next_arguments : gset string_t
}.

Definition count_true (l : list bool) : nat :=
  fold_right (fun (b : bool) n => (if b then 1 else 0) + n) 0 l.

(** The "progress" of a state: the number of positionals and arguments
    consumed, plus the number of suggestions. *)
Definition progress (st : match_state_t) : nat :=
  next_positional_index st + count_true (consumed_options st)
  + size (suggested_next_arguments st).

Abbreviation match_state_list_t := (list match_state_t).

Record match_context_t := mk_context {
  flags : parse_flags_t;
  positionals : positional_argument_list_t;
  resolved_options : resolved_option_list_t;
  argv : string_list_t;
  is_in_square_brackets : bool
}.

Definition set_is_in_square_brackets (ctx : match_context_t) (b : bool)
    : match_context_t :=
  mk_context (flags ctx) (positionals ctx) (resolved_options ctx) (argv ctx) b.

(** Precondition of the source:
    [next_positional_index <= positionals.size()]. *)
Definition has_more_positionals (ctx : match_context_t) (st : match_state_t) : bool :=
  next_positional_index st <? length (positionals ctx).

(** Precondition of the source: there is a next positional. *)
Definition next_positional (ctx : match_context_t) (st : match_state_t)
    : positional_argument_t :=
  nth (next_positional_index st) (positionals ctx) (mk_positional 0).

Definition set_option_map (st : match_state_t) (m : option_map_t) : match_state_t :=
  mk_state m (next_positional_index st) (consumed_options st)
    (suggested_next_arguments st).

Definition set_consumed (st : match_state_t) (c : list bool) : match_state_t :=
  mk_state (option_map st) (next_positional_index st) c
    (suggested_next_arguments st).

Definition suggest (st : match_state_t) (x : string_t) : match_state_t :=
  mk_state (option_map st) (next_positional_index st) (consumed_options st)
    ({[ x ]} ∪ suggested_next_arguments st).

(** [acquire_next_positional]: the positional, and the state that has moved
    past it. *)
Definition acquire_next_positional (ctx : match_context_t) (st : match_state_t)
    : positional_argument_t * match_state_t :=
  (next_positional ctx st,
   mk_state (option_map st) (next_positional_index st + 1) (consumed_options st)
     (suggested_next_arguments st)).

(** [used_indexes.at(i) = b]. The source throws for an index outside of
    argv; the tokenizer only produces indexes inside ([separate_argv_wf]). *)
Definition mark (used_indexes : list bool) (i : nat) (b : bool) : list bool :=
  <[ i := b ]> used_indexes.

(** First loop of [unused_arguments]: the positionals below
    [next_positional_index] are used. *)
Definition mark_positionals (ctx : match_context_t) (st : match_state_t)
    (used_indexes : list bool) : list bool :=
  fold_left (fun used (p : positional_argument_t) => mark used (idx_in_argv p) true)
    (firstn (next_positional_index st) (positionals ctx)) used_indexes.

(** Second loop: name and value slot of every consumed option are used.
    Precondition of the source: one bit per resolved option. *)
Definition mark_consumed (ctx : match_context_t) (st : match_state_t)
    (used_indexes : list bool) : list bool :=
  fold_left (fun used (bo : bool * resolved_option_t) =>
      if fst bo then
        let used := mark used (name_idx_in_argv (snd bo)) true in
        match value_idx_in_argv (snd bo) with
        | Some v => mark used v true
        | None => used
        end
      else used)
    (combine (consumed_options st) (resolved_options ctx)) used_indexes.

(** Third loop: the name slot of every option that was not consumed is
    cleared. *)
Definition clear_unconsumed (ctx : match_context_t) (st : match_state_t)
    (used_indexes : list bool) : list bool :=
  fold_left (fun used (bo : bool * resolved_option_t) =>
      if negb (fst bo) then mark used (name_idx_in_argv (snd bo)) false else used)
    (combine (consumed_options st) (resolved_options ctx)) used_indexes.

Definition used_indexes_of (ctx : match_context_t) (st : match_state_t) : list bool :=
  clear_unconsumed ctx st
    (mark_consumed ctx st
       (mark_positionals ctx st (repeat false (length (argv ctx))))).

(** Last loop: the indexes whose bit is not set, in increasing order. *)
Fixpoint unset_indexes (used_indexes : list bool) (i : nat) : list nat :=
  match used_indexes with
  | [] => []
  | b :: rest =>
      if negb b then i :: unset_indexes rest (i + 1) else unset_indexes rest (i + 1)
  end.

(** Returns the indexes in argv of the arguments that were unused. *)
Definition unused_arguments (ctx : match_context_t) (st : match_state_t) : list nat :=
  unset_indexes (used_indexes_of ctx st) 0.

(** ** The tree matcher *)

(** The first resolved option that is not consumed and has the name of
    [opt_in_doc]; [i] is the index of the head of [resolved]. Precondition of
    the source: one bit per resolved option. *)
Fixpoint find_resolved (this : docopt_impl) (opt_in_doc : option_t)
    (consumed : list bool) (resolved : resolved_option_list_t) (i : nat)
    : option nat :=
  match resolved with
  | [] => None
  | r :: rest =>
      if negb (nth i consumed false) && options_have_same_name this (opt r) opt_in_doc
      then Some i
      else find_resolved this opt_in_doc consumed rest (i + 1)
  end.

Definition range_in (r : range_t) (l : range_list_t) : bool :=
  existsb (range_eqb r) l.

(** What the first loop of [match_options] carries from one option of the doc
    to the next. *)
Record options_walk := mk_walk {
  walk_state : match_state_t;
  matched_long_ranges : range_list_t;
  potential_suggestions : option_list_t;
  successful_match : bool
}.

(** The body of the first loop of [match_options]. *)
Definition match_one_option (this : docopt_impl) (ctx : match_context_t)
    (w : options_walk) (opt_in_doc : option_t) : options_walk :=
  let st := walk_state w in
  let key_range := corresponding_long_name opt_in_doc in
  if negb (range_empty key_range) && range_in key_range (matched_long_ranges w) then w
  else
    match find_resolved this opt_in_doc (consumed_options st) (resolved_options ctx) 0 with
    | Some resolved_opt_idx =>
        let resolved_opt :=
          nth resolved_opt_idx (resolved_options ctx)
            (mk_resolved opt_in_doc 0 None no_range) in
        let key := longest_name_as_string opt_in_doc (source this) in
        let arg := map_ref (option_map st) key in
        let arg :=
          match value_idx_in_argv resolved_opt with
          | Some v =>
              let value_range := value_range_in_arg resolved_opt in
              mk_arg (values arg ++
                        [substr (argv_at (argv ctx) v) (start value_range)
                           (rlength value_range)])
                (count arg)
          | None => arg
          end in
        let arg := mk_arg (values arg) (count arg + 1) in
        let st := set_option_map st (<[ key := arg ]> (option_map st)) in
        let st := set_consumed st (<[ resolved_opt_idx := true ]> (consumed_options st)) in
        mk_walk st
          (if negb (range_empty (corresponding_long_name opt_in_doc))
           then matched_long_ranges w ++ [corresponding_long_name opt_in_doc]
           else matched_long_ranges w)
          (potential_suggestions w) true
    | None =>
        if has_flag (flags ctx) flag_generate_suggestions
        then mk_walk st (matched_long_ranges w)
               (potential_suggestions w ++ [opt_in_doc]) (successful_match w)
        else w
    end.

(** The body of the second loop of [match_options]: a staged suggestion is
    made unless its long name was matched; returns the state and
    [made_suggestion]. *)
Definition make_suggestion (this : docopt_impl) (matched : range_list_t)
    (acc : match_state_t * bool) (suggestion : option_t) : match_state_t * bool :=
  let key_range := corresponding_long_name suggestion in
  if range_empty key_range || negb (range_in key_range matched)
  then (suggest (fst acc) (name_as_string suggestion (source this)), true)
  else acc.

(** Match the options in the options list, updating the state. This returns
    success (i.e. a non-empty state list) if we match at least one. *)
Definition match_options (this : docopt_impl) (options_in_doc : option_list_t)
    (st : match_state_t) (ctx : match_context_t) : match_state_list_t :=
  let w := fold_left (match_one_option this ctx) options_in_doc
             (mk_walk st [] [] false) in
  let '(st, made_suggestion) :=
    if has_flag (flags ctx) flag_generate_suggestions
    then fold_left (make_suggestion this (matched_long_ranges w))
           (potential_suggestions w) (walk_state w, false)
    else (walk_state w, false) in
  if successful_match w || made_suggestion then [st] else [].

Definition match_option_clause (this : docopt_impl) (node : option_clause_t)
    (st : match_state_t) (ctx : match_context_t) : match_state_list_t :=
  let options_in_doc := [clause_option node] in
  match match_options this options_in_doc st ctx with
  | [] =>
      let st :=
        if has_flag (flags ctx) flag_generate_suggestions
        then suggest st (name_as_string (clause_option node) (source this))
        else st in
      if is_in_square_brackets ctx || has_flag (flags ctx) flag_match_allow_incomplete
      then [st] else []
  | result => result
  end.

Definition match_fixed_clause (this : docopt_impl) (node : fixed_clause_t)
    (st : match_state_t) (ctx : match_context_t) : match_state_list_t :=
  let r := range (fixed_word node) in
  if has_more_positionals ctx st then
    let positional := next_positional ctx st in
    let key := argv_at (argv ctx) (idx_in_argv positional) in
    if (string_size key =? rlength r) && range_equals_string this r key 0 None then
      let arg := map_ref (option_map st) key in
      let arg := mk_arg (values arg) (count arg + 1) in
      let st := set_option_map st (<[ key := arg ]> (option_map st)) in
      let st := snd (acquire_next_positional ctx st) in
      [st]
    else []
  else
    let st :=
      if has_flag (flags ctx) flag_generate_suggestions
      then suggest st (range_text (source this) r) else st in
    if has_flag (flags ctx) flag_match_allow_incomplete then [st] else [].

Definition match_variable_clause (this : docopt_impl) (node : variable_clause_t)
    (st : match_state_t) (ctx : match_context_t) : match_state_list_t :=
  let r := range (variable_word node) in
  if has_more_positionals ctx st then
    let key := range_text (source this) r in
    let arg := map_ref (option_map st) key in
    let '(positional, st') := acquire_next_positional ctx st in
    let arg := mk_arg (values arg ++ [argv_at (argv ctx) (idx_in_argv positional)])
                 (count arg) in
    [set_option_map st' (<[ key := arg ]> (option_map st))]
  else
    let st :=
      if has_flag (flags ctx) flag_generate_suggestions
      then suggest st (range_text (source this) r) else st in
    if has_flag (flags ctx) flag_match_allow_incomplete then [st] else [].

Definition match_simple_clause (this : docopt_impl) (node : simple_clause_t)
    (st : match_state_t) (ctx : match_context_t) : match_state_list_t :=
  match sc_option node, sc_fixed node, sc_variable node with
  | Some o, _, _ => match_option_clause this o st ctx
  | None, Some f, _ => match_fixed_clause this f st ctx
  | None, None, Some v => match_variable_clause this v st ctx
  | None, None, None => []
  end.

(** A matcher of one node, as the loops below use it: the successors of a
    state, or [None] when an ellipsis loop inside was cut for lack of
    rounds. *)
Definition matcher_t := match_state_t -> option match_state_list_t.

(** [try_match(ptr, state_list, ctx, require_progress)] for a child that is
    there; [m] is the match of the child. With [require_progress] only the
    results whose progress differs from the progress of the state they come
    from are kept (the source asserts that it never goes backwards). *)
Fixpoint try_match_list (m : matcher_t) (state_list : match_state_list_t)
    (require_progress : bool) : option match_state_list_t :=
  match state_list with
  | [] => Some []
  | st :: rest =>
      let init_progress := progress st in
      match m st with
      | None => None
      | Some child_result =>
          let child_result :=
            if require_progress
            then List.filter (fun s => negb (progress s =? init_progress)) child_result
            else child_result in
          match try_match_list m rest require_progress with
          | None => None
          | Some total_result => Some (child_result ++ total_result)
          end
      end
  end.

(** The loop [while (! intermediate_states.empty())] of an expression with
    ellipsis. The source has no bound on the number of rounds; here the loop
    is cut, with result [None], when it would start round [rounds + 1]. *)
Fixpoint ellipsis_loop (m : matcher_t) (rounds : nat)
    (intermediate_states result : match_state_list_t) : option match_state_list_t :=
  match intermediate_states with
  | [] => Some result
  | _ :: _ =>
      match rounds with
      | 0 => None
      | S rounds' =>
          match try_match_list m intermediate_states true with
          | None => None
          | Some next_states =>
              ellipsis_loop m rounds' next_states (result ++ next_states)
          end
      end
  end.

(** The first match of the child and, with ellipsis, the loop. *)
Definition match_repeated (m : matcher_t) (rounds : nat) (has_ellipsis : bool)
    (st : match_state_t) : option match_state_list_t :=
  match m st with
  | None => None
  | Some result =>
      if has_ellipsis then ellipsis_loop m rounds result result else Some result
  end.

Definition has_ellipsis_of (opt_ellipsis : option opt_ellipsis_t) : bool :=
  match opt_ellipsis with
  | Some e => 0 <? ellipsis_production e
  | None => false
  end.

(** The [options] shortcut (production 3 of an expression). *)
Definition match_options_shortcut (this : docopt_impl) (st : match_state_t)
    (ctx : match_context_t) : match_state_list_t :=
  match match_options this (shortcut_options this) st ctx with
  | [] =>
      let st :=
        if has_flag (flags ctx) flag_generate_suggestions
        then fold_left (fun s o => suggest s (name_as_string o (source this)))
               (shortcut_options this) st
        else st in
      [st]
  | result => result
  end.

(** The match overrides. [is_in_square_brackets] is the one field of the
    context that the source writes: an expression sets it for its children and
    puts the saved value back before it returns, so every node is matched
    under the value its nearest enclosing group has set. The embedding hands
    the children a context with the new value. *)
Fixpoint match_alternation_list (this : docopt_impl) (rounds : nat)
    (node : alternation_list_t) (st : match_state_t) (ctx : match_context_t)
    {struct node} : option match_state_list_t :=
  match node with
  | AlternationList expression_list or_continuation =>
      let copied_state := st in
      match
        match expression_list with
        | Some el => match_expression_list this rounds el st ctx
        | None => Some []
        end
      with
      | None => None
      | Some result1 =>
          match
            match or_continuation with
            | Some oc => match_or_continuation this rounds oc copied_state ctx
            | None => Some []
            end
          with
          | None => None
          | Some result2 => Some (result1 ++ result2)
          end
      end
  end
with match_or_continuation (this : docopt_impl) (rounds : nat)
    (node : or_continuation_t) (st : match_state_t) (ctx : match_context_t)
    {struct node} : option match_state_list_t :=
  match node with
  | OrContinuation alternation_list =>
      match alternation_list with
      | Some al => match_alternation_list this rounds al st ctx
      | None => Some []
      end
  end
with match_expression_list (this : docopt_impl) (rounds : nat)
    (node : expression_list_t) (st : match_state_t) (ctx : match_context_t)
    {struct node} : option match_state_list_t :=
  match node with
  | ExpressionList expression opt_expression_list =>
      match
        match expression with
        | Some e => match_expression this rounds e st ctx
        | None => Some []
        end
      with
      | None => None
      | Some intermed_state_list =>
          match opt_expression_list with
          | Some oel =>
              try_match_list
                (fun s => match_opt_expression_list this rounds oel s ctx)
                intermed_state_list false
          | None => Some []
          end
      end
  end
with match_opt_expression_list (this : docopt_impl) (rounds : nat)
    (node : opt_expression_list_t) (st : match_state_t) (ctx : match_context_t)
    {struct node} : option match_state_list_t :=
  match node with
  | OptExpressionList expression_list =>
      match expression_list with
      | Some el => match_expression_list this rounds el st ctx
      | None => Some [st]
      end
  end
with match_expression (this : docopt_impl) (rounds : nat)
    (node : expression_t) (st : match_state_t) (ctx : match_context_t)
    {struct node} : option match_state_list_t :=
  match node with
  | Expression production opt_ellipsis simple_clause alternation_list =>
      let has_ellipsis := has_ellipsis_of opt_ellipsis in
      match production with
      | 0 =>
          match_repeated
            (fun s =>
               match simple_clause with
               | Some sc => Some (match_simple_clause this sc s ctx)
               | None => Some []
               end)
            rounds has_ellipsis st
      | 1 =>
          let ctx := set_is_in_square_brackets ctx false in
          match_repeated
            (fun s =>
               match alternation_list with
               | Some al => match_alternation_list this rounds al s ctx
               | None => Some []
               end)
            rounds has_ellipsis st
      | 2 =>
          let ctx := set_is_in_square_brackets ctx true in
          let not_taken_branch := st in
          match
            match_repeated
              (fun s =>
                 match alternation_list with
                 | Some al => match_alternation_list this rounds al s ctx
                 | None => Some []
                 end)
              rounds has_ellipsis st
          with
          | None => None
          | Some result => Some (result ++ [not_taken_branch])
          end
      | 3 => Some (match_options_shortcut this st ctx)
      | _ => Some []
      end
  end.

Fixpoint match_usage (this : docopt_impl) (rounds : nat) (node : usage_t)
    (st : match_state_t) (ctx : match_context_t) {struct node}
    : option match_state_list_t :=
  match node with
  | Usage prog_name alternation_list next_usage =>
      if negb (has_more_positionals ctx st) then Some []
      else if token_empty prog_name then Some []
      else
        let copied_state := st in
        let st := snd (acquire_next_positional ctx st) in
        match
          match alternation_list with
          | Some al => match_alternation_list this rounds al st ctx
          | None => Some [st]
          end
        with
        | None => None
        | Some main_branch =>
            match
              match next_usage with
              | Some u => match_usage this rounds u copied_state ctx
              | None => Some []
              end
            with
            | None => None
            | Some next_branch => Some (main_branch ++ next_branch)
            end
        end
  end.

(** ** Finalization *)

(** The step of the first loop of [finalize_option_map]: the option gets an
    entry, and its default value when the entry has no value. *)
Definition finalize_option (this : docopt_impl) (result : option_map_t)
    (o : option_t) : option_map_t :=
  let key := longest_name_as_string o (source this) in
  let arg := map_ref result key in
  let arg :=
    if negb (range_empty (default_value_range o)) && (length (values arg) =? 0)
    then mk_arg (values arg ++ [range_text (source this) (default_value_range o)])
           (count arg)
    else arg in
  <[ key := arg ]> result.

(** [result[name];] for the text of a range: the entry is created when it is
    not there. *)
Definition touch_entry (this : docopt_impl) (result : option_map_t) (r : range_t)
    : option_map_t :=
  let key := range_text (source this) r in
  <[ key := map_ref result key ]> result.

Definition finalize_option_map (this : docopt_impl) (map : option_map_t)
    (all_options : option_list_t) (all_variables : range_list_t)
    (flags : parse_flags_t) : option_map_t :=
  if negb (has_flag flags flag_generate_empty_args) then map
  else
    let result := fold_left (finalize_option this) all_options map in
    let result := fold_left (touch_entry this) all_variables result in
    fold_left (touch_entry this) (all_static_arguments this) result.

(** The loop of [match_argv] that determines the state with the fewest unused
    arguments; [i] is the index of the head of [states]. It stops at a state
    without unused arguments. *)
Fixpoint best_state_loop (ctx : match_context_t) (states : match_state_list_t)
    (i : nat) (best_state_idx : option nat) (best_unused_args : list nat)
    : option nat * list nat :=
  match states with
  | [] => (best_state_idx, best_unused_args)
  | st :: rest =>
      let unused_args := unused_arguments ctx st in
      let unused_arg_count := length unused_args in
      if (i =? 0) || (unused_arg_count <? length best_unused_args) then
        if unused_arg_count =? 0 then (Some i, unused_args)
        else best_state_loop ctx rest (i + 1) (Some i) unused_args
      else best_state_loop ctx rest (i + 1) best_state_idx best_unused_args
  end.

(** The names that a match can add to [suggested_next_arguments]: the options,
    fixed words and variables of the tree and the shortcut options. *)
Definition simple_clause_names (this : docopt_impl) (sc : simple_clause_t)
    : gset string_t :=
  match sc_option sc with
  | Some o => {[ name_as_string (clause_option o) (source this) ]}
  | None => ∅
  end ∪
  match sc_fixed sc with
  | Some f => {[ range_text (source this) (range (fixed_word f)) ]}
  | None => ∅
  end ∪
  match sc_variable sc with
  | Some v => {[ range_text (source this) (range (variable_word v)) ]}
  | None => ∅
  end.

Definition shortcut_names (this : docopt_impl) : gset string_t :=
  list_to_set (map (fun o => name_as_string o (source this)) (shortcut_options this)).

Fixpoint alternation_list_names (this : docopt_impl) (node : alternation_list_t)
    : gset string_t :=
  match node with
  | AlternationList expression_list or_continuation =>
      match expression_list with
      | Some el => expression_list_names this el
      | None => ∅
      end ∪
      match or_continuation with
      | Some oc => or_continuation_names this oc
      | None => ∅
      end
  end
with or_continuation_names (this : docopt_impl) (node : or_continuation_t)
    : gset string_t :=
  match node with
  | OrContinuation alternation_list =>
      match alternation_list with
      | Some al => alternation_list_names this al
      | None => ∅
      end
  end
with expression_list_names (this : docopt_impl) (node : expression_list_t)
    : gset string_t :=
  match node with
  | ExpressionList expression opt_expression_list =>
      match expression with
      | Some e => expression_names this e
      | None => ∅
      end ∪
      match opt_expression_list with
      | Some oel => opt_expression_list_names this oel
      | None => ∅
      end
  end
with opt_expression_list_names (this : docopt_impl) (node : opt_expression_list_t)
    : gset string_t :=
  match node with
  | OptExpressionList expression_list =>
      match expression_list with
      | Some el => expression_list_names this el
      | None => ∅
      end
  end
with expression_names (this : docopt_impl) (node : expression_t) : gset string_t :=
  match node with
  | Expression _ _ simple_clause alternation_list =>
      match simple_clause with
      | Some sc => simple_clause_names this sc
      | None => ∅
      end ∪
      match alternation_list with
      | Some al => alternation_list_names this al
      | None => ∅
      end
  end.

Fixpoint usage_names (this : docopt_impl) (node : usage_t) : gset string_t :=
  match node with
  | Usage _ alternation_list next_usage =>
      match alternation_list with
      | Some al => alternation_list_names this al
      | None => ∅
      end ∪
      match next_usage with
      | Some u => usage_names this u
      | None => ∅
      end
  end.

(** A bound on the progress of the states of a match, and with it on the
    number of rounds of an ellipsis loop ([ellipsis_loop_ok]). *)
Definition ellipsis_rounds (this : docopt_impl) (ctx : match_context_t)
    (tree : usage_t) : nat :=
  length (positionals ctx) + length (resolved_options ctx)
  + size (usage_names this tree ∪ shortcut_names this) + 1.

Definition init_state (resolved_options : resolved_option_list_t) : match_state_t :=
  mk_state ∅ 0 (repeat false (length resolved_options)) ∅.

(** Matches argv: the map of the best state and its unused arguments.
    Precondition of the source: there is a parse tree, that is, [preflight]
    has succeeded. The result is [None] without a tree, and if an ellipsis loop
    were cut, which does not happen ([match_argv_returns]). *)
Definition match_argv (this : docopt_impl) (argv : string_list_t)
    (flags : parse_flags_t) (positionals : positional_argument_list_t)
    (resolved_options : resolved_option_list_t) (all_options : option_list_t)
    (all_variables : range_list_t) : option (option_map_t * list nat) :=
  let ctx := mk_context flags positionals resolved_options argv false in
  let init_state := init_state resolved_options in
  match parse_tree this with
  | None => None
  | Some tree =>
      match match_usage this (ellipsis_rounds this ctx tree) tree init_state ctx with
      | None => None
      | Some result =>
          let '(best_state_idx, best_unused_args) :=
            best_state_loop ctx result 0 None [] in
          match best_state_idx with
          | Some i =>
              Some (finalize_option_map this (option_map (nth i result init_state))
                      all_options all_variables flags,
                    best_unused_args)
          | None =>
              Some (finalize_option_map this ∅ all_options all_variables flags,
                    seq 0 (length argv))
          end
      end
  end.

Definition errors_of (e : option error_list_t) : error_list_t := default [] e.

(** [parse_arguments]: the map, the unused arguments and the errors. The
    errors of the instance are cleared on entry and on exit, so the instance
    is the same afterwards. *)
Definition best_assignment_for_argv (this : docopt_impl) (argv : string_list_t)
    (flags : parse_flags_t) : option (option_map_t * list nat * error_list_t) :=
  let sep := separate_argv_into_options_and_positionals this argv (all_options this)
               flags (Some []) None in
  match match_argv this argv flags (sep_positionals sep) (sep_resolved_options sep)
          (all_options this) (all_variables this) with
  | Some (result, unused) => Some (result, unused, errors_of (sep_errors sep))
  | None => None
  end.

(** ** Public lookups *)

(** The test of [description_for_option] on one option that has a
    description: short and single-dash long options are compared with the
    given name after its first dash, long options after two dashes. *)
Definition description_matches (this : docopt_impl) (given_option_name : string_t)
    (o : option_t) : bool :=
  let has_double_dash := test_at given_option_name 1 (char_is "-") in
  if type_eqb (type o) single_short || type_eqb (type o) single_long then
    range_equals_string this (name o) given_option_name 1 None
  else if type_eqb (type o) double_long && has_double_dash then
    range_equals_string this (name o) given_option_name 2 None
  else false.

(** The loop of [description_for_option]: options without a description are
    skipped, the first match ends the loop. *)
Fixpoint description_loop (this : docopt_impl) (given_option_name : string_t)
    (options : option_list_t) : string_t :=
  match options with
  | [] => EmptyString
  | o :: rest =>
      if range_empty (description_range o)
      then description_loop this given_option_name rest
      else if description_matches this given_option_name o
      then range_text (source this) (description_range o)
      else description_loop this given_option_name rest
  end.

Definition description_for_option (this : docopt_impl) (given_option_name : string_t)
    : string_t :=
  if (string_size given_option_name <? 2)
     || negb (test_at given_option_name 0 (char_is "-"))
  then EmptyString
  else description_loop this given_option_name (all_options this).

(** ** Scanning the doc *)

(** [tolower] in the C locale. *)
Definition tolower (c : ascii) : ascii :=
  let n := nat_of_ascii c in
  if (65 <=? n) && (n <=? 90) then ascii_of_nat (n + 32) else c.

Fixpoint starts_with_case_insensitive (needle s : string) : bool :=
  match needle with
  | EmptyString => true
  | String c needle' =>
      match s with
      | EmptyString => false
      | String d s' =>
          Ascii.eqb (tolower c) (tolower d) && starts_with_case_insensitive needle' s'
      end
  end.

Fixpoint starts_with (needle s : string) : bool :=
  match needle with
  | EmptyString => true
  | String c needle' =>
      match s with
      | EmptyString => false
      | String d s' => Ascii.eqb c d && starts_with needle' s'
      end
  end.

(** The first position at or after [from] where [test] holds of the rest of
    the string; [i] is the position of the head of [s]. *)
Fixpoint find_from (test : string -> bool) (s : string) (from i : nat) : option nat :=
  if (from <=? i) && test s then Some i
  else
    match s with
    | EmptyString => None
    | String _ s' => find_from test s' from (i + 1)
    end.

(** The end of the C string that starts at [from]: the first NUL at or after
    [from], or the end of the string. *)
Definition c_str_end (s : string_t) (from : nat) : nat :=
  match find_char s Ascii.zero from with
  | Some p => p
  | None => string_size s
  end.

(** [strcasestr(haystack.c_str() + haystack_start, needle)] as an index into
    the haystack. The search reads the haystack as a C string, so it ends at
    the first NUL at or after [haystack_start]; the needle is a literal
    without a NUL. Precondition of the source:
    [haystack_start < haystack.size()]. *)
Definition find_case_insensitive (haystack : string_t) (needle : string)
    (haystack_start : nat) : option nat :=
  find_from (starts_with_case_insensitive needle)
    (substr haystack 0 (c_str_end haystack haystack_start)) haystack_start 0.

(** [str.find(needle, from)]. *)
Definition find_string (str : string_t) (needle : string) (from : nat) : option nat :=
  find_from (starts_with needle) str from 0.

(** [x < y] and [x >= y] where [x] may be [npos], which is larger than any
    index. *)
Definition npos_lt (x : option nat) (y : nat) : bool :=
  match x with Some a => a <? y | None => false end.

Definition npos_gt (x : option nat) (y : nat) : bool :=
  match x with Some a => y <? a | None => true end.

(** [get_next_line]: on input the end of [inout_range] is the start point; the
    result is the range of the next line, with its newline, or [None] at the
    end. [end_] is the end of the text to look at, [None] for all of it. *)
Definition get_next_line (str : string_t) (inout_range : range_t) (end_ : option nat)
    : option range_t :=
  let effective_end :=
    match end_ with
    | Some e => Nat.min (string_size str) e
    | None => string_size str
    end in
  if range_end inout_range <? effective_end then
    let line_start := range_end inout_range in
    let newline_pos := find_char str newline line_start in
    let line_end :=
      match newline_pos with
      | Some n => if effective_end <? n then effective_end else n + 1
      | None => effective_end
      end in
    Some (mk_range line_start (line_end - line_start))
  else None.

(** Returns true if the source line contains an option spec, that is, has at
    least one leading space, and then a dash. *)
Definition line_contains_option_spec (str : string_t) (r : range_t) : bool :=
  let '(space, remaining) := scan_while str r isspace in
  let '(dash, _) := scan_while str remaining (char_is "-") in
  (0 <? rlength space) && (0 <? rlength dash).

(** Returns true if the source line contains a condition spec, that is, has
    at least one leading space and then a <. *)
Definition line_contains_condition_spec (str : string_t) (r : range_t) : bool :=
  let '(space, remaining) := scan_while str r isspace in
  let '(open_bracket, _) := scan_while str remaining (char_is "<") in
  (0 <? rlength space) && (0 <? rlength open_bracket).

(** Returns the index of the first colon within the given range, or [None]. *)
Definition find_colon (r : range_t) (src : string_t) : option nat :=
  match find_char src ":" (start r) with
  | Some c => if c <? range_end r then Some c else None
  | None => None
  end.

(** Computes the indent for a line starting at [from] and extending [len].
    Tabs go to the next multiple of 4. *)
Fixpoint compute_indent_loop (src : string_t) (i len result : nat) : nat :=
  match len with
  | 0 => result
  | S len' =>
      compute_indent_loop src (i + 1) len'
        (if test_at src i (char_is tab) then (result + 4) / 4 * 4 else result + 1)
  end.

Definition compute_indent (src : string_t) (from len : nat) : nat :=
  compute_indent_loop src from len 0.

(** ** Option specs *)

Definition append_doc_error (errors : error_list_t) (pos : option nat)
    (c : error_code) (txt : string) : error_list_t :=
  errors ++ [mk_error pos None c txt].

Definition add_error_if (cond : bool) (errors : error_list_t) (pos : nat)
    (c : error_code) (txt : string) : error_list_t :=
  if cond then append_doc_error errors (Some pos) c txt else errors.

(** Given a string and the range [remaining], parse out an option; returns
    the option, what remains and the errors. Precondition of the source:
    [remaining] starts with a dash. *)
Definition parse_from_string (str : string_t) (remaining : range_t)
    (errors : error_list_t) : option_t * range_t * error_list_t :=
  let start_ := start remaining in
  let '(leading_dash_range, remaining) := scan_while str remaining (char_is "-") in
  let errors := add_error_if (2 <? rlength leading_dash_range) errors start_
                  error_excessive_dashes "Too many dashes" in
  let '(name_range, remaining) := scan_while str remaining char_is_valid_in_parameter in
  let '(space_separator, remaining) := scan_while str remaining isspace in
  let '(equals_range, remaining) := scan_while str remaining (char_is "=") in
  let errors := add_error_if (1 <? rlength equals_range) errors (start equals_range)
                  error_excessive_equal_signs "Too many equal signs" in
  let '(_, remaining) := scan_while str remaining isspace in
  let '(open_sign, remaining) := scan_1_char str remaining "<" in
  let '(variable_range, remaining, errors) :=
    if negb (range_empty open_sign) then
      let '(variable_name_range, remaining) :=
        scan_while str remaining char_is_valid_in_bracketed_word in
      let '(close_sign, remaining) := scan_1_char str remaining ">" in
      let '(variable_range, errors) :=
        if range_empty variable_name_range then
          (no_range,
           append_doc_error errors (Some (start variable_name_range))
             error_invalid_variable_name "Missing variable name")
        else if range_empty close_sign then
          (no_range,
           append_doc_error errors (Some (start open_sign))
             error_invalid_variable_name "Missing '>' to match this '<'")
        else
          (range_merge (range_merge (range_merge no_range open_sign)
                          variable_name_range) close_sign,
           errors) in
      let errors :=
        add_error_if
          (negb (range_empty close_sign) && negb (range_empty remaining)
           && test_at str (start remaining) char_is_valid_in_parameter)
          errors (start remaining)
          error_invalid_variable_name "Extra stuff after closing '>'" in
      (variable_range, remaining, errors)
    else (no_range, remaining, errors) in
  let errors :=
    add_error_if (range_empty variable_range && negb (range_empty equals_range))
      errors (start equals_range)
      error_invalid_variable_name "Missing variable for this assignment" in
  let sep :=
    if range_empty variable_range then sep_space
    else if negb (range_empty equals_range) then sep_equals
    else if negb (range_empty space_separator) then sep_space
    else sep_none in
  let errors :=
    add_error_if
      (separator_eqb sep sep_none
       && ((1 <? rlength leading_dash_range) || (1 <? rlength name_range)))
      errors (start name_range)
      error_bad_option_separator "Long options must use a space or equals separator" in
  let errors :=
    add_error_if (range_empty name_range) errors (start name_range)
      error_invalid_option_name "Missing option name" in
  (new_option name_range variable_range (rlength leading_dash_range) sep,
   remaining, errors).

(** Skips the spaces after "[default:"; at most [rounds] of them. *)
Fixpoint skip_spaces (src : string_t) (rounds pos limit : nat) : nat :=
  match rounds with
  | 0 => pos
  | S rounds' =>
      if (pos <? limit) && test_at src pos isspace
      then skip_spaces src rounds' (pos + 1) limit
      else pos
  end.

(** The part of [parse_one_option_spec] that parses out a "default:" value
    from a description. *)
Definition parse_default_value (this : docopt_impl) (description_range : range_t)
    (errors : error_list_t) : range_t * error_list_t :=
  if negb (range_empty description_range) then
    let default_prefix := "[default:" in
    let default_prefix_loc :=
      find_case_insensitive (source this) default_prefix (start description_range) in
    match default_prefix_loc with
    | Some loc =>
        if loc <? range_end description_range then
          let default_value_start :=
            skip_spaces (source this) (rlength description_range)
              (loc + String.length default_prefix) (range_end description_range) in
          let default_value_end := find_char (source this) "]" default_value_start in
          match default_value_end with
          | Some e =>
              if range_end description_range <=? e then
                (no_range,
                 append_doc_error errors (Some loc)
                   error_missing_close_bracket_in_default
                   "Missing ']' to match opening '['")
              else (mk_range default_value_start (e - default_value_start), errors)
          | None =>
              (no_range,
               append_doc_error errors (Some loc)
                 error_missing_close_bracket_in_default
                 "Missing ']' to match opening '['")
          end
        else (no_range, errors)
    | None => (no_range, errors)
    end
  else (no_range, errors).

(** What the loop over the options of one spec carries along. *)
Record spec_walk := mk_spec_walk {
  spec_result : option_list_t;
  name_range_of_last_long_option : range_t;
  last_value_range : range_t;
  spec_errors : error_list_t
}.

(** The loop [while (! remaining.empty())] of [parse_one_option_spec]; every
    round takes at least the dash off [remaining]. *)
Fixpoint parse_spec_options (this : docopt_impl) (rounds : nat)
    (description_range default_value_range : range_t) (remaining : range_t)
    (w : spec_walk) : spec_walk :=
  match rounds with
  | 0 => w
  | S rounds' =>
      if range_empty remaining then w
      else if negb (test_at (source this) (start remaining) (char_is "-")) then
        mk_spec_walk (spec_result w) (name_range_of_last_long_option w)
          (last_value_range w)
          (append_doc_error (spec_errors w) (Some (start remaining))
             error_invalid_option_name "Not an option")
      else
        let '(o, remaining, errors) :=
          parse_from_string (source this) remaining (spec_errors w) in
        if range_empty (name o) then
          mk_spec_walk (spec_result w) (name_range_of_last_long_option w)
            (last_value_range w) errors
        else
          let o := set_descriptions o description_range default_value_range in
          let '(_, remaining) := scan_while (source this) remaining isspace in
          let '(_, remaining) := scan_while (source this) remaining (char_is ",") in
          let '(_, remaining) := scan_while (source this) remaining isspace in
          parse_spec_options this rounds' description_range default_value_range
            remaining
            (mk_spec_walk (spec_result w ++ [o])
               (if type_eqb (type o) double_long then name o
                else name_range_of_last_long_option w)
               (if negb (range_empty (value o)) then value o else last_value_range w)
               errors)
  end.

(** Given an option spec in the given range, that extends from the initial -
    to the end of the description, parse out a list of options.
    Preconditions of the source: the range is not empty and starts with a
    dash. *)
Definition parse_one_option_spec (this : docopt_impl) (r : range_t)
    (errors : error_list_t) : option_list_t * error_list_t :=
  let end_ := range_end r in
  let options_end :=
    match find_string (source this) "  " (start r) with
    | Some e => if end_ <? e then end_ else e
    | None => end_
    end in
  let description_range :=
    trim_whitespace (mk_range options_end (end_ - options_end)) (source this) in
  let '(default_value_range, errors) :=
    parse_default_value this description_range errors in
  let remaining := mk_range (start r) (options_end - start r) in
  let '(_, remaining) := scan_while (source this) remaining isspace in
  let w := parse_spec_options this (rlength remaining + 1) description_range
             default_value_range remaining
             (mk_spec_walk [] no_range no_range errors) in
  let result := spec_result w in
  let result :=
    if negb (range_empty (name_range_of_last_long_option w))
    then map (fun o => set_corresponding_long_name o (name_range_of_last_long_option w))
           result
    else result in
  let result :=
    map (fun o => if range_empty (value o) then set_value o (last_value_range w) else o)
      result in
  (result, spec_errors w).

(** The inner loop of [parse_options_spec] and [parse_conditions_spec]: the
    lines after [line_range] that do not start a new spec belong to the
    current one. Returns the range of the spec and the last line taken. *)
Fixpoint extend_spec (this : docopt_impl) (starts_spec : string_t -> range_t -> bool)
    (rounds : nat) (section_end : nat) (spec_range local_range line_range : range_t)
    : range_t * range_t :=
  match rounds with
  | 0 => (spec_range, line_range)
  | S rounds' =>
      match get_next_line (source this) local_range (Some section_end) with
      | Some local_range =>
          if starts_spec (source this) local_range then (spec_range, line_range)
          else extend_spec this starts_spec rounds' section_end
                 (range_merge spec_range local_range) local_range local_range
      | None => (spec_range, line_range)
      end
  end.

(** The body of the loop of [parse_options_spec] for the line [line_range]:
    the last line taken, the options and the errors. *)
Definition parse_options_line (this : docopt_impl) (section_end : nat)
    (line_range : range_t) (result : option_list_t) (errors : error_list_t)
    : range_t * option_list_t * error_list_t :=
  let trimmed_line := trim_whitespace line_range (source this) in
  if range_empty trimmed_line then (line_range, result, errors)
  else if negb (line_contains_option_spec (source this) line_range) then
    (line_range, result,
     append_doc_error errors (Some (start line_range)) error_invalid_option_name
       "Invalid option name. Options must start with a leading space and a dash.")
  else
    let '(option_spec_range, line_range) :=
      extend_spec this line_contains_option_spec (string_size (source this))
        section_end line_range line_range line_range in
    let '(_, option_spec_range) := scan_while (source this) option_spec_range isspace in
    let '(tmp, errors) := parse_one_option_spec this option_spec_range errors in
    (line_range, result ++ tmp, errors).

(** The loop over the lines of one Options: section; every line has at least
    one character, so the number of lines is at most the size of the doc
    ([parse_options_lines_more]). *)
Fixpoint parse_options_lines (this : docopt_impl) (rounds : nat) (section_end : nat)
    (line_range : range_t) (result : option_list_t) (errors : error_list_t)
    : option_list_t * error_list_t :=
  match rounds with
  | 0 => (result, errors)
  | S rounds' =>
      match get_next_line (source this) line_range (Some section_end) with
      | None => (result, errors)
      | Some line_range =>
          let '(line_range, result, errors) :=
            parse_options_line this section_end line_range result errors in
          parse_options_lines this rounds' section_end line_range result errors
      end
  end.

(** ** Sections *)

(** [result.back().merge(r)]. *)
Definition merge_into_last (result : range_list_t) (r : range_t) : range_list_t :=
  match result with
  | [] => []
  | _ :: _ => removelast result ++ [range_merge (List.last result no_range) r]
  end.

(** [indent <= current_header_indent], where the header indent is [None]
    until the first header is seen (the source starts with the largest
    value). *)
Definition indent_le (indent : nat) (current_header_indent : option nat) : bool :=
  match current_header_indent with
  | Some h => indent <=? h
  | None => true
  end.

(** What the loop of [source_ranges_for_section] carries from line to line. *)
Record section_walk := mk_section_walk {
  walk_line_range : range_t;
  in_desired_section : bool;
  current_header_indent : option nat;
  section_result : range_list_t
}.

(** The body of the loop of [source_ranges_for_section], for the line that
    [get_next_line] has put in [walk_line_range]. *)
Definition section_line (this : docopt_impl) (section_name : string)
    (include_other_top_level : bool) (w : section_walk) : section_walk :=
  let line_range := walk_line_range w in
  let trimmed_line_range := trim_whitespace line_range (source this) in
  let trimmed_line_start := start trimmed_line_range in
  let line_indent :=
    compute_indent (source this) (start line_range)
      (trimmed_line_start - start line_range) in
  let top_level :=
    negb (range_empty trimmed_line_range)
    && indent_le line_indent (current_header_indent w) in
  let colon_pos :=
    if top_level then find_colon trimmed_line_range (source this) else None in
  let is_header := top_level && is_some colon_pos in
  let is_other_top_level := top_level && negb (is_some colon_pos) in
  let w :=
    if is_other_top_level && negb include_other_top_level then
      mk_section_walk line_range false (current_header_indent w) (section_result w)
    else if is_header then
      let name_pos :=
        find_case_insensitive (source this) section_name trimmed_line_start in
      let line_end := range_end trimmed_line_range in
      let in_desired_section :=
        npos_lt name_pos line_end
        && match name_pos, colon_pos with
           | Some n, Some c => n <? c
           | _, _ => false
           end in
      if in_desired_section then
        let line_end := range_end line_range in
        let new_start := default 0 name_pos + String.length section_name in
        mk_section_walk (mk_range new_start (line_end - new_start)) true
          (Some line_indent) (section_result w ++ [no_range])
      else mk_section_walk line_range false (Some line_indent) (section_result w)
    else w in
  if in_desired_section w
  then mk_section_walk (walk_line_range w) true (current_header_indent w)
         (merge_into_last (section_result w) (walk_line_range w))
  else w.

(** The loop over the lines of the doc in [source_ranges_for_section]; the
    number of lines is at most the size of the doc
    ([source_ranges_for_section_rounds]). *)
Fixpoint section_lines (this : docopt_impl) (section_name : string)
    (include_other_top_level : bool) (rounds : nat) (w : section_walk)
    : range_list_t :=
  match rounds with
  | 0 => section_result w
  | S rounds' =>
      match get_next_line (source this) (walk_line_range w) None with
      | None => section_result w
      | Some line_range =>
          section_lines this section_name include_other_top_level rounds'
            (section_line this section_name include_other_top_level
               (mk_section_walk line_range (in_desired_section w)
                  (current_header_indent w) (section_result w)))
      end
  end.

(** Finds the headers containing [section_name] (for example, "Options:") and
    returns source ranges for them. *)
Definition source_ranges_for_section (this : docopt_impl) (section_name : string)
    (include_other_top_level : bool) : range_list_t :=
  section_lines this section_name include_other_top_level
    (string_size (source this)) (mk_section_walk no_range false None []).

(** Parses the option specifications of the Options: sections. *)
Definition parse_options_spec (this : docopt_impl) (errors : error_list_t)
    : option_list_t * error_list_t :=
  fold_left (fun (acc : option_list_t * error_list_t) (section_range : range_t) =>
      parse_options_lines this (string_size (source this)) (range_end section_range)
        (mk_range (start section_range) 0) (fst acc) (snd acc))
    (source_ranges_for_section this "Options:" false) ([], errors).

Abbreviation condition_map_t := (gmap string_t range_t).

(** The body of the loop of [parse_conditions_spec] for the line
    [line_range]: the last line taken, the map and the errors. *)
Definition parse_conditions_line (this : docopt_impl) (section_end : nat)
    (line_range : range_t) (result : condition_map_t) (errors : error_list_t)
    : range_t * condition_map_t * error_list_t :=
  let trimmed_line := trim_whitespace line_range (source this) in
  if range_empty trimmed_line then (line_range, result, errors)
  else if negb (line_contains_condition_spec (source this) line_range) then
    (line_range, result,
     append_doc_error errors (Some (start line_range)) error_invalid_variable_name
       "Invalid condition. Conditions must start with a variable like <var>.")
  else
    let '(condition_spec_range, line_range) :=
      extend_spec this line_contains_condition_spec (string_size (source this))
        section_end line_range line_range line_range in
    let condition_spec_range := trim_whitespace condition_spec_range (source this) in
    let sep := find_string (source this) "  " (start condition_spec_range) in
    match sep with
    | Some sep =>
        if sep <? range_end condition_spec_range then
          let key := mk_range (start condition_spec_range)
                       (sep - start condition_spec_range) in
          let val := mk_range sep (range_end condition_spec_range - sep) in
          let key := trim_whitespace key (source this) in
          let val := trim_whitespace val (source this) in
          let key_str := range_text (source this) key in
          match result !! key_str with
          | None => (line_range, <[ key_str := val ]> result, errors)
          | Some _ =>
              (line_range, result,
               append_doc_error errors (Some (start key))
                 error_one_variable_multiple_conditions
                 "Variable already has a condition")
          end
        else (line_range, result, errors)
    | None => (line_range, result, errors)
    end.

(** The loop over the lines of one Conditions: section. *)
Fixpoint parse_conditions_lines (this : docopt_impl) (rounds : nat) (section_end : nat)
    (line_range : range_t) (result : condition_map_t) (errors : error_list_t)
    : condition_map_t * error_list_t :=
  match rounds with
  | 0 => (result, errors)
  | S rounds' =>
      match get_next_line (source this) line_range (Some section_end) with
      | None => (result, errors)
      | Some line_range =>
          let '(line_range, result, errors) :=
            parse_conditions_line this section_end line_range result errors in
          parse_conditions_lines this rounds' section_end line_range result errors
      end
  end.

(** Parses the conditions of the Conditions: sections. *)
Definition parse_conditions_spec (this : docopt_impl) (errors : error_list_t)
    : condition_map_t * error_list_t :=
  fold_left (fun (acc : condition_map_t * error_list_t) (section_range : range_t) =>
      parse_conditions_lines this (string_size (source this))
        (range_end section_range) (mk_range (start section_range) 0)
        (fst acc) (snd acc))
    (source_ranges_for_section this "Conditions:" true) (∅, errors).

(** ** Deduplication *)

Definition option_at (options : option_list_t) (i : nat) : option_t :=
  nth i options (new_option no_range no_range 0 sep_space).

(** The inner loop of [uniqueize_options], over [match_cursor]: the indexes
    of the options with the name of the best match so far, the best match (a
    later one wins with a longer description) and the errors. *)
Fixpoint uniqueize_matches (this : docopt_impl) (options : option_list_t)
    (error_on_duplicates : bool) (rounds match_cursor : nat)
    (best_match_idx : nat) (matching_indexes : list nat) (errors : error_list_t)
    : nat * list nat * error_list_t :=
  match rounds with
  | 0 => (best_match_idx, matching_indexes, errors)
  | S rounds' =>
      let current_match := option_at options best_match_idx in
      let maybe_match := option_at options match_cursor in
      if options_have_same_name this current_match maybe_match then
        uniqueize_matches this options error_on_duplicates rounds' (match_cursor + 1)
          (if rlength (description_range current_match)
              <? rlength (description_range maybe_match)
           then match_cursor else best_match_idx)
          (matching_indexes ++ [match_cursor])
          (if error_on_duplicates
           then append_doc_error errors (Some (start (name maybe_match)))
                  error_option_duplicated_in_options_section
                  "Option specified more than once"
           else errors)
      else
        uniqueize_matches this options error_on_duplicates rounds' (match_cursor + 1)
          best_match_idx matching_indexes errors
  end.

(** [options->erase(options->begin() + i)]. *)
Definition erase_at {A} (l : list A) (i : nat) : list A :=
  firstn i l ++ skipn (i + 1) l.

(** The loop that erases the matching indexes, from the back, except for the
    best match; returns the options and whether the cursor was erased. *)
Definition erase_matches (options : option_list_t) (cursor best_match_idx : nat)
    (matching_indexes : list nat) : option_list_t * bool :=
  fold_right (fun idx_to_remove (acc : option_list_t * bool) =>
      if negb (idx_to_remove =? best_match_idx)
      then (erase_at (fst acc) idx_to_remove, snd acc || (idx_to_remove =? cursor))
      else acc)
    (options, false) matching_indexes.

(** The loop over [cursor] of [uniqueize_options]. A round either erases the
    option at the cursor, and the cursor stays, or moves the cursor on, so
    there are at most as many rounds as options. *)
Fixpoint uniqueize_loop (this : docopt_impl) (error_on_duplicates : bool)
    (rounds cursor : nat) (options : option_list_t) (errors : error_list_t)
    : option_list_t * error_list_t :=
  match rounds with
  | 0 => (options, errors)
  | S rounds' =>
      if cursor <? length options then
        let '(best_match_idx, matching_indexes, errors) :=
          uniqueize_matches this options error_on_duplicates
            (length options - (cursor + 1)) (cursor + 1) cursor [cursor] errors in
        let '(options, cursor_erased) :=
          erase_matches options cursor best_match_idx matching_indexes in
        uniqueize_loop this error_on_duplicates rounds'
          (if cursor_erased then cursor else cursor + 1) options errors
      else (options, errors)
  end.

(** Given a list of options, verify that any duplicate options are in
    agreement, and remove all but one. *)
Definition uniqueize_options (this : docopt_impl) (options : option_list_t)
    (error_on_duplicates : bool) (errors : error_list_t)
    : option_list_t * error_list_t :=
  uniqueize_loop this error_on_duplicates (length options) 0 options errors.

(** ** Collecting the clauses of the usage tree *)

(** Helper class for collecting clauses from a tree. *)
Record clause_collector_t := mk_collector {
  options : option_list_t;
  fixeds : range_list_t;
  variables : range_list_t
}.

Definition accept_simple_clause (c : clause_collector_t) (sc : simple_clause_t)
    : clause_collector_t :=
  let c := match sc_option sc with
           | Some o => mk_collector (options c ++ [clause_option o]) (fixeds c)
                         (variables c)
           | None => c
           end in
  let c := match sc_fixed sc with
           | Some f => mk_collector (options c) (fixeds c ++ [range (fixed_word f)])
                         (variables c)
           | None => c
           end in
  match sc_variable sc with
  | Some v => mk_collector (options c) (fixeds c)
                (variables c ++ [range (variable_word v)])
  | None => c
  end.

(** Modelled from the spec: the walk of [node_visitor_t] (docopt_fish_grammar.h,
    not part of the sources) over the tree, taken to visit every node once,
    the children of a node in the order of its fields. *)
Fixpoint visit_alternation_list (node : alternation_list_t) (c : clause_collector_t)
    : clause_collector_t :=
  match node with
  | AlternationList expression_list or_continuation =>
      let c := match expression_list with
               | Some el => visit_expression_list el c
               | None => c
               end in
      match or_continuation with
      | Some oc => visit_or_continuation oc c
      | None => c
      end
  end
with visit_or_continuation (node : or_continuation_t) (c : clause_collector_t)
    : clause_collector_t :=
  match node with
  | OrContinuation alternation_list =>
      match alternation_list with
      | Some al => visit_alternation_list al c
      | None => c
      end
  end
with visit_expression_list (node : expression_list_t) (c : clause_collector_t)
    : clause_collector_t :=
  match node with
  | ExpressionList expression opt_expression_list =>
      let c := match expression with
               | Some e => visit_expression e c
               | None => c
               end in
      match opt_expression_list with
      | Some oel => visit_opt_expression_list oel c
      | None => c
      end
  end
with visit_opt_expression_list (node : opt_expression_list_t) (c : clause_collector_t)
    : clause_collector_t :=
  match node with
  | OptExpressionList expression_list =>
      match expression_list with
      | Some el => visit_expression_list el c
      | None => c
      end
  end
with visit_expression (node : expression_t) (c : clause_collector_t)
    : clause_collector_t :=
  match node with
  | Expression _ _ simple_clause alternation_list =>
      let c := match simple_clause with
               | Some sc => accept_simple_clause c sc
               | None => c
               end in
      match alternation_list with
      | Some al => visit_alternation_list al c
      | None => c
      end
  end.

Fixpoint visit_usage (node : usage_t) (c : clause_collector_t) : clause_collector_t :=
  match node with
  | Usage _ alternation_list next_usage =>
      let c := match alternation_list with
               | Some al => visit_alternation_list al c
               | None => c
               end in
      match next_usage with
      | Some u => visit_usage u c
      | None => c
      end
  end.

(** Collects options, i.e. tokens of the form --foo, and the variables and
    fixed words. *)
Definition collect_options_and_variables (entry : usage_t) : clause_collector_t :=
  visit_usage entry (mk_collector [] [] []).

(** ** The clauses that appear in a usage *)

(** The simple clauses of the tree, each with its option, fixed word or
    variable. *)
Fixpoint alternation_list_clauses (node : alternation_list_t) : list simple_clause_t :=
  match node with
  | AlternationList expression_list or_continuation =>
      match expression_list with
      | Some el => expression_list_clauses el
      | None => []
      end ++
      match or_continuation with
      | Some oc => or_continuation_clauses oc
      | None => []
      end
  end
with or_continuation_clauses (node : or_continuation_t) : list simple_clause_t :=
  match node with
  | OrContinuation alternation_list =>
      match alternation_list with
      | Some al => alternation_list_clauses al
      | None => []
      end
  end
with expression_list_clauses (node : expression_list_t) : list simple_clause_t :=
  match node with
  | ExpressionList expression opt_expression_list =>
      match expression with
      | Some e => expression_clauses e
      | None => []
      end ++
      match opt_expression_list with
      | Some oel => opt_expression_list_clauses oel
      | None => []
      end
  end
with opt_expression_list_clauses (node : opt_expression_list_t) : list simple_clause_t :=
  match node with
  | OptExpressionList expression_list =>
      match expression_list with
      | Some el => expression_list_clauses el
      | None => []
      end
  end
with expression_clauses (node : expression_t) : list simple_clause_t :=
  match node with
  | Expression _ _ simple_clause alternation_list =>
      match simple_clause with
      | Some sc => [sc]
      | None => []
      end ++
      match alternation_list with
      | Some al => alternation_list_clauses al
      | None => []
      end
  end.

Fixpoint usage_clauses (node : usage_t) : list simple_clause_t :=
  match node with
  | Usage _ alternation_list next_usage =>
      match alternation_list with
      | Some al => alternation_list_clauses al
      | None => []
      end ++
      match next_usage with
      | Some u => usage_clauses u
      | None => []
      end
  end.

(** The variable [r] (the range of its word) appears in the usage. *)
Definition variable_in_usage (tree : usage_t) (r : range_t) : Prop :=
  exists sc v, sc ∈ usage_clauses tree /\ sc_variable sc = Some v /\
               range (variable_word v) = r.

(** The fixed word [r] appears in the usage. *)
Definition fixed_in_usage (tree : usage_t) (r : range_t) : Prop :=
  exists sc f, sc ∈ usage_clauses tree /\ sc_fixed sc = Some f /\
               range (fixed_word f) = r.

(** What the collector has after it has met the clauses [l], one after the
    other. *)
Definition collected_after (c : clause_collector_t) (l : list simple_clause_t)
    : clause_collector_t :=
  fold_left accept_simple_clause l c.

(** ** Preflight *)

(** The loop of [preflight] that removes from the shortcut options those that
    appear in a usage. After an option is erased the index stays where it is
    (the source steps back and the loop steps forward again). *)
Fixpoint excise_loop (this : docopt_impl) (usage_options : option_list_t)
    (rounds i : nat) (shortcuts : option_list_t) : option_list_t :=
  match rounds with
  | 0 => shortcuts
  | S rounds' =>
      if i <? length shortcuts then
        let shortcut_opt := option_at shortcuts i in
        if existsb (fun usage_opt => options_have_same_name this shortcut_opt usage_opt)
             usage_options
        then excise_loop this usage_options rounds' i (erase_at shortcuts i)
        else excise_loop this usage_options rounds' (i + 1) shortcuts
      else shortcuts
  end.

Section Preflight.

(** The grammar parser is an external collaborator: given the source, the
    range of the Usage: section, the shortcut options and the errors so far,
    it returns the tree, if it could make one, and the errors. *)
Variable parse_usage :
  string_t -> range_t -> option_list_t -> error_list_t -> option usage_t * error_list_t.

Definition set_errors (this : docopt_impl) (e : error_list_t) : docopt_impl :=
  mk_docopt_impl (source this) (parse_tree this) (shortcut_options this)
    (all_options this) (all_variables this) (all_static_arguments this) e
    (variables_to_conditions this).

(** Clean up from any prior run: everything but the source and the errors. *)
Definition clean_up (this : docopt_impl) : docopt_impl :=
  mk_docopt_impl (source this) None [] [] [] [] (errors this) ∅.

(** Parses the docopt, etc. Returns true on success, false on error, and the
    instance as the call leaves it. *)
Definition preflight (this : docopt_impl) : bool * docopt_impl :=
  let this := clean_up this in
  let usage_ranges := source_ranges_for_section this "Usage:" false in
  if length usage_ranges =? 0 then
    (false,
     set_errors this
       (append_doc_error (errors this) None error_missing_usage_section
          "Missing Usage: section"))
  else if 1 <? length usage_ranges then
    (false,
     set_errors this
       (append_doc_error (errors this) None error_excessive_usage_sections
          "More than one Usage: section"))
  else
    let '(shortcuts, errs) := parse_options_spec this (errors this) in
    let '(shortcuts, errs) := uniqueize_options this shortcuts true errs in
    let '(tree, errs) :=
      parse_usage (source this) (nth 0 usage_ranges no_range) shortcuts errs in
    match tree with
    | None =>
        (false,
         mk_docopt_impl (source this) None shortcuts [] [] [] errs ∅)
    | Some t =>
        let collected := collect_options_and_variables t in
        let usage_options := options collected in
        let '(all, errs) :=
          uniqueize_options this (usage_options ++ shortcuts) false errs in
        let shortcuts :=
          excise_loop this usage_options (length shortcuts) 0 shortcuts in
        let '(conditions, errs) := parse_conditions_spec this errs in
        (true,
         mk_docopt_impl (source this) (Some t) shortcuts all (variables collected)
           (fixeds collected) errs conditions)
    end.

End Preflight.

(** ** Concrete docs and inputs *)

(** A usage with one fixed word, and an argv whose second word is another
    one. *)
Definition ex_fixed_impl : docopt_impl :=
  mk_docopt_impl "Usage: prog go" None [] [] [] [] [] ∅.

Definition ex_fixed_clause : fixed_clause_t := mk_fixed_clause (mk_token (mk_range 12 2)).

Definition ex_fixed_ctx (argv : string_list_t) (flags : parse_flags_t) : match_context_t :=
  mk_context flags (map mk_positional (seq 0 (length argv))) [] argv false.

Definition ex_after_prog : match_state_t := mk_state ∅ 1 [] ∅.

Definition ex_incomplete_flags : parse_flags_t :=
  N.lor flag_match_allow_incomplete flag_generate_suggestions.

(** A doc with an [options] shortcut, two long options that share the prefix
    "--ver" and a short option with a value. *)
Definition ex_doc : string_t :=
  "Usage: prog [options]" +:+ String newline
  ("Options:" +:+ String newline
  ("  --verbose  Be chatty [default: no]" +:+ String newline
  ("  --version  Show version" +:+ String newline
   "  -m <msg>  Message [default: hi]"))).

Definition ex_leaf (e : expression_t) : alternation_list_t :=
  AlternationList
    (Some (ExpressionList (Some e) (Some (OptExpressionList None))))
    (Some (OrContinuation None)).

(** The tree of "prog [options]"; the chain of usages ends with a usage
    without a program name. *)
Definition ex_tree : usage_t :=
  Usage (mk_token (mk_range 7 4))
    (Some (ex_leaf (Expression 3 None None None)))
    (Some (Usage (mk_token no_range) None None)).

(** Stands for the grammar parser on [ex_doc]. *)
Definition ex_parse_usage (src : string_t) (r : range_t) (shortcuts : option_list_t)
    (errs : error_list_t) : option usage_t * error_list_t :=
  (Some ex_tree, errs).

Definition ex_impl : docopt_impl :=
  Eval vm_compute in
    snd (preflight ex_parse_usage (mk_docopt_impl ex_doc None [] [] [] [] [] ∅)).

Definition ex_verbose : option_t := nth 0 (all_options ex_impl) (new_option no_range no_range 0 sep_space).
Definition ex_version : option_t := nth 1 (all_options ex_impl) (new_option no_range no_range 0 sep_space).
Definition ex_message : option_t := nth 2 (all_options ex_impl) (new_option no_range no_range 0 sep_space).

(** ** Invariants of the match *)

(** The states that a match works with: the positional cursor is within the
    positionals, there is one bit per resolved option, and every suggestion
    is one of the names [U]. *)
Definition state_ok (ctx : match_context_t) (U : gset string_t) (st : match_state_t)
    : Prop :=
  next_positional_index st <= length (positionals ctx) /\
  length (consumed_options st) = length (resolved_options ctx) /\
  suggested_next_arguments st ⊆ U.

(** The successors [l] of [st]: states of the same kind whose progress is not
    behind the progress of [st]. *)
Definition successors_ok (ctx : match_context_t) (U : gset string_t)
    (st : match_state_t) (l : match_state_list_t) : Prop :=
  Forall (fun s' => state_ok ctx U s' /\ progress st <= progress s') l.

(** A matcher that returns, and returns such successors. *)
Definition good_matcher (ctx : match_context_t) (U : gset string_t) (m : matcher_t)
    : Prop :=
  forall st, state_ok ctx U st ->
    exists r, m st = Some r /\ successors_ok ctx U st r.

(** The largest progress that a state can have. *)
Definition progress_bound (ctx : match_context_t) (U : gset string_t) : nat :=
  length (positionals ctx) + length (resolved_options ctx) + size U.

(** The match of the child of an expression of production 0, 1 or 2, as its
    first match and the rounds of its ellipsis loop apply it. *)
Definition expression_child (this : docopt_impl) (rounds : nat) (node : expression_t)
    (ctx : match_context_t) : matcher_t :=
  match node with
  | Expression production _ simple_clause alternation_list =>
      match production with
      | 0 =>
          fun s =>
            match simple_clause with
            | Some sc => Some (match_simple_clause this sc s ctx)
            | None => Some []
            end
      | _ =>
          fun s =>
            match alternation_list with
            | Some al =>
                match_alternation_list this rounds al s
                  (set_is_in_square_brackets ctx (negb (production =? 1)))
            | None => Some []
            end
      end
  end.

Definition production_of (node : expression_t) : nat :=
  match node with Expression production _ _ _ => production end.

Definition ellipsis_of (node : expression_t) : bool :=
  match node with Expression _ opt_ellipsis _ _ => has_ellipsis_of opt_ellipsis end.

(** The names of the whole doc: those of the tree and of the shortcuts. *)
Definition doc_names (this : docopt_impl) (tree : usage_t) : gset string_t :=
  usage_names this tree ∪ shortcut_names this.

(** "prog (a | b)...": a group with ellipsis over two fixed words. *)
Definition ex_repeat_impl : docopt_impl :=
  mk_docopt_impl "Usage: prog (a | b)..." None [] [] [] [] [] ∅.

Definition ex_word (r : range_t) : expression_list_t :=
  ExpressionList
    (Some (Expression 0 None
             (Some (mk_simple_clause None (Some (mk_fixed_clause (mk_token r))) None))
             None))
    (Some (OptExpressionList None)).

Definition ex_repeat_group : expression_t :=
  Expression 1 (Some (mk_opt_ellipsis 1)) None
    (Some (AlternationList (Some (ex_word (mk_range 13 1)))
             (Some (OrContinuation
                      (Some (AlternationList (Some (ex_word (mk_range 17 1)))
                               (Some (OrContinuation None)))))))).

Definition ex_repeat_tree : usage_t :=
  Usage (mk_token (mk_range 7 4))
    (Some (ex_leaf ex_repeat_group))
    (Some (Usage (mk_token no_range) None None)).

Definition ex_repeat_argv : string_list_t := ["prog"; "a"; "b"; "a"].

Definition ex_repeat_ctx : match_context_t :=
  mk_context 0%N (map mk_positional (seq 0 4)) [] ex_repeat_argv false.

(** The state at index [b] of [l] is the one that [match_argv] selects: no
    state of [l] has fewer unused arguments, and every state before it has
    more. *)
Definition is_best (ctx : match_context_t) (l : match_state_list_t) (b : nat)
    (stb : match_state_t) : Prop :=
  l !! b = Some stb /\
  (forall j s, l !! j = Some s ->
     length (unused_arguments ctx stb) <= length (unused_arguments ctx s)) /\
  (forall j s, j < b -> l !! j = Some s ->
     length (unused_arguments ctx stb) < length (unused_arguments ctx s)).

(** An instance with the tree of "prog (a | b)...", as [preflight] leaves it. *)
Definition ex_repeat_parsed : docopt_impl :=
  mk_docopt_impl (source ex_repeat_impl) (Some ex_repeat_tree) [] [] []
    [mk_range 13 1; mk_range 17 1] [] ∅.

(** The argv indexes of the positionals that a state has consumed. *)
Definition consumed_positional_slots (ctx : match_context_t) (st : match_state_t)
    : list nat :=
  map idx_in_argv (firstn (next_positional_index st) (positionals ctx)).

Definition value_slot (r : resolved_option_t) : list nat :=
  match value_idx_in_argv r with
  | Some v => [v]
  | None => []
  end.

(** The argv indexes of the names and of the values of the resolved options
    that a state has consumed. *)
Definition consumed_option_slots (ctx : match_context_t) (st : match_state_t)
    : list nat :=
  flat_map (fun bo : bool * resolved_option_t =>
      if fst bo then name_idx_in_argv (snd bo) :: value_slot (snd bo) else [])
    (combine (consumed_options st) (resolved_options ctx)).

(** The argv indexes of the names of the resolved options that a state has
    not consumed. *)
Definition unconsumed_name_slots (ctx : match_context_t) (st : match_state_t)
    : list nat :=
  flat_map (fun bo : bool * resolved_option_t =>
      if negb (fst bo) then [name_idx_in_argv (snd bo)] else [])
    (combine (consumed_options st) (resolved_options ctx)).


(** "prog -v": one short option in the usage. *)
Definition ex_v_option : option_t :=
  new_option (mk_range 13 1) no_range 1 sep_space.

Definition ex_v_tree : usage_t :=
  Usage (mk_token (mk_range 7 4))
    (Some (ex_leaf
             (Expression 0 None
                (Some (mk_simple_clause (Some (mk_option_clause ex_v_option)) None None))
                None)))
    (Some (Usage (mk_token no_range) None None)).

(** Stands for the grammar parser on "Usage: prog -v". *)
Definition ex_v_parse_usage (src : string_t) (r : range_t) (shortcuts : option_list_t)
    (errs : error_list_t) : option usage_t * error_list_t :=
  (Some ex_v_tree, errs).

Definition ex_v_impl : docopt_impl :=
  Eval vm_compute in
    snd (preflight ex_v_parse_usage (mk_docopt_impl "Usage: prog -v" None [] [] [] [] [] ∅)).

(** What the tokenizer makes of "prog -vv". *)
Definition ex_vv_argv : string_list_t := ["prog"; "-vv"].




(** "prog [options] -a" with -a and -b in the Options: section. *)
Definition ex_excise_doc : string_t :=
  "Usage: prog [options] -a" +:+ String newline
  ("Options:" +:+ String newline
  ("  -a  Apple" +:+ String newline
   "  -b  Banana")).

Definition ex_a_option : option_t := new_option (mk_range 23 1) no_range 1 sep_space.

Definition ex_excise_tree : usage_t :=
  Usage (mk_token (mk_range 7 4))
    (Some (AlternationList
             (Some (ExpressionList (Some (Expression 3 None None None))
                      (Some (OptExpressionList
                               (Some (ExpressionList
                                        (Some (Expression 0 None
                                                 (Some (mk_simple_clause
                                                          (Some (mk_option_clause ex_a_option))
                                                          None None))
                                                 None))
                                        (Some (OptExpressionList None))))))))
             (Some (OrContinuation None))))
    (Some (Usage (mk_token no_range) None None)).

(** Stands for the grammar parser on [ex_excise_doc]. *)
Definition ex_excise_parse_usage (src : string_t) (r : range_t)
    (shortcuts : option_list_t) (errs : error_list_t) : option usage_t * error_list_t :=
  (Some ex_excise_tree, errs).

Definition ex_excise_blank : docopt_impl :=
  mk_docopt_impl ex_excise_doc None [] [] [] [] [] ∅.

Definition ex_excise_impl : docopt_impl :=
  Eval vm_compute in snd (preflight ex_excise_parse_usage ex_excise_blank).

(** A doc whose usage names the long variant of an option that has a short
    alias in the Options: section. *)
Definition ex_variant_doc : string_t :=
  "Usage: prog --verbose [options]" +:+ String newline
  ("Options:" +:+ String newline
   "  -v, --verbose  Be verbose").

(** The option --verbose as it stands in the usage. *)
Definition ex_variant_option : option_t := new_option (mk_range 14 7) no_range 2 sep_space.

Definition ex_variant_tree : usage_t :=
  Usage (mk_token (mk_range 7 4))
    (Some (AlternationList
             (Some (ExpressionList
                      (Some (Expression 0 None
                               (Some (mk_simple_clause
                                        (Some (mk_option_clause ex_variant_option))
                                        None None))
                               None))
                      (Some (OptExpressionList
                               (Some (ExpressionList
                                        (Some (Expression 3 None None None))
                                        (Some (OptExpressionList None))))))))
             (Some (OrContinuation None))))
    (Some (Usage (mk_token no_range) None None)).

(** Stands for the grammar parser on [ex_variant_doc]. *)
Definition ex_variant_parse_usage (src : string_t) (r : range_t)
    (shortcuts : option_list_t) (errs : error_list_t) : option usage_t * error_list_t :=
  (Some ex_variant_tree, errs).

Definition ex_variant_blank : docopt_impl :=
  mk_docopt_impl ex_variant_doc None [] [] [] [] [] ∅.

(** A doc whose usage has a fixed word, a variable and the shortcut, and
    whose option has a default value. *)
Definition ex_entries_doc : string_t :=
  "Usage: prog go <file> [options]" +:+ String newline
  ("Options:" +:+ String newline
   "  -m <msg>  Message [default: hi]").

Definition ex_entries_go : simple_clause_t :=
  mk_simple_clause None (Some (mk_fixed_clause (mk_token (mk_range 12 2)))) None.

Definition ex_entries_file : simple_clause_t :=
  mk_simple_clause None None (Some (mk_variable_clause (mk_token (mk_range 15 6)))).

Definition ex_entries_tree : usage_t :=
  Usage (mk_token (mk_range 7 4))
    (Some (AlternationList
             (Some (ExpressionList
                      (Some (Expression 0 None (Some ex_entries_go) None))
                      (Some (OptExpressionList
                               (Some (ExpressionList
                                        (Some (Expression 0 None (Some ex_entries_file)
                                                 None))
                                        (Some (OptExpressionList
                                                 (Some (ExpressionList
                                                          (Some (Expression 3 None None
                                                                   None))
                                                          (Some (OptExpressionList
                                                                   None))))))))))))
             (Some (OrContinuation None))))
    (Some (Usage (mk_token no_range) None None)).

(** Stands for the grammar parser on [ex_entries_doc]. *)
Definition ex_entries_parse_usage (src : string_t) (r : range_t)
    (shortcuts : option_list_t) (errs : error_list_t) : option usage_t * error_list_t :=
  (Some ex_entries_tree, errs).

Definition ex_entries_blank : docopt_impl :=
  mk_docopt_impl ex_entries_doc None [] [] [] [] [] ∅.

Definition ex_entries_impl : docopt_impl :=
  Eval vm_compute in snd (preflight ex_entries_parse_usage ex_entries_blank).

Definition ex_entries_argv : string_list_t := ["prog"; "go"; "x"].

(** A doc with a single-dash long option that takes its value after an
    equals sign, and a short option that takes its value without a
    separator. *)
Definition ex_strict_doc : string_t :=
  "Usage: prog [options]" +:+ String newline
  ("Options:" +:+ String newline
  ("  -foo=<x>  Foo" +:+ String newline
   "  -D<val>  Define")).

Definition ex_strict_impl : docopt_impl :=
  Eval vm_compute in
    snd (preflight ex_parse_usage (mk_docopt_impl ex_strict_doc None [] [] [] [] [] ∅)).

(** A doc with an option of three dashes, an option that is there twice and
    a variable with two conditions, and a doc without a usage. *)
Definition ex_errors_blank : docopt_impl :=
  mk_docopt_impl
    ("Usage: prog" +:+ String newline
     ("Options:" +:+ String newline
     ("  ---x  Too many" +:+ String newline
     ("  -a  Apple" +:+ String newline
     ("  -a  Again" +:+ String newline
     ("Conditions:" +:+ String newline
     ("  <a>  one" +:+ String newline
      "  <a>  two")))))))
    None [] [] [] [] [] ∅.

Definition ex_prog_tree : usage_t :=
  Usage (mk_token (mk_range 7 4)) None (Some (Usage (mk_token no_range) None None)).

(** Stands for the grammar parser on "Usage: prog". *)
Definition ex_prog_parse_usage (src : string_t) (r : range_t)
    (shortcuts : option_list_t) (errs : error_list_t) : option usage_t * error_list_t :=
  (Some ex_prog_tree, errs).

Definition ex_no_usage_blank : docopt_impl :=
  mk_docopt_impl ("Options:" +:+ String newline "  -a  Apple") None [] [] [] [] [] ∅.

(** ** Well-formed tokenizer output *)

(** The indexes of a resolved option are indexes of argv. *)
Definition resolved_wf (argv : string_list_t) (r : resolved_option_t) : Prop :=
  name_idx_in_argv r < length argv /\
  forall v, value_idx_in_argv r = Some v -> v < length argv.

Definition separated_wf (argv : string_list_t) (sep : separated_t) : Prop :=
  Forall (fun p => idx_in_argv p < length argv) (sep_positionals sep) /\
  Forall (resolved_wf argv) (sep_resolved_options sep).

(** What a tokenizer function called at [i] leaves: on success the index has
    moved on, within argv; on failure it is at [i] or at the next argument,
    and nothing was resolved. *)
Definition parse_out_ok (argv : string_list_t) (i : nat)
    (res : resolved_option_list_t) (r : parse_out) : Prop :=
  Forall (resolved_wf argv) (out_result r) /\
  if success r then i < idx r /\ idx r <= length argv
  else (idx r = i \/ (idx r = i + 1 /\ i + 1 < length argv)) /\ out_result r = res.

(** [m'] returns what [m] returns, wherever [m] returns. *)
Definition matcher_le (m m' : matcher_t) : Prop :=
  forall st r, m st = Some r -> m' st = Some r.

(** ** Statements about the fixed clause *)

(** The argument [key] is the literal word of the clause. *)
Definition fixed_word_is (this : docopt_impl) (node : fixed_clause_t) (key : string_t)
    : Prop :=
  key = range_text (source this) (range (fixed_word node)).

(** The state after the literal was matched: its count is one more and the
    positional is consumed. *)
Definition fixed_consumed (st : match_state_t) (key : string_t) : match_state_t :=
  mk_state
    (<[ key := mk_arg (values (map_ref (option_map st) key))
                 (count (map_ref (option_map st) key) + 1) ]> (option_map st))
    (next_positional_index st + 1) (consumed_options st)
    (suggested_next_arguments st).

(** The state that passes through when the clause is not matched. *)
Definition fixed_passed (this : docopt_impl) (node : fixed_clause_t)
    (st : match_state_t) (ctx : match_context_t) : match_state_list_t :=
  if has_flag (flags ctx) flag_match_allow_incomplete then
    [if has_flag (flags ctx) flag_generate_suggestions
     then suggest st (range_text (source this) (range (fixed_word node)))
     else st]
  else [].

(** The claim as it is written: a match when there is a next positional that
    is the literal, and otherwise, in every case, the suggestion and the
    pass-through under the flags. *)
Definition fixed_clause_as_claimed (this : docopt_impl) (node : fixed_clause_t)
    (st : match_state_t) (ctx : match_context_t) : Prop :=
  let key := argv_at (argv ctx) (idx_in_argv (next_positional ctx st)) in
  let matched := has_more_positionals ctx st = true /\ fixed_word_is this node key in
  (matched -> match_fixed_clause this node st ctx = [fixed_consumed st key]) /\
  (~ matched -> match_fixed_clause this node st ctx = fixed_passed this node st ctx).

(** [e'] is [e] with zero or more errors appended. *)
Definition extends_errors (e e' : option error_list_t) : Prop :=
  match e, e' with
  | Some l, Some l' => exists more, l' = l ++ more
  | None, None => True
  | _, _ => False
  end.

(** The options that the loop keeps: those that no usage option has the name
    of. *)
Definition not_in_usage (this : docopt_impl) (usage_options : option_list_t)
    (shortcut_opt : option_t) : bool :=
  negb (existsb (fun usage_opt => options_have_same_name this shortcut_opt usage_opt)
          usage_options).

(** The match of a node is a good matcher, given enough rounds; one statement
    per kind of node. *)
Definition usage_ok (this : docopt_impl) (U : gset string_t) (node : usage_t) : Prop :=
  forall rounds ctx, usage_names this node ⊆ U -> progress_bound ctx U < rounds ->
    good_matcher ctx U (fun st => match_usage this rounds node st ctx).

Definition alternation_list_ok (this : docopt_impl) (U : gset string_t)
    (node : alternation_list_t) : Prop :=
  forall rounds ctx, alternation_list_names this node ⊆ U ->
    progress_bound ctx U < rounds ->
    good_matcher ctx U (fun st => match_alternation_list this rounds node st ctx).

Definition or_continuation_ok (this : docopt_impl) (U : gset string_t)
    (node : or_continuation_t) : Prop :=
  forall rounds ctx, or_continuation_names this node ⊆ U ->
    progress_bound ctx U < rounds ->
    good_matcher ctx U (fun st => match_or_continuation this rounds node st ctx).

Definition expression_list_ok (this : docopt_impl) (U : gset string_t)
    (node : expression_list_t) : Prop :=
  forall rounds ctx, expression_list_names this node ⊆ U ->
    progress_bound ctx U < rounds ->
    good_matcher ctx U (fun st => match_expression_list this rounds node st ctx).

Definition opt_expression_list_ok (this : docopt_impl) (U : gset string_t)
    (node : opt_expression_list_t) : Prop :=
  forall rounds ctx, opt_expression_list_names this node ⊆ U ->
    progress_bound ctx U < rounds ->
    good_matcher ctx U (fun st => match_opt_expression_list this rounds node st ctx).

Definition expression_ok (this : docopt_impl) (U : gset string_t)
    (node : expression_t) : Prop :=
  forall rounds ctx, expression_names this node ⊆ U ->
    progress_bound ctx U < rounds ->
    good_matcher ctx U (fun st => match_expression this rounds node st ctx).

(** ** The other public entry points *)

(** [std::sort] on a vector of strings: the order of [std::string] is the
    lexicographic order of the characters, a proper prefix before the longer
    string. The result is the sorted arrangement, which is computed here by
    insertion. *)
Fixpoint sort_insert (x : string_t) (l : string_list_t) : string_list_t :=
  match l with
  | [] => [x]
  | y :: l' => if String.ltb x y then x :: l else y :: sort_insert x l'
  end.

Definition std_sort (l : string_list_t) : string_list_t :=
  fold_right sort_insert [] l.

(** [x] is not after [y] in that order. *)
Definition string_le (x y : string_t) : Prop := String.ltb y x = false.

(** [erase(std::unique(first, last), last)]: of every run of equal neighbours
    the first one stays. *)
Fixpoint std_unique (l : string_list_t) : string_list_t :=
  match l with
  | [] => []
  | x :: l' =>
      match l' with
      | [] => [x]
      | y :: _ => if String.eqb x y then std_unique l' else x :: std_unique l'
      end
  end.

(** Modelled from the spec: [argument_status_t] (docopt_fish.h), the status
    of one argument of argv. *)
Inductive argument_status_t := status_valid | status_invalid.

#[global] Instance argument_status_eq_dec : EqDecision argument_status_t.
Proof. solve_decision. Defined.

(** [result.at(i) = status_invalid]. [at] throws for an index outside of the
    vector, which is the result [None]. *)
Definition set_invalid (result : option (list argument_status_t)) (i : nat)
    : option (list argument_status_t) :=
  match result with
  | Some l => if i <? length l then Some (<[ i := status_invalid ]> l) else None
  | None => None
  end.

(** [argument_parser_t::validate_arguments]: unused arguments are all
    invalid. Precondition of the source: a doc has been set. *)
Definition validate_arguments (impl : docopt_impl) (argv : string_list_t)
    (flags : parse_flags_t) : option (list argument_status_t) :=
  match best_assignment_for_argv impl argv flags with
  | Some (_, unused_args, _) =>
      fold_left set_invalid unused_args (Some (repeat status_valid (length argv)))
  | None => None
  end.

(** The first loop of [suggest_next_argument]: the fewest unused arguments of
    a state; [None] is the initial value, larger than any count. *)
Definition best_unused_arg_count (ctx : match_context_t) (states : match_state_list_t)
    : option nat :=
  fold_left (fun best st =>
      let count := length (unused_arguments ctx st) in
      if npos_gt best count then Some count else best)
    states None.

(** The second loop: the suggestions of the states with that many unused
    arguments, one state after the other. *)
Definition best_suggestions (ctx : match_context_t) (states : match_state_list_t)
    (best : option nat) : string_list_t :=
  flat_map (fun st =>
      if bool_decide (Some (length (unused_arguments ctx st)) = best)
      then elements (suggested_next_arguments st) else [])
    states.

(** [suggest_next_argument]. The result is [None] without a tree (a
    precondition of the source), and if an ellipsis loop were cut. *)
Definition suggest_next_argument (this : docopt_impl) (argv : string_list_t)
    (flags : parse_flags_t) : option string_list_t :=
  let flags := N.lor flags flag_generate_suggestions in
  let sep := separate_argv_into_options_and_positionals this argv (all_options this)
               flags None (Some EmptyString) in
  let suggestion := default EmptyString (sep_suggestion sep) in
  if negb (string_size suggestion =? 0) then Some [suggestion]
  else
    let ctx := mk_context flags (sep_positionals sep) (sep_resolved_options sep)
                 argv false in
    match parse_tree this with
    | None => None
    | Some tree =>
        match match_usage this (ellipsis_rounds this ctx tree) tree
                (init_state (sep_resolved_options sep)) ctx with
        | None => None
        | Some states =>
            let best := best_unused_arg_count ctx states in
            Some (std_unique (std_sort (best_suggestions ctx states best)))
        end
    end.

Definition conditions_for_variable (this : docopt_impl) (var_name : string_t)
    : string_t :=
  match variables_to_conditions this !! var_name with
  | Some cond_range => range_text (source this) cond_range
  | None => EmptyString
  end.

(** The loop of [get_command_names] over the chain of usages, with the set of
    seen names and the result so far. *)
Fixpoint command_names_loop (this : docopt_impl) (cursor : usage_t)
    (seen : gset string_t) (result : string_list_t) : string_list_t :=
  match cursor with
  | Usage prog_name _ next_usage =>
      let name_range := range prog_name in
      let name := range_text (source this) name_range in
      let '(seen, result) :=
        if negb (range_empty name_range) && negb (bool_decide (name ∈ seen))
        then ({[ name ]} ∪ seen, result ++ [name])
        else (seen, result) in
      match next_usage with
      | Some u => command_names_loop this u seen result
      | None => result
      end
  end.

(** Get the command names, each once, in the order of their appearance in the
    usage spec. *)
Definition get_command_names (this : docopt_impl) : string_list_t :=
  match parse_tree this with
  | Some u => command_names_loop this u ∅ []
  | None => []
  end.

Definition get_variables (this : docopt_impl) : string_list_t :=
  let result := map (range_text (source this)) (all_variables this) in
  let result :=
    result ++
    map (fun o => range_text (source this) (value o))
      (List.filter (fun o => negb (range_empty (value o))) (all_options this)) in
  std_unique (std_sort result).

(** The program names of the chain of usages, in the order of the chain; a
    usage without a program name gives none. *)
Fixpoint usage_prog_names (this : docopt_impl) (u : usage_t) : string_list_t :=
  match u with
  | Usage prog_name _ next_usage =>
      (if range_empty (range prog_name) then []
       else [range_text (source this) (range prog_name)])
      ++ match next_usage with
         | Some u' => usage_prog_names this u'
         | None => []
         end
  end.

(** Every string of the list once, where it is first. *)
Fixpoint first_occurrences (l : string_list_t) : string_list_t :=
  match l with
  | [] => []
  | x :: l' => x :: List.filter (fun y => negb (String.eqb y x)) (first_occurrences l')
  end.

(** A resolved option of an argument before [i]: its value, if it has one,
    is in the argument of its name or in the one after, also before [i]. *)
Definition resolved_below (i : nat) (r : resolved_option_t) : Prop :=
  name_idx_in_argv r < i /\
  forall v, value_idx_in_argv r = Some v ->
    (v = name_idx_in_argv r \/ v = name_idx_in_argv r + 1) /\ v < i.

(** What the tokenizer has produced when it is at the argument [i]: the
    positionals are arguments before [i], in increasing order, and so are
    the resolved options. *)
Definition separated_below (i : nat) (st : separated_t) : Prop :=
  Forall (fun p => idx_in_argv p < i) (sep_positionals st) /\
  StronglySorted lt (map idx_in_argv (sep_positionals st)) /\
  Forall (resolved_below i) (sep_resolved_options st).

(** An error about argv: it names an argument of argv and a position in it,
    and its code is one of the codes of the tokenizer. *)
Definition argv_error (argv : string_list_t) (e : error_t) : Prop :=
  (exists i, argument_index e = Some i /\ i < length argv) /\
  is_Some (location e) /\
  code e ∈ [error_unknown_option; error_ambiguous_prefix_match;
            error_option_has_missing_argument; error_option_unexpected_argument;
            error_wrong_separator].

Definition argv_errors (argv : string_list_t) (e : option error_list_t) : Prop :=
  match e with
  | Some l => Forall (argv_error argv) l
  | None => True
  end.

(** An argument that is neither an option nor "--": it does not start with a
    dash, or it is only a dash. *)
Definition is_plain_word (arg : string_t) : bool :=
  negb (substr_equals "-" arg 1 && (1 <? string_size arg)).

(** One line of an options section that gives a short and a long name for
    the same option, and the two options it stands for. *)
Definition ex_alias_impl : docopt_impl :=
  mk_docopt_impl "-m, --message <text>  The message" None [] [] [] [] [] ∅.

Definition ex_alias_short : option_t :=
  mk_option_t (mk_range 1 1) (mk_range 14 6) 1 sep_space single_short
    (mk_range 22 11) (mk_range 0 0) (mk_range 6 7).

Definition ex_alias_long : option_t :=
  mk_option_t (mk_range 6 7) (mk_range 14 6) 2 sep_space double_long
    (mk_range 22 11) (mk_range 0 0) (mk_range 6 7).

(** A doc whose long option takes its value after an equals sign. *)
Definition ex_sep_doc : string_t :=
  "Usage: prog [options]" +:+ String newline
  ("Options:" +:+ String newline
   "  --foo=<x>  Foo").

Definition ex_sep_impl : docopt_impl :=
  Eval vm_compute in
    snd (preflight ex_parse_usage (mk_docopt_impl ex_sep_doc None [] [] [] [] [] ∅)).

Definition ex_sep_argv : string_list_t := ["prog"; "--foo"; "bar"; "baz"].

(** The suggestion [s] of the tokenizer is the suggestion [s0] that was
    there, or the name of the value of an option of [opts]. *)
Definition suggestion_from (this : docopt_impl) (opts : option_list_t)
    (s0 s : option string_t) : Prop :=
  s = s0 \/ exists o, o ∈ opts /\ s = Some (range_text (source this) (value o)).

(** ** Properties that the match keeps *)

(** [P] is kept by the matcher [m]: the successors of a state with [P] have
    [P]. *)
Definition keeps (P : match_state_t -> Prop) (m : matcher_t) : Prop :=
  forall st r, P st -> m st = Some r -> Forall P r.

(** [st'] has all that [st] has: the positional cursor is not before, the
    consumed options are still consumed, no count is lower, the values
    under every name begin with the values that were there, and the
    suggestions are still there. *)
Definition extends_state (st st' : match_state_t) : Prop :=
  next_positional_index st <= next_positional_index st' /\
  length (consumed_options st') = length (consumed_options st) /\
  (forall i, consumed_options st !! i = Some true ->
             consumed_options st' !! i = Some true) /\
  (forall k, count (map_ref (option_map st) k) <= count (map_ref (option_map st') k)) /\
  (forall k, values (map_ref (option_map st) k)
             `prefix_of` values (map_ref (option_map st') k)) /\
  suggested_next_arguments st ⊆ suggested_next_arguments st'.

(** No positional is the argument of the name or of the value of a resolved
    option. *)
Definition slots_disjoint (st : separated_t) : Prop :=
  forall p r, p ∈ sep_positionals st -> r ∈ sep_resolved_options st ->
    idx_in_argv p <> name_idx_in_argv r /\
    value_idx_in_argv r <> Some (idx_in_argv p).

(** A resolved option of an argument at [i] or behind it. *)
Definition resolved_from (i : nat) (r : resolved_option_t) : Prop :=
  i <= name_idx_in_argv r /\ forall v, value_idx_in_argv r = Some v -> i <= v.

(** The result [r] of a tokenizer function is [res] with options of the
    arguments from [i] on added at the back. *)
Definition appended_from (i : nat) (res : resolved_option_list_t) (r : parse_out)
    : Prop :=
  exists new, out_result r = res ++ new /\ Forall (resolved_from i) new.

(** * Properties *)

(** ** [range_equals_string] within its preconditions *)

Lemma clamped_length_in_range str start_in_str len_in_str :
  start_in_str <= string_size str ->
  clamped_length str start_in_str len_in_str
  = N.of_nat (match len_in_str with
              | Some l => Nat.min l (string_size str - start_in_str)
              | None => string_size str - start_in_str
              end).
Proof.
  intros H. unfold clamped_length, size_t_sub.
  apply Nat.leb_le in H. rewrite H.
  destruct len_in_str as [l|]; [|reflexivity].
  symmetry. apply Nat2N.inj_min.
Qed.

Lemma N_of_nat_eqb a b : (N.of_nat a =? N.of_nat b)%N = (a =? b).
Proof.
  destruct (a =? b) eqn:E.
  - apply Nat.eqb_eq in E. subst. apply N.eqb_refl.
  - apply Nat.eqb_neq in E. apply N.eqb_neq. intros H. apply E, Nat2N.inj, H.
Qed.

(** With a start inside the string nothing wraps around. *)
Lemma range_equals_string_in_range this r str start_in_str len_in_str :
  start_in_str <= string_size str ->
  range_equals_string this r str start_in_str len_in_str
  = let avail := string_size str - start_in_str in
    let len := match len_in_str with
               | Some l => Nat.min l avail
               | None => avail
               end in
    if rlength r =? len
    then compare_eq (source this) (start r) (rlength r) str start_in_str len
    else false.
Proof.
  intros H. unfold range_equals_string.
  rewrite (clamped_length_in_range _ _ _ H), N_of_nat_eqb. cbv zeta.
  destruct (rlength r =? _) eqn:E; [|reflexivity].
  apply Nat.eqb_eq in E. rewrite <- E. reflexivity.
Qed.

(** Within the string the call returns. *)
Lemma range_equals_string_returns r str start_in_str len_in_str :
  start_in_str <= string_size str ->
  range_equals_string_throws r str start_in_str len_in_str = false.
Proof.
  intros H. unfold range_equals_string_throws.
  apply Nat.ltb_ge in H. rewrite H. apply andb_false_r.
Qed.

(** ** [description_for_option] *)

Lemma description_loop_first_match this given options :
  (exists pre o post,
      options = pre ++ o :: post /\
      range_empty (description_range o) = false /\
      description_matches this given o = true /\
      Forall (fun o' => range_empty (description_range o') = true \/
                        description_matches this given o' = false) pre /\
      description_loop this given options
      = range_text (source this) (description_range o))
  \/ (Forall (fun o' => range_empty (description_range o') = true \/
                        description_matches this given o' = false) options /\
      description_loop this given options = EmptyString).
Proof.
  induction options as [|o rest IH]; simpl.
  - right. split; [constructor | reflexivity].
  - destruct (range_empty (description_range o)) eqn:Hd.
    + destruct IH as [(pre & o' & post & -> & Hne & Hm & Hpre & Hr) | [Hall Hr]].
      * left. exists (o :: pre), o', post. repeat split; auto.
      * right. split; auto.
    + destruct (description_matches this given o) eqn:Hm.
      * left. exists [], o, rest. repeat split; auto.
      * destruct IH as [(pre & o' & post & -> & Hne & Hm' & Hpre & Hr) | [Hall Hr]].
        -- left. exists (o :: pre), o', post. repeat split; auto.
        -- right. split; auto.
Qed.

(** C10. [description_for_option] returns the empty string for a name of fewer
    than two characters or one that does not begin with a dash. Otherwise
    it returns the description text of the first option of [all_options] that
    has a description and matches the name, and the empty string when there
    is none; an option whose description range is empty is never the one that
    is returned. *)
Theorem description_for_option_first_match this given :
  ((string_size given < 2 \/ char_at given 0 <> Some "-"%char) ->
   description_for_option this given = EmptyString) /\
  (~ (string_size given < 2 \/ char_at given 0 <> Some "-"%char) ->
   (exists pre o post,
       all_options this = pre ++ o :: post /\
       range_empty (description_range o) = false /\
       description_matches this given o = true /\
       Forall (fun o' => range_empty (description_range o') = true \/
                         description_matches this given o' = false) pre /\
       description_for_option this given
       = range_text (source this) (description_range o))
   \/ (Forall (fun o' => range_empty (description_range o') = true \/
                         description_matches this given o' = false)
         (all_options this) /\
       description_for_option this given = EmptyString)).
Proof.
  assert (Hcond : (string_size given <? 2)
                  || negb (test_at given 0 (char_is "-")) = true
                  <-> (string_size given < 2 \/ char_at given 0 <> Some "-"%char)).
  { rewrite orb_true_iff, Nat.ltb_lt, negb_true_iff. unfold test_at, char_is.
    destruct (char_at given 0) as [c|]; split; intros [H|H]; auto; right;
      try congruence.
    - intros [= ->]. rewrite Ascii.eqb_refl in H. discriminate.
    - destruct (Ascii.eqb_spec c "-"); congruence. }
  unfold description_for_option. split; intros H.
  - apply Hcond in H. rewrite H. reflexivity.
  - destruct ((string_size given <? 2) || negb (test_at given 0 (char_is "-"))) eqn:E.
    + exfalso. apply H, Hcond. reflexivity.
    + apply description_loop_first_match.
Qed.

(** ** Strings *)

Lemma substring_all (s : string) : String.substring 0 (String.length s) s = s.
Proof. induction s as [|c s IH]; simpl; [reflexivity | now rewrite IH]. Qed.

Lemma string_eqb_eq (a b : string) : String.eqb a b = true <-> a = b.
Proof. apply String.eqb_eq. Qed.

(** ** The fixed clause *)

(** C9, counterexample. The usage word is "go", the next positional is "stop",
    and both flags are set: the claim has the state pass through with "go"
    suggested, the code returns no successor. *)
Lemma fixed_clause_mismatch_has_no_successor :
  ~ fixed_clause_as_claimed ex_fixed_impl ex_fixed_clause ex_after_prog
      (ex_fixed_ctx ["prog"; "stop"] ex_incomplete_flags).
Proof.
  intros [_ H].
  assert (Hn : ~ (has_more_positionals (ex_fixed_ctx ["prog"; "stop"] ex_incomplete_flags)
                    ex_after_prog = true /\
                  fixed_word_is ex_fixed_impl ex_fixed_clause
                    (argv_at (argv (ex_fixed_ctx ["prog"; "stop"] ex_incomplete_flags))
                       (idx_in_argv
                          (next_positional
                             (ex_fixed_ctx ["prog"; "stop"] ex_incomplete_flags)
                             ex_after_prog))))).
  { intros [_ Hw]. vm_compute in Hw. discriminate Hw. }
  specialize (H Hn). vm_compute in H. discriminate H.
Qed.

Lemma fixed_test_spec this node key :
  (string_size key =? rlength (range (fixed_word node)))
  && range_equals_string this (range (fixed_word node)) key 0 None = true
  <-> string_size key = rlength (range (fixed_word node)) /\ fixed_word_is this node key.
Proof.
  rewrite range_equals_string_in_range by lia. cbv zeta.
  unfold fixed_word_is, compare_eq, range_text, substr, string_size.
  rewrite andb_true_iff, Nat.eqb_eq, Nat.sub_0_r.
  split.
  - intros [Hs H]. split; [exact Hs|].
    rewrite <- Hs, Nat.eqb_refl in H. apply String.eqb_eq in H.
    rewrite substring_all in H. rewrite <- Hs. now symmetry.
  - intros [Hs H]. split; [exact Hs|].
    rewrite <- Hs, Nat.eqb_refl. apply String.eqb_eq.
    rewrite substring_all. rewrite Hs. now symmetry.
Qed.

(** C9, amended. When there is a next positional, of the length of the literal
    and equal to it, the positional is consumed, the count of the literal in
    the option map is incremented and the state is the one successor. When
    there is a next positional that is not the literal, there is no successor
    (and nothing is suggested). When there is no next positional, the literal
    is added to the suggestions if [flag_generate_suggestions] is set, and the
    state is a successor exactly when [flag_match_allow_incomplete] is set. *)
Theorem match_fixed_clause_cases this node st ctx :
  let key := argv_at (argv ctx) (idx_in_argv (next_positional ctx st)) in
  let is_literal :=
    string_size key = rlength (range (fixed_word node)) /\ fixed_word_is this node key in
  (has_more_positionals ctx st = true -> is_literal ->
   match_fixed_clause this node st ctx = [fixed_consumed st key]) /\
  (has_more_positionals ctx st = true -> ~ is_literal ->
   match_fixed_clause this node st ctx = []) /\
  (has_more_positionals ctx st = false ->
   match_fixed_clause this node st ctx = fixed_passed this node st ctx).
Proof.
  intros key is_literal. unfold match_fixed_clause. fold key.
  repeat split.
  - intros Hm Hl. rewrite Hm.
    apply (proj2 (fixed_test_spec this node key)) in Hl. rewrite Hl. reflexivity.
  - intros Hm Hl. rewrite Hm.
    destruct ((string_size key =? rlength (range (fixed_word node)))
              && range_equals_string this (range (fixed_word node)) key 0 None) eqn:E;
      [|reflexivity].
    exfalso. apply Hl. apply fixed_test_spec. exact E.
  - intros Hm. rewrite Hm. unfold fixed_passed.
    destruct (has_flag (flags ctx) flag_generate_suggestions); reflexivity.
Qed.

(** The three cases on argv "prog go", "prog stop" and "prog". *)
Lemma match_fixed_clause_cases_witness :
  match_fixed_clause ex_fixed_impl ex_fixed_clause ex_after_prog
    (ex_fixed_ctx ["prog"; "go"] ex_incomplete_flags)
  = [fixed_consumed ex_after_prog "go"] /\
  match_fixed_clause ex_fixed_impl ex_fixed_clause ex_after_prog
    (ex_fixed_ctx ["prog"; "stop"] ex_incomplete_flags) = [] /\
  match_fixed_clause ex_fixed_impl ex_fixed_clause ex_after_prog
    (ex_fixed_ctx ["prog"] ex_incomplete_flags)
  = fixed_passed ex_fixed_impl ex_fixed_clause ex_after_prog
      (ex_fixed_ctx ["prog"] ex_incomplete_flags).
Proof.
  split; [|split].
  - apply (proj1 (match_fixed_clause_cases ex_fixed_impl ex_fixed_clause ex_after_prog
                    (ex_fixed_ctx ["prog"; "go"] ex_incomplete_flags))).
    + reflexivity.
    + split; reflexivity.
  - apply (proj1 (proj2 (match_fixed_clause_cases ex_fixed_impl ex_fixed_clause
                           ex_after_prog
                           (ex_fixed_ctx ["prog"; "stop"] ex_incomplete_flags)))).
    + reflexivity.
    + intros [Hs _]. vm_compute in Hs. discriminate Hs.
  - apply (proj2 (proj2 (match_fixed_clause_cases ex_fixed_impl ex_fixed_clause
                           ex_after_prog (ex_fixed_ctx ["prog"] ex_incomplete_flags)))).
    reflexivity.
Defined.

(** ** The tokenizer *)

Lemma ex_impl_preflight :
  preflight ex_parse_usage (mk_docopt_impl ex_doc None [] [] [] [] [] ∅)
  = (true, ex_impl).
Proof. vm_compute. reflexivity. Qed.

Lemma parse_unseparated_short_idx this argv fl i opts res errs0 sugg :
  let r := parse_unseparated_short this argv fl i opts res errs0 sugg in
  if success r then idx r = i + 1 else idx r = i.
Proof.
  unfold parse_unseparated_short.
  match goal with
  | |- context [List.filter ?f opts] => destruct (List.filter f opts) as [|m [|m' ms]]
  end; simpl; try reflexivity.
  destruct (string_size (argv_at argv i) <=? 2); reflexivity.
Qed.

Lemma parse_short_idx this argv fl i opts res errs0 sugg :
  let r := parse_short this argv fl i opts res errs0 sugg in
  if success r then i < idx r else idx r = i.
Proof.
  unfold parse_short.
  destruct (parse_short_chars this (argv_at argv i) i opts
              (string_size (argv_at argv i) - 1) 1 [] errs0) as [[ofa e1] errored].
  destruct errored; simpl; [reflexivity|].
  destruct (parse_short_values i (length ofa) 0 ofa e1 false) as [e2 last].
  destruct last; simpl; [|lia].
  destruct (i + 1 <? length argv); simpl; [lia|].
  destruct (has_flag fl flag_generate_suggestions && is_some sugg); reflexivity.
Qed.

(** [parse_long] after the search for exact matches has found none, with
    prefix resolution. *)
Lemma parse_long_by_prefix this argv ty fl i opts res errs0 sugg :
  let arg := argv_at argv i in
  let arg_as_option := arg_as_long_option ty arg in
  let prefix_matches := long_prefix_matches this ty arg arg_as_option opts in
  long_matches this ty arg arg_as_option opts = [] ->
  has_flag fl flag_resolve_unambiguous_prefixes = true ->
  parse_long this argv ty fl i opts res errs0 sugg
  = if 1 <? length prefix_matches then
      parse_long_resolve this argv fl i arg_as_option []
        res (append_argv_error errs0 i error_ambiguous_prefix_match
               "Ambiguous prefix match" 0) sugg
    else if length prefix_matches =? 1 then
      parse_long_resolve this argv fl i arg_as_option prefix_matches res errs0 sugg
    else parse_long_resolve this argv fl i arg_as_option [] res errs0 sugg.
Proof.
  intros arg arg_as_option prefix_matches Hexact Hflag.
  unfold parse_long. fold arg. fold arg_as_option. rewrite Hexact. simpl length.
  rewrite Hflag. simpl. fold prefix_matches.
  destruct (1 <? length prefix_matches); [reflexivity|].
  destruct (length prefix_matches =? 1); reflexivity.
Qed.

(** A name without a dash has no description; "--version" has the one of the
    second option of the catalog. *)
Lemma description_for_option_first_match_witness :
  description_for_option ex_impl "version" = EmptyString /\
  description_for_option ex_impl "--version" = "Show version".
Proof.
  split.
  - apply (proj1 (description_for_option_first_match ex_impl "version")).
    right. vm_compute. discriminate.
  - destruct (proj2 (description_for_option_first_match ex_impl "--version"))
      as [(pre & o & post & Hl & _ & Hm & Hpre & ->) | [Hall _]].
    + intros [H | H]; vm_compute in H; [lia | congruence].
    + destruct pre as [|o1 [|o2 pre]].
      * exfalso. injection Hl as <- _. vm_compute in Hm. discriminate Hm.
      * injection Hl as _ <- _. vm_compute. reflexivity.
      * exfalso. inversion Hpre as [|? ? _ Hp2]; subst.
        inversion Hp2 as [|? ? Hbad _]; subst.
        injection Hl as _ <- _. destruct Hbad as [Hbad | Hbad]; vm_compute in Hbad;
          discriminate Hbad.
    + exfalso. inversion Hall as [|? ? _ Hp2]; subst.
      inversion Hp2 as [|? ? Hbad _]; subst.
      destruct Hbad as [Hbad | Hbad]; vm_compute in Hbad; discriminate Hbad.
Defined.

(** *** Errors are only added at the back *)

Lemma extends_errors_refl e : extends_errors e e.
Proof. destruct e; simpl; [exists []; now rewrite app_nil_r | exact I]. Qed.

Lemma extends_errors_trans e1 e2 e3 :
  extends_errors e1 e2 -> extends_errors e2 e3 -> extends_errors e1 e3.
Proof.
  destruct e1, e2, e3; simpl; try tauto.
  intros [m1 ->] [m2 ->]. exists (m1 ++ m2). now rewrite app_assoc.
Qed.

Lemma extends_errors_append e i c txt pos :
  extends_errors e (append_argv_error e i c txt pos).
Proof. destruct e; simpl; [eexists; reflexivity | exact I]. Qed.

Lemma extends_errors_append_trans e e' i c txt pos :
  extends_errors e e' -> extends_errors e (append_argv_error e' i c txt pos).
Proof. intros H. eapply extends_errors_trans; [exact H | apply extends_errors_append]. Qed.

Create HintDb errs.

#[local] Hint Resolve extends_errors_refl extends_errors_append
  extends_errors_append_trans : errs.

Ltac break_if :=
  match goal with
  | |- context [if ?b then _ else _] => destruct b
  | |- context [match ?x with _ => _ end] => destruct x
  end.

Lemma parse_long_resolve_errors this argv flags i arg_as_option matches
    res errs0 sugg :
  extends_errors errs0
    (out_errors (parse_long_resolve this argv flags i arg_as_option matches
                   res errs0 sugg)).
Proof.
  unfold parse_long_resolve.
  destruct matches as [|m ms]; simpl; [auto with errs|].
  destruct (has_value m), (has_value arg_as_option), (i + 1 <? length argv),
    (has_flag flags flag_generate_suggestions && is_some sugg),
    (has_flag flags flag_short_options_strict_separators),
    (separator_eqb (separator arg_as_option) (separator m));
    simpl; auto with errs.
Qed.

Lemma parse_long_errors this argv ty flags i options res errs0
    sugg :
  extends_errors errs0
    (out_errors (parse_long this argv ty flags i options res errs0
                   sugg)).
Proof.
  unfold parse_long.
  match goal with
  | |- context [let '(_, _) := ?c in _] => destruct c as [matches errs] eqn:E
  end.
  eapply extends_errors_trans; [|apply parse_long_resolve_errors].
  repeat match type of E with
         | context [if ?b then _ else _] => destruct b
         end; injection E as <- <-; auto with errs.
Qed.

Lemma parse_unseparated_short_errors this argv flags i options res errs0
    sugg :
  extends_errors errs0
    (out_errors (parse_unseparated_short this argv flags i options res
                   errs0 sugg)).
Proof.
  unfold parse_unseparated_short.
  repeat break_if; simpl; auto with errs.
Qed.

Lemma parse_short_chars_errors this arg i options rounds idx_in_arg acc errs0 :
  extends_errors errs0
    (snd (fst (parse_short_chars this arg i options rounds idx_in_arg acc errs0))).
Proof.
  revert idx_in_arg acc.
  induction rounds as [|rounds IH]; intros idx_in_arg acc; simpl; [auto with errs|].
  break_if; simpl; auto with errs.
Qed.

Lemma parse_short_values_errors i total k rest errs0 last :
  extends_errors errs0 (fst (parse_short_values i total k rest errs0 last)).
Proof.
  revert k errs0 last.
  induction rest as [|o rest IH]; intros k errs0 last; simpl; [auto with errs|].
  destruct (has_value o); [destruct (k + 1 =? total)|]; auto.
  eapply extends_errors_trans; [|apply IH]. auto with errs.
Qed.

Lemma parse_short_errors this argv flags i options res errs0
    sugg :
  extends_errors errs0
    (out_errors (parse_short this argv flags i options res errs0
                   sugg)).
Proof.
  unfold parse_short.
  pose proof (parse_short_chars_errors this (argv_at argv i) i options
                (string_size (argv_at argv i) - 1) 1 [] errs0) as H1.
  destruct (parse_short_chars this (argv_at argv i) i options
              (string_size (argv_at argv i) - 1) 1 [] errs0)
    as [[ofa e1] errored]. simpl in H1.
  destruct errored; simpl.
  - exact H1.
  - pose proof (parse_short_values_errors i (length ofa) 0 ofa e1 false) as H2.
    destruct (parse_short_values i (length ofa) 0 ofa e1 false) as [e2 last].
    simpl in H2.
    assert (H12 : extends_errors errs0 e2)
      by (eapply extends_errors_trans; eassumption).
    destruct last; simpl; [|exact H12].
    destruct (i + 1 <? length argv); simpl; [exact H12|].
    destruct (has_flag flags flag_generate_suggestions && is_some sugg);
      simpl; auto with errs.
Qed.

(** C7. For an argument with a single dash: when the long, the unseparated
    short and the combined short parsing all fail, the errors of the short
    path come first in the error list, then the errors of the long path, then
    the errors that were there; when one of the three succeeds the error list
    is as it was, so the errors of the failed branches are not reported. *)
Theorem single_dash_errors this argv options flags i st old :
  let arg := argv_at argv i in
  let r1 := parse_long this argv single_long flags i options
              (sep_resolved_options st) (Some []) (sep_suggestion st) in
  let r2 := parse_unseparated_short this argv flags (idx r1) options
              (out_result r1) (Some []) (out_suggestion r1) in
  let r3 := parse_short this argv flags (idx r2) options
              (out_result r2) (out_errors r2) (out_suggestion r2) in
  let st' := snd (separate_step this argv options flags i st) in
  str_equals "--" arg = false ->
  substr_equals "--" arg 2 = false ->
  substr_equals "-" arg 1 && (1 <? string_size arg) = true ->
  sep_errors st = Some old ->
  (success r1 = false -> success r2 = false -> success r3 = false ->
   exists long_errors short_errors,
     out_errors r1 = Some long_errors /\
     out_errors r3 = Some short_errors /\
     sep_errors st' = Some (short_errors ++ long_errors ++ old)) /\
  (success r1 = true \/ success r2 = true \/ success r3 = true ->
   sep_errors st' = Some old).
Proof.
  intros arg r1 r2 r3 st' H1 H2 H3 Hold.
  assert (Hst : st' = snd
            (if success r1 then
               (idx r1, mk_separated (sep_positionals st) (out_result r1) (sep_errors st)
                          (out_suggestion r1))
             else if success r2 then
               (idx r2, mk_separated (sep_positionals st) (out_result r2) (sep_errors st)
                          (out_suggestion r2))
             else if success r3 then
               (idx r3, mk_separated (sep_positionals st) (out_result r3) (sep_errors st)
                          (out_suggestion r3))
             else
               (idx r3 + 1,
                mk_separated (sep_positionals st) (out_result r3)
                  (insert_at_begin (insert_at_begin (sep_errors st) (out_errors r1))
                     (out_errors r3))
                  (out_suggestion r3)))).
  { unfold st', separate_step. fold arg. rewrite H1, H2, H3. reflexivity. }
  pose proof (parse_long_errors this argv single_long flags i options
                (sep_resolved_options st) (Some []) (sep_suggestion st)) as E1.
  fold r1 in E1.
  pose proof (parse_unseparated_short_errors this argv flags (idx r1) options
                (out_result r1) (Some []) (out_suggestion r1)) as E2.
  fold r2 in E2.
  pose proof (parse_short_errors this argv flags (idx r2) options
                (out_result r2) (out_errors r2) (out_suggestion r2)) as E3.
  fold r3 in E3.
  split.
  - intros F1 F2 F3. rewrite F1, F2, F3 in Hst. simpl in Hst.
    destruct (out_errors r1) as [long_errors|]; [|contradiction].
    destruct (out_errors r2) as [e2|]; [|contradiction].
    destruct (out_errors r3) as [short_errors|]; [|contradiction].
    exists long_errors, short_errors. repeat split.
    rewrite Hst, Hold. reflexivity.
  - intros Hs. rewrite Hst.
    destruct (success r1); [exact Hold|].
    destruct (success r2); [exact Hold|].
    destruct (success r3); [exact Hold|].
    destruct Hs as [Hs | [Hs | Hs]]; discriminate Hs.
Qed.

(** "-x" names no option: the error of the short path comes before the error
    of the long path. "-mfoo" fails as a long option and succeeds as an
    unseparated short one: no error is reported. *)
Lemma single_dash_errors_witness :
  sep_errors
    (snd (separate_step ex_impl ["prog"; "-x"] (all_options ex_impl) 0%N 1
            (mk_separated [mk_positional 0] [] (Some []) None)))
  = Some [mk_error (Some 1) (Some 1) error_unknown_option "Unknown short option";
          mk_error (Some 0) (Some 1) error_unknown_option "Unknown long option"] /\
  sep_errors
    (snd (separate_step ex_impl ["prog"; "-mfoo"] (all_options ex_impl) 0%N 1
            (mk_separated [mk_positional 0] [] (Some []) None)))
  = Some [].
Proof.
  split.
  - destruct (proj1 (single_dash_errors ex_impl ["prog"; "-x"] (all_options ex_impl)
                       0%N 1 (mk_separated [mk_positional 0] [] (Some []) None) []
                       eq_refl eq_refl eq_refl eq_refl))
      as (long_errors & short_errors & Hl & Hs & ->); try reflexivity.
    vm_compute in Hl. vm_compute in Hs.
    injection Hl as <-. injection Hs as <-. reflexivity.
  - apply (proj2 (single_dash_errors ex_impl ["prog"; "-mfoo"] (all_options ex_impl)
                    0%N 1 (mk_separated [mk_positional 0] [] (Some []) None) []
                    eq_refl eq_refl eq_refl eq_refl)).
    right. left. reflexivity.
Defined.

(** ** The matcher: progress and termination *)

Lemma count_true_le_length l : count_true l <= length l.
Proof. induction l as [|[] l IH]; simpl; lia. Qed.

Lemma count_true_insert_true l i : count_true l <= count_true (<[ i := true ]> l).
Proof.
  revert i. induction l as [|b l IH]; intros [|i]; simpl; try lia.
  - destruct b; lia.
  - specialize (IH i). destruct b; lia.
Qed.

Lemma progress_le_bound ctx U st : state_ok ctx U st -> progress st <= progress_bound ctx U.
Proof.
  intros (Hp & Hc & Hs). unfold progress, progress_bound.
  pose proof (count_true_le_length (consumed_options st)).
  pose proof (subseteq_size _ _ Hs). lia.
Qed.

Lemma state_ok_isb ctx U b st :
  state_ok (set_is_in_square_brackets ctx b) U st <-> state_ok ctx U st.
Proof. reflexivity. Qed.

Lemma successors_ok_nil ctx U st : successors_ok ctx U st [].
Proof. constructor. Qed.

Lemma successors_ok_self ctx U st : state_ok ctx U st -> successors_ok ctx U st [st].
Proof. intros H. constructor; [split; [exact H | lia] | constructor]. Qed.

Lemma successors_ok_app ctx U st l1 l2 :
  successors_ok ctx U st l1 -> successors_ok ctx U st l2 ->
  successors_ok ctx U st (l1 ++ l2).
Proof. intros H1 H2. apply Forall_app. split; assumption. Qed.

Lemma successors_ok_trans ctx U st st' l :
  progress st <= progress st' -> successors_ok ctx U st' l -> successors_ok ctx U st l.
Proof.
  intros Hle H. eapply Forall_impl; [exact H|]. simpl. intros s [Hs Hp]. split; [exact Hs | lia].
Qed.

Lemma suggest_ok ctx U st x :
  x ∈ U -> state_ok ctx U st ->
  state_ok ctx U (suggest st x) /\ progress st <= progress (suggest st x).
Proof.
  intros Hx (Hp & Hc & Hs). split.
  - repeat split; simpl; [exact Hp | exact Hc |].
    apply union_subseteq. split; [apply singleton_subseteq_l; exact Hx | exact Hs].
  - unfold progress. simpl.
    assert (size (suggested_next_arguments st)
            <= size ({[x]} ∪ suggested_next_arguments st))
      by (apply subseteq_size; set_solver).
    lia.
Qed.

Lemma suggest_all_ok ctx U st (names : list string_t) :
  Forall (fun x => x ∈ U) names -> state_ok ctx U st ->
  state_ok ctx U (fold_left suggest names st)
  /\ progress st <= progress (fold_left suggest names st).
Proof.
  revert st. induction names as [|x names IH]; intros st Hn Hst; simpl.
  - split; [exact Hst | lia].
  - inversion Hn as [|? ? Hx Hn']; subst.
    destruct (suggest_ok ctx U st x Hx Hst) as [Hok Hle].
    destruct (IH _ Hn' Hok) as [Hok' Hle']. split; [exact Hok' | lia].
Qed.

Section Matcher.

Variable this : docopt_impl.
Variable U : gset string_t.

Lemma match_one_option_ok ctx st0 w o :
  name_as_string o (source this) ∈ U ->
  (state_ok ctx U (walk_state w) /\ progress st0 <= progress (walk_state w)
   /\ Forall (fun o' => name_as_string o' (source this) ∈ U) (potential_suggestions w)) ->
  let w' := match_one_option this ctx w o in
  state_ok ctx U (walk_state w') /\ progress st0 <= progress (walk_state w')
  /\ Forall (fun o' => name_as_string o' (source this) ∈ U) (potential_suggestions w').
Proof.
  intros Ho (Hok & Hle & Hps). unfold match_one_option.
  destruct (negb (range_empty (corresponding_long_name o))
            && range_in (corresponding_long_name o) (matched_long_ranges w));
    [auto|].
  destruct (find_resolved this o (consumed_options (walk_state w))
              (resolved_options ctx) 0) as [k|].
  - simpl. destruct Hok as (Hp & Hc & Hs). repeat split; simpl.
    + exact Hp.
    + rewrite length_insert. exact Hc.
    + exact Hs.
    + unfold progress in *. simpl.
      pose proof (count_true_insert_true (consumed_options (walk_state w)) k). lia.
    + exact Hps.
  - destruct (has_flag (flags ctx) flag_generate_suggestions); simpl; [|auto].
    split; [exact Hok | split; [exact Hle |]].
    apply Forall_app. split; [exact Hps|]. constructor; [exact Ho|constructor].
Qed.

Lemma match_options_walk_ok ctx st0 l w :
  Forall (fun o => name_as_string o (source this) ∈ U) l ->
  (state_ok ctx U (walk_state w) /\ progress st0 <= progress (walk_state w)
   /\ Forall (fun o' => name_as_string o' (source this) ∈ U) (potential_suggestions w)) ->
  let w' := fold_left (match_one_option this ctx) l w in
  state_ok ctx U (walk_state w') /\ progress st0 <= progress (walk_state w')
  /\ Forall (fun o' => name_as_string o' (source this) ∈ U) (potential_suggestions w').
Proof.
  revert w. induction l as [|o l IH]; intros w Hl Hw; simpl; [exact Hw|].
  inversion Hl as [|? ? Ho Hl']; subst.
  apply IH; [exact Hl'|]. apply match_one_option_ok; assumption.
Qed.

Lemma make_suggestions_ok ctx st0 matched l acc :
  Forall (fun o => name_as_string o (source this) ∈ U) l ->
  state_ok ctx U (fst acc) /\ progress st0 <= progress (fst acc) ->
  let acc' := fold_left (make_suggestion this matched) l acc in
  state_ok ctx U (fst acc') /\ progress st0 <= progress (fst acc').
Proof.
  revert acc. induction l as [|o l IH]; intros acc Hl Hacc; simpl; [exact Hacc|].
  inversion Hl as [|? ? Ho Hl']; subst.
  apply IH; [exact Hl'|]. unfold make_suggestion.
  destruct (range_empty (corresponding_long_name o)
            || negb (range_in (corresponding_long_name o) matched)); [|exact Hacc].
  simpl. destruct Hacc as [Hok Hle].
  destruct (suggest_ok ctx U (fst acc) _ Ho Hok) as [Hok' Hle']. split; [exact Hok' | lia].
Qed.

Lemma match_options_ok ctx options_in_doc st :
  Forall (fun o => name_as_string o (source this) ∈ U) options_in_doc ->
  state_ok ctx U st ->
  successors_ok ctx U st (match_options this options_in_doc st ctx).
Proof.
  intros Hl Hst. unfold match_options.
  pose proof (match_options_walk_ok ctx st options_in_doc (mk_walk st [] [] false) Hl)
    as Hw.
  simpl in Hw.
  assert (Hw0 : state_ok ctx U st /\ progress st <= progress st
                /\ Forall (fun o' => name_as_string o' (source this) ∈ U) [])
    by (split; [exact Hst | split; [lia | constructor]]).
  specialize (Hw Hw0). clear Hw0.
  set (w := fold_left (match_one_option this ctx) options_in_doc (mk_walk st [] [] false))
    in *.
  destruct Hw as (Hok & Hle & Hps).
  destruct (has_flag (flags ctx) flag_generate_suggestions).
  - pose proof (make_suggestions_ok ctx st (matched_long_ranges w)
                  (potential_suggestions w) (walk_state w, false) Hps (conj Hok Hle))
      as Hs. simpl in Hs.
    destruct (fold_left (make_suggestion this (matched_long_ranges w))
                (potential_suggestions w) (walk_state w, false)) as [st' made].
    simpl in Hs. destruct (successful_match w || made); [|constructor].
    constructor; [exact Hs | constructor].
  - destruct (successful_match w || false); [|constructor].
    constructor; [split; assumption | constructor].
Qed.

Lemma match_option_clause_ok ctx node st :
  name_as_string (clause_option node) (source this) ∈ U ->
  state_ok ctx U st ->
  successors_ok ctx U st (match_option_clause this node st ctx).
Proof.
  intros Hn Hst. unfold match_option_clause.
  assert (H : successors_ok ctx U st
                (match_options this [clause_option node] st ctx)).
  { apply match_options_ok; [|exact Hst]. constructor; [exact Hn | constructor]. }
  destruct (match_options this [clause_option node] st ctx) as [|s l]; [|exact H].
  destruct (is_in_square_brackets ctx || has_flag (flags ctx) flag_match_allow_incomplete);
    [|constructor].
  destruct (has_flag (flags ctx) flag_generate_suggestions).
  - constructor; [apply suggest_ok; assumption | constructor].
  - apply successors_ok_self. exact Hst.
Qed.

Lemma pass_through_ok ctx st x :
  x ∈ U -> state_ok ctx U st ->
  successors_ok ctx U st
    (if has_flag (flags ctx) flag_match_allow_incomplete
     then [if has_flag (flags ctx) flag_generate_suggestions then suggest st x else st]
     else []).
Proof.
  intros Hx Hst.
  destruct (has_flag (flags ctx) flag_match_allow_incomplete); [|constructor].
  destruct (has_flag (flags ctx) flag_generate_suggestions).
  - constructor; [apply suggest_ok; assumption | constructor].
  - apply successors_ok_self. exact Hst.
Qed.

Lemma match_fixed_clause_ok ctx node st :
  range_text (source this) (range (fixed_word node)) ∈ U ->
  state_ok ctx U st ->
  successors_ok ctx U st (match_fixed_clause this node st ctx).
Proof.
  intros Hn Hst. unfold match_fixed_clause.
  destruct (has_more_positionals ctx st) eqn:Hm.
  - match goal with |- context [if ?b then _ else _] => destruct b end; [|constructor].
    unfold has_more_positionals in Hm. apply Nat.ltb_lt in Hm.
    destruct Hst as (Hp & Hc & Hs).
    constructor; [|constructor]. split.
    + repeat split; simpl; [lia | exact Hc | exact Hs].
    + unfold progress. simpl. lia.
  - pose proof (pass_through_ok ctx st _ Hn Hst) as H.
    destruct (has_flag (flags ctx) flag_generate_suggestions); exact H.
Qed.

Lemma match_variable_clause_ok ctx node st :
  range_text (source this) (range (variable_word node)) ∈ U ->
  state_ok ctx U st ->
  successors_ok ctx U st (match_variable_clause this node st ctx).
Proof.
  intros Hn Hst. unfold match_variable_clause.
  destruct (has_more_positionals ctx st) eqn:Hm.
  - unfold has_more_positionals in Hm. apply Nat.ltb_lt in Hm.
    destruct Hst as (Hp & Hc & Hs). simpl.
    constructor; [|constructor]. split.
    + repeat split; simpl; [lia | exact Hc | exact Hs].
    + unfold progress. simpl. lia.
  - pose proof (pass_through_ok ctx st _ Hn Hst) as H.
    destruct (has_flag (flags ctx) flag_generate_suggestions); exact H.
Qed.

Lemma match_simple_clause_ok ctx node st :
  simple_clause_names this node ⊆ U ->
  state_ok ctx U st ->
  successors_ok ctx U st (match_simple_clause this node st ctx).
Proof.
  intros Hn Hst. unfold match_simple_clause. unfold simple_clause_names in Hn.
  destruct (sc_option node) as [o|].
  - apply match_option_clause_ok; [set_solver | exact Hst].
  - destruct (sc_fixed node) as [f|].
    + apply match_fixed_clause_ok; [set_solver | exact Hst].
    + destruct (sc_variable node) as [v|]; [|constructor].
      apply match_variable_clause_ok; [set_solver | exact Hst].
Qed.

Lemma shortcut_names_in :
  shortcut_names this ⊆ U ->
  Forall (fun o => name_as_string o (source this) ∈ U) (shortcut_options this).
Proof.
  intros H. apply Forall_forall. intros o Ho. apply H.
  unfold shortcut_names. apply elem_of_list_to_set.
  apply list_elem_of_fmap. exists o. split; [reflexivity | exact Ho].
Qed.

Lemma match_options_shortcut_ok ctx st :
  shortcut_names this ⊆ U ->
  state_ok ctx U st ->
  successors_ok ctx U st (match_options_shortcut this st ctx).
Proof.
  intros Hn Hst. unfold match_options_shortcut.
  pose proof (shortcut_names_in Hn) as Hall.
  pose proof (match_options_ok ctx (shortcut_options this) st Hall Hst) as H.
  destruct (match_options this (shortcut_options this) st ctx) as [|s l]; [|exact H].
  destruct (has_flag (flags ctx) flag_generate_suggestions).
  - constructor; [|constructor].
    assert (Heq : forall (opts : option_list_t) s0,
               fold_left (fun s o => suggest s (name_as_string o (source this))) opts s0
               = fold_left suggest (map (fun o => name_as_string o (source this)) opts) s0).
    { intros opts. induction opts as [|o opts IH]; intros s0; simpl;
        [reflexivity | apply IH]. }
    rewrite Heq. apply suggest_all_ok; [|exact Hst].
    apply Forall_fmap. exact Hall.
  - apply successors_ok_self. exact Hst.
Qed.

End Matcher.

(** *** The loops *)

Section Loops.

Variable ctx : match_context_t.
Variable U : gset string_t.

(** Every state of the result of [try_match_list] comes from a state of the
    list whose progress it has at least; with [require_progress] it has
    more. *)
Lemma try_match_list_ok m l b :
  good_matcher ctx U m -> Forall (state_ok ctx U) l ->
  exists r, try_match_list m l b = Some r /\
    Forall (fun s' => state_ok ctx U s' /\
                      exists s, s ∈ l /\ progress s <= progress s' /\
                                (b = true -> progress s < progress s')) r.
Proof.
  intros Hm. induction l as [|st rest IH]; intros Hl; simpl.
  - exists []. split; [reflexivity | constructor].
  - inversion Hl as [|? ? Hst Hrest]; subst.
    destruct (Hm st Hst) as (cr & -> & Hcr).
    destruct (IH Hrest) as (total & -> & Htotal).
    eexists. split; [reflexivity|].
    apply Forall_app. split.
    + destruct b.
      * apply Forall_forall. intros s' Hs'.
        apply list_elem_of_In, filter_In in Hs'. destruct Hs' as [Hin Hne].
        apply negb_true_iff, Nat.eqb_neq in Hne.
        unfold successors_ok in Hcr. rewrite Forall_forall in Hcr.
        destruct (Hcr s' (proj2 (list_elem_of_In _ _) Hin)) as [Hok Hle].
        split; [exact Hok|]. exists st. split; [left | split; [exact Hle | intros _; lia]].
      * eapply Forall_impl; [exact Hcr|]. simpl. intros s' [Hok Hle].
        split; [exact Hok|]. exists st. split; [left | split; [exact Hle | discriminate]].
    + eapply Forall_impl; [exact Htotal|]. simpl.
      intros s' (Hok & s & Hin & Hle & Hlt). split; [exact Hok|].
      exists s. split; [right; exact Hin | split; assumption].
Qed.

(** The ellipsis loop ends before it runs out of rounds: the states of round
    [k] have progress [k] or more, and no state has more progress than
    [progress_bound]. *)
Lemma ellipsis_loop_ok m p0 :
  good_matcher ctx U m ->
  forall rounds k intermediate_states result,
    Forall (fun s => state_ok ctx U s /\ k <= progress s /\ p0 <= progress s)
      intermediate_states ->
    Forall (fun s => state_ok ctx U s /\ p0 <= progress s) result ->
    progress_bound ctx U < k + rounds ->
    exists r, ellipsis_loop m rounds intermediate_states result = Some r /\
              Forall (fun s => state_ok ctx U s /\ p0 <= progress s) r.
Proof.
  intros Hm. induction rounds as [|rounds IH]; intros k inter result Hi Hr Hb.
  - destruct inter as [|s inter]; simpl.
    + exists result. split; [reflexivity | exact Hr].
    + exfalso. inversion Hi as [|? ? (Hok & Hk & _) _]; subst.
      pose proof (progress_le_bound ctx U s Hok). lia.
  - destruct inter as [|s inter]; simpl.
    + exists result. split; [reflexivity | exact Hr].
    + assert (Hoks : Forall (state_ok ctx U) (s :: inter))
        by (eapply Forall_impl; [exact Hi | simpl; tauto]).
      destruct (try_match_list_ok m (s :: inter) true Hm Hoks) as (next & Hn & Hnext).
      simpl in Hn. rewrite Hn.
      apply (IH (k + 1)).
      * apply Forall_forall. intros s' Hs'. rewrite Forall_forall in Hnext, Hi.
        destruct (Hnext s' Hs') as (Hok & s0 & Hin & Hle & Hlt).
        destruct (Hi s0 Hin) as (_ & Hk & Hp0). specialize (Hlt eq_refl).
        split; [exact Hok | lia].
      * apply Forall_app. split; [exact Hr|].
        apply Forall_forall. intros s' Hs'. rewrite Forall_forall in Hnext, Hi.
        destruct (Hnext s' Hs') as (Hok & s0 & Hin & Hle & _).
        destruct (Hi s0 Hin) as (_ & _ & Hp0). split; [exact Hok | lia].
      * lia.
Qed.

Lemma match_repeated_ok m rounds has_ellipsis :
  good_matcher ctx U m -> progress_bound ctx U < rounds ->
  good_matcher ctx U (match_repeated m rounds has_ellipsis).
Proof.
  intros Hm Hb st Hst. unfold match_repeated.
  destruct (Hm st Hst) as (result & -> & Hres).
  destruct has_ellipsis; [|exists result; split; [reflexivity | exact Hres]].
  destruct (ellipsis_loop_ok m (progress st) Hm rounds 0 result result) as (r & Hr & Hall).
  - eapply Forall_impl; [exact Hres|]. simpl. intros s [Hok Hle].
    split; [exact Hok | split; [lia | exact Hle]].
  - exact Hres.
  - lia.
  - exists r. split; [exact Hr | exact Hall].
Qed.

Lemma good_matcher_nil : good_matcher ctx U (fun _ => Some []).
Proof. intros st _. exists []. split; [reflexivity | constructor]. Qed.

Lemma good_matcher_pure f :
  (forall st, state_ok ctx U st -> successors_ok ctx U st (f st)) ->
  good_matcher ctx U (fun st => Some (f st)).
Proof. intros H st Hst. eexists. split; [reflexivity | apply H; exact Hst]. Qed.

End Loops.

(** *** The match of a tree returns *)

Lemma option_all_Some {A} (P : A -> Prop) (a : A) : option_all A P (Some a) -> P a.
Proof. intros H. inversion H. assumption. Qed.

Section Tree.

Variable this : docopt_impl.
Variable U : gset string_t.

Hypothesis shortcuts_in : shortcut_names this ⊆ U.

Lemma acquire_ok ctx st :
  state_ok ctx U st -> has_more_positionals ctx st = true ->
  state_ok ctx U (snd (acquire_next_positional ctx st))
  /\ progress st <= progress (snd (acquire_next_positional ctx st)).
Proof.
  intros (Hp & Hc & Hs) Hm. unfold has_more_positionals in Hm. apply Nat.ltb_lt in Hm.
  split.
  - repeat split; simpl; [lia | exact Hc | exact Hs].
  - unfold progress. simpl. lia.
Qed.

Lemma match_usage_eq this' rounds pn al nu st ctx :
  match_usage this' rounds (Usage pn al nu) st ctx
  = if negb (has_more_positionals ctx st) then Some []
    else if token_empty pn then Some []
    else
      match
        match al with
        | Some a =>
            match_alternation_list this' rounds a
              (snd (acquire_next_positional ctx st)) ctx
        | None => Some [snd (acquire_next_positional ctx st)]
        end
      with
      | None => None
      | Some main_branch =>
          match
            match nu with
            | Some u => match_usage this' rounds u st ctx
            | None => Some []
            end
          with
          | None => None
          | Some next_branch => Some (main_branch ++ next_branch)
          end
      end.
Proof. reflexivity. Qed.

Lemma match_tree_ok :
  (forall u, usage_ok this U u) /\ (forall al, alternation_list_ok this U al) /\
  (forall oc, or_continuation_ok this U oc) /\
  (forall el, expression_list_ok this U el) /\
  (forall oel, opt_expression_list_ok this U oel) /\
  (forall e, expression_ok this U e).
Proof.
  apply tree_mutind.
  - (* usage *)
    intros pn al IHal nu IHnu rounds ctx Hn Hb st Hst. simpl in Hn.
    rewrite match_usage_eq.
    destruct (has_more_positionals ctx st) eqn:Hm; cbn [negb];
      [|exists []; split; [reflexivity | constructor]].
    destruct (token_empty pn); [exists []; split; [reflexivity | constructor]|].
    destruct (acquire_ok ctx st Hst Hm) as [Hok' Hle'].
    set (st' := snd (acquire_next_positional ctx st)) in *.
    assert (Hmain : exists r,
               match al with
               | Some a => match_alternation_list this rounds a st' ctx
               | None => Some [st']
               end = Some r /\ successors_ok ctx U st r).
    { destruct al as [a|].
      - apply option_all_Some in IHal.
        destruct (IHal rounds ctx ltac:(set_solver) Hb st' Hok') as (r & Hr & Hs).
        exists r. split; [exact Hr|]. eapply successors_ok_trans; eassumption.
      - exists [st']. split; [reflexivity|].
        eapply successors_ok_trans; [exact Hle' | apply successors_ok_self; exact Hok']. }
    destruct Hmain as (main & -> & Hmain).
    assert (Hnext : exists r,
               match nu with
               | Some u => match_usage this rounds u st ctx
               | None => Some []
               end = Some r /\ successors_ok ctx U st r).
    { destruct nu as [u|].
      - apply option_all_Some in IHnu.
        apply (IHnu rounds ctx ltac:(set_solver) Hb st Hst).
      - exists []. split; [reflexivity | constructor]. }
    destruct Hnext as (next & -> & Hnext).
    eexists. split; [reflexivity | apply successors_ok_app; assumption].
  - (* alternation_list *)
    intros el IHel oc IHoc rounds ctx Hn Hb st Hst. simpl in Hn |- *.
    assert (H1 : exists r,
               match el with
               | Some e => match_expression_list this rounds e st ctx
               | None => Some []
               end = Some r /\ successors_ok ctx U st r).
    { destruct el as [e|].
      - apply option_all_Some in IHel.
        apply (IHel rounds ctx ltac:(set_solver) Hb st Hst).
      - exists []. split; [reflexivity | constructor]. }
    destruct H1 as (r1 & -> & H1).
    assert (H2 : exists r,
               match oc with
               | Some o => match_or_continuation this rounds o st ctx
               | None => Some []
               end = Some r /\ successors_ok ctx U st r).
    { destruct oc as [o|].
      - apply option_all_Some in IHoc.
        apply (IHoc rounds ctx ltac:(set_solver) Hb st Hst).
      - exists []. split; [reflexivity | constructor]. }
    destruct H2 as (r2 & -> & H2).
    eexists. split; [reflexivity | apply successors_ok_app; assumption].
  - (* or_continuation *)
    intros al IHal rounds ctx Hn Hb st Hst. simpl in Hn |- *.
    destruct al as [a|].
    + apply option_all_Some in IHal. apply (IHal rounds ctx Hn Hb st Hst).
    + exists []. split; [reflexivity | constructor].
  - (* expression_list *)
    intros e IHe oel IHoel rounds ctx Hn Hb st Hst. simpl in Hn |- *.
    assert (H1 : exists r,
               match e with
               | Some e' => match_expression this rounds e' st ctx
               | None => Some []
               end = Some r /\ successors_ok ctx U st r).
    { destruct e as [e'|].
      - apply option_all_Some in IHe.
        apply (IHe rounds ctx ltac:(set_solver) Hb st Hst).
      - exists []. split; [reflexivity | constructor]. }
    destruct H1 as (r1 & -> & H1).
    destruct oel as [o|]; [|exists []; split; [reflexivity | constructor]].
    apply option_all_Some in IHoel.
    destruct (try_match_list_ok ctx U
                (fun s => match_opt_expression_list this rounds o s ctx) r1 false)
      as (r & Hr & Hall).
    + apply IHoel; [set_solver | exact Hb].
    + eapply Forall_impl; [exact H1 | simpl; tauto].
    + exists r. split; [exact Hr|].
      apply Forall_forall. intros s' Hs'. rewrite Forall_forall in Hall.
      destruct (Hall s' Hs') as (Hok & s & Hin & Hle & _).
      unfold successors_ok in H1. rewrite Forall_forall in H1.
      destruct (H1 s Hin) as [_ Hle1]. split; [exact Hok | lia].
  - (* opt_expression_list *)
    intros el IHel rounds ctx Hn Hb st Hst. simpl in Hn |- *.
    destruct el as [e|].
    + apply option_all_Some in IHel. apply (IHel rounds ctx Hn Hb st Hst).
    + exists [st]. split; [reflexivity | apply successors_ok_self; exact Hst].
  - (* expression *)
    intros production oe sc al IHal rounds ctx Hn Hb. simpl in Hn.
    assert (Hsc : good_matcher ctx U
                    (fun s => match sc with
                              | Some c => Some (match_simple_clause this c s ctx)
                              | None => Some []
                              end)).
    { destruct sc as [c|]; [|apply good_matcher_nil].
      apply good_matcher_pure. intros s Hs.
      apply match_simple_clause_ok; [set_solver | exact Hs]. }
    assert (Hal : forall b,
               good_matcher ctx U
                 (fun s => match al with
                           | Some a =>
                               match_alternation_list this rounds a s
                                 (set_is_in_square_brackets ctx b)
                           | None => Some []
                           end)).
    { intros b. destruct al as [a|]; [|apply good_matcher_nil].
      apply option_all_Some in IHal.
      apply (IHal rounds (set_is_in_square_brackets ctx b)); [set_solver | exact Hb]. }
    intros st Hst. simpl.
    destruct production as [|[|[|[|p]]]].
    + apply (match_repeated_ok ctx U _ rounds _ Hsc Hb st Hst).
    + apply (match_repeated_ok (set_is_in_square_brackets ctx false) U _ rounds _
               (Hal false) Hb st Hst).
    + destruct (match_repeated_ok (set_is_in_square_brackets ctx true) U _ rounds
                  (has_ellipsis_of oe) (Hal true) Hb st Hst) as (r & Hr & Hall).
      rewrite Hr. eexists. split; [reflexivity|].
      apply successors_ok_app; [exact Hall | apply successors_ok_self; exact Hst].
    + eexists. split; [reflexivity|].
      apply match_options_shortcut_ok; assumption.
    + exists []. split; [reflexivity | constructor].
Qed.

End Tree.

Lemma match_expression_repeated this rounds node st ctx :
  production_of node <= 2 ->
  match_expression this rounds node st ctx
  = match match_repeated (expression_child this rounds node ctx) rounds
            (ellipsis_of node) st with
    | None => None
    | Some result =>
        Some (if production_of node =? 2 then result ++ [st] else result)
    end.
Proof.
  destruct node as [production oe sc al]. simpl. intros Hp.
  destruct production as [|[|[|p]]]; simpl; try lia;
    match goal with |- context [match_repeated ?m ?r ?e ?s] =>
      destruct (match_repeated m r e s) end; reflexivity.
Qed.

Lemma init_state_ok ctx U : state_ok ctx U (init_state (resolved_options ctx)).
Proof.
  repeat split; simpl; [lia | apply repeat_length | set_solver].
Qed.

Lemma expression_child_good this U rounds node ctx :
  shortcut_names this ⊆ U -> expression_names this node ⊆ U ->
  progress_bound ctx U < rounds ->
  good_matcher ctx U (expression_child this rounds node ctx).
Proof.
  intros Hs Hn Hb. destruct node as [production oe sc al]. simpl in Hn |- *.
  destruct production as [|p].
  - destruct sc as [c|]; [|apply good_matcher_nil].
    apply good_matcher_pure. intros s Hok.
    apply match_simple_clause_ok; [set_solver | exact Hok].
  - destruct al as [a|]; [|apply good_matcher_nil].
    destruct (match_tree_ok this U Hs) as (_ & Hal & _).
    apply (Hal a rounds (set_is_in_square_brackets ctx (negb (S p =? 1))));
      [set_solver | exact Hb].
Qed.

(** The match of the tree returns when it is given [ellipsis_rounds] rounds,
    and its states are within the bounds. *)
Lemma match_usage_returns this tree ctx :
  exists result,
    match_usage this (ellipsis_rounds this ctx tree) tree
      (init_state (resolved_options ctx)) ctx = Some result /\
    Forall (state_ok ctx (doc_names this tree)) result.
Proof.
  destruct (match_tree_ok this (doc_names this tree)) as (Hu & _).
  { unfold doc_names. apply union_subseteq_r. }
  destruct (Hu tree (ellipsis_rounds this ctx tree) ctx) with
    (st := init_state (resolved_options ctx)) as (r & Hr & Hall).
  - unfold doc_names. set_solver.
  - unfold ellipsis_rounds, progress_bound, doc_names. lia.
  - apply init_state_ok.
  - exists r. split; [exact Hr|].
    eapply Forall_impl; [exact Hall | simpl; tauto].
Qed.

(** C3. In the ellipsis repetition of an expression (productions 0, 1 and 2)
    a re-application of the child to a list of states returns, and every
    state that it keeps has strictly more progress than a state of the list,
    the one it was derived from. Therefore the match of every such expression
    returns, and so does the match of the whole tree, for every tree, argv
    and flags. *)
Theorem ellipsis_progress_and_termination this tree argv flags pos resolved :
  let ctx := mk_context flags pos resolved argv false in
  let U := doc_names this tree in
  let rounds := ellipsis_rounds this ctx tree in
  (forall node b states,
     expression_names this node ⊆ U ->
     Forall (state_ok ctx U) states ->
     exists next_states,
       try_match_list
         (expression_child this rounds node (set_is_in_square_brackets ctx b))
         states true = Some next_states /\
       Forall (fun s' => exists s, s ∈ states /\ progress s < progress s')
         next_states) /\
  (forall node b st,
     expression_names this node ⊆ U ->
     state_ok ctx U st ->
     exists result,
       match_expression this rounds node st (set_is_in_square_brackets ctx b)
       = Some result) /\
  (exists result,
     match_usage this rounds tree (init_state resolved) ctx = Some result).
Proof.
  intros ctx U rounds.
  assert (Hs : shortcut_names this ⊆ U) by (unfold U, doc_names; apply union_subseteq_r).
  assert (Hb : forall b, progress_bound (set_is_in_square_brackets ctx b) U < rounds).
  { intros b. unfold rounds, ellipsis_rounds, progress_bound, U, doc_names. simpl. lia. }
  split; [|split].
  - intros node b states Hn Hstates.
    destruct (try_match_list_ok (set_is_in_square_brackets ctx b) U
                (expression_child this rounds node (set_is_in_square_brackets ctx b))
                states true) as (next & Hnext & Hall).
    + apply expression_child_good; [exact Hs | exact Hn | apply Hb].
    + exact Hstates.
    + exists next. split; [exact Hnext|].
      eapply Forall_impl; [exact Hall|]. simpl.
      intros s' (_ & s & Hin & _ & Hlt). exists s. split; [exact Hin | apply Hlt; reflexivity].
  - intros node b st Hn Hst.
    destruct (match_tree_ok this U Hs) as (_ & _ & _ & _ & _ & He).
    destruct (He node rounds (set_is_in_square_brackets ctx b) Hn (Hb b) st Hst)
      as (r & Hr & _).
    exists r. exact Hr.
  - destruct (match_usage_returns this tree ctx) as (r & Hr & _).
    exists r. exact Hr.
Qed.

(** On "prog a b a" with the tree of "prog (a | b)...": a further round on the
    state that has matched "prog a" makes progress, and the match returns. *)
Lemma ellipsis_progress_and_termination_witness :
  (exists next_states,
     try_match_list (expression_child ex_repeat_parsed 7 ex_repeat_group ex_repeat_ctx)
       [mk_state ∅ 2 [] ∅] true = Some next_states /\
     Forall (fun s' => 2 < progress s') next_states) /\
  (exists result,
     match_usage ex_repeat_parsed 7 ex_repeat_tree (init_state []) ex_repeat_ctx
     = Some result).
Proof.
  destruct (ellipsis_progress_and_termination ex_repeat_parsed ex_repeat_tree
              ex_repeat_argv 0%N (map mk_positional (seq 0 4)) [])
    as (H1 & _ & H3).
  split; [|exact H3].
  destruct (H1 ex_repeat_group false [mk_state ∅ 2 [] ∅]) as (next & Hn & Hall).
  - unfold doc_names. simpl. set_solver.
  - constructor; [|constructor]. repeat split; simpl; [lia | set_solver].
  - exists next. split; [exact Hn|].
    eapply Forall_impl; [exact Hall|]. simpl.
    intros s' (s & Hin & Hlt). apply list_elem_of_singleton in Hin. subst s.
    exact Hlt.
Defined.

(** ** Selection of the best state *)

Lemma best_state_loop_spec ctx rest :
  forall processed best_state_idx best_unused_args,
    (processed = [] /\ best_state_idx = None) \/
    (exists b stb, best_state_idx = Some b /\ is_best ctx processed b stb /\
                   best_unused_args = unused_arguments ctx stb) ->
    (processed ++ rest = [] /\
     best_state_loop ctx rest (length processed) best_state_idx best_unused_args
     = (None, best_unused_args)) \/
    (exists b stb, is_best ctx (processed ++ rest) b stb /\
       best_state_loop ctx rest (length processed) best_state_idx best_unused_args
       = (Some b, unused_arguments ctx stb)).
Proof.
  induction rest as [|st rest IH]; intros processed bi bu Hinv.
  - rewrite app_nil_r. simpl.
    destruct Hinv as [[-> ->] | (b & stb & -> & Hb & ->)].
    + left. split; reflexivity.
    + right. exists b, stb. split; [exact Hb | reflexivity].
  - right. simpl.
    assert (Happ : processed ++ st :: rest = (processed ++ [st]) ++ rest)
      by (rewrite <- app_assoc; reflexivity).
    assert (Hlen : length processed + 1 = length (processed ++ [st]))
      by (rewrite length_app; simpl; lia).
    assert (Hnew :
              (length processed = 0 \/
               length (unused_arguments ctx st) < length bu) ->
              is_best ctx (processed ++ [st]) (length processed) st).
    { intros Hc. split; [|split].
      - rewrite lookup_app_r by lia. rewrite Nat.sub_diag. reflexivity.
      - intros j s Hj. destruct (decide (j < length processed)) as [Hlt|Hge].
        + rewrite lookup_app_l in Hj by exact Hlt.
          destruct Hinv as [[-> _] | (b & stb & _ & (_ & Hmin & _) & ->)];
            [simpl in Hlt; lia|].
          destruct Hc as [Hc | Hc]; [lia|].
          specialize (Hmin j s Hj). lia.
        + rewrite lookup_app_r in Hj by lia.
          destruct (j - length processed) as [|k]; simpl in Hj; [|discriminate Hj].
          injection Hj as <-. lia.
      - intros j s Hlt Hj. rewrite lookup_app_l in Hj by exact Hlt.
        destruct Hinv as [[-> _] | (b & stb & _ & (_ & Hmin & _) & ->)];
          [simpl in Hlt; lia|].
        destruct Hc as [Hc | Hc]; [lia|].
        specialize (Hmin j s Hj). lia. }
    destruct ((length processed =? 0)
              || (length (unused_arguments ctx st) <? length bu)) eqn:E.
    + apply orb_true_iff in E. rewrite Nat.eqb_eq, Nat.ltb_lt in E.
      specialize (Hnew E).
      destruct (length (unused_arguments ctx st) =? 0) eqn:Ez.
      * apply Nat.eqb_eq in Ez. exists (length processed), st.
        split; [|reflexivity].
        destruct Hnew as (Hl & Hmin & Hstrict). split; [|split].
        -- rewrite Happ. rewrite lookup_app_l; [exact Hl|].
           apply lookup_lt_Some in Hl. exact Hl.
        -- intros j s _. lia.
        -- intros j s Hlt Hj. apply (Hstrict j s Hlt).
           rewrite Happ in Hj. rewrite lookup_app_l in Hj; [exact Hj|].
           rewrite <- Hlen. lia.
      * rewrite Hlen.
        destruct (IH (processed ++ [st]) (Some (length processed))
                    (unused_arguments ctx st)) as [[Hnil _] | H].
        -- right. exists (length processed), st. repeat split; apply Hnew.
        -- destruct processed; discriminate Hnil.
        -- rewrite Happ. exact H.
    + apply orb_false_iff in E. rewrite Nat.eqb_neq, Nat.ltb_ge in E.
      destruct E as [Hne Hge].
      destruct Hinv as [[-> _] | (b & stb & -> & (Hl & Hmin & Hstrict) & ->)];
        [simpl in Hne; lia|].
      rewrite Hlen.
      destruct (IH (processed ++ [st]) (Some b) (unused_arguments ctx stb))
        as [[Hnil _] | H].
      * right. exists b, stb. split; [reflexivity | split; [|reflexivity]].
        split; [|split].
        -- rewrite lookup_app_l; [exact Hl | apply lookup_lt_Some in Hl; exact Hl].
        -- intros j s Hj. destruct (decide (j < length processed)) as [Hlt|Hnlt].
           ++ rewrite lookup_app_l in Hj by exact Hlt. apply (Hmin j s Hj).
           ++ rewrite lookup_app_r in Hj by lia.
              destruct (j - length processed) as [|k]; simpl in Hj; [|discriminate Hj].
              injection Hj as <-. exact Hge.
        -- intros j s Hlt Hj. apply (Hstrict j s Hlt).
           apply lookup_lt_Some in Hl.
           rewrite lookup_app_l in Hj by lia. exact Hj.
      * destruct processed; discriminate Hnil.
      * rewrite Happ. exact H.
Qed.

(** What [match_argv] returns, by the states of the match. *)
Lemma match_argv_cases this tree argv flags pos resolved
    all_opts all_vars :
  parse_tree this = Some tree ->
  let ctx := mk_context flags pos resolved argv false in
  exists result,
    match_usage this (ellipsis_rounds this ctx tree) tree
      (init_state resolved) ctx = Some result /\
    ((result = [] /\
      match_argv this argv flags pos resolved all_opts all_vars
      = Some (finalize_option_map this ∅ all_opts all_vars flags,
              seq 0 (length argv))) \/
     (exists b stb,
        is_best ctx result b stb /\
        match_argv this argv flags pos resolved all_opts all_vars
        = Some (finalize_option_map this (option_map stb) all_opts all_vars flags,
                unused_arguments ctx stb) /\
        (has_flag flags flag_generate_empty_args = false ->
         finalize_option_map this (option_map stb) all_opts all_vars flags
         = option_map stb))).
Proof.
  intros Htree ctx.
  destruct (match_usage_returns this tree ctx) as (result & Hr & _).
  exists result. split; [exact Hr|].
  unfold match_argv. rewrite Htree. fold ctx.
  change (init_state (resolved_options ctx)) with (init_state resolved) in Hr.
  rewrite Hr.
  destruct (best_state_loop_spec ctx result [] None []) as [[Hnil Hl] | (b & stb & Hb & Hl)].
  - left. split; reflexivity.
  - left. simpl in Hnil, Hl. split; [exact Hnil|]. rewrite Hl. reflexivity.
  - right. exists b, stb. simpl in Hb, Hl. split; [exact Hb|]. rewrite Hl.
    destruct Hb as (Hlook & _). split.
    + rewrite (nth_lookup_Some _ _ _ _ Hlook). reflexivity.
    + intros Hf. unfold finalize_option_map. rewrite Hf. reflexivity.
Qed.

(** C1. [match_argv] returns: the match of the tree produces a list of
    states. When the list is empty, the map is the finalized empty map and
    the unused indexes are all the indexes of argv, in order. Otherwise the
    result is made of one state of the list: no state of the list has fewer
    unused arguments, every state before it has more (of the states with the
    fewest unused arguments the first is taken), the map is the finalized
    option map of that state (the option map itself without
    [flag_generate_empty_args]) and the unused indexes are those of that
    state. *)
Theorem match_argv_selects_fewest_unused this tree argv flags pos resolved
    all_opts all_vars :
  parse_tree this = Some tree ->
  let ctx := mk_context flags pos resolved argv false in
  exists result,
    match_usage this (ellipsis_rounds this ctx tree) tree
      (init_state resolved) ctx = Some result /\
    ((result = [] /\
      match_argv this argv flags pos resolved all_opts all_vars
      = Some (finalize_option_map this ∅ all_opts all_vars flags,
              seq 0 (length argv))) \/
     (exists b stb,
        is_best ctx result b stb /\
        match_argv this argv flags pos resolved all_opts all_vars
        = Some (finalize_option_map this (option_map stb) all_opts all_vars flags,
                unused_arguments ctx stb) /\
        (has_flag flags flag_generate_empty_args = false ->
         finalize_option_map this (option_map stb) all_opts all_vars flags
         = option_map stb))).
Proof.
  intros Htree. apply match_argv_cases. exact Htree.
Qed.

Lemma match_argv_selects_fewest_unused_witness :
  parse_tree ex_repeat_parsed = Some ex_repeat_tree /\
  exists result,
    match_usage ex_repeat_parsed
      (ellipsis_rounds ex_repeat_parsed ex_repeat_ctx ex_repeat_tree) ex_repeat_tree
      (init_state []) ex_repeat_ctx = Some result /\
    ((result = [] /\
      match_argv ex_repeat_parsed ex_repeat_argv 0%N (map mk_positional (seq 0 4))
        [] [] []
      = Some (finalize_option_map ex_repeat_parsed ∅ [] [] 0%N,
              seq 0 (length ex_repeat_argv))) \/
     (exists b stb,
        is_best ex_repeat_ctx result b stb /\
        match_argv ex_repeat_parsed ex_repeat_argv 0%N (map mk_positional (seq 0 4))
          [] [] []
        = Some (finalize_option_map ex_repeat_parsed (option_map stb) [] [] 0%N,
                unused_arguments ex_repeat_ctx stb) /\
        (has_flag 0%N flag_generate_empty_args = false ->
         finalize_option_map ex_repeat_parsed (option_map stb) [] [] 0%N
         = option_map stb))).
Proof.
  split; [reflexivity|].
  exact (match_argv_selects_fewest_unused ex_repeat_parsed ex_repeat_tree
           ex_repeat_argv 0%N (map mk_positional (seq 0 4)) [] [] [] eq_refl).
Defined.

(** ** Unused arguments *)

Lemma fold_left_flat_map {A B C} (g : A -> C -> A) (h : B -> list C) (l : list B)
    (init : A) :
  fold_left (fun u x => fold_left g (h x) u) l init = fold_left g (flat_map h l) init.
Proof.
  revert init. induction l as [|x l IH]; intros init; simpl; [reflexivity|].
  rewrite fold_left_app. apply IH.
Qed.

(** The bit at [i] after the bits at [keys] were set to [b]. *)
Lemma mark_all_lookup (b : bool) (keys : list nat) (init : list bool) (i : nat) :
  fold_left (fun u k => mark u k b) keys init !! i
  = if decide (i ∈ keys /\ i < length init) then Some b else init !! i.
Proof.
  revert init. induction keys as [|k keys IH]; intros init; simpl.
  - destruct (decide (i ∈ [] /\ i < length init)) as [[H _]|_]; [|reflexivity].
    inversion H.
  - rewrite IH. unfold mark. rewrite length_insert.
    destruct (decide (i ∈ keys /\ i < length init)) as [[H1 H2]|Hn].
    + rewrite decide_True; [reflexivity | split; [right; exact H1 | exact H2]].
    + destruct (decide (i = k)) as [->|Hne].
      * destruct (decide (k < length init)) as [Hlt|Hge].
        -- rewrite list_lookup_insert_eq by exact Hlt.
           rewrite decide_True; [reflexivity | split; [left | exact Hlt]].
        -- rewrite list_insert_ge by lia.
           rewrite decide_False; [reflexivity | tauto].
      * rewrite list_lookup_insert_ne by congruence.
        rewrite decide_False; [reflexivity|].
        intros [H1 H2]. apply Hn. split; [|exact H2].
        inversion H1; subst; [congruence | assumption].
Qed.

Lemma mark_all_length (b : bool) (keys : list nat) (init : list bool) :
  length (fold_left (fun u k => mark u k b) keys init) = length init.
Proof.
  revert init. induction keys as [|k keys IH]; intros init; simpl; [reflexivity|].
  rewrite IH. apply length_insert.
Qed.

Lemma mark_positionals_eq ctx st used :
  mark_positionals ctx st used
  = fold_left (fun u k => mark u k true) (consumed_positional_slots ctx st) used.
Proof.
  unfold mark_positionals, consumed_positional_slots.
  generalize (firstn (next_positional_index st) (positionals ctx)).
  intros l. revert used. induction l as [|p l IH]; intros used; simpl;
    [reflexivity | apply IH].
Qed.

Lemma mark_consumed_eq ctx st used :
  mark_consumed ctx st used
  = fold_left (fun u k => mark u k true) (consumed_option_slots ctx st) used.
Proof.
  unfold mark_consumed, consumed_option_slots.
  rewrite <- fold_left_flat_map.
  generalize (combine (consumed_options st) (resolved_options ctx)).
  intros l. revert used. induction l as [|[b r] l IH]; intros used; simpl;
    [reflexivity|].
  rewrite <- IH. f_equal.
  destruct b; simpl; [|reflexivity].
  unfold value_slot. destruct (value_idx_in_argv r); reflexivity.
Qed.

Lemma clear_unconsumed_eq ctx st used :
  clear_unconsumed ctx st used
  = fold_left (fun u k => mark u k false) (unconsumed_name_slots ctx st) used.
Proof.
  unfold clear_unconsumed, unconsumed_name_slots.
  rewrite <- fold_left_flat_map.
  generalize (combine (consumed_options st) (resolved_options ctx)).
  intros l. revert used. induction l as [|[b r] l IH]; intros used; simpl;
    [reflexivity|].
  rewrite <- IH. f_equal. destruct b; reflexivity.
Qed.

Lemma unset_indexes_spec used base i :
  i ∈ unset_indexes used base <-> exists k, i = base + k /\ used !! k = Some false.
Proof.
  revert base. induction used as [|b used IH]; intros base; simpl.
  - split; [intros H; inversion H | intros (k & _ & H); discriminate H].
  - assert (Hrest : i ∈ unset_indexes used (base + 1)
                    <-> exists k, i = base + S k /\ (b :: used) !! S k = Some false).
    { rewrite IH. split; intros (k & -> & H); exists k; (split; [lia | exact H]). }
    destruct b; simpl negb; cbv iota.
    + rewrite Hrest. split.
      * intros (k & -> & H). exists (S k). split; [reflexivity | exact H].
      * intros ([|k] & -> & H); [discriminate H|]. exists k. split; [reflexivity | exact H].
    + rewrite elem_of_cons, Hrest. split.
      * intros [-> | (k & -> & H)].
        -- exists 0. split; [lia | reflexivity].
        -- exists (S k). split; [reflexivity | exact H].
      * intros ([|k] & -> & H).
        -- left. lia.
        -- right. exists k. split; [reflexivity | exact H].
Qed.

Lemma repeat_lookup {A} (x : A) n i : i < n -> repeat x n !! i = Some x.
Proof.
  revert i. induction n as [|n IH]; intros [|i] H; simpl; try lia; [reflexivity|].
  apply IH. lia.
Qed.

(** Which indexes are unused: those of argv that are the name slot of an
    option that was not consumed, or belong to no consumed option or
    positional. *)
Lemma unused_arguments_spec ctx st i :
  i ∈ unused_arguments ctx st <->
  i < length (argv ctx) /\
  (i ∈ unconsumed_name_slots ctx st \/
   ((i ∉ consumed_option_slots ctx st) /\ (i ∉ consumed_positional_slots ctx st))).
Proof.
  unfold unused_arguments, used_indexes_of.
  rewrite unset_indexes_spec.
  assert (Hk : forall l : list bool,
             (exists k, i = 0 + k /\ l !! k = Some false) <-> l !! i = Some false).
  { intros l. split; [intros (k & -> & H); exact H | intros H; exists i; split; [lia | exact H]]. }
  rewrite Hk. clear Hk.
  rewrite clear_unconsumed_eq, mark_consumed_eq, mark_positionals_eq.
  rewrite !mark_all_lookup, !mark_all_length, repeat_length.
  destruct (decide (i < length (argv ctx))) as [Hlt|Hge].
  - assert (Hrep : repeat false (length (argv ctx)) !! i = Some false).
    { apply repeat_lookup. exact Hlt. }
    rewrite Hrep.
    destruct (decide (i ∈ unconsumed_name_slots ctx st /\ i < length (argv ctx)))
      as [[Hu _]|Hu].
    { split; [intros _; split; [exact Hlt | left; exact Hu] | reflexivity]. }
    destruct (decide (i ∈ consumed_option_slots ctx st /\ i < length (argv ctx)))
      as [[Hc _]|Hc].
    { split; [discriminate | intros [_ [Hx | [Hx _]]]; tauto]. }
    destruct (decide (i ∈ consumed_positional_slots ctx st /\ i < length (argv ctx)))
      as [[Hp _]|Hp].
    { split; [discriminate | intros [_ [Hx | [_ Hx]]]; tauto]. }
    split; [|reflexivity].
    intros _. split; [exact Hlt|]. right. split; intros Hx; tauto.
  - rewrite lookup_ge_None_2 by (rewrite repeat_length; lia).
    rewrite !decide_False by tauto.
    split; [discriminate | intros [Hx _]; lia].
Qed.





(** ** Finalization *)

Lemma map_ref_insert_eq (m : option_map_t) k a : map_ref (<[ k := a ]> m) k = a.
Proof. unfold map_ref. rewrite lookup_insert_eq. reflexivity. Qed.

Lemma map_ref_insert_ne (m : option_map_t) k k' a :
  k <> k' -> map_ref (<[ k := a ]> m) k' = map_ref m k'.
Proof. intros H. unfold map_ref. rewrite lookup_insert_ne by exact H. reflexivity. Qed.

Lemma finalize_option_keeps this (m : option_map_t) o k :
  is_Some (m !! k) -> is_Some (finalize_option this m o !! k).
Proof.
  intros H. unfold finalize_option.
  destruct (decide (longest_name_as_string o (source this) = k)) as [<-|Hne].
  - rewrite lookup_insert_eq. eauto.
  - rewrite lookup_insert_ne by exact Hne. exact H.
Qed.

Lemma finalize_option_adds this (m : option_map_t) o :
  is_Some (finalize_option this m o !! longest_name_as_string o (source this)).
Proof. unfold finalize_option. rewrite lookup_insert_eq. eauto. Qed.

Lemma touch_entry_keeps this (m : option_map_t) r k :
  is_Some (m !! k) -> is_Some (touch_entry this m r !! k).
Proof.
  intros H. unfold touch_entry.
  destruct (decide (range_text (source this) r = k)) as [<-|Hne].
  - rewrite lookup_insert_eq. eauto.
  - rewrite lookup_insert_ne by exact Hne. exact H.
Qed.

Lemma touch_entry_adds this (m : option_map_t) r :
  is_Some (touch_entry this m r !! range_text (source this) r).
Proof. unfold touch_entry. rewrite lookup_insert_eq. eauto. Qed.

Lemma touch_entry_map_ref this (m : option_map_t) r k :
  map_ref (touch_entry this m r) k = map_ref m k.
Proof.
  unfold touch_entry.
  destruct (decide (range_text (source this) r = k)) as [<-|Hne].
  - apply map_ref_insert_eq.
  - apply map_ref_insert_ne. exact Hne.
Qed.

(** A fold of steps that only add entries keeps the entries and has one for
    every element. *)
Lemma fold_entries {X} (step : option_map_t -> X -> option_map_t) (key : X -> string_t)
    (l : list X) (m : option_map_t) :
  (forall m x k, is_Some (m !! k) -> is_Some (step m x !! k)) ->
  (forall m x, is_Some (step m x !! key x)) ->
  (forall k, is_Some (m !! k) -> is_Some (fold_left step l m !! k)) /\
  (forall x, x ∈ l -> is_Some (fold_left step l m !! key x)).
Proof.
  intros Hkeep Hadd. revert m. induction l as [|y l IH]; intros m; simpl.
  - split; [auto | intros x Hx; inversion Hx].
  - destruct (IH (step m y)) as [IH1 IH2]. split.
    + intros k Hk. apply IH1, Hkeep, Hk.
    + intros x Hx. apply elem_of_cons in Hx. destruct Hx as [-> | Hx].
      * apply IH1, Hadd.
      * apply IH2, Hx.
Qed.

(** An entry with a value is not changed by the options that follow. *)
Lemma finalize_options_fixed this l (m : option_map_t) k :
  values (map_ref m k) <> [] ->
  map_ref (fold_left (finalize_option this) l m) k = map_ref m k.
Proof.
  revert m. induction l as [|o l IH]; intros m Hv; simpl; [reflexivity|].
  assert (Hstep : map_ref (finalize_option this m o) k = map_ref m k).
  { unfold finalize_option.
    destruct (decide (longest_name_as_string o (source this) = k)) as [<-|Hne].
    - rewrite map_ref_insert_eq.
      destruct (values (map_ref m (longest_name_as_string o (source this)))) eqn:E;
        [congruence|].
      simpl. rewrite andb_false_r. destruct (map_ref m _); simpl in *; congruence.
    - apply map_ref_insert_ne. exact Hne. }
  rewrite IH; rewrite Hstep; [reflexivity | exact Hv].
Qed.

Lemma touch_entries_map_ref this l (m : option_map_t) k :
  map_ref (fold_left (touch_entry this) l m) k = map_ref m k.
Proof.
  revert m. induction l as [|r l IH]; intros m; simpl; [reflexivity|].
  rewrite IH. apply touch_entry_map_ref.
Qed.

(** An entry is not changed by options that are bound under other names. *)
Lemma finalize_options_other this l (m : option_map_t) k :
  Forall (fun o => longest_name_as_string o (source this) <> k
                   \/ range_empty (default_value_range o) = true) l ->
  map_ref (fold_left (finalize_option this) l m) k = map_ref m k.
Proof.
  revert m. induction l as [|o l IH]; intros m Hl; simpl; [reflexivity|].
  inversion Hl as [|? ? Ho Hl']; subst. rewrite (IH _ Hl').
  unfold finalize_option.
  destruct (decide (longest_name_as_string o (source this) = k)) as [<-|Hne].
  - rewrite map_ref_insert_eq. destruct Ho as [Ho | Ho]; [congruence|].
    rewrite Ho. simpl. destruct (map_ref m _); reflexivity.
  - apply map_ref_insert_ne. exact Hne.
Qed.

Lemma finalize_options_count this l (m : option_map_t) k :
  count (map_ref (fold_left (finalize_option this) l m) k) = count (map_ref m k).
Proof.
  revert m. induction l as [|o l IH]; intros m; simpl; [reflexivity|].
  rewrite IH. unfold finalize_option.
  destruct (decide (longest_name_as_string o (source this) = k)) as [<-|Hne].
  - rewrite map_ref_insert_eq.
    destruct (negb (range_empty (default_value_range o))
              && (length (values (map_ref m (longest_name_as_string o (source this))))
                  =? 0)); reflexivity.
  - rewrite map_ref_insert_ne by exact Hne. reflexivity.
Qed.

(** ** Preflight *)

Lemma erase_at_length {A} (l : list A) i : i < length l -> length (erase_at l i) = length l - 1.
Proof.
  intros H. unfold erase_at. rewrite length_app, length_take, length_drop. lia.
Qed.

Lemma erase_at_firstn {A} (l : list A) i : i < length l -> firstn i (erase_at l i) = firstn i l.
Proof.
  intros H. unfold erase_at. rewrite take_app_length'; [reflexivity|].
  rewrite length_take. lia.
Qed.

Lemma erase_at_skipn {A} (l : list A) i : i < length l -> skipn i (erase_at l i) = skipn (i + 1) l.
Proof.
  intros H. unfold erase_at. rewrite drop_app_length'; [reflexivity|].
  rewrite length_take. lia.
Qed.

Lemma skipn_nth {A} (l : list A) i d : i < length l -> skipn i l = nth i l d :: skipn (i + 1) l.
Proof.
  revert i. induction l as [|x l IH]; intros [|i] H; simpl in *; try lia.
  - reflexivity.
  - apply IH. lia.
Qed.

(** With as many rounds as there are options after [i], the loop has gone
    through all of them. *)
Lemma excise_loop_filter this usage_options rounds :
  forall i shortcuts,
    length shortcuts - i <= rounds ->
    excise_loop this usage_options rounds i shortcuts
    = firstn i shortcuts
      ++ List.filter (not_in_usage this usage_options) (skipn i shortcuts).
Proof.
  induction rounds as [|rounds IH]; intros i shortcuts Hr; simpl.
  - rewrite skipn_all2 by lia. rewrite firstn_all2 by lia. simpl.
    now rewrite app_nil_r.
  - destruct (i <? length shortcuts) eqn:Hi.
    + apply Nat.ltb_lt in Hi.
      set (x := option_at shortcuts i).
      assert (Hs : skipn i shortcuts = x :: skipn (i + 1) shortcuts)
        by (apply skipn_nth; exact Hi).
      assert (Hf : List.filter (not_in_usage this usage_options) (skipn i shortcuts)
                   = if not_in_usage this usage_options x
                     then x :: List.filter (not_in_usage this usage_options)
                                 (skipn (i + 1) shortcuts)
                     else List.filter (not_in_usage this usage_options)
                            (skipn (i + 1) shortcuts))
        by (rewrite Hs; reflexivity).
      rewrite Hf. unfold not_in_usage at 1.
      destruct (existsb (fun usage_opt => options_have_same_name this x usage_opt)
                  usage_options); simpl.
      * rewrite IH by (rewrite erase_at_length by exact Hi; lia).
        rewrite erase_at_firstn, erase_at_skipn by exact Hi. reflexivity.
      * rewrite IH by lia.
        assert (Ht : firstn (i + 1) shortcuts = firstn i shortcuts ++ [x]).
        { rewrite <- (firstn_skipn i shortcuts) at 1. rewrite Hs.
          rewrite firstn_app, firstn_firstn.
          rewrite Nat.min_r by lia. rewrite length_take.
          replace (i + 1 - i `min` length shortcuts) with 1 by lia.
          reflexivity. }
        rewrite Ht, <- app_assoc. reflexivity.
    + apply Nat.ltb_ge in Hi.
      rewrite skipn_all2 by lia. rewrite firstn_all2 by lia. simpl.
      now rewrite app_nil_r.
Qed.

(** What a successful preflight leaves in the instance. *)
Lemma preflight_true parse_usage this this' :
  preflight parse_usage this = (true, this') ->
  exists shortcuts tree,
    parse_tree this' = Some tree /\
    source this' = source this /\
    all_variables this' = variables (collect_options_and_variables tree) /\
    all_static_arguments this' = fixeds (collect_options_and_variables tree) /\
    shortcut_options this'
    = excise_loop (clean_up this) (options (collect_options_and_variables tree))
        (length shortcuts) 0 shortcuts.
Proof.
  unfold preflight.
  destruct (length (source_ranges_for_section (clean_up this) "Usage:" false) =? 0);
    [discriminate|].
  destruct (1 <? length (source_ranges_for_section (clean_up this) "Usage:" false));
    [discriminate|].
  destruct (parse_options_spec (clean_up this) (errors (clean_up this))) as [sc e1].
  destruct (uniqueize_options (clean_up this) sc true e1) as [sc' e2].
  destruct (parse_usage _ _ sc' e2) as [[t|] e3]; [|discriminate].
  destruct (uniqueize_options (clean_up this) _ false e3) as [all e4].
  destruct (parse_conditions_spec (clean_up this) e4) as [conds e5].
  intros [= <-]. exists sc', t. simpl. repeat split; reflexivity.
Qed.

(** ** The collector meets every clause of the usage *)

Lemma collected_after_app c l1 l2 :
  collected_after c (l1 ++ l2) = collected_after (collected_after c l1) l2.
Proof. apply fold_left_app. Qed.

(** The walk of the collector over the tree meets the clauses of the tree,
    in their order. *)
Lemma visit_tree_clauses :
  (forall u c, visit_usage u c = collected_after c (usage_clauses u)) /\
  (forall n c, visit_alternation_list n c = collected_after c (alternation_list_clauses n)) /\
  (forall n c, visit_or_continuation n c = collected_after c (or_continuation_clauses n)) /\
  (forall n c, visit_expression_list n c = collected_after c (expression_list_clauses n)) /\
  (forall n c, visit_opt_expression_list n c
               = collected_after c (opt_expression_list_clauses n)) /\
  (forall n c, visit_expression n c = collected_after c (expression_clauses n)).
Proof.
  apply tree_mutind.
  - intros pn al Hal nu Hnu c. simpl. rewrite collected_after_app.
    destruct nu as [u|]; [apply option_all_Some in Hnu; rewrite Hnu | clear Hnu];
      (destruct al as [a|]; [apply option_all_Some in Hal; rewrite Hal | clear Hal]);
      reflexivity.
  - intros el Hel oc Hoc c. simpl. rewrite collected_after_app.
    destruct oc as [o|]; [apply option_all_Some in Hoc; rewrite Hoc | clear Hoc];
      (destruct el as [e|]; [apply option_all_Some in Hel; rewrite Hel | clear Hel]);
      reflexivity.
  - intros al Hal c. simpl.
    destruct al as [a|]; [apply option_all_Some in Hal; rewrite Hal|]; reflexivity.
  - intros e He oel Hoel c. simpl. rewrite collected_after_app.
    destruct oel as [o|]; [apply option_all_Some in Hoel; rewrite Hoel | clear Hoel];
      (destruct e as [e'|]; [apply option_all_Some in He; rewrite He | clear He]);
      reflexivity.
  - intros el Hel c. simpl.
    destruct el as [e|]; [apply option_all_Some in Hel; rewrite Hel|]; reflexivity.
  - intros pr oe sc al Hal c. simpl. rewrite collected_after_app.
    destruct al as [a|]; [apply option_all_Some in Hal; rewrite Hal | clear Hal];
      destruct sc; reflexivity.
Qed.

(** Meeting a clause keeps what was collected and adds the variable and the
    fixed word of the clause. *)
Lemma accept_simple_clause_collects c sc :
  (forall r, r ∈ variables c -> r ∈ variables (accept_simple_clause c sc)) /\
  (forall r, r ∈ fixeds c -> r ∈ fixeds (accept_simple_clause c sc)) /\
  (forall v, sc_variable sc = Some v ->
     range (variable_word v) ∈ variables (accept_simple_clause c sc)) /\
  (forall f, sc_fixed sc = Some f ->
     range (fixed_word f) ∈ fixeds (accept_simple_clause c sc)).
Proof.
  unfold accept_simple_clause.
  destruct (sc_option sc), (sc_fixed sc), (sc_variable sc); simpl;
    repeat split; intros; simplify_eq;
    rewrite ?elem_of_app, ?list_elem_of_singleton; auto.
Qed.

Lemma collected_after_collects l :
  forall c,
    (forall r, r ∈ variables c -> r ∈ variables (collected_after c l)) /\
    (forall r, r ∈ fixeds c -> r ∈ fixeds (collected_after c l)) /\
    (forall sc v, sc ∈ l -> sc_variable sc = Some v ->
       range (variable_word v) ∈ variables (collected_after c l)) /\
    (forall sc f, sc ∈ l -> sc_fixed sc = Some f ->
       range (fixed_word f) ∈ fixeds (collected_after c l)).
Proof.
  induction l as [|x l IH]; intros c; simpl.
  - repeat split; auto; intros sc ? Hin; inversion Hin.
  - destruct (IH (accept_simple_clause c x)) as (I1 & I2 & I3 & I4).
    destruct (accept_simple_clause_collects c x) as (A1 & A2 & A3 & A4).
    unfold collected_after in *. simpl.
    repeat split.
    + intros r Hr. apply I1, A1, Hr.
    + intros r Hr. apply I2, A2, Hr.
    + intros sc v Hin Hv. apply elem_of_cons in Hin. destruct Hin as [-> | Hin].
      * apply I1, A3, Hv.
      * exact (I3 sc v Hin Hv).
    + intros sc f Hin Hf. apply elem_of_cons in Hin. destruct Hin as [-> | Hin].
      * apply I2, A4, Hf.
      * exact (I4 sc f Hin Hf).
Qed.

(** Every variable and every fixed word that appears in the usage is
    collected. *)
Lemma collect_options_and_variables_complete tree :
  (forall r, variable_in_usage tree r ->
     r ∈ variables (collect_options_and_variables tree)) /\
  (forall r, fixed_in_usage tree r ->
     r ∈ fixeds (collect_options_and_variables tree)).
Proof.
  unfold collect_options_and_variables.
  rewrite (proj1 visit_tree_clauses).
  destruct (collected_after_collects (usage_clauses tree) (mk_collector [] [] []))
    as (_ & _ & Hv & Hf).
  split.
  - intros r (sc & v & Hin & Hsc & <-). exact (Hv sc v Hin Hsc).
  - intros r (sc & f & Hin & Hsc & <-). exact (Hf sc f Hin Hsc).
Qed.

(** A successful preflight has found one Usage: section, and its tree is the
    one that the grammar parser has made of that section. *)
Lemma preflight_true_usage parse_usage this this' :
  preflight parse_usage this = (true, this') ->
  exists r shortcuts errs errs' tree,
    source_ranges_for_section (clean_up this) "Usage:" false = [r] /\
    parse_usage (source this) r shortcuts errs = (Some tree, errs') /\
    parse_tree this' = Some tree /\
    source this' = source this /\
    all_variables this' = variables (collect_options_and_variables tree) /\
    all_static_arguments this' = fixeds (collect_options_and_variables tree).
Proof.
  unfold preflight.
  destruct (source_ranges_for_section (clean_up this) "Usage:" false)
    as [|r [|r' rs]] eqn:Er; simpl; try discriminate.
  destruct (parse_options_spec (clean_up this) (errors this)) as [sc e1].
  destruct (uniqueize_options (clean_up this) sc true e1) as [sc' e2].
  destruct (parse_usage (source this) r sc' e2) as [[t|] e3] eqn:Ep; [|discriminate].
  destruct (uniqueize_options (clean_up this) _ false e3) as [all e4].
  destruct (parse_conditions_spec (clean_up this) e4) as [conds e5].
  intros [= <-]. exists r, sc', e2, e3, t. simpl. repeat split; try reflexivity.
  exact Ep.
Qed.

(** C2. Let preflight have succeeded, with the tree that the grammar parser
    has made of the Usage: section, and let [flag_generate_empty_args] be
    set. Then [match_argv] returns, and the map that it returns has an entry
    for every option of [all_options], under its longest name, for every
    variable that appears in the usage and for every fixed word that appears
    in the usage. The map is made of the option map of the state that
    [match_argv] selects (the empty map when the match has no state). For a
    catalog option with a default value: when the entry of its name has no
    value as the option is reached (after the options before it in the
    catalog), the entry of the returned map has the default text as its one
    value, and the count that it had; the entry has no value then when the
    entry of the selected map has none and no option before it has a default
    for the same name. *)
Theorem finalize_generates_empty_args parse_usage this0 this argv fl pos resolved :
  preflight parse_usage this0 = (true, this) ->
  has_flag fl flag_generate_empty_args = true ->
  let ctx := mk_context fl pos resolved argv false in
  exists r shortcuts errs errs' tree states selected result unused,
    source_ranges_for_section (clean_up this0) "Usage:" false = [r] /\
    parse_usage (source this0) r shortcuts errs = (Some tree, errs') /\
    match_usage this (ellipsis_rounds this ctx tree) tree (init_state resolved) ctx
    = Some states /\
    ((states = [] /\ selected = ∅) \/
     (exists b stb, is_best ctx states b stb /\ selected = option_map stb)) /\
    match_argv this argv fl pos resolved (all_options this) (all_variables this)
    = Some (result, unused) /\
    (forall o, o ∈ all_options this ->
       is_Some (result !! longest_name_as_string o (source this))) /\
    (forall v, variable_in_usage tree v ->
       is_Some (result !! range_text (source this) v)) /\
    (forall f, fixed_in_usage tree f ->
       is_Some (result !! range_text (source this) f)) /\
    (forall k, is_Some (selected !! k) -> is_Some (result !! k)) /\
    (forall before o after,
       all_options this = before ++ o :: after ->
       range_empty (default_value_range o) = false ->
       let key := longest_name_as_string o (source this) in
       let reached := fold_left (finalize_option this) before selected in
       (values (map_ref reached key) = [] ->
        values (map_ref result key)
        = [range_text (source this) (default_value_range o)] /\
        count (map_ref result key) = count (map_ref selected key)) /\
       (values (map_ref selected key) = [] ->
        Forall (fun o' => longest_name_as_string o' (source this) <> key
                          \/ range_empty (default_value_range o') = true) before ->
        values (map_ref reached key) = [])).
Proof.
  intros Hpre Hf ctx.
  destruct (preflight_true_usage parse_usage this0 this Hpre)
    as (r & shortcuts & errs & errs' & tree & Hr & Hp & Ht & Hsrc & Hvars & Hfix).
  destruct (collect_options_and_variables_complete tree) as [Hcv Hcf].
  destruct (match_argv_cases this tree argv fl pos resolved (all_options this)
              (all_variables this) Ht) as (states & Hstates & Hcases).
  assert (Hsel : exists selected,
             ((states = [] /\ selected = ∅) \/
              (exists b stb, is_best ctx states b stb /\ selected = option_map stb)) /\
             exists unused,
               match_argv this argv fl pos resolved (all_options this)
                 (all_variables this)
               = Some (finalize_option_map this selected (all_options this)
                         (all_variables this) fl, unused)).
  { destruct Hcases as [[Hnil Hm] | (b & stb & Hb & Hm & _)].
    - exists ∅. split; [left; split; [exact Hnil | reflexivity]|]. eauto.
    - exists (option_map stb). split; [right; eauto|]. eauto. }
  destruct Hsel as (selected & Hsel & unused & Hm).
  exists r, shortcuts, errs, errs', tree, states, selected,
    (finalize_option_map this selected (all_options this) (all_variables this) fl),
    unused.
  split; [exact Hr|]. split; [exact Hp|]. split; [exact Hstates|].
  split; [exact Hsel|]. split; [exact Hm|].
  assert (Hres : finalize_option_map this selected (all_options this)
                   (all_variables this) fl
                 = fold_left (touch_entry this) (all_static_arguments this)
                     (fold_left (touch_entry this) (all_variables this)
                        (fold_left (finalize_option this) (all_options this)
                           selected))).
  { unfold finalize_option_map. rewrite Hf. reflexivity. }
  rewrite Hres.
  pose proof (fold_entries (finalize_option this)
                (fun o => longest_name_as_string o (source this)) (all_options this)
                selected (finalize_option_keeps this) (finalize_option_adds this))
    as [Hk1 Ho].
  set (m1 := fold_left (finalize_option this) (all_options this) selected) in *.
  pose proof (fold_entries (touch_entry this) (range_text (source this))
                (all_variables this) m1
                (touch_entry_keeps this) (touch_entry_adds this)) as [Hk2 Hv].
  set (m2 := fold_left (touch_entry this) (all_variables this) m1) in *.
  pose proof (fold_entries (touch_entry this) (range_text (source this))
                (all_static_arguments this) m2
                (touch_entry_keeps this) (touch_entry_adds this)) as [Hk3 Hs].
  split; [|split; [|split; [|split]]].
  - intros o Hin. apply Hk3, Hk2, Ho, Hin.
  - intros v Hin. apply Hk3, Hv. rewrite Hvars. apply Hcv, Hin.
  - intros f Hin. apply Hs. rewrite Hfix. apply Hcf, Hin.
  - intros k Hk. apply Hk3, Hk2, Hk1, Hk.
  - intros before o after Hall Hd key reached. split.
    + intros Hempty.
      assert (Hfinal : forall k,
                 map_ref (fold_left (touch_entry this) (all_static_arguments this) m2) k
                 = map_ref m1 k).
      { intros k. unfold m2. rewrite !touch_entries_map_ref. reflexivity. }
      rewrite Hfinal. split.
      * unfold m1. rewrite Hall, fold_left_app. simpl. fold reached.
        assert (Hstep : map_ref (finalize_option this reached o) key
                        = mk_arg [range_text (source this) (default_value_range o)]
                            (count (map_ref reached key))).
        { unfold finalize_option. fold key. rewrite map_ref_insert_eq.
          rewrite Hd, Hempty. reflexivity. }
        rewrite finalize_options_fixed; rewrite Hstep; [reflexivity | discriminate].
      * unfold m1. apply finalize_options_count.
    + intros Hv0 Hb. unfold reached. rewrite finalize_options_other by exact Hb.
      exact Hv0.
Qed.

(** "prog go x" against "Usage: prog go <file> [options]" with the option
    "-m <msg>  Message [default: hi]": the map has the entries of go and of
    <file>, and -m has its default. *)
Lemma finalize_generates_empty_args_witness :
  preflight ex_entries_parse_usage ex_entries_blank = (true, ex_entries_impl) /\
  exists result unused,
    match_argv ex_entries_impl ex_entries_argv flag_generate_empty_args
      (map mk_positional (seq 0 3)) [] (all_options ex_entries_impl)
      (all_variables ex_entries_impl)
    = Some (result, unused) /\
    is_Some (result !! "go") /\
    is_Some (result !! "<file>") /\
    values (map_ref result "-m") = ["hi"].
Proof.
  assert (Hpre : preflight ex_entries_parse_usage ex_entries_blank
                 = (true, ex_entries_impl)) by (vm_compute; reflexivity).
  split; [exact Hpre|].
  destruct (finalize_generates_empty_args ex_entries_parse_usage ex_entries_blank
              ex_entries_impl ex_entries_argv flag_generate_empty_args
              (map mk_positional (seq 0 3)) [] Hpre eq_refl)
    as (r & shortcuts & errs & errs' & tree & states & selected & result & unused
        & _ & Hp & Hstates & Hsel & Hm & _ & Hv & Hf & _ & Hd).
  injection Hp as <- _.
  exists result, unused. split; [exact Hm|].
  split; [|split].
  - apply (Hf (mk_range 12 2)). exists ex_entries_go, (mk_fixed_clause (mk_token (mk_range 12 2))).
    split; [apply list_elem_of_here | split; reflexivity].
  - apply (Hv (mk_range 15 6)).
    exists ex_entries_file, (mk_variable_clause (mk_token (mk_range 15 6))).
    split; [apply list_elem_of_further, list_elem_of_here | split; reflexivity].
  - assert (Hnone : values (map_ref selected "-m") = []).
    { vm_compute in Hstates. injection Hstates as <-.
      destruct Hsel as [[Hnil _] | (b & stb & (Hb & _) & ->)]; [discriminate Hnil|].
      destruct b as [|b]; simpl in Hb; [|rewrite lookup_nil in Hb; discriminate Hb].
      injection Hb as <-. vm_compute. reflexivity. }
    destruct (Hd [] (nth 0 (all_options ex_entries_impl)
                       (new_option no_range no_range 0 sep_space)) []
                eq_refl eq_refl) as [H1 _].
    destruct (H1 Hnone) as [Hval _]. exact Hval.
Defined.

(** After a successful preflight no option that remains in
    [shortcut_options] has the name (as text of the doc) of an option
    collected from the usage: the loop of [preflight] takes out the options
    that [options_have_same_name] finds in the usage. *)
Lemma preflight_excises_named_variants parse_usage this this' :
  preflight parse_usage this = (true, this') ->
  exists tree,
    parse_tree this' = Some tree /\
    forall s u,
      s ∈ shortcut_options this' ->
      u ∈ options (collect_options_and_variables tree) ->
      range_text (source this') (name s) <> range_text (source this') (name u).
Proof.
  intros H. destruct (preflight_true parse_usage this this' H)
    as (shortcuts & tree & Ht & Hsrc & _ & _ & Hs).
  exists tree. split; [exact Ht|].
  intros s u Hin Hu. rewrite Hs in Hin.
  rewrite excise_loop_filter in Hin by lia. simpl in Hin.
  apply list_elem_of_In, filter_In in Hin. destruct Hin as [_ Hkeep].
  unfold not_in_usage in Hkeep. apply negb_true_iff in Hkeep.
  assert (Hno : options_have_same_name (clean_up this) s u = false).
  { destruct (options_have_same_name (clean_up this) s u) eqn:E; [|reflexivity].
    rewrite <- Hkeep. symmetry. apply existsb_exists. exists u.
    split; [apply list_elem_of_In; exact Hu | exact E]. }
  unfold options_have_same_name, has_same_name in Hno. simpl in Hno.
  rewrite Hsrc. intros Heq. rewrite Heq, String.eqb_refl in Hno. discriminate Hno.
Qed.

(** C6. The doc "Usage: prog --verbose [options]" with the line
    "  -v, --verbose  Be verbose" in its Options: section: preflight succeeds
    and takes --verbose out of the shortcuts, but its alias -v remains, and
    the key name of -v (its corresponding long name, "verbose") is the key
    name of the option --verbose that is collected from the usage. So an
    option that remains in [shortcut_options] does have the key name of an
    option of the usage; the loop removes the variant that is named and no
    other, as the note in [preflight] says. *)
Theorem preflight_keeps_alias_of_usage_option :
  exists this' s u,
    preflight ex_variant_parse_usage ex_variant_blank = (true, this') /\
    shortcut_options this' = [s] /\
    name_as_string s (source this') = "-v" /\
    options (collect_options_and_variables ex_variant_tree) = [u] /\
    name_as_string u (source this') = "--verbose" /\
    range_empty (corresponding_long_name s) = false /\
    range_empty (corresponding_long_name u) = true /\
    range_text (source this') (key_range s) = "verbose" /\
    range_text (source this') (key_range u) = "verbose".
Proof.
  eexists _, _, _. split; [vm_compute; reflexivity|].
  split; [reflexivity|]. split; [reflexivity|]. split; [reflexivity|].
  repeat split.
Qed.

(** *** The errors of the doc are only added at the back *)

Lemma prefix_append_doc_error (e e' : error_list_t) pos c txt :
  e `prefix_of` e' -> e `prefix_of` append_doc_error e' pos c txt.
Proof. intros H. etrans; [exact H|]. unfold append_doc_error. apply prefix_app_r. reflexivity. Qed.

Lemma prefix_add_error_if (e e' : error_list_t) b pos c txt :
  e `prefix_of` e' -> e `prefix_of` add_error_if b e' pos c txt.
Proof.
  intros H. unfold add_error_if. destruct b; [apply prefix_append_doc_error|]; exact H.
Qed.

Ltac prefix_errors :=
  repeat first
    [ apply prefix_add_error_if
    | apply prefix_append_doc_error ];
  try reflexivity; try assumption.

Ltac split_scans :=
  repeat first
    [ match goal with
      | |- context [scan_while ?s ?r ?f] => destruct (scan_while s r f) as [? ?]
      end
    | match goal with
      | |- context [scan_1_char ?s ?r ?c] => destruct (scan_1_char s r c) as [? ?]
      end
    | match goal with
      | |- context [if ?b then _ else _] => destruct b
      end ].

Lemma parse_from_string_errors str remaining (e : error_list_t) :
  e `prefix_of` snd (parse_from_string str remaining e).
Proof.
  unfold parse_from_string. split_scans; simpl; prefix_errors.
Qed.

Lemma parse_default_value_errors this description_range (e : error_list_t) :
  e `prefix_of` snd (parse_default_value this description_range e).
Proof.
  unfold parse_default_value.
  repeat match goal with
         | |- context [if ?b then _ else _] => destruct b
         | |- context [match ?x with Some _ => _ | None => _ end] => destruct x
         end; simpl; prefix_errors.
Qed.

Lemma parse_spec_options_errors this rounds d dv :
  forall remaining w,
    spec_errors w `prefix_of`
    spec_errors (parse_spec_options this rounds d dv remaining w).
Proof.
  induction rounds as [|rounds IH]; intros remaining w; simpl; [reflexivity|].
  destruct (range_empty remaining); [reflexivity|].
  destruct (negb (test_at (source this) (start remaining) (char_is "-")));
    [simpl; prefix_errors|].
  pose proof (parse_from_string_errors (source this) remaining (spec_errors w)) as Hp.
  destruct (parse_from_string (source this) remaining (spec_errors w)) as [[o rem] errs].
  simpl in Hp.
  destruct (range_empty (name o)); [exact Hp|].
  repeat match goal with
         | |- context [scan_while ?s ?r ?f] => destruct (scan_while s r f) as [? ?]
         end.
  etrans; [|apply IH]. exact Hp.
Qed.

Lemma parse_one_option_spec_errors this r (e : error_list_t) :
  e `prefix_of` snd (parse_one_option_spec this r e).
Proof.
  unfold parse_one_option_spec.
  match goal with
  | |- context [parse_default_value ?t ?d ?x] =>
      pose proof (parse_default_value_errors t d x) as Hd;
      destruct (parse_default_value t d x) as [dv e1]
  end.
  simpl in Hd.
  match goal with
  | |- context [scan_while ?s ?r ?f] => destruct (scan_while s r f) as [? ?]
  end.
  simpl. etrans; [exact Hd|].
  match goal with
  | |- context [parse_spec_options ?t ?n ?d ?v ?rem ?w] =>
      apply (parse_spec_options_errors t n d v rem w)
  end.
Qed.

Lemma parse_options_line_errors this section_end line_range result
    (e : error_list_t) :
  e `prefix_of` snd (parse_options_line this section_end line_range result e).
Proof.
  unfold parse_options_line.
  destruct (range_empty (trim_whitespace line_range (source this))); [reflexivity|].
  destruct (negb (line_contains_option_spec (source this) line_range)).
  - simpl. prefix_errors.
  - destruct (extend_spec this line_contains_option_spec (string_size (source this))
                section_end line_range line_range line_range) as [spec_range lr'].
    destruct (scan_while (source this) spec_range isspace) as [? spec_range'].
    pose proof (parse_one_option_spec_errors this spec_range' e) as Hp.
    destruct (parse_one_option_spec this spec_range' e) as [tmp e']. exact Hp.
Qed.

Lemma parse_options_lines_errors this rounds section_end :
  forall line_range result (e : error_list_t),
    e `prefix_of` snd (parse_options_lines this rounds section_end line_range result e).
Proof.
  induction rounds as [|rounds IH]; intros line_range result e; simpl; [reflexivity|].
  destruct (get_next_line (source this) line_range (Some section_end)) as [lr|];
    [|reflexivity].
  pose proof (parse_options_line_errors this section_end lr result e) as Hp.
  destruct (parse_options_line this section_end lr result e) as [[lr' res'] e'].
  simpl in Hp. etrans; [exact Hp | apply IH].
Qed.

Lemma parse_options_spec_errors this (e : error_list_t) :
  e `prefix_of` snd (parse_options_spec this e).
Proof.
  unfold parse_options_spec.
  generalize (source_ranges_for_section this "Options:" false).
  intros sections.
  change e with (snd (@nil option_t, e)) at 1.
  generalize (@nil option_t, e).
  induction sections as [|sec sections IH]; intros acc; simpl; [reflexivity|].
  etrans; [|apply IH]. apply parse_options_lines_errors.
Qed.

Lemma parse_conditions_line_errors this section_end line_range
    (result : condition_map_t) (e : error_list_t) :
  e `prefix_of` snd (parse_conditions_line this section_end line_range result e).
Proof.
  unfold parse_conditions_line.
  destruct (range_empty (trim_whitespace line_range (source this))); [reflexivity|].
  destruct (negb (line_contains_condition_spec (source this) line_range)).
  - simpl. prefix_errors.
  - destruct (extend_spec this line_contains_condition_spec
                (string_size (source this)) section_end line_range line_range
                line_range) as [spec_range lr'].
    match goal with
    | |- context [find_string ?s ?n ?f] => destruct (find_string s n f) as [sep|]
    end; [|reflexivity].
    match goal with
    | |- context [if ?b then _ else _] => destruct b
    end; [|reflexivity].
    match goal with
    | |- context [result !! ?k] => destruct (result !! k)
    end; [|reflexivity].
    simpl. prefix_errors.
Qed.

Lemma parse_conditions_lines_errors this rounds section_end :
  forall line_range (result : condition_map_t) (e : error_list_t),
    e `prefix_of`
    snd (parse_conditions_lines this rounds section_end line_range result e).
Proof.
  induction rounds as [|rounds IH]; intros line_range result e; simpl; [reflexivity|].
  destruct (get_next_line (source this) line_range (Some section_end)) as [lr|];
    [|reflexivity].
  pose proof (parse_conditions_line_errors this section_end lr result e) as Hp.
  destruct (parse_conditions_line this section_end lr result e) as [[lr' res'] e'].
  simpl in Hp. etrans; [exact Hp | apply IH].
Qed.

Lemma parse_conditions_spec_errors this (e : error_list_t) :
  e `prefix_of` snd (parse_conditions_spec this e).
Proof.
  unfold parse_conditions_spec.
  generalize (source_ranges_for_section this "Conditions:" true).
  intros sections.
  change e with (snd (∅ : condition_map_t, e)) at 1.
  generalize (∅ : condition_map_t, e).
  induction sections as [|sec sections IH]; intros acc; simpl; [reflexivity|].
  etrans; [|apply IH]. apply parse_conditions_lines_errors.
Qed.

Lemma uniqueize_matches_errors this opts flag rounds :
  forall match_cursor best matching (e : error_list_t),
    e `prefix_of`
    snd (uniqueize_matches this opts flag rounds match_cursor best matching e)
    /\ (flag = false ->
        snd (uniqueize_matches this opts flag rounds match_cursor best matching e) = e).
Proof.
  induction rounds as [|rounds IH]; intros mc best matching e; simpl;
    [split; reflexivity|].
  destruct (options_have_same_name this (option_at opts best) (option_at opts mc));
    [|apply IH].
  match goal with
  | |- context [uniqueize_matches this opts flag rounds ?a ?b ?c ?d] =>
      destruct (IH a b c d) as [H1 H2]
  end.
  split.
  - etrans; [|exact H1]. destruct flag; prefix_errors.
  - intros ->. apply H2. reflexivity.
Qed.

Lemma uniqueize_loop_errors this flag rounds :
  forall cursor opts (e : error_list_t),
    e `prefix_of` snd (uniqueize_loop this flag rounds cursor opts e)
    /\ (flag = false -> snd (uniqueize_loop this flag rounds cursor opts e) = e).
Proof.
  induction rounds as [|rounds IH]; intros cursor opts e; simpl; [split; reflexivity|].
  destruct (cursor <? length opts); [|split; reflexivity].
  destruct (uniqueize_matches_errors this opts flag (length opts - (cursor + 1))
              (cursor + 1) cursor [cursor] e) as [H1 H2].
  destruct (uniqueize_matches this opts flag (length opts - (cursor + 1))
              (cursor + 1) cursor [cursor] e) as [[best matching] e'].
  simpl in H1, H2.
  destruct (erase_matches opts cursor best matching) as [opts' erased].
  destruct (IH (if erased then cursor else cursor + 1) opts' e') as [H3 H4].
  split.
  - etrans; eassumption.
  - intros Hf. rewrite (H4 Hf). apply H2, Hf.
Qed.

Lemma uniqueize_options_errors this opts flag (e : error_list_t) :
  e `prefix_of` snd (uniqueize_options this opts flag e)
  /\ (flag = false -> snd (uniqueize_options this opts flag e) = e).
Proof. apply uniqueize_loop_errors. Qed.

(** C8. [preflight] returns false exactly when the doc has no Usage: section,
    has more than one, or the grammar parser makes no tree; the error list
    of the instance is then the list that was there with the diagnostic of
    the missing section, or of the excessive sections, behind it, or the list
    that the grammar parser returns. When preflight returns true, the error
    list of the instance is the list that [parse_conditions_spec] returns,
    and the conditions of the instance are its map. The lists grow at the
    back from one step to the next: the errors of the option specs are
    behind the errors that were there, those of the duplicates behind these
    (the list that is handed to the grammar parser), and the errors of the
    conditions behind the errors that the grammar parser returns; so that
    with a parser that keeps the errors it is given, all of them are in the
    error list of the instance. *)
Theorem preflight_fails_iff_structural parse_usage this :
  let cleared := clean_up this in
  let usage_ranges := source_ranges_for_section cleared "Usage:" false in
  let parsed := parse_options_spec cleared (errors this) in
  let unique := uniqueize_options cleared (fst parsed) true (snd parsed) in
  let grammar :=
    parse_usage (source this) (nth 0 usage_ranges no_range) (fst unique) (snd unique) in
  let conditions := parse_conditions_spec cleared (snd grammar) in
  let result := preflight parse_usage this in
  (fst result = false <->
   usage_ranges = [] \/ 1 < length usage_ranges \/ fst grammar = None) /\
  (usage_ranges = [] ->
   errors (snd result)
   = errors this
     ++ [mk_error None None error_missing_usage_section "Missing Usage: section"]) /\
  (1 < length usage_ranges ->
   errors (snd result)
   = errors this
     ++ [mk_error None None error_excessive_usage_sections
           "More than one Usage: section"]) /\
  (length usage_ranges = 1 -> fst grammar = None ->
   errors (snd result) = snd grammar) /\
  (fst result = true ->
   errors (snd result) = snd conditions /\
   variables_to_conditions (snd result) = fst conditions /\
   (snd unique `prefix_of` snd grammar -> errors this `prefix_of` errors (snd result))) /\
  errors this `prefix_of` snd parsed /\
  snd parsed `prefix_of` snd unique /\
  snd grammar `prefix_of` snd conditions.
Proof.
  intros cleared usage_ranges parsed unique grammar conditions result.
  assert (H1 : errors this `prefix_of` snd parsed)
    by apply (parse_options_spec_errors cleared (errors this)).
  assert (H2 : snd parsed `prefix_of` snd unique)
    by apply (uniqueize_options_errors cleared (fst parsed) true (snd parsed)).
  assert (H3 : snd grammar `prefix_of` snd conditions)
    by apply (parse_conditions_spec_errors cleared (snd grammar)).
  assert (Hres : result
                 = if length usage_ranges =? 0 then
                     (false,
                      set_errors cleared
                        (errors this
                         ++ [mk_error None None error_missing_usage_section
                               "Missing Usage: section"]))
                   else if 1 <? length usage_ranges then
                     (false,
                      set_errors cleared
                        (errors this
                         ++ [mk_error None None error_excessive_usage_sections
                               "More than one Usage: section"]))
                   else
                     match fst grammar with
                     | None =>
                         (false,
                          mk_docopt_impl (source this) None (fst unique) [] [] []
                            (snd grammar) ∅)
                     | Some t =>
                         (true,
                          mk_docopt_impl (source this) (Some t)
                            (excise_loop cleared
                               (options (collect_options_and_variables t))
                               (length (fst unique)) 0 (fst unique))
                            (fst (uniqueize_options cleared
                                    (options (collect_options_and_variables t)
                                     ++ fst unique) false (snd grammar)))
                            (variables (collect_options_and_variables t))
                            (fixeds (collect_options_and_variables t))
                            (snd conditions) (fst conditions))
                     end).
  { unfold result, preflight. fold cleared. fold usage_ranges.
    destruct (length usage_ranges =? 0); [reflexivity|].
    destruct (1 <? length usage_ranges); [reflexivity|].
    change (errors cleared) with (errors this). fold parsed.
    unfold conditions.
    destruct parsed as [sc e1] eqn:Ep. simpl in unique. simpl.
    fold unique. destruct unique as [sc' e2] eqn:Eu. simpl in grammar.
    change (source cleared) with (source this). fold grammar.
    destruct grammar as [[t|] e3]; simpl; [|reflexivity].
    destruct (uniqueize_options_errors cleared
                (options (collect_options_and_variables t) ++ sc') false e3)
      as [_ H4]. specialize (H4 eq_refl).
    destruct (uniqueize_options cleared _ false e3) as [all e4]. simpl in H4. subst e4.
    destruct (parse_conditions_spec cleared e3) as [conds e5]. reflexivity. }
  rewrite Hres. clear Hres.
  split; [|split; [|split; [|split; [|split; [|split; [exact H1 | split; [exact H2 | exact H3]]]]]]].
  - destruct (length usage_ranges =? 0) eqn:E0.
    { apply Nat.eqb_eq in E0. simpl. split; [|reflexivity].
      intros _. left. destruct usage_ranges; [reflexivity | discriminate E0]. }
    destruct (1 <? length usage_ranges) eqn:E1.
    { apply Nat.ltb_lt in E1. simpl. split; [|reflexivity]. intros _. right. left. exact E1. }
    apply Nat.eqb_neq in E0. apply Nat.ltb_ge in E1.
    destruct (fst grammar) as [t|]; simpl.
    + split; [discriminate|].
      intros [Hn | [Hl | Hg]]; [|lia|discriminate Hg].
      rewrite Hn in E0. simpl in E0. lia.
    + split; [|reflexivity]. intros _. right. right. reflexivity.
  - intros ->. reflexivity.
  - intros Hl. destruct (length usage_ranges =? 0) eqn:E0;
      [apply Nat.eqb_eq in E0; lia|].
    apply Nat.ltb_lt in Hl. rewrite Hl. reflexivity.
  - intros Hl ->. rewrite Hl. reflexivity.
  - destruct (length usage_ranges =? 0); [discriminate|].
    destruct (1 <? length usage_ranges); [discriminate|].
    destruct (fst grammar); [|discriminate].
    intros _. simpl. split; [reflexivity|]. split; [reflexivity|].
    intros H. etrans; [exact H1|]. etrans; [exact H2|]. etrans; [exact H|]. exact H3.
Qed.

(** A doc with an option of three dashes, a duplicate option and a variable
    with two conditions: preflight returns true and the three errors are in
    the list, in this order. A doc without a Usage: section: preflight
    returns false with the one error. *)
Lemma preflight_fails_iff_structural_witness :
  fst (preflight ex_prog_parse_usage ex_errors_blank) = true /\
  errors (snd (preflight ex_prog_parse_usage ex_errors_blank))
  = [mk_error (Some 23) None error_excessive_dashes "Too many dashes";
     mk_error (Some 53) None error_option_duplicated_in_options_section
       "Option specified more than once";
     mk_error (Some 87) None error_one_variable_multiple_conditions
       "Variable already has a condition"] /\
  fst (preflight ex_prog_parse_usage ex_no_usage_blank) = false /\
  errors (snd (preflight ex_prog_parse_usage ex_no_usage_blank))
  = [mk_error None None error_missing_usage_section "Missing Usage: section"].
Proof.
  destruct (preflight_fails_iff_structural ex_prog_parse_usage ex_errors_blank)
    as (Hiff & _ & _ & _ & Htrue & _).
  destruct (preflight_fails_iff_structural ex_prog_parse_usage ex_no_usage_blank)
    as (Hiff' & Hnone & _).
  assert (Ht : fst (preflight ex_prog_parse_usage ex_errors_blank) = true).
  { apply not_false_iff_true. intros E.
    apply (proj1 Hiff) in E. destruct E as [E | [E | E]]; vm_compute in E;
      [discriminate E | lia | discriminate E]. }
  split; [exact Ht|]. split.
  - destruct (Htrue Ht) as [He _]. rewrite He. vm_compute. reflexivity.
  - split.
    + apply Hiff'. left. vm_compute. reflexivity.
    + rewrite Hnone by (vm_compute; reflexivity). reflexivity.
Defined.

(** ** The tokenizer goes through argv *)

Lemma resolved_wf_app argv res r :
  Forall (resolved_wf argv) res -> resolved_wf argv r ->
  Forall (resolved_wf argv) (res ++ [r]).
Proof. intros H1 H2. apply Forall_app. split; [exact H1 | constructor; [exact H2 | constructor]]. Qed.

Lemma parse_long_resolve_ok this argv fl i a matches res errs0 sugg :
  i < length argv -> Forall (resolved_wf argv) res ->
  parse_out_ok argv i res
    (parse_long_resolve this argv fl i a matches res errs0 sugg).
Proof.
  intros Hi Hres. unfold parse_long_resolve, parse_out_ok.
  destruct matches as [|m ms]; simpl; [split; [exact Hres | split; [left|]; reflexivity]|].
  destruct (has_value m), (has_value a); simpl.
  - destruct (has_flag fl flag_short_options_strict_separators); simpl.
    + destruct (separator_eqb (separator a) (separator m)); simpl.
      * split; [|lia]. apply resolved_wf_app; [exact Hres|].
        split; simpl; [exact Hi | intros v [= <-]; exact Hi].
      * split; [exact Hres | split; [left|]; reflexivity].
    + split; [|lia]. apply resolved_wf_app; [exact Hres|].
      split; simpl; [exact Hi | intros v [= <-]; exact Hi].
  - destruct (i + 1 <? length argv) eqn:E; simpl.
    + apply Nat.ltb_lt in E.
      destruct (has_flag fl flag_short_options_strict_separators); simpl.
      * destruct (separator_eqb (separator a) (separator m)); simpl.
        -- split; [|lia]. apply resolved_wf_app; [exact Hres|].
           split; simpl; [exact Hi | intros v [= <-]; exact E].
        -- split; [exact Hres | split; [right; split; [reflexivity | exact E] | reflexivity]].
      * split; [|lia]. apply resolved_wf_app; [exact Hres|].
        split; simpl; [exact Hi | intros v [= <-]; exact E].
    + destruct (has_flag fl flag_generate_suggestions && is_some sugg); simpl;
        (split; [exact Hres | split; [left|]; reflexivity]).
  - split; [exact Hres | split; [left|]; reflexivity].
  - destruct (has_flag fl flag_short_options_strict_separators); simpl.
    + destruct (separator_eqb (separator a) (separator m)); simpl.
      * split; [|lia]. apply resolved_wf_app; [exact Hres|].
        split; simpl; [exact Hi | discriminate].
      * split; [exact Hres | split; [left|]; reflexivity].
    + split; [|lia]. apply resolved_wf_app; [exact Hres|].
      split; simpl; [exact Hi | discriminate].
Qed.

Lemma parse_long_ok this argv ty fl i opts res errs0 sugg :
  i < length argv -> Forall (resolved_wf argv) res ->
  parse_out_ok argv i res (parse_long this argv ty fl i opts res errs0 sugg).
Proof.
  intros Hi Hres. unfold parse_long.
  match goal with
  | |- context [let '(_, _) := ?c in _] => destruct c as [matches errs]
  end.
  apply parse_long_resolve_ok; assumption.
Qed.

Lemma parse_unseparated_short_ok this argv fl i opts res errs0 sugg :
  i < length argv -> Forall (resolved_wf argv) res ->
  let r := parse_unseparated_short this argv fl i opts res errs0 sugg in
  Forall (resolved_wf argv) (out_result r) /\
  if success r then idx r = i + 1 else idx r = i /\ out_result r = res.
Proof.
  intros Hi Hres. unfold parse_unseparated_short.
  match goal with
  | |- context [List.filter ?f opts] => destruct (List.filter f opts) as [|m [|m' ms]]
  end; simpl; try (split; [exact Hres | split; reflexivity]).
  destruct (string_size (argv_at argv i) <=? 2); simpl.
  - split; [exact Hres | split; reflexivity].
  - split; [|reflexivity]. apply resolved_wf_app; [exact Hres|].
    split; simpl; [exact Hi | intros v [= <-]; exact Hi].
Qed.

Lemma parse_short_resolved_wf argv name_idx total k rest last v vr :
  name_idx < length argv ->
  (forall x, v = Some x -> x < length argv) ->
  Forall (resolved_wf argv) (parse_short_resolved name_idx total k rest last v vr).
Proof.
  intros Hn Hv. revert k. induction rest as [|o rest IH]; intros k; simpl;
    [constructor|].
  constructor; [|apply IH].
  destruct ((k + 1 =? total) && last); split; simpl; auto; discriminate.
Qed.

Lemma parse_short_ok this argv fl i opts res errs0 sugg :
  i < length argv -> Forall (resolved_wf argv) res ->
  let r := parse_short this argv fl i opts res errs0 sugg in
  Forall (resolved_wf argv) (out_result r) /\
  if success r then i < idx r /\ idx r <= length argv
  else idx r = i /\ out_result r = res.
Proof.
  intros Hi Hres. unfold parse_short.
  destruct (parse_short_chars this (argv_at argv i) i opts
              (string_size (argv_at argv i) - 1) 1 [] errs0) as [[ofa e1] errored].
  destruct errored; simpl; [split; [exact Hres | split; reflexivity]|].
  destruct (parse_short_values i (length ofa) 0 ofa e1 false) as [e2 last].
  destruct last; simpl.
  - destruct (i + 1 <? length argv) eqn:E; simpl.
    + apply Nat.ltb_lt in E. split; [|lia].
      apply Forall_app. split; [exact Hres|].
      apply parse_short_resolved_wf; [exact Hi | intros x [= <-]; exact E].
    + destruct (has_flag fl flag_generate_suggestions && is_some sugg); simpl;
        (split; [exact Hres | split; reflexivity]).
  - split; [|lia]. apply Forall_app. split; [exact Hres|].
    apply parse_short_resolved_wf; [exact Hi | discriminate].
Qed.

(** One round of the tokenizer at an index of argv moves the index on, not
    beyond the end, and keeps the output well-formed. *)
Lemma separate_step_ok this argv opts fl i st :
  i < length argv -> separated_wf argv st ->
  let r := separate_step this argv opts fl i st in
  i < fst r /\ fst r <= length argv /\ separated_wf argv (snd r).
Proof.
  intros Hi [Hp Hr]. unfold separate_step.
  destruct (str_equals "--" (argv_at argv i)).
  { simpl. split; [lia | split; [lia|]]. split; simpl; [|exact Hr].
    apply Forall_app. split; [exact Hp|].
    apply Forall_forall. intros p Hin. apply list_elem_of_fmap in Hin.
    destruct Hin as (k & -> & Hk). apply list_elem_of_In, in_seq in Hk. simpl. lia. }
  destruct (substr_equals "--" (argv_at argv i) 2).
  { pose proof (parse_long_ok this argv double_long fl i opts (sep_resolved_options st)
                  (sep_errors st) (sep_suggestion st) Hi Hr) as [Hw Hs].
    set (r0 := parse_long this argv double_long fl i opts (sep_resolved_options st)
                 (sep_errors st) (sep_suggestion st)) in *.
    revert Hs. destruct (success r0); simpl; intros Hs.
    - split; [lia | split; [lia|]]. split; assumption.
    - destruct Hs as [[-> | [-> Hlt]] _]; (split; [lia | split; [lia|]]);
        split; assumption. }
  destruct (substr_equals "-" (argv_at argv i) 1 && (1 <? string_size (argv_at argv i))).
  2:{ simpl. split; [lia | split; [lia|]]. split; simpl; [|exact Hr].
      apply Forall_app. split; [exact Hp | constructor; [exact Hi | constructor]]. }
  pose proof (parse_long_ok this argv single_long fl i opts (sep_resolved_options st)
                (Some []) (sep_suggestion st) Hi Hr) as [Hw1 Hs1].
  set (r1 := parse_long this argv single_long fl i opts (sep_resolved_options st)
               (Some []) (sep_suggestion st)) in *.
  revert Hs1. destruct (success r1); intros Hs1.
  { simpl. split; [lia | split; [lia|]]. split; assumption. }
  destruct Hs1 as [Hidx1 Hres1].
  assert (Hi1 : idx r1 < length argv) by (destruct Hidx1 as [-> | [-> H]]; lia).
  assert (Hge1 : i <= idx r1) by (destruct Hidx1 as [-> | [-> H]]; lia).
  pose proof (parse_unseparated_short_ok this argv fl (idx r1) opts (out_result r1)
                (Some []) (out_suggestion r1) Hi1 Hw1) as [Hw2 Hs2].
  set (r2 := parse_unseparated_short this argv fl (idx r1) opts (out_result r1)
               (Some []) (out_suggestion r1)) in *.
  revert Hs2. destruct (success r2); intros Hs2.
  { simpl. split; [lia | split; [lia|]]. split; assumption. }
  destruct Hs2 as [Hidx2 Hres2].
  assert (Hi2 : idx r2 < length argv) by lia.
  pose proof (parse_short_ok this argv fl (idx r2) opts (out_result r2)
                (out_errors r2) (out_suggestion r2) Hi2 Hw2) as [Hw3 Hs3].
  set (r3 := parse_short this argv fl (idx r2) opts (out_result r2)
               (out_errors r2) (out_suggestion r2)) in *.
  revert Hs3. destruct (success r3); simpl; intros Hs3.
  - split; [lia | split; [lia|]]. split; assumption.
  - destruct Hs3 as [Hidx3 _]. split; [lia | split; [lia|]]. split; assumption.
Qed.

(** With as many rounds as argv has arguments after [i], the loop of the
    tokenizer has reached the end of argv, as the loop of the source has when
    it ends; its output is well-formed. *)
Lemma separate_loop_enough this argv opts fl rounds :
  forall i st,
    i <= length argv -> length argv - i <= rounds -> separated_wf argv st ->
    let r := separate_loop this argv opts fl rounds i st in
    fst r = length argv /\ separated_wf argv (snd r).
Proof.
  induction rounds as [|rounds IH]; intros i st Hle Hr Hwf; simpl.
  - split; [lia | exact Hwf].
  - destruct (i <? length argv) eqn:E.
    + apply Nat.ltb_lt in E.
      pose proof (separate_step_ok this argv opts fl i st E Hwf) as (H1 & H2 & H3).
      destruct (separate_step this argv opts fl i st) as [i' st']. simpl in *.
      apply IH; [exact H2 | lia | exact H3].
    + apply Nat.ltb_ge in E. simpl. split; [lia | exact Hwf].
Qed.

(** More rounds than that change nothing. *)
Lemma separate_loop_more this argv opts fl rounds extra :
  forall i st,
    i <= length argv -> length argv - i <= rounds -> separated_wf argv st ->
    separate_loop this argv opts fl (rounds + extra) i st
    = separate_loop this argv opts fl rounds i st.
Proof.
  induction rounds as [|rounds IH]; intros i st Hle Hr Hwf.
  - assert (i = length argv) by lia. subst i.
    destruct extra; simpl; [reflexivity|]. rewrite Nat.ltb_irrefl. reflexivity.
  - simpl. destruct (i <? length argv) eqn:E; [|reflexivity].
    apply Nat.ltb_lt in E.
    pose proof (separate_step_ok this argv opts fl i st E Hwf) as (H1 & H2 & H3).
    destruct (separate_step this argv opts fl i st) as [i' st']. simpl in *.
    apply IH; [exact H2 | lia | exact H3].
Qed.

(** The positionals and the resolved options that the tokenizer returns
    refer to arguments of argv. *)
Lemma separate_argv_wf this argv opts fl errs0 sugg :
  separated_wf argv
    (separate_argv_into_options_and_positionals this argv opts fl errs0 sugg).
Proof.
  unfold separate_argv_into_options_and_positionals.
  apply (separate_loop_enough this argv opts fl (length argv) 0);
    [lia | lia | split; constructor].
Qed.

(** ** The number of rounds does not matter *)

Lemma try_match_list_mono m m' l b r :
  matcher_le m m' ->
  try_match_list m l b = Some r -> try_match_list m' l b = Some r.
Proof.
  intros Hle. revert r. induction l as [|st rest IH]; intros r; simpl; [auto|].
  destruct (m st) as [cr|] eqn:E; [|discriminate].
  rewrite (Hle st cr E).
  destruct (try_match_list m rest b) as [total|]; [|discriminate].
  rewrite (IH total eq_refl). auto.
Qed.

Lemma ellipsis_loop_round m rounds s inter result :
  ellipsis_loop m (S rounds) (s :: inter) result
  = match try_match_list m (s :: inter) true with
    | None => None
    | Some next_states => ellipsis_loop m rounds next_states (result ++ next_states)
    end.
Proof. reflexivity. Qed.

Lemma ellipsis_loop_mono m m' rounds :
  matcher_le m m' ->
  forall rounds' intermediate_states result r,
    rounds <= rounds' ->
    ellipsis_loop m rounds intermediate_states result = Some r ->
    ellipsis_loop m' rounds' intermediate_states result = Some r.
Proof.
  intros Hle. induction rounds as [|rounds IH]; intros rounds' inter result r Hr H.
  - destruct inter; simpl in H; [|discriminate].
    destruct rounds'; simpl; exact H.
  - destruct inter as [|s inter]; [destruct rounds'; simpl in *; exact H|].
    destruct rounds' as [|rounds']; [lia|]. rewrite ellipsis_loop_round in H |- *.
    destruct (try_match_list m (s :: inter) true) as [next|] eqn:E; [|discriminate].
    rewrite (try_match_list_mono m m' (s :: inter) true next Hle E).
    apply IH; [lia | exact H].
Qed.

Lemma match_repeated_mono m m' rounds rounds' e :
  matcher_le m m' -> rounds <= rounds' ->
  matcher_le (match_repeated m rounds e) (match_repeated m' rounds' e).
Proof.
  intros Hle Hr st r. unfold match_repeated.
  destruct (m st) as [result|] eqn:E; [|discriminate].
  rewrite (Hle st result E). destruct e; [|auto].
  apply ellipsis_loop_mono; assumption.
Qed.

Lemma matcher_le_refl m : matcher_le m m.
Proof. intros st r H. exact H. Qed.

Section Rounds.

Variable this : docopt_impl.

Lemma match_tree_mono :
  (forall u rounds rounds' ctx, rounds <= rounds' ->
     matcher_le (fun st => match_usage this rounds u st ctx)
       (fun st => match_usage this rounds' u st ctx)) /\
  (forall al rounds rounds' ctx, rounds <= rounds' ->
     matcher_le (fun st => match_alternation_list this rounds al st ctx)
       (fun st => match_alternation_list this rounds' al st ctx)) /\
  (forall oc rounds rounds' ctx, rounds <= rounds' ->
     matcher_le (fun st => match_or_continuation this rounds oc st ctx)
       (fun st => match_or_continuation this rounds' oc st ctx)) /\
  (forall el rounds rounds' ctx, rounds <= rounds' ->
     matcher_le (fun st => match_expression_list this rounds el st ctx)
       (fun st => match_expression_list this rounds' el st ctx)) /\
  (forall oel rounds rounds' ctx, rounds <= rounds' ->
     matcher_le (fun st => match_opt_expression_list this rounds oel st ctx)
       (fun st => match_opt_expression_list this rounds' oel st ctx)) /\
  (forall e rounds rounds' ctx, rounds <= rounds' ->
     matcher_le (fun st => match_expression this rounds e st ctx)
       (fun st => match_expression this rounds' e st ctx)).
Proof.
  apply tree_mutind.
  - intros pn al IHal nu IHnu rounds rounds' ctx Hr st r.
    rewrite !match_usage_eq.
    destruct (negb (has_more_positionals ctx st)); [auto|].
    destruct (token_empty pn); [auto|].
    destruct al as [a|].
    + apply option_all_Some in IHal.
      destruct (match_alternation_list this rounds a _ ctx) as [main|] eqn:E;
        [|discriminate].
      rewrite (IHal rounds rounds' ctx Hr _ main E).
      destruct nu as [u|]; [|auto].
      apply option_all_Some in IHnu.
      destruct (match_usage this rounds u st ctx) as [next|] eqn:E2; [|discriminate].
      rewrite (IHnu rounds rounds' ctx Hr _ next E2). auto.
    + destruct nu as [u|]; [|auto].
      apply option_all_Some in IHnu.
      destruct (match_usage this rounds u st ctx) as [next|] eqn:E2; [|discriminate].
      rewrite (IHnu rounds rounds' ctx Hr _ next E2). auto.
  - intros el IHel oc IHoc rounds rounds' ctx Hr st r. simpl.
    destruct el as [e|].
    + apply option_all_Some in IHel.
      destruct (match_expression_list this rounds e st ctx) as [r1|] eqn:E;
        [|discriminate].
      rewrite (IHel rounds rounds' ctx Hr _ r1 E).
      destruct oc as [o|]; [|auto].
      apply option_all_Some in IHoc.
      destruct (match_or_continuation this rounds o st ctx) as [r2|] eqn:E2;
        [|discriminate].
      rewrite (IHoc rounds rounds' ctx Hr _ r2 E2). auto.
    + destruct oc as [o|]; [|auto].
      apply option_all_Some in IHoc.
      destruct (match_or_continuation this rounds o st ctx) as [r2|] eqn:E2;
        [|discriminate].
      rewrite (IHoc rounds rounds' ctx Hr _ r2 E2). auto.
  - intros al IHal rounds rounds' ctx Hr st r. simpl.
    destruct al as [a|]; [|auto].
    apply option_all_Some in IHal. apply (IHal rounds rounds' ctx Hr).
  - intros e IHe oel IHoel rounds rounds' ctx Hr st r. simpl.
    destruct e as [e'|].
    + apply option_all_Some in IHe.
      destruct (match_expression this rounds e' st ctx) as [r1|] eqn:E; [|discriminate].
      rewrite (IHe rounds rounds' ctx Hr _ r1 E).
      destruct oel as [o|]; [|auto].
      apply option_all_Some in IHoel.
      apply try_match_list_mono. apply (IHoel rounds rounds' ctx Hr).
    + destruct oel as [o|]; [|auto].
      simpl. auto.
  - intros el IHel rounds rounds' ctx Hr st r. simpl.
    destruct el as [e|]; [|auto].
    apply option_all_Some in IHel. apply (IHel rounds rounds' ctx Hr).
  - intros production oe sc al IHal rounds rounds' ctx Hr st r. simpl.
    assert (Hal : forall b,
               matcher_le
                 (fun s => match al with
                           | Some a =>
                               match_alternation_list this rounds a s
                                 (set_is_in_square_brackets ctx b)
                           | None => Some []
                           end)
                 (fun s => match al with
                           | Some a =>
                               match_alternation_list this rounds' a s
                                 (set_is_in_square_brackets ctx b)
                           | None => Some []
                           end)).
    { intros b. destruct al as [a|]; [|apply matcher_le_refl].
      apply option_all_Some in IHal.
      apply (IHal rounds rounds' (set_is_in_square_brackets ctx b) Hr). }
    destruct production as [|[|[|[|p]]]].
    + apply match_repeated_mono; [apply matcher_le_refl | exact Hr].
    + apply match_repeated_mono; [apply Hal | exact Hr].
    + match goal with
      | |- context [match_repeated ?m rounds ?e st] =>
          destruct (match_repeated m rounds e st) as [res|] eqn:E; [|discriminate]
      end.
      rewrite (match_repeated_mono _ _ rounds rounds' _ (Hal true) Hr st res E). auto.
    + auto.
    + auto.
Qed.

End Rounds.

(** With [ellipsis_rounds] rounds or more the match of the tree returns the
    same list of states: no ellipsis loop gets to the last of its rounds. *)
Lemma match_usage_rounds this tree ctx rounds :
  ellipsis_rounds this ctx tree <= rounds ->
  match_usage this rounds tree (init_state (resolved_options ctx)) ctx
  = match_usage this (ellipsis_rounds this ctx tree) tree
      (init_state (resolved_options ctx)) ctx.
Proof.
  intros Hr. destruct (match_usage_returns this tree ctx) as (result & Hres & _).
  rewrite Hres.
  destruct (match_tree_mono this) as (Hu & _).
  apply (Hu tree (ellipsis_rounds this ctx tree) rounds ctx Hr _ result Hres).
Qed.

(** [match_argv] returns when there is a parse tree. *)
Lemma match_argv_returns this tree argv fl pos resolved all_opts all_vars :
  parse_tree this = Some tree ->
  is_Some (match_argv this argv fl pos resolved all_opts all_vars).
Proof.
  intros Ht.
  destruct (match_argv_cases this tree argv fl pos resolved all_opts all_vars Ht)
    as (result & _ & [[_ ->] | (b & stb & _ & -> & _)]); eauto.
Qed.

(** ** The loops of the doc parser have enough rounds *)

(** *** Scanning *)

Lemma scan_while_loop_more str f rounds extra :
  forall result remaining,
    range_end result = start remaining ->
    rlength remaining <= rounds ->
    scan_while_loop str f (rounds + extra) result remaining
    = scan_while_loop str f rounds result remaining.
Proof.
  induction rounds as [|rounds IH]; intros result remaining Hinv H; simpl.
  - destruct extra; simpl; [reflexivity|].
    assert (E : (range_end result <? range_end remaining) = false)
      by (apply Nat.ltb_ge; unfold range_end in *; lia).
    rewrite E. reflexivity.
  - destruct ((range_end result <? range_end remaining)
              && test_at str (range_end result) f) eqn:E; [|reflexivity].
    apply andb_true_iff in E. destruct E as [E _]. apply Nat.ltb_lt in E.
    apply IH; unfold range_end in *; simpl; lia.
Qed.

(** The scan returns what the unbounded loop of the source returns. *)
Lemma scan_while_rounds str remaining f extra :
  scan_while_loop str f (rlength remaining + extra) (mk_range (start remaining) 0)
    remaining
  = scan_while str remaining f.
Proof. apply scan_while_loop_more; [unfold range_end; simpl; lia | lia]. Qed.

(** A scan takes its result off the front of [remaining]. *)
Lemma scan_while_loop_shape str f rounds :
  forall result remaining,
    range_end result = start remaining ->
    let r := scan_while_loop str f rounds result remaining in
    range_end (fst r) = start (snd r) /\
    range_end (snd r) = range_end remaining /\
    rlength (snd r) <= rlength remaining /\
    start (fst r) = start result /\
    ((range_end result <? range_end remaining) && test_at str (range_end result) f
     = true -> 0 < rounds -> rlength (snd r) < rlength remaining).
Proof.
  induction rounds as [|rounds IH]; intros result remaining H; simpl.
  - repeat split; [exact H | lia | intros _ Hr; lia].
  - destruct ((range_end result <? range_end remaining)
              && test_at str (range_end result) f) eqn:E.
    + apply andb_true_iff in E. destruct E as [E _]. apply Nat.ltb_lt in E.
      unfold range_end in *.
      destruct (IH (mk_range (start result) (rlength result + 1))
                  (mk_range (start remaining + 1) (rlength remaining - 1)))
        as (H1 & H2 & H3 & H4 & _).
      { unfold range_end. simpl. lia. }
      unfold range_end in *. simpl in *.
      repeat split; [exact H1 | lia | lia | exact H4 | intros _ _; lia].
    + simpl. repeat split; [exact H | lia | discriminate].
Qed.

Lemma scan_while_shape str remaining f :
  let r := scan_while str remaining f in
  range_end (fst r) = start (snd r) /\
  range_end (snd r) = range_end remaining /\
  rlength (snd r) <= rlength remaining /\
  start (fst r) = start remaining /\
  (range_empty remaining = false -> test_at str (start remaining) f = true ->
   rlength (snd r) < rlength remaining).
Proof.
  unfold scan_while.
  destruct (scan_while_loop_shape str f (rlength remaining)
              (mk_range (start remaining) 0) remaining) as (H1 & H2 & H3 & H4 & H5).
  { unfold range_end. simpl. lia. }
  repeat split; try assumption.
  intros Hne Ht. unfold range_empty in Hne. apply Nat.eqb_neq in Hne.
  apply H5; [|lia]. unfold range_end. simpl. rewrite Nat.add_0_r, Ht, andb_true_r.
  apply Nat.ltb_lt. lia.
Qed.

Lemma scan_1_char_shape str remaining c :
  let r := scan_1_char str remaining c in
  range_end (snd r) = range_end remaining /\ rlength (snd r) <= rlength remaining.
Proof.
  unfold scan_1_char, range_end. simpl.
  destruct ((start remaining + 0 <? start remaining + rlength remaining)
            && test_at str (start remaining + 0) (char_is c)) eqn:E; simpl; [|lia].
  apply andb_true_iff in E. destruct E as [E _]. apply Nat.ltb_lt in E. lia.
Qed.

Lemma trim_left_more src rounds extra :
  forall left right,
    right - left <= rounds ->
    trim_left src (rounds + extra) left right = trim_left src rounds left right.
Proof.
  induction rounds as [|rounds IH]; intros left right H; simpl.
  - destruct extra; simpl; [reflexivity|].
    assert (E : (left <? right) = false) by (apply Nat.ltb_ge; lia).
    rewrite E. reflexivity.
  - destruct ((left <? right) && test_at src left isspace) eqn:E; [|reflexivity].
    apply andb_true_iff in E. destruct E as [E _]. apply Nat.ltb_lt in E.
    apply IH. lia.
Qed.

Lemma trim_left_ge src rounds : forall left right, left <= trim_left src rounds left right.
Proof.
  induction rounds as [|rounds IH]; intros left right; simpl; [lia|].
  destruct ((left <? right) && test_at src left isspace); [|lia].
  specialize (IH (left + 1) right). lia.
Qed.

Lemma trim_right_more src rounds extra :
  forall left right,
    right - left <= rounds ->
    trim_right src (rounds + extra) left right = trim_right src rounds left right.
Proof.
  induction rounds as [|rounds IH]; intros left right H; simpl.
  - destruct extra; simpl; [reflexivity|].
    assert (E : (left <? right) = false) by (apply Nat.ltb_ge; lia).
    rewrite E. reflexivity.
  - destruct ((left <? right) && test_at src (right - 1) isspace) eqn:E; [|reflexivity].
    apply andb_true_iff in E. destruct E as [E _]. apply Nat.ltb_lt in E.
    apply IH. lia.
Qed.

(** The two loops of [trim_whitespace] run to their end. *)
Lemma trim_whitespace_rounds r src extra1 extra2 :
  let left := trim_left src (rlength r + extra1) (start r) (range_end r) in
  let right := trim_right src (rlength r + extra2) left (range_end r) in
  mk_range left (right - left) = trim_whitespace r src.
Proof.
  simpl. unfold trim_whitespace.
  rewrite trim_left_more by (unfold range_end; lia).
  rewrite trim_right_more; [reflexivity|].
  pose proof (trim_left_ge src (rlength r) (start r) (range_end r)).
  unfold range_end in *. lia.
Qed.

Lemma skip_spaces_more src rounds extra :
  forall pos limit,
    limit - pos <= rounds ->
    skip_spaces src (rounds + extra) pos limit = skip_spaces src rounds pos limit.
Proof.
  induction rounds as [|rounds IH]; intros pos limit H; simpl.
  - destruct extra; simpl; [reflexivity|].
    assert (E : (pos <? limit) = false) by (apply Nat.ltb_ge; lia).
    rewrite E. reflexivity.
  - destruct ((pos <? limit) && test_at src pos isspace) eqn:E; [|reflexivity].
    apply andb_true_iff in E. destruct E as [E _]. apply Nat.ltb_lt in E.
    apply IH. lia.
Qed.

Lemma find_from_ge test s from : forall i k, find_from test s from i = Some k -> from <= k /\ i <= k.
Proof.
  induction s as [|c s IH]; intros i k; simpl.
  - destruct ((from <=? i) && test EmptyString) eqn:E; [|discriminate].
    intros [= <-]. apply andb_true_iff in E. destruct E as [E _].
    apply Nat.leb_le in E. lia.
  - destruct ((from <=? i) && test (String c s)) eqn:E.
    + intros [= <-]. apply andb_true_iff in E. destruct E as [E _].
      apply Nat.leb_le in E. lia.
    + intros H. apply IH in H. lia.
Qed.

Lemma find_char_from_bounds s c from : forall i k,
  find_char_from s c from i = Some k -> from <= k /\ i <= k /\ k < i + String.length s.
Proof.
  induction s as [|d s IH]; intros i k; simpl; [discriminate|].
  destruct ((from <=? i) && Ascii.eqb d c) eqn:E.
  - intros [= <-]. apply andb_true_iff in E. destruct E as [E _].
    apply Nat.leb_le in E. lia.
  - intros H. apply IH in H. lia.
Qed.

(** A line that [get_next_line] returns starts at the end of the range it was
    given, has at least one character and ends within the string. *)
Lemma get_next_line_advances str r e r' :
  get_next_line str r e = Some r' ->
  start r' = range_end r /\ range_end r < range_end r' /\
  range_end r' <= string_size str.
Proof.
  unfold get_next_line.
  set (eff := match e with Some e0 => Nat.min (string_size str) e0
                         | None => string_size str end).
  assert (Heff : eff <= string_size str) by (unfold eff; destruct e; lia).
  destruct (range_end r <? eff) eqn:E; [|discriminate].
  apply Nat.ltb_lt in E. intros [= <-].
  destruct (find_char str newline (range_end r)) as [n|] eqn:F.
  - apply find_char_from_bounds in F. unfold string_size in *.
    destruct (eff <? n) eqn:En.
    + apply Nat.ltb_lt in En. unfold range_end in *. simpl. lia.
    + apply Nat.ltb_ge in En. unfold range_end in *. simpl. lia.
  - unfold range_end in *. simpl. lia.
Qed.

(** *** Lines *)

Lemma section_line_end this section_name include w :
  range_end (walk_line_range w)
  <= range_end (walk_line_range (section_line this section_name include w)).
Proof.
  unfold section_line.
  repeat match goal with
         | |- context [if ?b then _ else _] => destruct b
         end; simpl; unfold range_end; simpl; lia.
Qed.

Lemma section_lines_more this section_name include rounds extra :
  forall w,
    string_size (source this) - range_end (walk_line_range w) <= rounds ->
    section_lines this section_name include (rounds + extra) w
    = section_lines this section_name include rounds w.
Proof.
  induction rounds as [|rounds IH]; intros w H; simpl.
  - destruct extra; simpl; [reflexivity|].
    destruct (get_next_line (source this) (walk_line_range w) None) as [lr|] eqn:E;
      [|reflexivity].
    apply get_next_line_advances in E. lia.
  - destruct (get_next_line (source this) (walk_line_range w) None) as [lr|] eqn:E;
      [|reflexivity].
    apply get_next_line_advances in E. apply IH.
    match goal with
    | |- context [section_line ?t ?n ?i ?x] =>
        pose proof (section_line_end t n i x) as Hs
    end.
    simpl in Hs. lia.
Qed.

(** The loop of [source_ranges_for_section] sees every line of the doc. *)
Lemma source_ranges_for_section_rounds this section_name include extra :
  section_lines this section_name include (string_size (source this) + extra)
    (mk_section_walk no_range false None [])
  = source_ranges_for_section this section_name include.
Proof. apply section_lines_more. lia. Qed.

Lemma extend_spec_more this starts_spec rounds extra section_end :
  forall spec_range local_range line_range,
    string_size (source this) - range_end local_range <= rounds ->
    extend_spec this starts_spec (rounds + extra) section_end spec_range local_range
      line_range
    = extend_spec this starts_spec rounds section_end spec_range local_range line_range.
Proof.
  induction rounds as [|rounds IH]; intros spec_range local_range line_range H; simpl.
  - destruct extra; simpl; [reflexivity|].
    destruct (get_next_line (source this) local_range (Some section_end)) as [lr|] eqn:E;
      [|reflexivity].
    apply get_next_line_advances in E. lia.
  - destruct (get_next_line (source this) local_range (Some section_end)) as [lr|] eqn:E;
      [|reflexivity].
    apply get_next_line_advances in E.
    destruct (starts_spec (source this) lr); [reflexivity|].
    apply IH. lia.
Qed.

(** The last line that [extend_spec] takes does not end before the line it
    starts from. *)
Lemma extend_spec_end this starts_spec rounds section_end :
  forall spec_range local_range line_range,
    range_end line_range <= range_end local_range ->
    range_end line_range
    <= range_end (snd (extend_spec this starts_spec rounds section_end spec_range
                         local_range line_range)).
Proof.
  induction rounds as [|rounds IH]; intros spec_range local_range line_range H; simpl;
    [lia|].
  destruct (get_next_line (source this) local_range (Some section_end)) as [lr|] eqn:E;
    [|simpl; lia].
  apply get_next_line_advances in E.
  destruct (starts_spec (source this) lr); [simpl; lia|].
  etrans; [|apply IH; lia]. lia.
Qed.

Lemma parse_options_line_end this section_end line_range result errs0 :
  range_end line_range
  <= range_end (fst (fst (parse_options_line this section_end line_range result errs0))).
Proof.
  unfold parse_options_line.
  destruct (range_empty (trim_whitespace line_range (source this))); [simpl; lia|].
  destruct (negb (line_contains_option_spec (source this) line_range)); [simpl; lia|].
  pose proof (extend_spec_end this line_contains_option_spec (string_size (source this))
                section_end line_range line_range line_range (le_n _)) as H.
  destruct (extend_spec this line_contains_option_spec (string_size (source this))
              section_end line_range line_range line_range) as [spec_range lr'].
  destruct (scan_while (source this) spec_range isspace) as [? spec_range'].
  destruct (parse_one_option_spec this spec_range' errs0) as [tmp e']. exact H.
Qed.

Lemma parse_options_lines_more this rounds extra section_end :
  forall line_range result errs0,
    string_size (source this) - range_end line_range <= rounds ->
    parse_options_lines this (rounds + extra) section_end line_range result errs0
    = parse_options_lines this rounds section_end line_range result errs0.
Proof.
  induction rounds as [|rounds IH]; intros line_range result errs0 H; simpl.
  - destruct extra; simpl; [reflexivity|].
    destruct (get_next_line (source this) line_range (Some section_end)) as [lr|] eqn:E;
      [|reflexivity].
    apply get_next_line_advances in E. lia.
  - destruct (get_next_line (source this) line_range (Some section_end)) as [lr|] eqn:E;
      [|reflexivity].
    apply get_next_line_advances in E.
    pose proof (parse_options_line_end this section_end lr result errs0) as Hl.
    destruct (parse_options_line this section_end lr result errs0) as [[lr' res'] e'].
    simpl in Hl. apply IH. lia.
Qed.

Lemma parse_conditions_line_end this section_end line_range
    (result : condition_map_t) errs0 :
  range_end line_range
  <= range_end (fst (fst (parse_conditions_line this section_end line_range result
                            errs0))).
Proof.
  unfold parse_conditions_line.
  destruct (range_empty (trim_whitespace line_range (source this))); [simpl; lia|].
  destruct (negb (line_contains_condition_spec (source this) line_range));
    [simpl; lia|].
  pose proof (extend_spec_end this line_contains_condition_spec
                (string_size (source this)) section_end line_range line_range
                line_range (le_n _)) as H.
  destruct (extend_spec this line_contains_condition_spec (string_size (source this))
              section_end line_range line_range line_range) as [spec_range lr'].
  repeat match goal with
         | |- context [match ?x with Some _ => _ | None => _ end] => destruct x
         | |- context [if ?b then _ else _] => destruct b
         end; exact H.
Qed.

Lemma parse_conditions_lines_more this rounds extra section_end :
  forall line_range (result : condition_map_t) errs0,
    string_size (source this) - range_end line_range <= rounds ->
    parse_conditions_lines this (rounds + extra) section_end line_range result errs0
    = parse_conditions_lines this rounds section_end line_range result errs0.
Proof.
  induction rounds as [|rounds IH]; intros line_range result errs0 H; simpl.
  - destruct extra; simpl; [reflexivity|].
    destruct (get_next_line (source this) line_range (Some section_end)) as [lr|] eqn:E;
      [|reflexivity].
    apply get_next_line_advances in E. lia.
  - destruct (get_next_line (source this) line_range (Some section_end)) as [lr|] eqn:E;
      [|reflexivity].
    apply get_next_line_advances in E.
    pose proof (parse_conditions_line_end this section_end lr result errs0) as Hl.
    destruct (parse_conditions_line this section_end lr result errs0)
      as [[lr' res'] e'].
    simpl in Hl. apply IH. lia.
Qed.

(** *** Options of one spec *)

Ltac scan_shapes :=
  repeat match goal with
         | |- context [scan_while ?s ?r ?f] =>
             let H := fresh "Hscan" in
             pose proof (scan_while_shape s r f) as H;
             destruct (scan_while s r f) as [? ?];
             simpl in H; destruct H as (_ & _ & H & _ & _)
         | |- context [scan_1_char ?s ?r ?c] =>
             let H := fresh "Hscan" in
             pose proof (scan_1_char_shape s r c) as H;
             destruct (scan_1_char s r c) as [? ?];
             simpl in H; destruct H as (_ & H)
         end.

(** [parse_from_string] on a range that starts with a dash leaves less than
    it was given. *)
Lemma parse_from_string_remaining str remaining errs0 :
  range_empty remaining = false ->
  test_at str (start remaining) (char_is "-") = true ->
  rlength (snd (fst (parse_from_string str remaining errs0))) < rlength remaining.
Proof.
  intros Hne Hdash. unfold parse_from_string.
  pose proof (scan_while_shape str remaining (char_is "-")) as H0.
  destruct (scan_while str remaining (char_is "-")) as [dashes rem0].
  simpl in H0. destruct H0 as (_ & _ & _ & _ & H0). specialize (H0 Hne Hdash).
  scan_shapes.
  match goal with
  | |- context [if negb (range_empty ?o) then _ else _] =>
      destruct (negb (range_empty o))
  end.
  - scan_shapes.
    repeat match goal with
           | |- context [if ?b then _ else _] => destruct b
           end; simpl; lia.
  - simpl. lia.
Qed.

Lemma parse_spec_options_more this rounds extra d dv :
  forall remaining w,
    rlength remaining < rounds ->
    parse_spec_options this (rounds + extra) d dv remaining w
    = parse_spec_options this rounds d dv remaining w.
Proof.
  induction rounds as [|rounds IH]; intros remaining w H; [lia|]. simpl.
  destruct (range_empty remaining) eqn:Hne; [reflexivity|].
  destruct (test_at (source this) (start remaining) (char_is "-")) eqn:Hd;
    [|reflexivity].
  simpl.
  pose proof (parse_from_string_remaining (source this) remaining (spec_errors w)
                Hne Hd) as Hr.
  destruct (parse_from_string (source this) remaining (spec_errors w))
    as [[o rem] errs].
  simpl in Hr.
  destruct (range_empty (name o)); [reflexivity|].
  scan_shapes. apply IH. lia.
Qed.

(** *** Deduplication *)

Lemma erase_at_length_le {A} (l : list A) i : length (erase_at l i) <= length l.
Proof. unfold erase_at. rewrite length_app, length_take, length_drop. lia. Qed.

Lemma erase_at_length_keep {A} (l : list A) i c :
  c < i -> c < length l -> c < length (erase_at l i).
Proof.
  intros H1 H2. unfold erase_at. rewrite length_app, length_take, length_drop. lia.
Qed.

(** Erasing the matching indexes, all at the cursor or behind it: the list
    gets shorter when the cursor is erased, and else still has the cursor. *)
Lemma erase_matches_length (opts : option_list_t) cursor best matching :
  Forall (fun j => cursor <= j) matching -> cursor < length opts ->
  let r := erase_matches opts cursor best matching in
  length (fst r) <= length opts /\
  if snd r then length (fst r) < length opts else cursor < length (fst r).
Proof.
  intros Hm Hc. unfold erase_matches.
  induction matching as [|j matching IH]; simpl; [split; [lia | exact Hc]|].
  inversion Hm as [|? ? Hj Hm']; subst. specialize (IH Hm').
  destruct (fold_right _ (opts, false) matching) as [opts' erased]. simpl in *.
  destruct IH as [IH1 IH2].
  destruct (negb (j =? best)); simpl; [|split; assumption].
  pose proof (erase_at_length_le opts' j) as Hle.
  split; [lia|].
  destruct erased; simpl; [lia|].
  destruct (j =? cursor) eqn:E.
  - apply Nat.eqb_eq in E. subst j.
    rewrite erase_at_length by exact IH2. lia.
  - apply Nat.eqb_neq in E. apply erase_at_length_keep; [lia | exact IH2].
Qed.

Lemma uniqueize_matches_indexes this opts flag rounds cursor :
  forall match_cursor best matching errs0,
    cursor <= match_cursor ->
    Forall (fun j => cursor <= j) matching ->
    Forall (fun j => cursor <= j)
      (snd (fst (uniqueize_matches this opts flag rounds match_cursor best matching
                   errs0))).
Proof.
  induction rounds as [|rounds IH]; intros mc best matching errs0 Hmc Hm; simpl;
    [exact Hm|].
  destruct (options_have_same_name this (option_at opts best) (option_at opts mc)).
  - apply IH; [lia|]. apply Forall_app. split; [exact Hm | constructor; [exact Hmc | constructor]].
  - apply IH; [lia | exact Hm].
Qed.

Lemma uniqueize_loop_more this flag rounds extra :
  forall cursor opts errs0,
    length opts - cursor <= rounds ->
    uniqueize_loop this flag (rounds + extra) cursor opts errs0
    = uniqueize_loop this flag rounds cursor opts errs0.
Proof.
  induction rounds as [|rounds IH]; intros cursor opts errs0 H; simpl.
  - destruct extra; simpl; [reflexivity|].
    assert (E : (cursor <? length opts) = false) by (apply Nat.ltb_ge; lia).
    rewrite E. reflexivity.
  - destruct (cursor <? length opts) eqn:E; [|reflexivity].
    apply Nat.ltb_lt in E.
    pose proof (uniqueize_matches_indexes this opts flag (length opts - (cursor + 1))
                  cursor (cursor + 1) cursor [cursor] errs0) as Hm.
    destruct (uniqueize_matches this opts flag (length opts - (cursor + 1))
                (cursor + 1) cursor [cursor] errs0) as [[best matching] e'].
    simpl in Hm.
    assert (Hall : Forall (fun j => cursor <= j) matching).
    { apply Hm; [lia | constructor; [lia | constructor]]. }
    pose proof (erase_matches_length opts cursor best matching Hall E) as He.
    destruct (erase_matches opts cursor best matching) as [opts' erased].
    simpl in He. destruct He as [He1 He2].
    apply IH. destruct erased; lia.
Qed.

(** The loop of [uniqueize_options] gets to the end of the list. *)
Lemma uniqueize_options_rounds this opts flag errs0 extra :
  uniqueize_loop this flag (length opts + extra) 0 opts errs0
  = uniqueize_options this opts flag errs0.
Proof. apply uniqueize_loop_more. lia. Qed.

(** ** Sorting and removing duplicates *)

Lemma ascii_compare_lt_trans (a b c : ascii) :
  Ascii.compare a b = Lt -> Ascii.compare b c = Lt -> Ascii.compare a c = Lt.
Proof.
  unfold Ascii.compare. rewrite !N.compare_lt_iff. apply N.lt_trans.
Qed.

Lemma ascii_compare_refl (a : ascii) : Ascii.compare a a = Eq.
Proof. unfold Ascii.compare. apply N.compare_refl. Qed.

Lemma string_compare_refl (a : string) : String.compare a a = Eq.
Proof. induction a as [|c a IH]; simpl; [reflexivity|]. rewrite ascii_compare_refl. exact IH. Qed.

Lemma string_compare_lt_trans (a : string) : forall b c,
  String.compare a b = Lt -> String.compare b c = Lt -> String.compare a c = Lt.
Proof.
  induction a as [|x a IH]; intros [|y b] [|z c]; simpl; try discriminate; try reflexivity.
  destruct (Ascii.compare x y) eqn:Exy; try discriminate;
    destruct (Ascii.compare y z) eqn:Eyz; try discriminate; intros H1 H2.
  - apply Ascii.compare_eq_iff in Exy, Eyz. subst. rewrite ascii_compare_refl.
    eapply IH; eassumption.
  - apply Ascii.compare_eq_iff in Exy. subst. rewrite Eyz. reflexivity.
  - apply Ascii.compare_eq_iff in Eyz. subst. rewrite Exy. reflexivity.
  - rewrite (ascii_compare_lt_trans x y z Exy Eyz). reflexivity.
Qed.

Lemma string_ltb_trans (a b c : string) :
  String.ltb a b = true -> String.ltb b c = true -> String.ltb a c = true.
Proof.
  unfold String.ltb. intros H1 H2.
  destruct (String.compare a b) eqn:E1; try discriminate.
  destruct (String.compare b c) eqn:E2; try discriminate.
  rewrite (string_compare_lt_trans a b c E1 E2). reflexivity.
Qed.

Lemma string_ltb_irrefl (a : string) : String.ltb a a = false.
Proof. unfold String.ltb. rewrite string_compare_refl. reflexivity. Qed.

(** Of two strings one is before the other, or they are the same. *)
Lemma string_ltb_cases (a b : string) :
  String.ltb a b = true \/ a = b \/ String.ltb b a = true.
Proof.
  unfold String.ltb. rewrite (String.compare_antisym b a).
  destruct (String.compare a b) eqn:E; simpl; auto.
  apply String.compare_eq_iff in E. auto.
Qed.

Lemma string_ltb_asym (a b : string) : String.ltb a b = true -> String.ltb b a = false.
Proof.
  intros H. destruct (String.ltb b a) eqn:E; [|reflexivity].
  pose proof (string_ltb_trans a b a H E) as H'. rewrite string_ltb_irrefl in H'.
  discriminate.
Qed.

Lemma string_le_lt_trans (a b c : string) :
  string_le a b -> String.ltb b c = true -> String.ltb a c = true.
Proof.
  unfold string_le. intros H1 H2.
  destruct (string_ltb_cases a b) as [H | [-> | H]]; [|exact H2|congruence].
  exact (string_ltb_trans a b c H H2).
Qed.

Lemma string_le_trans (a b c : string) : string_le a b -> string_le b c -> string_le a c.
Proof.
  unfold string_le. intros H1 H2.
  destruct (String.ltb c a) eqn:E; [|reflexivity].
  destruct (string_ltb_cases b c) as [H | [-> | H]]; [|congruence|congruence].
  pose proof (string_ltb_trans b c a H E). congruence.
Qed.

Lemma sort_insert_perm x l : sort_insert x l ≡ₚ x :: l.
Proof.
  induction l as [|y l IH]; simpl; [reflexivity|].
  destruct (String.ltb x y); [reflexivity|].
  rewrite IH. apply Permutation_swap.
Qed.

Lemma std_sort_perm l : std_sort l ≡ₚ l.
Proof.
  induction l as [|x l IH]; simpl; [reflexivity|].
  rewrite sort_insert_perm, IH. reflexivity.
Qed.

Lemma sort_insert_sorted x l :
  StronglySorted string_le l -> StronglySorted string_le (sort_insert x l).
Proof.
  induction l as [|y l IH]; intros Hs; simpl.
  - constructor; constructor.
  - inversion Hs as [|? ? Hs' Hall]; subst.
    destruct (String.ltb x y) eqn:E.
    + constructor; [exact Hs|]. constructor.
      * apply string_ltb_asym. exact E.
      * eapply Forall_impl; [exact Hall|]. simpl. intros z Hz.
        apply (string_le_trans x y z); [apply string_ltb_asym; exact E | exact Hz].
    + constructor; [apply IH; exact Hs'|].
      rewrite sort_insert_perm. constructor; [exact E | exact Hall].
Qed.

Lemma std_sort_sorted l : StronglySorted string_le (std_sort l).
Proof.
  induction l as [|x l IH]; simpl; [constructor | apply sort_insert_sorted; exact IH].
Qed.

Lemma std_unique_elem l x : x ∈ std_unique l <-> x ∈ l.
Proof.
  induction l as [|y l IH]; simpl; [reflexivity|].
  destruct l as [|z l]; [reflexivity|].
  destruct (String.eqb y z) eqn:E.
  - apply String.eqb_eq in E. subst z. rewrite IH, !elem_of_cons. tauto.
  - rewrite (elem_of_cons (std_unique (z :: l))), IH, !elem_of_cons. tauto.
Qed.

Lemma std_unique_sorted l :
  StronglySorted string_le l ->
  StronglySorted (fun x y => String.ltb x y = true) (std_unique l).
Proof.
  induction l as [|y l IH]; intros Hs; simpl; [constructor|].
  inversion Hs as [|? ? Hs' Hall]; subst.
  destruct l as [|z l]; [constructor; constructor|].
  destruct (String.eqb y z) eqn:E; [apply IH; exact Hs'|].
  constructor; [apply IH; exact Hs'|].
  apply String.eqb_neq in E.
  apply Forall_forall. intros w Hw. apply (proj1 (std_unique_elem _ _)) in Hw.
  inversion Hs' as [|? ? _ Hall']; subst.
  assert (Hyz : String.ltb y z = true).
  { inversion Hall as [|? ? Hyz _]; subst.
    destruct (string_ltb_cases y z) as [H | [H | H]]; [exact H | contradiction |].
    unfold string_le in Hyz. congruence. }
  apply elem_of_cons in Hw. destruct Hw as [-> | Hw]; [exact Hyz|].
  rewrite Forall_forall in Hall'. specialize (Hall' w Hw).
  destruct (string_ltb_cases y w) as [H | [-> | H]]; [exact H | |].
  - unfold string_le in Hall'. congruence.
  - pose proof (string_ltb_trans w y z H Hyz). unfold string_le in Hall'. congruence.
Qed.

(** What sorting and removing the duplicates gives: a list that goes strictly
    upwards, with the elements of the given list. *)
Lemma sort_unique_spec l :
  StronglySorted (fun x y => String.ltb x y = true) (std_unique (std_sort l)) /\
  forall x, x ∈ std_unique (std_sort l) <-> x ∈ l.
Proof.
  split; [apply std_unique_sorted, std_sort_sorted|].
  intros x. rewrite std_unique_elem, std_sort_perm. reflexivity.
Qed.

(** A list that goes strictly upwards, read by index. *)
Lemma strictly_sorted_lookup (l : string_list_t) i j x y :
  StronglySorted (fun x y => String.ltb x y = true) l ->
  i < j -> l !! i = Some x -> l !! j = Some y -> String.ltb x y = true.
Proof.
  intros Hs. revert i j. induction Hs as [|a l Hs IH Hall]; intros i j Hij Hi Hj.
  - rewrite lookup_nil in Hi. discriminate.
  - destruct j as [|j]; [lia|]. simpl in Hj.
    destruct i as [|i]; simpl in Hi.
    + injection Hi as <-. rewrite Forall_forall in Hall. apply Hall.
      eapply list_elem_of_lookup_2. exact Hj.
    + apply (IH i j); [lia | exact Hi | exact Hj].
Qed.

(** ** Listing the names of the doc *)

Lemma filter_filter_and {A} (p q : A -> bool) (l : list A) :
  List.filter p (List.filter q l) = List.filter (fun x => p x && q x) l.
Proof.
  induction l as [|x l IH]; simpl; [reflexivity|].
  destruct (q x); simpl; [destruct (p x); simpl; congruence|].
  rewrite andb_false_r. exact IH.
Qed.

Lemma first_occurrences_elem l x : x ∈ first_occurrences l <-> x ∈ l.
Proof.
  induction l as [|y l IH]; simpl; [reflexivity|].
  rewrite !elem_of_cons, list_elem_of_In, filter_In, <- list_elem_of_In, IH.
  rewrite negb_true_iff, String.eqb_neq.
  destruct (String.eqb_spec x y); tauto.
Qed.

Lemma first_occurrences_NoDup l : NoDup (first_occurrences l).
Proof.
  induction l as [|y l IH]; simpl; constructor.
  - rewrite list_elem_of_In, filter_In, String.eqb_refl. simpl. intros [_ H]. discriminate.
  - apply NoDup_ListNoDup, List.NoDup_filter, NoDup_ListNoDup, IH.
Qed.

(** The loop of [get_command_names], started with the names [seen] and the
    list [result]: the names of the chain that are not seen are added, each
    once, in the order in which they are first met. *)
Lemma command_names_loop_spec this :
  forall u seen result,
    command_names_loop this u seen result
    = result ++ List.filter (fun y => negb (bool_decide (y ∈ seen)))
                  (first_occurrences (usage_prog_names this u)).
Proof.
  fix IH 1. intros [prog_name al next_usage] seen result. simpl.
  set (name := range_text (source this) (range prog_name)).
  set (rest := match next_usage with
               | Some u' => usage_prog_names this u'
               | None => []
               end).
  assert (Hrest : forall seen' result',
             match next_usage with
             | Some u' => command_names_loop this u' seen' result'
             | None => result'
             end
             = result' ++ List.filter (fun y => negb (bool_decide (y ∈ seen')))
                            (first_occurrences rest)).
  { intros seen' result'. unfold rest. destruct next_usage as [u'|].
    - apply IH.
    - simpl. rewrite app_nil_r. reflexivity. }
  clearbody rest. clear IH.
  destruct (range_empty (range prog_name)); simpl; [apply Hrest|].
  destruct (bool_decide (name ∈ seen)) eqn:E; simpl.
  - rewrite Hrest, filter_filter_and. f_equal. apply filter_ext. intros y.
    destruct (String.eqb_spec y name) as [-> | Hne]; simpl.
    + rewrite E. reflexivity.
    + rewrite andb_true_r. reflexivity.
  - rewrite Hrest, filter_filter_and, <- app_assoc. simpl. do 2 f_equal.
    apply filter_ext. intros y.
    destruct (String.eqb_spec y name) as [-> | Hne]; simpl.
    + rewrite andb_false_r. apply negb_false_iff, bool_decide_eq_true.
      apply elem_of_union_l, elem_of_singleton. reflexivity.
    + rewrite andb_true_r. f_equal. apply bool_decide_ext.
      rewrite elem_of_union, elem_of_singleton. tauto.
Qed.

(** X1. [get_command_names] returns the program names of the chain of
    usages, each name once, in the order in which the names first appear; a
    usage without a program name adds nothing. *)
Theorem get_command_names_first_occurrences this u :
  parse_tree this = Some u ->
  get_command_names this = first_occurrences (usage_prog_names this u) /\
  NoDup (get_command_names this) /\
  (forall x, x ∈ get_command_names this <-> x ∈ usage_prog_names this u).
Proof.
  intros Hu. unfold get_command_names. rewrite Hu, command_names_loop_spec. simpl.
  rewrite forallb_filter_id.
  2:{ apply forallb_forall. intros y _.
      apply negb_true_iff, bool_decide_eq_false, not_elem_of_empty. }
  split; [reflexivity|]. split.
  - apply first_occurrences_NoDup.
  - apply first_occurrences_elem.
Qed.

(** "Usage: prog a" followed by "prog b": the name is listed once. *)
Lemma get_command_names_first_occurrences_witness :
  get_command_names
    (mk_docopt_impl "Usage: prog a" (Some (Usage (mk_token (mk_range 7 4)) None
       (Some (Usage (mk_token (mk_range 7 4)) None None)))) [] [] [] [] [] ∅)
  = ["prog"].
Proof.
  pose proof (get_command_names_first_occurrences
    (mk_docopt_impl "Usage: prog a" (Some (Usage (mk_token (mk_range 7 4)) None
       (Some (Usage (mk_token (mk_range 7 4)) None None)))) [] [] [] [] [] ∅)
    _ eq_refl) as [H _].
  rewrite H. vm_compute. reflexivity.
Defined.

(** X2. [get_variables] returns the names of the variables of the usage and
    of the values of the options, each once, in increasing order. *)
Theorem get_variables_sorted_unique this :
  let result := get_variables this in
  (forall i j x y, i < j -> result !! i = Some x -> result !! j = Some y ->
     String.ltb x y = true) /\
  (forall x, x ∈ result <->
     (exists r, r ∈ all_variables this /\ x = range_text (source this) r) \/
     (exists o, o ∈ all_options this /\ range_empty (value o) = false /\
                x = range_text (source this) (value o))).
Proof.
  intros result. unfold result, get_variables.
  destruct (sort_unique_spec
              (map (range_text (source this)) (all_variables this) ++
               map (fun o => range_text (source this) (value o))
                 (List.filter (fun o => negb (range_empty (value o)))
                    (all_options this)))) as [Hs Hm].
  split.
  - intros i j x y. apply strictly_sorted_lookup. exact Hs.
  - intros x. rewrite Hm, elem_of_app, !list_elem_of_In, !in_map_iff.
    split; intros [H | H]; [left | right | left | right].
    + destruct H as (r & <- & Hr). exists r. rewrite list_elem_of_In. auto.
    + destruct H as (o & <- & Ho). apply filter_In in Ho. destruct Ho as [Ho Hv].
      exists o. rewrite list_elem_of_In, <- negb_true_iff. auto.
    + destruct H as (r & Hr & ->). exists r. rewrite <- list_elem_of_In. auto.
    + destruct H as (o & Ho & Hv & ->). exists o. split; [reflexivity|].
      apply filter_In. rewrite <- list_elem_of_In, negb_true_iff. auto.
Qed.

(** ** Validation of argv *)

(** Marking indexes of the vector: no index is outside, and the marked ones
    are invalid. *)
Lemma fold_set_invalid unused :
  forall l, Forall (fun i => i < length l) unused ->
    exists l', fold_left set_invalid unused (Some l) = Some l' /\
      length l' = length l /\
      forall i, l' !! i = if bool_decide (i ∈ unused)
                          then match l !! i with
                               | Some _ => Some status_invalid
                               | None => None
                               end
                          else l !! i.
Proof.
  induction unused as [|u unused IH]; intros l Hall; simpl.
  - exists l. split; [reflexivity|]. split; [reflexivity|].
    intros i. reflexivity.
  - inversion Hall as [|? ? Hu Hall']; subst.
    apply Nat.ltb_lt in Hu. rewrite Hu. apply Nat.ltb_lt in Hu.
    destruct (IH (<[ u := status_invalid ]> l)) as (l' & Hf & Hlen & Hl').
    { rewrite length_insert. exact Hall'. }
    exists l'. split; [exact Hf|]. split; [rewrite Hlen; apply length_insert|].
    intros i. rewrite Hl'.
    destruct (decide (i = u)) as [-> | Hne].
    + rewrite list_lookup_insert_eq by exact Hu.
      rewrite (bool_decide_eq_true_2 (u ∈ u :: unused)) by (apply elem_of_cons; auto).
      destruct (l !! u) eqn:E; [|apply lookup_ge_None in E; lia].
      destruct (bool_decide (u ∈ unused)); reflexivity.
    + rewrite list_lookup_insert_ne by auto.
      assert (E : bool_decide (i ∈ u :: unused) = bool_decide (i ∈ unused)).
      { apply bool_decide_ext. rewrite elem_of_cons. tauto. }
      rewrite E. reflexivity.
Qed.

(** The unused arguments that [match_argv] returns are indexes of argv. *)
Lemma match_argv_unused_in_range this tree argv fl pos resolved all_opts all_vars :
  parse_tree this = Some tree ->
  exists m unused,
    match_argv this argv fl pos resolved all_opts all_vars = Some (m, unused) /\
    Forall (fun i => i < length argv) unused.
Proof.
  intros Ht.
  destruct (match_argv_cases this tree argv fl pos resolved all_opts all_vars Ht)
    as (result & _ & [[_ H] | (b & stb & _ & H & _)]); rewrite H.
  - eexists _, _. split; [reflexivity|]. apply Forall_forall. intros i Hi.
    apply list_elem_of_In, in_seq in Hi. lia.
  - eexists _, _. split; [reflexivity|]. apply Forall_forall. intros i Hi.
    apply unused_arguments_spec in Hi. simpl in Hi. tauto.
Qed.

(** ** Where the tokenizer returns *)

(** [parse_long] compares the names of the options with a part of the
    argument that begins inside the argument. *)
Lemma parse_long_calls_return ty arg o :
  let a := arg_as_long_option ty arg in
  range_equals_string_throws (name o) arg (start (name a)) (Some (rlength (name a)))
  = false.
Proof.
  intros a. apply range_equals_string_returns.
  assert (H : start (name (parse_option_from_argument arg)) <= string_size arg).
  { unfold parse_option_from_argument.
    pose proof (scan_while_shape arg (mk_range 0 (string_size arg)) (char_is "-")) as H1.
    destruct (scan_while arg (mk_range 0 (string_size arg)) (char_is "-")) as [d rem1].
    simpl in H1. destruct H1 as (_ & H1 & _).
    pose proof (scan_while_shape arg rem1 char_is_valid_in_parameter) as H2.
    destruct (scan_while arg rem1 char_is_valid_in_parameter) as [n rem2].
    simpl in H2. destruct H2 as (_ & _ & _ & H2 & _).
    destruct (scan_1_char arg rem2 "=") as [e rem3]. simpl.
    unfold range_end in *. simpl in *. lia. }
  unfold a, arg_as_long_option.
  destruct (type_eqb ty single_long
            && type_eqb (type (parse_option_from_argument arg)) single_short);
    exact H.
Qed.

(** After a failure, [parse_long] has moved on to the next argument only
    when the separators are strict. *)
Lemma parse_long_resolve_idx_relaxed this argv fl i a matches res errs0 sugg :
  has_flag fl flag_short_options_strict_separators = false ->
  let r := parse_long_resolve this argv fl i a matches res errs0 sugg in
  success r = false -> idx r = i.
Proof.
  intros Hf. unfold parse_long_resolve. rewrite Hf.
  destruct matches as [|m ms]; simpl; [reflexivity|].
  destruct (has_value m), (has_value a), (i + 1 <? length argv),
    (has_flag fl flag_generate_suggestions && is_some sugg); simpl;
    try discriminate; reflexivity.
Qed.

Lemma parse_long_idx_relaxed this argv ty fl i opts res errs0 sugg :
  has_flag fl flag_short_options_strict_separators = false ->
  let r := parse_long this argv ty fl i opts res errs0 sugg in
  success r = false -> idx r = i.
Proof.
  intros Hf. unfold parse_long.
  match goal with
  | |- context [let '(_, _) := ?c in _] => destruct c as [matches errs]
  end.
  apply parse_long_resolve_idx_relaxed. exact Hf.
Qed.

Lemma parse_unseparated_short_returns argv fl i opts :
  1 <= string_size (argv_at argv i) ->
  parse_unseparated_short_throws argv fl i opts = false.
Proof.
  intros H. unfold parse_unseparated_short_throws.
  induction opts as [|o opts IH]; simpl; [reflexivity|].
  rewrite IH, (range_equals_string_returns _ _ _ _ H), andb_false_r. reflexivity.
Qed.

Lemma separate_step_returns this argv opts fl i st :
  i < length argv -> separated_wf argv st ->
  has_flag fl flag_short_options_strict_separators = false \/ EmptyString ∉ argv ->
  separate_step_throws this argv opts fl i st = false.
Proof.
  intros Hi [_ Hwf] Hc. unfold separate_step_throws.
  destruct (str_equals "--" (argv_at argv i)); [reflexivity|].
  destruct (substr_equals "--" (argv_at argv i) 2); [reflexivity|].
  destruct (substr_equals "-" (argv_at argv i) 1 && (1 <? string_size (argv_at argv i)))
    eqn:E; [|reflexivity].
  apply andb_true_iff in E. destruct E as [_ E]. apply Nat.ltb_lt in E.
  pose proof (parse_long_ok this argv single_long fl i opts (sep_resolved_options st)
                (Some []) (sep_suggestion st) Hi Hwf) as [_ Hidx].
  pose proof (parse_long_idx_relaxed this argv single_long fl i opts
                (sep_resolved_options st) (Some []) (sep_suggestion st)) as Hrel.
  cbv zeta in Hrel.
  destruct (success (parse_long this argv single_long fl i opts
                       (sep_resolved_options st) (Some []) (sep_suggestion st)));
    [reflexivity|].
  apply parse_unseparated_short_returns.
  destruct Hc as [Hf | Hne].
  - rewrite (Hrel Hf eq_refl). lia.
  - destruct Hidx as [[-> | [-> Hlt]] _]; [lia|].
    unfold argv_at.
    destruct (nth (i + 1) argv EmptyString) eqn:En; [|simpl; lia].
    exfalso. apply Hne. rewrite <- En. apply list_elem_of_In, nth_In. exact Hlt.
Qed.

Lemma separate_loop_returns this argv opts fl rounds :
  has_flag fl flag_short_options_strict_separators = false \/ EmptyString ∉ argv ->
  forall i st,
    separated_wf argv st ->
    separate_loop_throws this argv opts fl rounds i st = false.
Proof.
  intros Hc. induction rounds as [|rounds IH]; intros i st Hwf; simpl; [reflexivity|].
  destruct (i <? length argv) eqn:E; [|reflexivity].
  apply Nat.ltb_lt in E.
  rewrite (separate_step_returns this argv opts fl i st E Hwf Hc). simpl.
  pose proof (separate_step_ok this argv opts fl i st E Hwf) as (_ & _ & H3).
  destruct (separate_step this argv opts fl i st) as [i' st']. simpl in H3.
  apply IH. exact H3.
Qed.

(** The tokenizer returns when the separators are not strict, and when no
    argument is the empty string. *)
Lemma separate_argv_returns this argv opts fl errs0 sugg :
  has_flag fl flag_short_options_strict_separators = false \/ EmptyString ∉ argv ->
  separate_argv_throws this argv opts fl errs0 sugg = false.
Proof.
  intros Hc. unfold separate_argv_throws.
  apply separate_loop_returns; [exact Hc | split; constructor].
Qed.

(** With strict separators, "-foo" followed by an empty argument: [parse_long]
    takes the empty argument as the value, finds the separator wrong and
    leaves the index on the empty argument; [parse_unseparated_short] then
    compares the name of -D with the character at 1 of the empty string, and
    the tokenizer throws. With another value, and without strict separators,
    it returns. *)
Example separate_argv_throws_on_empty_value :
  separate_argv_throws ex_strict_impl ["prog"; "-foo"; EmptyString]
    (all_options ex_strict_impl) flag_short_options_strict_separators (Some []) None
  = true /\
  separate_argv_throws ex_strict_impl ["prog"; "-foo"; "x"]
    (all_options ex_strict_impl) flag_short_options_strict_separators (Some []) None
  = false /\
  separate_argv_throws ex_strict_impl ["prog"; "-foo"; EmptyString]
    (all_options ex_strict_impl) 0%N (Some []) None
  = false.
Proof. repeat split; vm_compute; reflexivity. Qed.

(** X3. With a doc set, and for an argv on which the tokenizer returns (it
    does when the separators are not strict and when no argument is empty,
    [separate_argv_returns]), [validate_arguments] does not index outside of
    its vector: it returns one status per argument of argv, and the status
    of an argument is invalid exactly when its index is one of the unused
    arguments that [parse_arguments] reports. *)
Theorem validate_arguments_marks_unused impl tree argv fl :
  parse_tree impl = Some tree ->
  separate_argv_throws impl argv (all_options impl) fl (Some []) None = false ->
  exists m unused errs statuses,
    best_assignment_for_argv impl argv fl = Some (m, unused, errs) /\
    validate_arguments impl argv fl = Some statuses /\
    length statuses = length argv /\
    forall i, i < length argv ->
      statuses !! i
      = Some (if bool_decide (i ∈ unused) then status_invalid else status_valid).
Proof.
  intros Ht _. unfold validate_arguments, best_assignment_for_argv.
  set (sep := separate_argv_into_options_and_positionals impl argv (all_options impl)
                fl (Some []) None).
  destruct (match_argv_unused_in_range impl tree argv fl (sep_positionals sep)
              (sep_resolved_options sep) (all_options impl) (all_variables impl) Ht)
    as (m & unused & Hm & Hall).
  rewrite Hm.
  destruct (fold_set_invalid unused (repeat status_valid (length argv)))
    as (l' & Hf & Hlen & Hl').
  { rewrite repeat_length. exact Hall. }
  exists m, unused, (errors_of (sep_errors sep)), l'.
  split; [reflexivity|]. split; [exact Hf|].
  rewrite repeat_length in Hlen. split; [exact Hlen|].
  intros i Hi. rewrite Hl', repeat_lookup by exact Hi.
  destruct (bool_decide (i ∈ unused)); reflexivity.
Qed.

(** "prog -vv" against "Usage: prog -v": the second argument is invalid. *)
Lemma validate_arguments_marks_unused_witness :
  parse_tree ex_v_impl = Some ex_v_tree /\
  separate_argv_throws ex_v_impl ex_vv_argv (all_options ex_v_impl) 0%N (Some []) None
  = false /\
  exists m unused errs statuses,
    best_assignment_for_argv ex_v_impl ex_vv_argv 0%N = Some (m, unused, errs) /\
    validate_arguments ex_v_impl ex_vv_argv 0%N = Some statuses /\
    length statuses = length ex_vv_argv /\
    forall i, i < length ex_vv_argv ->
      statuses !! i
      = Some (if bool_decide (i ∈ unused) then status_invalid else status_valid).
Proof.
  split; [reflexivity|]. split; [reflexivity|].
  apply (validate_arguments_marks_unused ex_v_impl ex_v_tree ex_vv_argv 0%N);
    reflexivity.
Defined.

(** ** Suggestions *)

(** The fewest unused arguments: what the first loop of
    [suggest_next_argument] leaves in [best_unused_arg_count]. *)
Lemma best_unused_fold ctx states :
  forall init,
    let step := fun (best : option nat) (st : match_state_t) =>
      if npos_gt best (length (unused_arguments ctx st))
      then Some (length (unused_arguments ctx st)) else best in
    match fold_left step states init with
    | Some b =>
        (init = Some b \/
         exists st, st ∈ states /\ length (unused_arguments ctx st) = b) /\
        (forall st, st ∈ states -> b <= length (unused_arguments ctx st)) /\
        (forall b0, init = Some b0 -> b <= b0)
    | None => init = None /\ states = []
    end.
Proof.
  induction states as [|s states IH]; intros init step; simpl.
  - destruct init as [b0|]; simpl; [|split; reflexivity].
    split; [left; reflexivity|]. split.
    + intros st Hst. apply not_elem_of_nil in Hst. contradiction.
    + intros b [= ->]. lia.
  - specialize (IH (step init s)). cbv zeta in IH. fold step in IH |- *.
    destruct (fold_left step states (step init s)) as [b|].
    + destruct IH as (Hfrom & Hmin & Hle).
      assert (Hs : exists c, step init s = Some c /\
                     c <= length (unused_arguments ctx s) /\
                     (forall b0, init = Some b0 -> c <= b0) /\
                     (init = Some c \/ c = length (unused_arguments ctx s))).
      { unfold step. destruct init as [b0|]; simpl.
        - destruct (length (unused_arguments ctx s) <? b0) eqn:E.
          + apply Nat.ltb_lt in E. eexists. split; [reflexivity|].
            split; [lia|]. split; [intros ? [= <-]; lia | right; reflexivity].
          + apply Nat.ltb_ge in E. exists b0. split; [reflexivity|].
            split; [lia|]. split; [intros ? [= <-]; lia | left; reflexivity].
        - eexists. split; [reflexivity|]. split; [lia|].
          split; [discriminate | right; reflexivity]. }
      destruct Hs as (c & Hc & Hcs & Hc0 & Hcfrom).
      specialize (Hle c Hc). split; [|split].
      * destruct Hfrom as [Hfrom | (st & Hst & Hlen)].
        -- rewrite Hc in Hfrom. injection Hfrom as ->.
           destruct Hcfrom as [-> | ->]; [left; reflexivity|].
           right. exists s. split; [apply elem_of_cons; auto | reflexivity].
        -- right. exists st. split; [apply elem_of_cons; auto | exact Hlen].
      * intros st Hst. apply elem_of_cons in Hst. destruct Hst as [-> | Hst];
          [lia | apply Hmin; exact Hst].
      * intros b0 Hb0. specialize (Hc0 b0 Hb0). lia.
    + destruct IH as [Hnone _]. unfold step in Hnone.
      destruct init as [b0|]; simpl in Hnone;
        [destruct (length (unused_arguments ctx s) <? b0)|]; discriminate.
Qed.

(** The suggestions that the second loop collects: those of the states that
    have no more unused arguments than any state. *)
Lemma best_suggestions_elem ctx states x :
  x ∈ best_suggestions ctx states (best_unused_arg_count ctx states) <->
  exists st, st ∈ states /\ x ∈ suggested_next_arguments st /\
    forall st', st' ∈ states ->
      length (unused_arguments ctx st) <= length (unused_arguments ctx st').
Proof.
  unfold best_suggestions, best_unused_arg_count.
  pose proof (best_unused_fold ctx states None) as Hb. simpl in Hb.
  destruct (fold_left _ states None) as [b|].
  - destruct Hb as ([Hb | (stb & Hstb & Hlen)] & Hmin & _); [discriminate|].
    rewrite list_elem_of_In, in_flat_map. split.
    + intros (st & Hst & Hx). apply list_elem_of_In in Hst.
      destruct (bool_decide (Some (length (unused_arguments ctx st)) = Some b)) eqn:E;
        [|apply list_elem_of_In, not_elem_of_nil in Hx; contradiction].
      apply bool_decide_eq_true in E. injection E as E.
      exists st. split; [exact Hst|]. split.
      * apply list_elem_of_In, elem_of_elements in Hx. exact Hx.
      * intros st' Hst'. rewrite E. apply Hmin. exact Hst'.
    + intros (st & Hst & Hx & Hle). exists st.
      split; [apply list_elem_of_In; exact Hst|].
      rewrite bool_decide_eq_true_2.
      * apply list_elem_of_In, elem_of_elements. exact Hx.
      * f_equal. specialize (Hle stb Hstb). specialize (Hmin st Hst). lia.
  - destruct Hb as [_ ->]. simpl. split.
    + intros H. apply not_elem_of_nil in H. contradiction.
    + intros (st & Hst & _). apply not_elem_of_nil in Hst. contradiction.
Qed.

(** X4. With a doc set, and for an argv on which the tokenizer returns
    ([separate_argv_returns]), [suggest_next_argument] returns, and its
    result goes strictly upwards in the order of the strings, so that no
    suggestion is there twice. When the tokenizer has a suggestion (the last argument is an
    option whose value is missing), that is the whole result. Otherwise the
    result has the suggestions of the states of the match that have no more
    unused arguments than any other state, and nothing else. *)
Theorem suggest_next_argument_sorted this tree argv fl :
  parse_tree this = Some tree ->
  let flags := N.lor fl flag_generate_suggestions in
  let sep := separate_argv_into_options_and_positionals this argv (all_options this)
               flags None (Some EmptyString) in
  let ctx := mk_context flags (sep_positionals sep) (sep_resolved_options sep)
               argv false in
  separate_argv_throws this argv (all_options this) flags None (Some EmptyString)
  = false ->
  exists result,
    suggest_next_argument this argv fl = Some result /\
    (forall i j x y, i < j -> result !! i = Some x -> result !! j = Some y ->
       String.ltb x y = true) /\
    (forall s, sep_suggestion sep = Some s -> s <> EmptyString -> result = [s]) /\
    (default EmptyString (sep_suggestion sep) = EmptyString ->
     exists states,
       match_usage this (ellipsis_rounds this ctx tree) tree
         (init_state (sep_resolved_options sep)) ctx = Some states /\
       forall x, x ∈ result <->
         exists st, st ∈ states /\ x ∈ suggested_next_arguments st /\
           forall st', st' ∈ states ->
             length (unused_arguments ctx st) <= length (unused_arguments ctx st')).
Proof.
  intros Ht flags sep ctx _. unfold suggest_next_argument. fold flags. fold sep.
  destruct (string_size (default EmptyString (sep_suggestion sep)) =? 0) eqn:E; simpl.
  - apply Nat.eqb_eq in E.
    assert (Hempty : default EmptyString (sep_suggestion sep) = EmptyString).
    { destruct (default EmptyString (sep_suggestion sep)); [reflexivity | discriminate]. }
    rewrite Ht. fold ctx.
    destruct (match_usage_returns this tree ctx) as (states & Hstates & _).
    simpl in Hstates. rewrite Hstates.
    destruct (sort_unique_spec
                (best_suggestions ctx states (best_unused_arg_count ctx states)))
      as [Hs Hm].
    eexists. split; [reflexivity|]. split; [|split].
    + intros i j x y. apply strictly_sorted_lookup. exact Hs.
    + intros s Hsome Hne. rewrite Hsome in Hempty. simpl in Hempty. contradiction.
    + intros _. exists states. split; [reflexivity|].
      intros x. rewrite Hm. apply best_suggestions_elem.
  - apply Nat.eqb_neq in E. eexists. split; [reflexivity|]. split; [|split].
    + intros i j x y Hij Hi Hj. destruct i; destruct j; simpl in *; try lia;
        rewrite lookup_nil in Hj; discriminate.
    + intros s Hsome _. rewrite Hsome. reflexivity.
    + intros Hempty. rewrite Hempty in E. simpl in E. contradiction.
Qed.

(** "prog" against "Usage: prog -v": the result is sorted. *)
Lemma suggest_next_argument_sorted_witness :
  parse_tree ex_v_impl = Some ex_v_tree /\
  separate_argv_throws ex_v_impl ["prog"] (all_options ex_v_impl)
    (N.lor 0 flag_generate_suggestions) None (Some EmptyString) = false /\
  exists result,
    suggest_next_argument ex_v_impl ["prog"] 0%N = Some result /\
    forall i j x y, i < j -> result !! i = Some x -> result !! j = Some y ->
      String.ltb x y = true.
Proof.
  split; [reflexivity|]. split; [reflexivity|].
  destruct (suggest_next_argument_sorted ex_v_impl ex_v_tree ["prog"] 0%N eq_refl
              eq_refl)
    as (result & H1 & H2 & _).
  exists result. split; [exact H1 | exact H2].
Defined.

(** ** The scanners *)

Lemma scan_while_loop_run str f rounds :
  forall result remaining,
    range_end result = start remaining ->
    rlength remaining <= rounds ->
    (forall p, start result <= p < range_end result -> test_at str p f = true) ->
    let r := scan_while_loop str f rounds result remaining in
    (forall p, start (fst r) <= p < range_end (fst r) -> test_at str p f = true) /\
    (range_empty (snd r) = false -> test_at str (start (snd r)) f = false).
Proof.
  induction rounds as [|rounds IH]; intros result remaining He Hr Hall; simpl.
  - split; [exact Hall|]. unfold range_empty. intros H. apply Nat.eqb_neq in H. lia.
  - destruct ((range_end result <? range_end remaining)
              && test_at str (range_end result) f) eqn:E.
    + apply andb_true_iff in E. destruct E as [E1 E2]. apply Nat.ltb_lt in E1.
      apply IH; unfold range_end in *; simpl in *; [lia | lia |].
      intros p Hp. destruct (decide (p = start result + rlength result)) as [-> | Hne];
        [exact E2 | apply Hall; lia].
    + simpl. split; [exact Hall|]. unfold range_empty. intros H. apply Nat.eqb_neq in H.
      apply andb_false_iff in E. destruct E as [E | E].
      * apply Nat.ltb_ge in E. unfold range_end in *. lia.
      * rewrite <- He. exact E.
Qed.

(** X5. [scan_while] splits the range in two: the result, which starts where
    the range starts, and what remains, which ends where the range ends. The
    result is the longest run of characters that pass the test: every
    character in it passes, and the first character that remains, if there
    is one, does not. *)
Theorem scan_while_longest_run str remaining f :
  let r := scan_while str remaining f in
  start (fst r) = start remaining /\
  range_end (fst r) = start (snd r) /\
  range_end (snd r) = range_end remaining /\
  (forall p, start (fst r) <= p < range_end (fst r) -> test_at str p f = true) /\
  (range_empty (snd r) = false -> test_at str (start (snd r)) f = false).
Proof.
  intros r.
  destruct (scan_while_shape str remaining f) as (H1 & H2 & _ & H4 & _).
  fold r in H1, H2, H4.
  split; [exact H4|]. split; [exact H1|]. split; [exact H2|].
  apply scan_while_loop_run; unfold range_end; simpl; [lia | lia | lia].
Qed.

Lemma trim_left_spec src rounds :
  forall left right, left <= right ->
    let l := trim_left src rounds left right in
    left <= l <= right /\
    (forall p, left <= p < l -> test_at src p isspace = true) /\
    (right - left <= rounds -> l < right -> test_at src l isspace = false).
Proof.
  induction rounds as [|rounds IH]; intros left right Hle; simpl.
  - split; [lia|]. split; [lia|]. lia.
  - destruct ((left <? right) && test_at src left isspace) eqn:E.
    + apply andb_true_iff in E. destruct E as [E1 E2]. apply Nat.ltb_lt in E1.
      destruct (IH (left + 1) right) as (H1 & H2 & H3); [lia|].
      split; [lia|]. split.
      * intros p Hp. destruct (decide (p = left)) as [-> | Hne];
          [exact E2 | apply H2; lia].
      * intros Hr. apply H3. lia.
    + split; [lia|]. split; [lia|]. intros _ Hlt.
      apply andb_false_iff in E. destruct E as [E | E]; [|exact E].
      apply Nat.ltb_ge in E. lia.
Qed.

Lemma trim_right_spec src rounds :
  forall left right, left <= right ->
    let r := trim_right src rounds left right in
    left <= r <= right /\
    (forall p, r <= p < right -> test_at src p isspace = true) /\
    (right - left <= rounds -> left < r -> test_at src (r - 1) isspace = false).
Proof.
  induction rounds as [|rounds IH]; intros left right Hle; simpl.
  - split; [lia|]. split; [lia|]. lia.
  - destruct ((left <? right) && test_at src (right - 1) isspace) eqn:E.
    + apply andb_true_iff in E. destruct E as [E1 E2]. apply Nat.ltb_lt in E1.
      destruct (IH left (right - 1)) as (H1 & H2 & H3); [lia|].
      split; [lia|]. split.
      * intros p Hp. destruct (decide (p = right - 1)) as [-> | Hne];
          [exact E2 | apply H2; lia].
      * intros Hr. apply H3. lia.
    + split; [lia|]. split; [lia|]. intros _ Hlt.
      apply andb_false_iff in E. destruct E as [E | E]; [|exact E].
      apply Nat.ltb_ge in E. lia.
Qed.

(** X6. [trim_whitespace] returns a range inside the given one; the
    characters that it leaves out, before and behind, are all white space;
    and when the result is not empty, its first and its last character are
    not white space. *)
Theorem trim_whitespace_trims range src :
  let r := trim_whitespace range src in
  start range <= start r /\ range_end r <= range_end range /\
  (forall p, start range <= p < start r \/ range_end r <= p < range_end range ->
     test_at src p isspace = true) /\
  (range_empty r = false ->
   test_at src (start r) isspace = false /\
   test_at src (range_end r - 1) isspace = false).
Proof.
  unfold trim_whitespace.
  destruct (trim_left_spec src (rlength range) (start range) (range_end range))
    as (Hl1 & Hl2 & Hl3); [unfold range_end; lia|].
  set (l := trim_left src (rlength range) (start range) (range_end range)) in *.
  destruct (trim_right_spec src (rlength range) l (range_end range))
    as (Hr1 & Hr2 & Hr3); [lia|].
  set (r := trim_right src (rlength range) l (range_end range)) in *.
  unfold range_end, range_empty in *. simpl.
  split; [lia|]. split; [lia|]. split.
  - intros p [Hp | Hp]; [apply Hl2; lia | apply Hr2; lia].
  - intros Hne. apply Nat.eqb_neq in Hne.
    split; [apply Hl3; lia|].
    replace (l + (r - l) - 1) with (r - 1) by lia. apply Hr3; lia.
Qed.

(** The first [c] at or after [from]: where [find_char_from] finds it, and
    that there is none when it finds none. *)
Lemma find_char_from_first s c from :
  forall i,
    match find_char_from s c from i with
    | Some k =>
        i <= k /\ from <= k /\ String.get (k - i) s = Some c /\
        forall p, from <= p -> i <= p < k -> String.get (p - i) s <> Some c
    | None => forall p, from <= p -> i <= p -> String.get (p - i) s <> Some c
    end.
Proof.
  induction s as [|d s IH]; intros i; cbn [find_char_from].
  - intros p _ _. simpl. discriminate.
  - destruct ((from <=? i) && Ascii.eqb d c) eqn:E.
    + apply andb_true_iff in E. destruct E as [E1 E2].
      apply Nat.leb_le in E1. apply Ascii.eqb_eq in E2. subst d.
      rewrite Nat.sub_diag. split; [lia|]. split; [lia|]. split; [reflexivity|].
      intros p _ Hp. lia.
    + specialize (IH (i + 1)).
      assert (Hhead : from <= i -> d <> c).
      { intros Hf Hd. apply Nat.leb_le in Hf. apply Ascii.eqb_eq in Hd.
        rewrite Hf, Hd in E. discriminate. }
      assert (Hget : forall p, i < p -> String.get (p - i) (String d s)
                                        = String.get (p - (i + 1)) s).
      { intros p Hp. replace (p - i) with (S (p - (i + 1))) by lia. reflexivity. }
      destruct (find_char_from s c from (i + 1)) as [k|].
      * destruct IH as (H1 & H2 & H3 & H4).
        split; [lia|]. split; [lia|]. split; [rewrite Hget by lia; exact H3|].
        intros p Hf Hp. destruct (decide (p = i)) as [-> | Hne].
        -- rewrite Nat.sub_diag. simpl. intros [= Hd]. apply (Hhead Hf Hd).
        -- rewrite Hget by lia. apply H4; [exact Hf | lia].
      * intros p Hf Hp. destruct (decide (p = i)) as [-> | Hne].
        -- rewrite Nat.sub_diag. simpl. intros [= Hd]. apply (Hhead Hf Hd).
        -- rewrite Hget by lia. apply IH; [exact Hf | lia].
Qed.

(** X7. A line that [get_next_line] returns starts where the range on input
    ends, is not empty (what the source asserts), and lies within the
    string; with a limit [end], it ends at most one character behind the
    limit. A newline is in the line only as its last character; and the line
    ends with a newline unless it ends at the end of the text to look at. *)
Theorem get_next_line_is_line str r e line :
  get_next_line str r e = Some line ->
  let effective_end :=
    match e with Some limit => Nat.min (string_size str) limit | None => string_size str end in
  start line = range_end r /\ 0 < rlength line /\
  range_end line <= string_size str /\ range_end line <= effective_end + 1 /\
  (forall p, start line <= p -> p + 1 < range_end line -> char_at str p <> Some newline) /\
  (char_at str (range_end line - 1) = Some newline \/ range_end line = effective_end).
Proof.
  intros H eff.
  destruct (get_next_line_advances str r e line H) as (H1 & H2 & H3).
  split; [exact H1|]. split; [unfold range_end in *; lia|]. split; [exact H3|].
  revert H. unfold get_next_line. fold eff.
  destruct (range_end r <? eff) eqn:E; [|discriminate].
  apply Nat.ltb_lt in E. intros [= <-]. unfold find_char, char_at.
  pose proof (find_char_from_first str newline (range_end r) 0) as Hf.
  destruct (find_char_from str newline (range_end r) 0) as [n|].
  - destruct Hf as (_ & Hn1 & Hn2 & Hn3). rewrite Nat.sub_0_r in Hn2.
    destruct (eff <? n) eqn:En.
    + apply Nat.ltb_lt in En. unfold range_end in *. simpl.
      split; [lia|]. split; [|right; lia].
      intros p Hp1 Hp2. specialize (Hn3 p). rewrite Nat.sub_0_r in Hn3.
      apply Hn3; lia.
    + apply Nat.ltb_ge in En. unfold range_end in *. simpl.
      split; [lia|]. split.
      * intros p Hp1 Hp2. specialize (Hn3 p). rewrite Nat.sub_0_r in Hn3.
        apply Hn3; lia.
      * left. replace (start r + rlength r + (n + 1 - (start r + rlength r)) - 1)
          with n by lia. exact Hn2.
  - unfold range_end in *. simpl. split; [lia|]. split; [|right; lia].
    intros p Hp1 Hp2. specialize (Hf p). rewrite Nat.sub_0_r in Hf. apply Hf; lia.
Qed.

(** The first line of a text of two lines. *)
Lemma get_next_line_is_line_witness :
  let str := "ab" +:+ String newline "cd" in
  get_next_line str (mk_range 0 0) None = Some (mk_range 0 3) /\
  start (mk_range 0 3) = range_end (mk_range 0 0) /\ 0 < rlength (mk_range 0 3) /\
  range_end (mk_range 0 3) <= string_size str /\
  range_end (mk_range 0 3) <= string_size str + 1 /\
  (forall p, start (mk_range 0 3) <= p -> p + 1 < range_end (mk_range 0 3) ->
     char_at str p <> Some newline) /\
  (char_at str (range_end (mk_range 0 3) - 1) = Some newline
   \/ range_end (mk_range 0 3) = string_size str).
Proof.
  split; [reflexivity|].
  apply (get_next_line_is_line ("ab" +:+ String newline "cd") (mk_range 0 0) None
           (mk_range 0 3)).
  reflexivity.
Defined.

Lemma substring_length (s : string) : forall n m,
  n + m <= String.length s -> String.length (String.substring n m s) = m.
Proof.
  induction s as [|c s IH]; intros n m H; simpl in *.
  - destruct n; destruct m; simpl; lia.
  - destruct n as [|n].
    + destruct m as [|m]; simpl; [reflexivity|]. f_equal. apply (IH 0 m). lia.
    + apply IH. lia.
Qed.

(** ** Prefix resolution *)

Lemma substring_of_substring (s : string) :
  forall n m k, k <= m ->
    String.substring 0 k (String.substring n m s) = String.substring n k s.
Proof.
  induction s as [|c s IH]; intros n m k H; simpl.
  - destruct n, m, k; reflexivity.
  - destruct n as [|n].
    + destruct m as [|m].
      * assert (k = 0) by lia. subst. reflexivity.
      * destruct k as [|k]; [reflexivity|]. simpl. f_equal. apply IH. lia.
    + apply IH. exact H.
Qed.

(** The name that [parse_long] reads lies in the argument. *)
Lemma long_argument_name_in_range ty arg :
  range_end (name (arg_as_long_option ty arg)) <= string_size arg.
Proof.
  assert (H : range_end (name (parse_option_from_argument arg)) <= string_size arg).
  { unfold parse_option_from_argument.
    pose proof (scan_while_shape arg (mk_range 0 (string_size arg)) (char_is "-")) as H1.
    destruct (scan_while arg (mk_range 0 (string_size arg)) (char_is "-")) as [d rem1].
    simpl in H1. destruct H1 as (_ & H1 & _).
    pose proof (scan_while_shape arg rem1 char_is_valid_in_parameter) as H2.
    destruct (scan_while arg rem1 char_is_valid_in_parameter) as [n rem2].
    simpl in H2. destruct H2 as (H2 & H3 & _).
    destruct (scan_1_char arg rem2 "=") as [e rem3]. simpl.
    unfold range_end in *. simpl in *. lia. }
  unfold arg_as_long_option.
  destruct (type_eqb ty single_long
            && type_eqb (type (parse_option_from_argument arg)) single_short);
    exact H.
Qed.

(** The exact matches of [parse_long] are the options of the wanted type
    whose name is the name of the argument. *)
Lemma long_matches_exact this ty arg opts :
  Forall (fun o => range_end (name o) <= string_size (source this)) opts ->
  long_matches this ty arg (arg_as_long_option ty arg) opts
  = exact_candidates this ty (long_argument_name ty arg) opts.
Proof.
  intros Hall. unfold long_matches, exact_candidates, long_argument_name.
  pose proof (long_argument_name_in_range ty arg) as Ha.
  set (a := arg_as_long_option ty arg) in *.
  apply filter_ext_in. intros o Ho.
  rewrite Forall_forall in Hall. specialize (Hall o (proj2 (list_elem_of_In _ _) Ho)).
  unfold type_eqb. f_equal.
  unfold range_end in *.
  rewrite range_equals_string_in_range by lia. cbv zeta.
  rewrite Nat.min_l by lia.
  unfold compare_eq, range_text, substr, string_size in *.
  destruct (rlength (name o) =? rlength (name a)) eqn:E.
  - reflexivity.
  - symmetry. apply String.eqb_neq. intros Heq.
    apply (f_equal String.length) in Heq.
    rewrite !substring_length in Heq by lia.
    apply Nat.eqb_neq in E. contradiction.
Qed.

(** The prefix matches of [parse_long] are the options of the wanted type
    whose name strictly starts with the name of the argument. *)
Lemma long_prefix_matches_strict this ty arg opts :
  Forall (fun o => range_end (name o) <= string_size (source this)) opts ->
  long_prefix_matches this ty arg (arg_as_long_option ty arg) opts
  = prefix_candidates this ty (long_argument_name ty arg) opts.
Proof.
  intros Hall. unfold long_prefix_matches, prefix_candidates, long_argument_name.
  pose proof (long_argument_name_in_range ty arg) as Ha.
  set (a := arg_as_long_option ty arg) in *.
  apply filter_ext_in. intros o Ho.
  rewrite Forall_forall in Hall. specialize (Hall o (proj2 (list_elem_of_In _ _) Ho)).
  unfold type_eqb. rewrite <- andb_assoc. f_equal.
  unfold strictly_starts_with, compare_eq, range_text, substr, string_size, range_end in *.
  rewrite !substring_length by lia.
  rewrite (andb_comm (String.prefix _ _)).
  destruct (rlength (name a) <? rlength (name o)) eqn:E; [|reflexivity].
  apply Nat.ltb_lt in E. simpl.
  apply eq_true_iff_eq. rewrite String.eqb_eq.
  split.
  - intros Heq. apply String.prefix_correct.
    rewrite substring_length by lia.
    rewrite substring_of_substring by lia. exact Heq.
  - intros Hp. apply String.prefix_correct in Hp.
    rewrite substring_length in Hp by lia.
    rewrite substring_of_substring in Hp by lia. exact Hp.
Qed.

(** C5. In [parse_long], when no option of the catalog that has the wanted
    type has the name of the argument, and
    [flag_resolve_unambiguous_prefixes] is set. With exactly one option of
    that type whose name strictly starts with the name of the argument, that
    option is the match; when neither it nor the argument has a value (and
    the separators agree, if they are strict), the option is resolved at the
    index of the argument and the index moves on. With two or more such
    options, the diagnostic [error_ambiguous_prefix_match] is appended,
    followed by [error_unknown_option], both with the index of the argument;
    nothing is resolved, and the round of the tokenizer on this argument
    goes past it without making it a positional. With no such option the
    argument does not match, and [error_unknown_option] alone is appended.
    The names of the options lie in the doc. *)
Theorem parse_long_prefix_resolution this argv ty fl i opts res errs0 sugg :
  let arg := argv_at argv i in
  let arg_as_option := arg_as_long_option ty arg in
  let candidates := prefix_candidates this ty (long_argument_name ty arg) opts in
  Forall (fun o => range_end (name o) <= string_size (source this)) opts ->
  exact_candidates this ty (long_argument_name ty arg) opts = [] ->
  has_flag fl flag_resolve_unambiguous_prefixes = true ->
  (forall o, candidates = [o] ->
     parse_long this argv ty fl i opts res errs0 sugg
     = parse_long_resolve this argv fl i arg_as_option [o] res errs0 sugg /\
     (has_value o = false -> has_value arg_as_option = false ->
      (has_flag fl flag_short_options_strict_separators = true ->
       separator arg_as_option = separator o) ->
      parse_long this argv ty fl i opts res errs0 sugg
      = mk_out true (i + 1) (res ++ [mk_resolved o i None no_range]) errs0 sugg)) /\
  (2 <= length candidates ->
     parse_long this argv ty fl i opts res errs0 sugg
     = mk_out false i res
         ((fun l => l ++ [ambiguous_prefix_error i; unknown_long_option_error i])
            <$> errs0)
         sugg /\
     (forall st,
        str_equals "--" arg = false ->
        (ty = double_long /\ substr_equals "--" arg 2 = true) \/
        (ty = single_long /\ substr_equals "--" arg 2 = false /\
         substr_equals "-" arg 1 && (1 <? string_size arg) = true) ->
        let r := separate_step this argv opts fl i st in
        i < fst r /\ sep_positionals (snd r) = sep_positionals st /\
        (ty = double_long ->
         fst r = i + 1 /\
         sep_resolved_options (snd r) = sep_resolved_options st /\
         sep_errors (snd r)
         = (fun l => l ++ [ambiguous_prefix_error i; unknown_long_option_error i])
             <$> sep_errors st))) /\
  (candidates = [] ->
     parse_long this argv ty fl i opts res errs0 sugg
     = mk_out false i res ((fun l => l ++ [unknown_long_option_error i]) <$> errs0)
         sugg).
Proof.
  intros arg arg_as_option candidates Hin Hexact Hflag.
  rewrite <- (long_matches_exact this ty arg opts Hin) in Hexact.
  assert (Hcand : long_prefix_matches this ty arg arg_as_option opts = candidates)
    by (apply long_prefix_matches_strict; exact Hin).
  pose proof (fun res' errs' sugg' =>
                parse_long_by_prefix this argv ty fl i opts res' errs' sugg'
                  Hexact Hflag) as Hpl.
  fold arg in Hpl. fold arg_as_option in Hpl. rewrite Hcand in Hpl.
  assert (Hamb : 2 <= length candidates -> forall res' errs' sugg',
             parse_long this argv ty fl i opts res' errs' sugg'
             = mk_out false i res'
                 ((fun l => l ++ [ambiguous_prefix_error i; unknown_long_option_error i])
                    <$> errs')
                 sugg').
  { intros Hlen res' errs' sugg'. rewrite Hpl.
    destruct (1 <? length candidates) eqn:E; [|apply Nat.ltb_ge in E; lia].
    destruct errs' as [l|]; simpl; [|reflexivity].
    rewrite <- app_assoc. reflexivity. }
  split; [|split].
  - intros o Ho.
    assert (H1 : parse_long this argv ty fl i opts res errs0 sugg
                 = parse_long_resolve this argv fl i arg_as_option [o] res errs0 sugg)
      by (rewrite Hpl, Ho; reflexivity).
    split; [exact H1|].
    intros Hv Ha Hsep. rewrite H1. unfold parse_long_resolve. rewrite Hv, Ha.
    destruct (has_flag fl flag_short_options_strict_separators) eqn:Es; simpl;
      [|reflexivity].
    rewrite (Hsep eq_refl). unfold separator_eqb.
    rewrite bool_decide_eq_true_2 by reflexivity. reflexivity.
  - intros Hlen. split; [apply Hamb, Hlen|].
    intros st Hnot Hshape r. unfold r, separate_step. fold arg. rewrite Hnot.
    destruct Hshape as [[-> Hdd] | (-> & Hdd & Hd)].
    + rewrite Hdd, (Hamb Hlen). simpl. split; [lia|]. split; [reflexivity|].
      intros _. repeat split.
    + rewrite Hdd, Hd, (Hamb Hlen).
      cbn [success idx out_result out_suggestion out_errors].
      pose proof (parse_unseparated_short_idx this argv fl i opts
                    (sep_resolved_options st) (Some []) (sep_suggestion st)) as H2.
      simpl in H2.
      set (r2 := parse_unseparated_short this argv fl i opts
                   (sep_resolved_options st) (Some []) (sep_suggestion st)) in *.
      pose proof (parse_short_idx this argv fl (idx r2) opts (out_result r2)
                    (out_errors r2) (out_suggestion r2)) as H3.
      simpl in H3.
      set (r3 := parse_short this argv fl (idx r2) opts (out_result r2)
                   (out_errors r2) (out_suggestion r2)) in *.
      destruct (success r2); cbn [fst snd sep_positionals].
      * split; [lia|]. split; [reflexivity | discriminate].
      * destruct (success r3); cbn [fst snd sep_positionals].
        -- split; [lia|]. split; [reflexivity | discriminate].
        -- split; [lia|]. split; [reflexivity | discriminate].
  - intros Hnone. rewrite Hpl, Hnone. simpl.
    destruct errs0; reflexivity.
Qed.

(** "--verb" resolves to --verbose; "--ver" is ambiguous between --verbose
    and --version, and the two diagnostics are reported for it; "--x" is
    unknown. *)
Lemma parse_long_prefix_resolution_witness :
  parse_long ex_impl ["prog"; "--verb"] double_long flag_resolve_unambiguous_prefixes 1
    (all_options ex_impl) [] (Some []) None
  = mk_out true 2 [mk_resolved ex_verbose 1 None no_range] (Some []) None /\
  separate_step ex_impl ["prog"; "--ver"] (all_options ex_impl)
    flag_resolve_unambiguous_prefixes 1 (mk_separated [] [] (Some []) None)
  = (2, mk_separated [] []
          (Some [mk_error (Some 0) (Some 1) error_ambiguous_prefix_match
                   "Ambiguous prefix match";
                 mk_error (Some 0) (Some 1) error_unknown_option
                   "Unknown long option"])
          None) /\
  parse_long ex_impl ["prog"; "--x"] double_long
    flag_resolve_unambiguous_prefixes 1 (all_options ex_impl) [] (Some []) None
  = mk_out false 1 []
      (Some [mk_error (Some 0) (Some 1) error_unknown_option "Unknown long option"])
      None.
Proof.
  assert (Hin : Forall (fun o => range_end (name o) <= string_size (source ex_impl))
                  (all_options ex_impl)).
  { repeat constructor; vm_compute; intros H; discriminate H. }
  split; [|split].
  - destruct (parse_long_prefix_resolution ex_impl ["prog"; "--verb"] double_long
                flag_resolve_unambiguous_prefixes 1 (all_options ex_impl)
                [] (Some []) None Hin) as (H & _ & _).
    + vm_compute. reflexivity.
    + reflexivity.
    + destruct (H ex_verbose) as [_ H']; [vm_compute; reflexivity|].
      apply H'; [reflexivity | reflexivity | intros Hs; vm_compute in Hs; discriminate Hs].
  - destruct (parse_long_prefix_resolution ex_impl ["prog"; "--ver"] double_long
                flag_resolve_unambiguous_prefixes 1 (all_options ex_impl)
                [] (Some []) None Hin) as (_ & H & _).
    + vm_compute. reflexivity.
    + reflexivity.
    + destruct H as [_ H]; [vm_compute; lia|].
      destruct (H (mk_separated [] [] (Some []) None) eq_refl) as (_ & Hp & Hd).
      * left. split; reflexivity.
      * destruct (Hd eq_refl) as (Hi & Hr & He).
        destruct (separate_step ex_impl ["prog"; "--ver"] (all_options ex_impl)
                    flag_resolve_unambiguous_prefixes 1
                    (mk_separated [] [] (Some []) None)) as [i' [p' r' e' s']] eqn:E.
        simpl in *. subst.
        assert (Hs : s' = None).
        { apply (f_equal (fun x => sep_suggestion (snd x))) in E. simpl in E.
          rewrite <- E. vm_compute. reflexivity. }
        rewrite Hs. reflexivity.
  - destruct (parse_long_prefix_resolution ex_impl ["prog"; "--x"] double_long
                flag_resolve_unambiguous_prefixes 1 (all_options ex_impl)
                [] (Some []) None Hin) as (_ & _ & H).
    + vm_compute. reflexivity.
    + reflexivity.
    + rewrite H by (vm_compute; reflexivity). reflexivity.
Defined.

(** X8. For a range inside the doc and a start inside the string,
    [range_equals_string] is true exactly when the text of the range is the
    part of the string that begins at the start and has the given length,
    or extends to the end of the string if that is shorter. *)
Theorem range_equals_string_text this r str start_in_str len_in_str :
  range_end r <= string_size (source this) ->
  start_in_str <= string_size str ->
  let len := match len_in_str with
             | Some l => Nat.min l (string_size str - start_in_str)
             | None => string_size str - start_in_str
             end in
  range_equals_string this r str start_in_str len_in_str = true <->
  range_text (source this) r = substr str start_in_str len.
Proof.
  intros Hr Hs len. rewrite range_equals_string_in_range by exact Hs.
  cbv zeta. fold len.
  unfold compare_eq, range_text, substr, string_size, range_end in *.
  assert (Hlen : len <= String.length str - start_in_str)
    by (unfold len; destruct len_in_str; lia).
  destruct (rlength r =? len) eqn:E.
  - apply String.eqb_eq.
  - apply Nat.eqb_neq in E. split; [discriminate|]. intros Heq.
    apply (f_equal String.length) in Heq.
    rewrite !substring_length in Heq by lia. contradiction.
Qed.

(** The word "prog" of "Usage: prog" is the argument "prog". *)
Lemma range_equals_string_text_witness :
  range_equals_string ex_fixed_impl (mk_range 7 4) "prog" 0 None = true <->
  range_text (source ex_fixed_impl) (mk_range 7 4) = substr "prog" 0 4.
Proof.
  apply (range_equals_string_text ex_fixed_impl (mk_range 7 4) "prog" 0 None);
    vm_compute; lia.
Defined.

(** ** The indexes that the tokenizer produces *)

Lemma resolved_below_mono i j r : i <= j -> resolved_below i r -> resolved_below j r.
Proof.
  intros Hij [H1 H2]. split; [lia|]. intros v Hv. destruct (H2 v Hv). split; [assumption | lia].
Qed.

Lemma resolved_below_all_mono i j res :
  i <= j -> Forall (resolved_below i) res -> Forall (resolved_below j) res.
Proof.
  intros Hij H. eapply Forall_impl; [exact H|].
  intros r. apply resolved_below_mono. exact Hij.
Qed.

Lemma resolved_below_app i res r :
  Forall (resolved_below i) res -> resolved_below i r ->
  Forall (resolved_below i) (res ++ [r]).
Proof. intros H1 H2. apply Forall_app. split; [exact H1 | constructor; [exact H2 | constructor]]. Qed.

Lemma parse_long_resolve_below this argv fl i a matches res errs0 sugg :
  Forall (resolved_below i) res ->
  let r := parse_long_resolve this argv fl i a matches res errs0 sugg in
  success r = true -> Forall (resolved_below (idx r)) (out_result r).
Proof.
  intros Hres. unfold parse_long_resolve.
  destruct matches as [|m ms]; simpl; [discriminate|].
  destruct (has_value m), (has_value a), (i + 1 <? length argv),
    (has_flag fl flag_generate_suggestions && is_some sugg),
    (has_flag fl flag_short_options_strict_separators),
    (separator_eqb (separator a) (separator m)); simpl; try discriminate; intros _;
    (apply resolved_below_app;
     [apply (resolved_below_all_mono i); [lia | exact Hres]
     | split; simpl; [lia | intros v Hv; try discriminate; injection Hv as <-; lia]]).
Qed.

Lemma parse_long_below this argv ty fl i opts res errs0 sugg :
  Forall (resolved_below i) res ->
  let r := parse_long this argv ty fl i opts res errs0 sugg in
  success r = true -> Forall (resolved_below (idx r)) (out_result r).
Proof.
  intros Hres. unfold parse_long.
  match goal with
  | |- context [let '(_, _) := ?c in _] => destruct c as [matches errs]
  end.
  apply parse_long_resolve_below. exact Hres.
Qed.

Lemma parse_unseparated_short_below this argv fl i opts res errs0 sugg :
  Forall (resolved_below i) res ->
  let r := parse_unseparated_short this argv fl i opts res errs0 sugg in
  success r = true -> Forall (resolved_below (idx r)) (out_result r).
Proof.
  intros Hres. unfold parse_unseparated_short.
  match goal with
  | |- context [List.filter ?f opts] => destruct (List.filter f opts) as [|m [|m' ms]]
  end; simpl; try discriminate.
  destruct (string_size (argv_at argv i) <=? 2); simpl; [discriminate|]. intros _.
  apply resolved_below_app; [apply (resolved_below_all_mono i); [lia | exact Hres]|].
  split; simpl; [lia | intros v [= <-]; lia].
Qed.

Lemma parse_short_resolved_below name_idx bound total k rest last v vr :
  name_idx < bound ->
  (forall x, v = Some x -> x = name_idx + 1 /\ x < bound) ->
  Forall (resolved_below bound) (parse_short_resolved name_idx total k rest last v vr).
Proof.
  intros Hn Hv. revert k. induction rest as [|o rest IH]; intros k; simpl;
    [constructor|].
  constructor; [|apply IH].
  destruct ((k + 1 =? total) && last); split; simpl; try exact Hn; try discriminate.
  intros x Hx. destruct (Hv x Hx). split; [right|]; assumption.
Qed.

Lemma parse_short_below this argv fl i opts res errs0 sugg :
  Forall (resolved_below i) res ->
  let r := parse_short this argv fl i opts res errs0 sugg in
  success r = true -> Forall (resolved_below (idx r)) (out_result r).
Proof.
  intros Hres. unfold parse_short.
  destruct (parse_short_chars this (argv_at argv i) i opts
              (string_size (argv_at argv i) - 1) 1 [] errs0) as [[ofa e1] errored].
  destruct errored; simpl; [discriminate|].
  destruct (parse_short_values i (length ofa) 0 ofa e1 false) as [e2 last].
  destruct last; simpl.
  - destruct (i + 1 <? length argv); simpl.
    + intros _. apply Forall_app. split;
        [apply (resolved_below_all_mono i); [lia | exact Hres]|].
      apply parse_short_resolved_below; [lia | intros x [= <-]; lia].
    + destruct (has_flag fl flag_generate_suggestions && is_some sugg); simpl;
        discriminate.
  - intros _. apply Forall_app. split;
      [apply (resolved_below_all_mono i); [lia | exact Hres]|].
    apply parse_short_resolved_below; [lia | discriminate].
Qed.

Lemma sorted_lt_snoc (l : list nat) (x : nat) :
  StronglySorted lt l -> Forall (fun y => y < x) l -> StronglySorted lt (l ++ [x]).
Proof.
  induction 1 as [|a l Hs IH Ha]; intros Hall; simpl.
  - constructor; constructor.
  - inversion Hall as [|? ? Hax Hall']; subst.
    constructor; [apply IH; exact Hall'|].
    apply Forall_app. split; [exact Ha | constructor; [exact Hax | constructor]].
Qed.

Lemma sorted_lt_app_seq (l : list nat) (from n : nat) :
  StronglySorted lt l -> Forall (fun y => y < from) l ->
  StronglySorted lt (l ++ seq from n).
Proof.
  revert l from. induction n as [|n IH]; intros l from Hs Hall; simpl.
  - rewrite app_nil_r. exact Hs.
  - replace (l ++ from :: seq (S from) n) with ((l ++ [from]) ++ seq (S from) n)
      by (rewrite <- app_assoc; reflexivity).
    apply IH; [apply sorted_lt_snoc; assumption|].
    apply Forall_app. split.
    + eapply Forall_impl; [exact Hall|]. simpl. intros; lia.
    + constructor; [lia | constructor].
Qed.

(** One round of the tokenizer keeps the order of the indexes. *)
Lemma separate_step_below this argv opts fl i st :
  i < length argv -> separated_wf argv st -> separated_below i st ->
  let r := separate_step this argv opts fl i st in
  separated_below (fst r) (snd r).
Proof.
  intros Hi Hwf (Hp & Hsorted & Hr).
  pose proof (separate_step_ok this argv opts fl i st Hi Hwf) as (Hlt & _ & _).
  revert Hlt.
  assert (Hkeep : forall j, i <= j ->
            Forall (fun p => idx_in_argv p < j) (sep_positionals st)).
  { intros j Hj. eapply Forall_impl; [exact Hp|]. simpl. intros; lia. }
  destruct Hwf as [_ Hwr].
  unfold separate_step.
  destruct (str_equals "--" (argv_at argv i)).
  { simpl. intros _. split; [|split].
    - apply Forall_app. split; [apply Hkeep; lia|].
      apply Forall_forall. intros p Hin. apply list_elem_of_fmap in Hin.
      destruct Hin as (k & -> & Hk). apply list_elem_of_In, in_seq in Hk. simpl. lia.
    - cbn [sep_positionals snd]. rewrite map_app, map_map. simpl. rewrite map_id.
      apply sorted_lt_app_seq; [exact Hsorted|].
      apply Forall_forall. intros y Hy. apply list_elem_of_fmap in Hy.
      destruct Hy as (p & -> & Hin). rewrite Forall_forall in Hp.
      specialize (Hp p Hin). lia.
    - apply (resolved_below_all_mono i); [lia | exact Hr]. }
  destruct (substr_equals "--" (argv_at argv i) 2).
  { pose proof (parse_long_ok this argv double_long fl i opts (sep_resolved_options st)
                  (sep_errors st) (sep_suggestion st) Hi Hwr) as [_ Hs].
    pose proof (parse_long_below this argv double_long fl i opts
                  (sep_resolved_options st) (sep_errors st) (sep_suggestion st) Hr) as Hb.
  cbv zeta in Hb.
    set (r0 := parse_long this argv double_long fl i opts (sep_resolved_options st)
                 (sep_errors st) (sep_suggestion st)) in *.
    revert Hs Hb. destruct (success r0); simpl; intros Hs Hb Hlt.
    - split; [apply Hkeep; lia | split; [exact Hsorted | apply Hb; reflexivity]].
    - destruct Hs as [_ ->].
      split; [apply Hkeep; lia | split; [exact Hsorted|]].
      apply (resolved_below_all_mono i); [lia | exact Hr]. }
  destruct (substr_equals "-" (argv_at argv i) 1 && (1 <? string_size (argv_at argv i))).
  2:{ simpl. intros _. split; [|split].
      - apply Forall_app. split; [apply Hkeep; lia | constructor; [simpl; lia | constructor]].
      - cbn [sep_positionals snd]. rewrite map_app. simpl. apply sorted_lt_snoc; [exact Hsorted|].
        apply Forall_forall. intros y Hy. apply list_elem_of_fmap in Hy.
        destruct Hy as (p & -> & Hin). rewrite Forall_forall in Hp. exact (Hp p Hin).
      - apply (resolved_below_all_mono i); [lia | exact Hr]. }
  pose proof (parse_long_ok this argv single_long fl i opts (sep_resolved_options st)
                (Some []) (sep_suggestion st) Hi Hwr) as [Hw1 Hs1].
  pose proof (parse_long_below this argv single_long fl i opts
                (sep_resolved_options st) (Some []) (sep_suggestion st) Hr) as Hb1.
  cbv zeta in Hb1.
  set (r1 := parse_long this argv single_long fl i opts (sep_resolved_options st)
               (Some []) (sep_suggestion st)) in *.
  revert Hs1 Hb1. destruct (success r1); intros Hs1 Hb1.
  { simpl. intros Hlt.
    split; [apply Hkeep; lia | split; [exact Hsorted | apply Hb1; reflexivity]]. }
  destruct Hs1 as [Hidx1 Hres1].
  assert (Hi1 : idx r1 < length argv) by (destruct Hidx1 as [-> | [-> H]]; lia).
  assert (Hge1 : i <= idx r1) by (destruct Hidx1 as [-> | [-> H]]; lia).
  assert (Hr1 : Forall (resolved_below (idx r1)) (out_result r1)).
  { rewrite Hres1. apply (resolved_below_all_mono i); [lia | exact Hr]. }
  pose proof (parse_unseparated_short_ok this argv fl (idx r1) opts (out_result r1)
                (Some []) (out_suggestion r1) Hi1 Hw1) as [Hw2 Hs2].
  pose proof (parse_unseparated_short_below this argv fl (idx r1) opts (out_result r1)
                (Some []) (out_suggestion r1) Hr1) as Hb2.
  cbv zeta in Hb2.
  set (r2 := parse_unseparated_short this argv fl (idx r1) opts (out_result r1)
               (Some []) (out_suggestion r1)) in *.
  revert Hs2 Hb2. destruct (success r2); intros Hs2 Hb2.
  { simpl. intros Hlt.
    split; [apply Hkeep; lia | split; [exact Hsorted | apply Hb2; reflexivity]]. }
  destruct Hs2 as [Hidx2 Hres2].
  assert (Hi2 : idx r2 < length argv) by lia.
  assert (Hr2 : Forall (resolved_below (idx r2)) (out_result r2)).
  { rewrite Hres2, Hidx2. exact Hr1. }
  pose proof (parse_short_ok this argv fl (idx r2) opts (out_result r2)
                (out_errors r2) (out_suggestion r2) Hi2 Hw2) as [Hw3 Hs3].
  pose proof (parse_short_below this argv fl (idx r2) opts (out_result r2)
                (out_errors r2) (out_suggestion r2) Hr2) as Hb3.
  cbv zeta in Hb3.
  set (r3 := parse_short this argv fl (idx r2) opts (out_result r2)
               (out_errors r2) (out_suggestion r2)) in *.
  revert Hs3 Hb3. destruct (success r3); simpl; intros Hs3 Hb3 Hlt.
  - split; [apply Hkeep; lia | split; [exact Hsorted | apply Hb3; reflexivity]].
  - destruct Hs3 as [Hidx3 Hres3].
    split; [apply Hkeep; lia | split; [exact Hsorted|]].
    rewrite Hres3. apply (resolved_below_all_mono (idx r2)); [lia | exact Hr2].
Qed.

Lemma separate_loop_below this argv opts fl rounds :
  forall i st,
    i <= length argv -> separated_wf argv st -> separated_below i st ->
    let r := separate_loop this argv opts fl rounds i st in
    separated_below (fst r) (snd r).
Proof.
  induction rounds as [|rounds IH]; intros i st Hle Hwf Hb; simpl; [exact Hb|].
  destruct (i <? length argv) eqn:E; [|exact Hb].
  apply Nat.ltb_lt in E.
  pose proof (separate_step_ok this argv opts fl i st E Hwf) as (H1 & H2 & H3).
  pose proof (separate_step_below this argv opts fl i st E Hwf Hb) as H4.
  destruct (separate_step this argv opts fl i st) as [i' st']. simpl in *.
  apply IH; assumption.
Qed.

Lemma sorted_lt_lookup (l : list nat) j k x y :
  StronglySorted lt l -> j < k -> l !! j = Some x -> l !! k = Some y -> x < y.
Proof.
  intros Hs. revert j k. induction Hs as [|a l Hs IH Hall]; intros j k Hjk Hj Hk.
  - rewrite lookup_nil in Hj. discriminate.
  - destruct k as [|k]; [lia|]. simpl in Hk.
    destruct j as [|j]; simpl in Hj.
    + injection Hj as <-. rewrite Forall_forall in Hall. apply Hall.
      eapply list_elem_of_lookup_2. exact Hk.
    + apply (IH j k); [lia | exact Hj | exact Hk].
Qed.

(** X9. The tokenizer refers to arguments of argv only, so that no later
    [at] is out of range. The positionals are in the order of argv, each
    argument at most once. The value of a resolved option is in the argument
    of its name or in the argument after it. *)
Theorem separate_argv_indexes this argv opts fl errs0 sugg :
  let sep := separate_argv_into_options_and_positionals this argv opts fl errs0 sugg in
  (forall k p, sep_positionals sep !! k = Some p -> idx_in_argv p < length argv) /\
  (forall j k p q, j < k -> sep_positionals sep !! j = Some p ->
     sep_positionals sep !! k = Some q -> idx_in_argv p < idx_in_argv q) /\
  (forall r, r ∈ sep_resolved_options sep ->
     name_idx_in_argv r < length argv /\
     forall v, value_idx_in_argv r = Some v ->
       v < length argv /\ (v = name_idx_in_argv r \/ v = name_idx_in_argv r + 1)).
Proof.
  intros sep.
  pose proof (separate_argv_wf this argv opts fl errs0 sugg) as [Hwp Hwr].
  fold sep in Hwp, Hwr.
  pose proof (separate_loop_below this argv opts fl (length argv) 0
                (mk_separated [] [] errs0 sugg)) as Hb.
  cbv zeta in Hb.
  simpl in Hb.
  destruct Hb as (_ & Hsorted & Hr).
  { lia. }
  { split; constructor. }
  { split; [constructor | split; constructor]. }
  fold (separate_argv_into_options_and_positionals this argv opts fl errs0 sugg) in Hsorted, Hr.
  fold sep in Hsorted, Hr.
  split; [|split].
  - intros k p Hk. rewrite Forall_forall in Hwp. apply Hwp.
    eapply list_elem_of_lookup_2. exact Hk.
  - intros j k p q Hjk Hj Hk.
    apply (sorted_lt_lookup (map idx_in_argv (sep_positionals sep)) j k); [exact Hsorted | exact Hjk | |].
    + change (map idx_in_argv (sep_positionals sep)) with (idx_in_argv <$> sep_positionals sep).
      rewrite list_lookup_fmap, Hj. reflexivity.
    + change (map idx_in_argv (sep_positionals sep)) with (idx_in_argv <$> sep_positionals sep).
      rewrite list_lookup_fmap, Hk. reflexivity.
  - intros r Hin. rewrite Forall_forall in Hwr, Hr.
    destruct (Hwr r Hin) as [Hn Hv]. destruct (Hr r Hin) as [_ Hv'].
    split; [exact Hn|]. intros v Hval. split; [apply Hv; exact Hval|].
    apply Hv'. exact Hval.
Qed.

(** ** The errors that the tokenizer reports *)

Lemma argv_errors_append argv e i c txt pos :
  i < length argv ->
  c ∈ [error_unknown_option; error_ambiguous_prefix_match;
       error_option_has_missing_argument; error_option_unexpected_argument;
       error_wrong_separator] ->
  argv_errors argv e -> argv_errors argv (append_argv_error e i c txt pos).
Proof.
  intros Hi Hc. destruct e as [l|]; simpl; [|trivial]. intros Hl.
  apply Forall_app. split; [exact Hl|]. constructor; [|constructor].
  split; [exists i; split; [reflexivity | exact Hi]|]. split; [eexists; reflexivity | exact Hc].
Qed.

Ltac argv_code := repeat first [apply list_elem_of_here | apply list_elem_of_further].

Lemma parse_long_resolve_argv_errors this argv flags i arg_as_option matches
    res errs0 sugg :
  i < length argv -> argv_errors argv errs0 ->
  argv_errors argv
    (out_errors (parse_long_resolve this argv flags i arg_as_option matches
                   res errs0 sugg)).
Proof.
  intros Hi He. unfold parse_long_resolve.
  destruct matches as [|m ms]; simpl;
    [apply argv_errors_append; [exact Hi | argv_code | exact He]|].
  destruct (i + 1 <? length argv) eqn:E; [apply Nat.ltb_lt in E|];
  destruct (has_value m), (has_value arg_as_option),
    (has_flag flags flag_generate_suggestions && is_some sugg),
    (has_flag flags flag_short_options_strict_separators),
    (separator_eqb (separator arg_as_option) (separator m));
    simpl; try exact He;
    (apply argv_errors_append; [first [exact Hi | exact E] | argv_code | exact He]).
Qed.

Lemma parse_long_argv_errors this argv ty flags i options res errs0 sugg :
  i < length argv -> argv_errors argv errs0 ->
  argv_errors argv
    (out_errors (parse_long this argv ty flags i options res errs0 sugg)).
Proof.
  intros Hi He. unfold parse_long.
  match goal with
  | |- context [let '(_, _) := ?c in _] => destruct c as [matches errs] eqn:E
  end.
  apply parse_long_resolve_argv_errors; [exact Hi|].
  repeat match type of E with
         | context [if ?b then _ else _] => destruct b
         end; injection E as <- <-; try exact He.
  apply argv_errors_append; [exact Hi | argv_code | exact He].
Qed.

Lemma parse_unseparated_short_argv_errors this argv flags i options res errs0 sugg :
  i < length argv -> argv_errors argv errs0 ->
  argv_errors argv
    (out_errors (parse_unseparated_short this argv flags i options res errs0 sugg)).
Proof.
  intros Hi He. unfold parse_unseparated_short.
  repeat break_if; simpl; try exact He.
  apply argv_errors_append; [exact Hi | argv_code | exact He].
Qed.

Lemma parse_short_chars_argv_errors this argv arg i options rounds :
  i < length argv ->
  forall idx_in_arg acc errs0,
    argv_errors argv errs0 ->
    argv_errors argv
      (snd (fst (parse_short_chars this arg i options rounds idx_in_arg acc errs0))).
Proof.
  intros Hi.
  induction rounds as [|rounds IH]; intros idx_in_arg acc errs0 He; simpl; [exact He|].
  break_if; simpl; [|apply IH; exact He].
  apply argv_errors_append; [exact Hi | argv_code | exact He].
Qed.

Lemma parse_short_values_argv_errors argv i total :
  i < length argv ->
  forall rest k errs0 last,
    argv_errors argv errs0 ->
    argv_errors argv (fst (parse_short_values i total k rest errs0 last)).
Proof.
  intros Hi.
  induction rest as [|o rest IH]; intros k errs0 last He; simpl; [exact He|].
  destruct (has_value o); [destruct (k + 1 =? total)|]; try (apply IH; exact He).
  apply IH. apply argv_errors_append; [exact Hi | argv_code | exact He].
Qed.

Lemma parse_short_argv_errors this argv flags i options res errs0 sugg :
  i < length argv -> argv_errors argv errs0 ->
  argv_errors argv
    (out_errors (parse_short this argv flags i options res errs0 sugg)).
Proof.
  intros Hi He. unfold parse_short.
  pose proof (parse_short_chars_argv_errors this argv (argv_at argv i) i options
                (string_size (argv_at argv i) - 1) Hi 1 [] errs0 He) as H1.
  destruct (parse_short_chars this (argv_at argv i) i options
              (string_size (argv_at argv i) - 1) 1 [] errs0)
    as [[ofa e1] errored]. simpl in H1.
  destruct errored; simpl; [exact H1|].
  pose proof (parse_short_values_argv_errors argv i (length ofa) Hi ofa 0 e1 false H1)
    as H2.
  destruct (parse_short_values i (length ofa) 0 ofa e1 false) as [e2 last].
  simpl in H2.
  destruct last; simpl; [|exact H2].
  destruct (i + 1 <? length argv); simpl; [exact H2|].
  destruct (has_flag flags flag_generate_suggestions && is_some sugg);
    simpl; [exact H2|].
  apply argv_errors_append; [exact Hi | argv_code | exact H2].
Qed.

Lemma argv_errors_insert_at_begin argv e loc :
  argv_errors argv e -> argv_errors argv loc ->
  argv_errors argv (insert_at_begin e loc).
Proof.
  destruct e as [l|], loc as [l'|]; simpl; try tauto.
  intros H1 H2. apply Forall_app. split; assumption.
Qed.

Lemma separate_step_argv_errors this argv opts fl i st :
  i < length argv -> separated_wf argv st -> argv_errors argv (sep_errors st) ->
  argv_errors argv (sep_errors (snd (separate_step this argv opts fl i st))).
Proof.
  intros Hi [_ Hwr] He. unfold separate_step.
  destruct (str_equals "--" (argv_at argv i)); [exact He|].
  destruct (substr_equals "--" (argv_at argv i) 2).
  { simpl. apply parse_long_argv_errors; assumption. }
  destruct (substr_equals "-" (argv_at argv i) 1 && (1 <? string_size (argv_at argv i)));
    [|exact He].
  pose proof (parse_long_ok this argv single_long fl i opts (sep_resolved_options st)
                (Some []) (sep_suggestion st) Hi Hwr) as [Hw1 Hs1].
  pose proof (parse_long_argv_errors this argv single_long fl i opts
                (sep_resolved_options st) (Some []) (sep_suggestion st) Hi
                (Forall_nil_2 _)) as He1.
  set (r1 := parse_long this argv single_long fl i opts (sep_resolved_options st)
               (Some []) (sep_suggestion st)) in *.
  revert Hs1. destruct (success r1); intros Hs1; [exact He|].
  destruct Hs1 as [Hidx1 Hres1].
  assert (Hi1 : idx r1 < length argv) by (destruct Hidx1 as [-> | [-> H]]; lia).
  pose proof (parse_unseparated_short_ok this argv fl (idx r1) opts (out_result r1)
                (Some []) (out_suggestion r1) Hi1 Hw1) as [Hw2 Hs2].
  pose proof (parse_unseparated_short_argv_errors this argv fl (idx r1) opts
                (out_result r1) (Some []) (out_suggestion r1) Hi1 (Forall_nil_2 _))
    as He2.
  set (r2 := parse_unseparated_short this argv fl (idx r1) opts (out_result r1)
               (Some []) (out_suggestion r1)) in *.
  revert Hs2. destruct (success r2); intros Hs2; [exact He|].
  destruct Hs2 as [Hidx2 Hres2].
  assert (Hi2 : idx r2 < length argv) by lia.
  pose proof (parse_short_argv_errors this argv fl (idx r2) opts (out_result r2)
                (out_errors r2) (out_suggestion r2) Hi2 He2) as He3.
  set (r3 := parse_short this argv fl (idx r2) opts (out_result r2)
               (out_errors r2) (out_suggestion r2)) in *.
  destruct (success r3); [exact He|]. simpl.
  apply argv_errors_insert_at_begin; [|exact He3].
  apply argv_errors_insert_at_begin; [exact He | exact He1].
Qed.

Lemma separate_loop_argv_errors this argv opts fl rounds :
  forall i st,
    separated_wf argv st -> argv_errors argv (sep_errors st) ->
    argv_errors argv (sep_errors (snd (separate_loop this argv opts fl rounds i st))).
Proof.
  induction rounds as [|rounds IH]; intros i st Hwf He; simpl; [exact He|].
  destruct (i <? length argv) eqn:E; [|exact He].
  apply Nat.ltb_lt in E.
  pose proof (separate_step_ok this argv opts fl i st E Hwf) as (_ & _ & H3).
  pose proof (separate_step_argv_errors this argv opts fl i st E Hwf He) as H4.
  destruct (separate_step this argv opts fl i st) as [i' st']. simpl in *.
  apply IH; assumption.
Qed.

(** X10. Every error that the tokenizer adds is about an argument of argv:
    it carries the index of an argument that is there, a position in it,
    and one of the five codes of the argv errors. So it is for the errors
    that [parse_arguments] returns. *)
Theorem tokenizer_errors_name_arguments this argv fl :
  (forall opts errs0 sugg,
     argv_errors argv errs0 ->
     argv_errors argv
       (sep_errors (separate_argv_into_options_and_positionals this argv opts fl
                      errs0 sugg))) /\
  (forall m unused errs,
     best_assignment_for_argv this argv fl = Some (m, unused, errs) ->
     Forall (argv_error argv) errs).
Proof.
  assert (H : forall opts errs0 sugg,
     argv_errors argv errs0 ->
     argv_errors argv
       (sep_errors (separate_argv_into_options_and_positionals this argv opts fl
                      errs0 sugg))).
  { intros opts errs0 sugg He. unfold separate_argv_into_options_and_positionals.
    apply separate_loop_argv_errors; [split; constructor | exact He]. }
  split; [exact H|].
  intros m unused errs. unfold best_assignment_for_argv.
  specialize (H (all_options this) (Some []) None (Forall_nil_2 _)).
  destruct (match_argv _ _ _ _ _ _ _) as [[m' u']|]; [|discriminate].
  intros [= _ _ <-].
  destruct (sep_errors _); simpl in *; [exact H | constructor].
Qed.

(** ** Words, the double dash and the separators *)

Lemma plain_word_not_long arg :
  is_plain_word arg = true ->
  str_equals "--" arg = false /\ substr_equals "--" arg 2 = false.
Proof.
  unfold is_plain_word, str_equals, string_size.
  destruct arg as [|c rest]; [simpl; auto|].
  destruct (Ascii.eqb_spec "-"%char c) as [<- | Hne].
  - destruct rest as [|d rest]; simpl; [auto | discriminate].
  - intros _. apply Ascii.eqb_neq in Hne.
    cbn [String.eqb substr_equals]. rewrite Hne. auto.
Qed.

Lemma separate_step_plain this argv opts fl i st :
  is_plain_word (argv_at argv i) = true ->
  separate_step this argv opts fl i st
  = (i + 1, mk_separated (sep_positionals st ++ [mk_positional i])
              (sep_resolved_options st) (sep_errors st) (sep_suggestion st)).
Proof.
  intros Hp. destruct (plain_word_not_long _ Hp) as [H1 H2].
  unfold separate_step. rewrite H1, H2.
  unfold is_plain_word in Hp. apply negb_true_iff in Hp. rewrite Hp. reflexivity.
Qed.

Lemma separate_loop_plain this pre tail opts fl rounds :
  Forall (fun a => is_plain_word a = true) pre ->
  (tail = [] \/ exists post, tail = "--"%string :: post) ->
  forall i st,
    i <= length pre -> length (pre ++ tail) - i <= rounds ->
    snd (separate_loop this (pre ++ tail) opts fl rounds i st)
    = mk_separated
        (sep_positionals st ++
         map mk_positional (seq i (length pre - i)
                            ++ seq (length pre + 1) (length tail - 1)))
        (sep_resolved_options st) (sep_errors st) (sep_suggestion st).
Proof.
  intros Hpre Htail.
  induction rounds as [|rounds IH]; intros i st Hi Hr.
  - rewrite length_app in Hr.
    assert (i = length pre) by lia. subst i.
    assert (length tail = 0) by lia.
    rewrite Nat.sub_diag. replace (length tail - 1) with 0 by lia. simpl.
    rewrite app_nil_r. destruct st; reflexivity.
  - cbn [separate_loop].
    destruct (i <? length (pre ++ tail)) eqn:E.
    + apply Nat.ltb_lt in E. rewrite length_app in E, Hr.
      destruct (decide (i < length pre)) as [Hlt | Hge].
      * assert (Hw : is_plain_word (argv_at (pre ++ tail) i) = true).
        { unfold argv_at. rewrite app_nth1 by exact Hlt.
          rewrite Forall_forall in Hpre. apply Hpre, list_elem_of_In, nth_In. exact Hlt. }
        rewrite (separate_step_plain this _ opts fl i st Hw).
        rewrite IH by (simpl; rewrite ?length_app; lia). simpl.
        rewrite <- app_assoc. simpl.
        replace (length pre - i) with (S (length pre - (i + 1))) by lia.
        simpl. rewrite Nat.add_1_r. reflexivity.
      * assert (i = length pre) by lia. subst i.
        destruct Htail as [-> | (post & ->)]; [simpl in E; lia|].
        assert (Ha : argv_at (pre ++ "--"%string :: post) (length pre) = "--"%string).
        { unfold argv_at. rewrite app_nth2 by lia. rewrite Nat.sub_diag. reflexivity. }
        unfold separate_step. rewrite Ha. simpl str_equals. cbv iota.
        rewrite Nat.sub_diag. simpl seq at 1. rewrite app_nil_l.
        assert (Hend : forall st',
                  separate_loop this (pre ++ "--"%string :: post) opts fl rounds
                    (length (pre ++ "--"%string :: post)) st'
                  = (length (pre ++ "--"%string :: post), st')).
        { intros st'. destruct rounds; simpl; [reflexivity|].
          rewrite Nat.ltb_irrefl. reflexivity. }
        rewrite Hend. simpl. rewrite length_app. simpl.
        replace (length pre + S (length post) - (length pre + 1)) with (length post) by lia.
        rewrite Nat.sub_0_r. reflexivity.
    + apply Nat.ltb_ge in E. rewrite length_app in E.
      assert (i = length pre) by lia. subst i.
      assert (length tail = 0) by lia.
      rewrite Nat.sub_diag. replace (length tail - 1) with 0 by lia. simpl.
      rewrite app_nil_r. destruct st; reflexivity.
Qed.

(** X11. When no argument before the first "--" starts with a dash (a lone
    dash apart), the tokenizer makes a positional of every argument before
    the "--" and of every argument behind it, whatever it looks like; the
    "--" itself is neither positional nor option; no option is resolved and
    the errors and the suggestion are as they were. The same without a
    "--". *)
Theorem plain_words_and_double_dash this pre tail opts fl errs0 sugg :
  Forall (fun a => is_plain_word a = true) pre ->
  (tail = [] \/ exists post, tail = "--"%string :: post) ->
  separate_argv_into_options_and_positionals this (pre ++ tail) opts fl errs0 sugg
  = mk_separated
      (map mk_positional (seq 0 (length pre) ++ seq (length pre + 1) (length tail - 1)))
      [] errs0 sugg.
Proof.
  intros Hpre Htail. unfold separate_argv_into_options_and_positionals.
  rewrite (separate_loop_plain this pre tail opts fl (length (pre ++ tail)) Hpre Htail)
    by lia.
  simpl. rewrite Nat.sub_0_r. reflexivity.
Qed.

(** "prog - -- -v --": the arguments behind the first "--" are positionals. *)
Lemma plain_words_and_double_dash_witness :
  separate_argv_into_options_and_positionals ex_v_impl
    (["prog"; "-"] ++ ["--"; "-v"; "--"]) (all_options ex_v_impl) 0%N (Some []) None
  = mk_separated (map mk_positional [0; 1; 3; 4]) [] (Some []) None.
Proof.
  apply (plain_words_and_double_dash ex_v_impl ["prog"; "-"] ["--"; "-v"; "--"]).
  - repeat constructor.
  - right. eexists. reflexivity.
Defined.

Lemma has_flag_lor_prefixes fl f :
  N.land flag_resolve_unambiguous_prefixes f = 0%N ->
  has_flag (N.lor fl flag_resolve_unambiguous_prefixes) f = has_flag fl f.
Proof.
  intros H. unfold has_flag. rewrite N.land_lor_distr_l, H, N.lor_0_r. reflexivity.
Qed.

(** X12. When a catalog option of the wanted type has exactly the name of
    the argument, [parse_long] resolves the first such option, and
    [flag_resolve_unambiguous_prefixes] changes nothing: the longer names
    that begin with the argument are not looked at, and no ambiguity is
    reported. *)
Theorem parse_long_exact_match_first this argv ty fl i opts res errs0 sugg :
  let arg := argv_at argv i in
  let a := arg_as_long_option ty arg in
  long_matches this ty arg a opts <> [] ->
  parse_long this argv ty fl i opts res errs0 sugg
  = parse_long_resolve this argv fl i a (long_matches this ty arg a opts)
      res errs0 sugg /\
  parse_long this argv ty (N.lor fl flag_resolve_unambiguous_prefixes) i opts
    res errs0 sugg
  = parse_long this argv ty fl i opts res errs0 sugg.
Proof.
  intros arg a Hm.
  assert (Hlen : (length (long_matches this ty arg a opts) =? 0) = false).
  { apply Nat.eqb_neq. destruct (long_matches this ty arg a opts); [contradiction | simpl; lia]. }
  assert (H : forall fl', parse_long this argv ty fl' i opts res errs0 sugg
              = parse_long_resolve this argv fl' i a (long_matches this ty arg a opts)
                  res errs0 sugg).
  { intros fl'. unfold parse_long. fold arg. fold a. rewrite Hlen. reflexivity. }
  split; [apply H|]. rewrite !H. unfold parse_long_resolve.
  rewrite !has_flag_lor_prefixes by reflexivity. reflexivity.
Qed.

(** "--verbose" is the name of an option of [ex_doc]. *)
Lemma parse_long_exact_match_first_witness :
  parse_long ex_impl ["prog"; "--verbose"] double_long
    (N.lor 0 flag_resolve_unambiguous_prefixes) 1 (all_options ex_impl) [] (Some []) None
  = parse_long ex_impl ["prog"; "--verbose"] double_long 0%N 1 (all_options ex_impl)
      [] (Some []) None.
Proof.
  apply (parse_long_exact_match_first ex_impl ["prog"; "--verbose"] double_long 0%N 1
           (all_options ex_impl) [] (Some []) None).
  vm_compute. discriminate.
Defined.

(** X13. With strict separators, a long option that takes its value after
    an equals sign, given without one and followed by another argument:
    [parse_long] has moved to the next argument when it finds the wrong
    separator, so the error names the index of that next argument, and the
    tokenizer goes on behind it: the two arguments are neither option nor
    positional. *)
Theorem strict_separator_mismatch_skips_value this argv opts fl i st m ms :
  let arg := argv_at argv i in
  let a := arg_as_long_option double_long arg in
  str_equals "--" arg = false -> substr_equals "--" arg 2 = true ->
  long_matches this double_long arg a opts = m :: ms ->
  has_value m = true -> has_value a = false -> i + 1 < length argv ->
  has_flag fl flag_short_options_strict_separators = true ->
  separator a <> separator m ->
  separate_step this argv opts fl i st
  = (i + 2,
     mk_separated (sep_positionals st) (sep_resolved_options st)
       (append_argv_error (sep_errors st) (i + 1) error_wrong_separator
          "Option expects a different separator" 0)
       (sep_suggestion st)).
Proof.
  intros arg a H1 H2 Hm Hvm Hva Hi Hf Hsep.
  assert (Hpl : parse_long this argv double_long fl i opts (sep_resolved_options st)
                  (sep_errors st) (sep_suggestion st)
                = mk_out false (i + 1) (sep_resolved_options st)
                    (append_argv_error (sep_errors st) (i + 1) error_wrong_separator
                       "Option expects a different separator" 0)
                    (sep_suggestion st)).
  { unfold parse_long. fold arg. fold a. rewrite Hm.
    change (length (m :: ms) =? 0) with false. cbn [andb].
    unfold parse_long_resolve. rewrite Hvm, Hva.
    apply Nat.ltb_lt in Hi. rewrite Hi. cbn [negb andb]. rewrite Hf.
    unfold separator_eqb. rewrite bool_decide_eq_false_2 by exact Hsep.
    reflexivity. }
  unfold separate_step. fold arg. rewrite H1, H2, Hpl. cbn [success idx out_result out_errors out_suggestion].
  rewrite <- Nat.add_assoc. reflexivity.
Qed.

(** "prog --foo bar baz" against "--foo=<x>". *)
Lemma strict_separator_mismatch_skips_value_witness :
  separate_step ex_sep_impl ex_sep_argv (all_options ex_sep_impl)
    flag_short_options_strict_separators 1 (mk_separated [mk_positional 0] [] (Some []) None)
  = (3,
     mk_separated [mk_positional 0] []
       (Some [mk_error (Some 0) (Some 2) error_wrong_separator
                "Option expects a different separator"])
       None).
Proof.
  apply (strict_separator_mismatch_skips_value ex_sep_impl ex_sep_argv
           (all_options ex_sep_impl) flag_short_options_strict_separators 1
           (mk_separated [mk_positional 0] [] (Some []) None)
           (nth 0 (all_options ex_sep_impl) (new_option no_range no_range 0 sep_space)) []);
    try reflexivity; try (vm_compute; lia); vm_compute; discriminate.
Defined.

(** ** Combined short options *)

Lemma parse_short_chars_found this arg i opts rounds :
  forall idx_in_arg acc errs0,
    let r := parse_short_chars this arg i opts rounds idx_in_arg acc errs0 in
    snd r = false ->
    exists new,
      fst (fst r) = acc ++ new /\ length new = rounds /\
      forall k o, new !! k = Some o ->
        o ∈ opts /\ type o = single_short /\
        range_equals_string this (name o) arg (idx_in_arg + k) (Some 1) = true.
Proof.
  induction rounds as [|rounds IH]; intros idx_in_arg acc errs0; simpl.
  - intros _. exists []. rewrite app_nil_r. split; [reflexivity|].
    split; [reflexivity|]. intros k o Hk. rewrite lookup_nil in Hk. discriminate.
  - match goal with
    | |- context [List.filter ?f opts] =>
        set (f0 := f); destruct (List.filter f0 opts) as [|m ms] eqn:E
    end; simpl; [discriminate|].
    intros Hr. destruct (IH (idx_in_arg + 1) (acc ++ [m]) errs0 Hr)
      as (new & Hnew & Hlen & Hall).
    exists (m :: new). rewrite Hnew, <- app_assoc. split; [reflexivity|].
    split; [simpl; lia|].
    intros [|k] o Hk; simpl in Hk.
    + injection Hk as <-.
      assert (Hin : In m (List.filter f0 opts)) by (rewrite E; left; reflexivity).
      apply filter_In in Hin. destruct Hin as [Hin Hf]. unfold f0 in Hf.
      apply andb_true_iff in Hf. destruct Hf as [Ht Hn].
      split; [apply list_elem_of_In; exact Hin|].
      split; [apply bool_decide_eq_true in Ht; exact Ht|].
      rewrite Nat.add_0_r. exact Hn.
    + replace (idx_in_arg + S k) with (idx_in_arg + 1 + k) by lia.
      apply Hall. exact Hk.
Qed.

Lemma parse_short_values_last i total :
  forall rest k errs0 last,
    total = k + length rest ->
    snd (parse_short_values i total k rest errs0 last)
    = match rest with
      | [] => last
      | _ :: _ => last || has_value (List.last rest (new_option no_range no_range 0 sep_space))
      end.
Proof.
  induction rest as [|o rest IH]; intros k errs0 last Ht; [reflexivity|].
  cbn [parse_short_values]. simpl in Ht.
  destruct rest as [|o' rest'].
  - assert (E : (k + 1 =? total) = true) by (apply Nat.eqb_eq; simpl in Ht; lia).
    rewrite E. simpl. destruct (has_value o); simpl; [rewrite orb_true_r | rewrite orb_false_r];
      reflexivity.
  - assert (E : (k + 1 =? total) = false) by (apply Nat.eqb_neq; simpl in Ht; lia).
    rewrite E.
    destruct (has_value o); rewrite IH by (simpl in *; lia); reflexivity.
Qed.

Lemma parse_short_resolved_lookup name_idx total last v vr :
  forall rest k j,
    parse_short_resolved name_idx total k rest last v vr !! j
    = match rest !! j with
      | Some o =>
          Some (if (k + j + 1 =? total) && last
                then mk_resolved o name_idx v vr
                else mk_resolved o name_idx None no_range)
      | None => None
      end.
Proof.
  induction rest as [|o rest IH]; intros k j; simpl; [reflexivity|].
  destruct j as [|j]; simpl.
  - rewrite Nat.add_0_r. reflexivity.
  - rewrite IH. replace (k + 1 + j + 1) with (k + S j + 1) by lia. reflexivity.
Qed.

Lemma parse_short_resolved_length name_idx total last v vr :
  forall rest k,
    length (parse_short_resolved name_idx total k rest last v vr) = length rest.
Proof. induction rest as [|o rest IH]; intros k; simpl; [reflexivity | rewrite IH; reflexivity]. Qed.

(** X14. When [parse_short] succeeds on an argument, it has resolved one
    option per character behind the dash, in the order of the characters:
    each is a short option of the catalog whose name is that character, at
    the index of the argument. Only the last option can carry a value, and
    its value is then the whole next argument; the index moves on by two in
    that case and by one otherwise. *)
Theorem parse_short_one_option_per_character this argv fl i opts res errs0 sugg :
  let arg := argv_at argv i in
  let r := parse_short this argv fl i opts res errs0 sugg in
  success r = true ->
  exists new,
    out_result r = res ++ new /\ length new = string_size arg - 1 /\
    (forall k x, new !! k = Some x ->
       opt x ∈ opts /\ type (opt x) = single_short /\
       range_equals_string this (name (opt x)) arg (k + 1) (Some 1) = true /\
       name_idx_in_argv x = i /\
       (value_idx_in_argv x = None \/
        (k + 1 = length new /\ has_value (opt x) = true /\ i + 1 < length argv /\
         value_idx_in_argv x = Some (i + 1) /\
         value_range_in_arg x = mk_range 0 (string_size (argv_at argv (i + 1)))))) /\
    ((idx r = i + 1 /\ forall x, x ∈ new -> value_idx_in_argv x = None) \/
     (idx r = i + 2 /\ exists x, new !! (length new - 1) = Some x /\
                                 value_idx_in_argv x = Some (i + 1))).
Proof.
  intros arg r. unfold r, parse_short. fold arg.
  pose proof (parse_short_chars_found this arg i opts (string_size arg - 1) 1 [] errs0)
    as Hc. cbv zeta in Hc.
  destruct (parse_short_chars this arg i opts (string_size arg - 1) 1 [] errs0)
    as [[ofa e1] errored]. simpl in Hc.
  destruct errored; simpl; [discriminate|].
  destruct (Hc eq_refl) as (new & -> & Hlen & Hall). clear Hc.
  pose proof (parse_short_values_last i (length new) new 0 e1 false eq_refl) as Hv.
  destruct (parse_short_values i (length new) 0 new e1 false) as [e2 last].
  simpl in Hv.
  assert (Hchars : forall k o, new !! k = Some o ->
            o ∈ opts /\ type o = single_short /\
            range_equals_string this (name o) arg (k + 1) (Some 1) = true).
  { intros k o Hk. destruct (Hall k o Hk) as (H1 & H2 & H3).
    replace (k + 1) with (S k) by lia. auto. }
  destruct last; simpl.
  - destruct (i + 1 <? length argv) eqn:E; simpl.
    2:{ destruct (has_flag fl flag_generate_suggestions && is_some sugg); simpl;
          discriminate. }
    apply Nat.ltb_lt in E. intros _.
    assert (Hlast : exists o, new !! (length new - 1) = Some o /\ has_value o = true
                              /\ 0 < length new).
    { destruct new as [|o0 new']; [discriminate|]. simpl in Hv.
      exists (List.last (o0 :: new') (new_option no_range no_range 0 sep_space)).
      split; [|split; [symmetry; exact Hv | simpl; lia]].
      clear. generalize o0. induction new' as [|a l IH]; intros o; [reflexivity|].
      replace (length (o :: a :: l) - 1) with (S (length (a :: l) - 1)) by (simpl; lia).
      change ((o :: a :: l) !! S (length (a :: l) - 1))
        with ((a :: l) !! (length (a :: l) - 1)).
      rewrite IH. reflexivity. }
    destruct Hlast as (olast & Hol & Hvl & Hpos).
    eexists. split; [reflexivity|].
    rewrite parse_short_resolved_length. split; [exact Hlen|]. split.
    + intros k x Hk. rewrite parse_short_resolved_lookup in Hk.
      destruct (new !! k) as [o|] eqn:Ek; [|discriminate].
      injection Hk as <-. destruct (Hchars k o Ek) as (H1 & H2 & H3).
      simpl Nat.add. destruct (k + 1 =? length new) eqn:Ekk; simpl.
      * apply Nat.eqb_eq in Ekk.
        split; [exact H1|]. split; [exact H2|]. split; [exact H3|].
        split; [reflexivity|]. right.
        assert (o = olast).
        { replace (length new - 1) with k in Hol by lia. congruence. }
        subst o. auto.
      * split; [exact H1|]. split; [exact H2|]. split; [exact H3|].
        split; [reflexivity | left; reflexivity].
    + right. split; [reflexivity|].
      eexists. split.
      * rewrite parse_short_resolved_lookup, Hol. reflexivity.
      * simpl Nat.add.
        assert (Ek : (length new - 1 + 1 =? length new) = true)
          by (apply Nat.eqb_eq; lia).
        rewrite Ek. reflexivity.
  - intros _. eexists. split; [reflexivity|].
    rewrite parse_short_resolved_length. split; [exact Hlen|].
    assert (Hnone : forall k x,
              parse_short_resolved i (length new) 0 new false None no_range !! k = Some x ->
              exists o, new !! k = Some o /\ x = mk_resolved o i None no_range).
    { intros k x Hk. rewrite parse_short_resolved_lookup in Hk.
      destruct (new !! k) as [o|]; [|discriminate].
      rewrite andb_false_r in Hk. injection Hk as <-. eauto. }
    split.
    + intros k x Hk. destruct (Hnone k x Hk) as (o & Ho & ->).
      destruct (Hchars k o Ho) as (H1 & H2 & H3). simpl. auto 6.
    + left. split; [lia|]. intros x Hx.
      apply list_elem_of_lookup in Hx. destruct Hx as (k & Hk).
      destruct (Hnone k x Hk) as (o & _ & ->). reflexivity.
Qed.

(** "-vv" against "Usage: prog -v": two options, none with a value. *)
Lemma parse_short_one_option_per_character_witness :
  exists new,
    out_result (parse_short ex_v_impl ex_vv_argv 0%N 1 (all_options ex_v_impl) []
                  (Some []) None) = [] ++ new /\
    length new = 2.
Proof.
  destruct (parse_short_one_option_per_character ex_v_impl ex_vv_argv 0%N 1
              (all_options ex_v_impl) [] (Some []) None eq_refl)
    as (new & H1 & H2 & _).
  exists new. split; [exact H1 | exact H2].
Defined.

(** ** Removing duplicate options *)

Lemma erase_at_delete {A} (l : list A) i : erase_at l i = delete i l.
Proof.
  unfold erase_at. rewrite delete_take_drop. rewrite Nat.add_1_r. reflexivity.
Qed.

Lemma erase_at_sublist {A} (l : list A) i : erase_at l i `sublist_of` l.
Proof. rewrite erase_at_delete. apply sublist_delete. Qed.

Lemma erase_at_firstn_below {A} (l : list A) i b :
  b <= i -> firstn b (erase_at l i) = firstn b l.
Proof.
  intros Hb. unfold erase_at.
  destruct (decide (i <= length l)) as [Hi | Hi].
  - rewrite take_app_le by (rewrite length_take; lia).
    rewrite take_take. f_equal. lia.
  - rewrite (take_ge l i) by lia. rewrite drop_ge by lia. rewrite app_nil_r. reflexivity.
Qed.

(** What the inner loop of [uniqueize_options] finds: the indexes behind the
    cursor that it adds go upwards and are indexes of the list; the best
    match is one of the matching indexes; and there is one error per index
    added when duplicates are errors, none otherwise. *)
Lemma uniqueize_matches_spec this opts flag rounds :
  forall match_cursor best matching errs0,
    best ∈ matching ->
    let r := uniqueize_matches this opts flag rounds match_cursor best matching errs0 in
    exists extra added,
      snd (fst r) = matching ++ extra /\ snd r = errs0 ++ added /\
      fst (fst r) ∈ matching ++ extra /\
      StronglySorted lt extra /\
      Forall (fun j => match_cursor <= j < match_cursor + rounds) extra /\
      Forall (fun e => code e = error_option_duplicated_in_options_section) added /\
      length added = (if flag then length extra else 0).
Proof.
  induction rounds as [|rounds IH]; intros mc best matching errs0 Hbest; simpl.
  - exists [], []. rewrite !app_nil_r.
    split; [reflexivity|]. split; [reflexivity|]. split; [exact Hbest|].
    split; [constructor|]. split; [constructor|]. split; [constructor|].
    destruct flag; reflexivity.
  - destruct (options_have_same_name this (option_at opts best) (option_at opts mc)).
    + match goal with
      | |- context [uniqueize_matches this opts flag rounds (mc + 1) ?b ?m ?e] =>
          destruct (IH (mc + 1) b m e) as (extra & added & H1 & H2 & H3 & H4 & H5 & H6 & H7)
      end.
      { destruct (_ <? _); [apply elem_of_app; right; apply list_elem_of_singleton; reflexivity
                           | apply elem_of_app; left; exact Hbest]. }
      exists (mc :: extra).
      exists ((if flag
               then [mk_error (Some (start (name (option_at opts mc)))) None
                       error_option_duplicated_in_options_section
                       "Option specified more than once"]
               else []) ++ added).
      rewrite H1, H2, <- !app_assoc. simpl.
      split; [reflexivity|]. split.
      { destruct flag; unfold append_doc_error; rewrite <- ?app_assoc; reflexivity. }
      split; [rewrite <- app_assoc in H3; exact H3|]. split.
      { constructor; [exact H4|]. eapply Forall_impl; [exact H5|]. simpl. intros; lia. }
      split.
      { constructor; [lia|]. eapply Forall_impl; [exact H5|]. simpl. intros; lia. }
      split.
      { apply Forall_app. split; [destruct flag; repeat constructor | exact H6]. }
      rewrite length_app, H7. destruct flag; reflexivity.
    + destruct (IH (mc + 1) best matching errs0 Hbest)
        as (extra & added & H1 & H2 & H3 & H4 & H5 & H6 & H7).
      exists extra, added. repeat split; try assumption.
      eapply Forall_impl; [exact H5|]. simpl. intros; lia.
Qed.

(** Erasing indexes that go upwards, from the back: the options before the
    lowest index stay where they are, every index other than the best match
    takes one option away, and what is left is in the order of the list. *)
Lemma erase_matches_spec (opts : option_list_t) cursor best matching :
  StronglySorted lt matching -> Forall (fun j => j < length opts) matching ->
  let r := fst (erase_matches opts cursor best matching) in
  length r + length (List.filter (fun j => negb (j =? best)) matching) = length opts /\
  (forall b, Forall (fun j => b <= j) matching -> firstn b r = firstn b opts) /\
  r `sublist_of` opts.
Proof.
  intros Hs. induction Hs as [|j matching Hs IH Hj]; intros Hall; simpl.
  - split; [lia|]. split; [reflexivity | reflexivity].
  - inversion Hall as [|? ? Hjlen Hall']; subst.
    destruct (IH Hall') as (IH1 & IH2 & IH3). clear IH.
    unfold erase_matches in *.
    destruct (fold_right _ (opts, false) matching) as [opts' erased]. simpl in *.
    assert (Hpre : firstn (j + 1) opts' = firstn (j + 1) opts).
    { apply IH2. eapply Forall_impl; [exact Hj|]. simpl. intros; lia. }
    assert (Hlen : j < length opts').
    { apply (f_equal (@length _)) in Hpre. rewrite !length_take in Hpre. lia. }
    destruct (negb (j =? best)); simpl.
    + split; [rewrite erase_at_length by exact Hlen; lia|]. split.
      * intros b Hb. inversion Hb as [|? ? Hbj Hb']; subst.
        rewrite erase_at_firstn_below by exact Hbj. apply IH2.
        eapply Forall_impl; [exact Hj|]. simpl. intros; lia.
      * etrans; [apply erase_at_sublist | exact IH3].
    + split; [exact IH1|]. split; [|exact IH3].
      intros b Hb. inversion Hb as [|? ? Hbj Hb']; subst. apply IH2. exact Hb'.
Qed.

Lemma filter_neq_length (l : list nat) (x : nat) :
  NoDup l -> x ∈ l -> length (List.filter (fun j => negb (j =? x)) l) + 1 = length l.
Proof.
  induction 1 as [|y l Hy Hnd IH]; intros Hx; [apply not_elem_of_nil in Hx; contradiction|].
  simpl. destruct (Nat.eqb_spec y x) as [-> | Hne]; simpl.
  - assert (E : List.filter (fun j => negb (j =? x)) l = l).
    { apply forallb_filter_id, forallb_forall. intros z Hz.
      apply negb_true_iff, Nat.eqb_neq. intros ->. apply Hy, list_elem_of_In. exact Hz. }
    rewrite E. lia.
  - apply elem_of_cons in Hx. destruct Hx as [-> | Hx]; [contradiction|].
    rewrite <- (IH Hx). lia.
Qed.

Lemma sorted_lt_NoDup (l : list nat) : StronglySorted lt l -> NoDup l.
Proof.
  induction 1 as [|x l Hs IH Hall]; constructor; [|exact IH].
  intros Hin. rewrite Forall_forall in Hall. specialize (Hall x Hin). lia.
Qed.

(** One round of the loop of [uniqueize_options]. *)
Lemma uniqueize_round this flag cursor (opts : option_list_t) errs0 :
  cursor < length opts ->
  let m := uniqueize_matches this opts flag (length opts - (cursor + 1)) (cursor + 1)
             cursor [cursor] errs0 in
  let e := erase_matches opts cursor (fst (fst m)) (snd (fst m)) in
  fst e `sublist_of` opts /\
  exists added,
    snd m = errs0 ++ added /\
    Forall (fun e => code e = error_option_duplicated_in_options_section) added /\
    (flag = true -> length (fst e) + length added = length opts) /\
    (flag = false -> added = []).
Proof.
  intros Hc m e.
  destruct (uniqueize_matches_spec this opts flag (length opts - (cursor + 1))
              (cursor + 1) cursor [cursor] errs0)
    as (extra & added & H1 & H2 & H3 & H4 & H5 & H6 & H7).
  { apply list_elem_of_singleton. reflexivity. }
  fold m in H1, H2, H3.
  assert (Hsorted : StronglySorted lt ([cursor] ++ extra)).
  { simpl. constructor; [exact H4|]. eapply Forall_impl; [exact H5|]. simpl. intros; lia. }
  assert (Hin : Forall (fun j => j < length opts) ([cursor] ++ extra)).
  { simpl. constructor; [exact Hc|]. eapply Forall_impl; [exact H5|]. simpl. intros; lia. }
  destruct (erase_matches_spec opts cursor (fst (fst m)) ([cursor] ++ extra) Hsorted Hin)
    as (E1 & _ & E3).
  rewrite <- H1 in E1, E3. fold e in E1, E3.
  split; [exact E3|]. exists added. split; [exact H2|]. split; [exact H6|]. split.
  - intros ->. pose proof (filter_neq_length ([cursor] ++ extra) (fst (fst m))
                             (sorted_lt_NoDup _ Hsorted) H3) as Hf.
    rewrite <- H1 in Hf. rewrite H1 in Hf at 2. simpl in Hf. lia.
  - intros ->. destruct added; [reflexivity | discriminate].
Qed.

Lemma uniqueize_loop_spec this flag rounds :
  forall cursor (opts : option_list_t) errs0,
    let r := uniqueize_loop this flag rounds cursor opts errs0 in
    fst r `sublist_of` opts /\
    exists added,
      snd r = errs0 ++ added /\
      Forall (fun e => code e = error_option_duplicated_in_options_section) added /\
      (flag = true -> length (fst r) + length added = length opts) /\
      (flag = false -> added = []).
Proof.
  induction rounds as [|rounds IH]; intros cursor opts errs0; simpl.
  - split; [reflexivity|]. exists []. rewrite app_nil_r. repeat split; auto.
  - destruct (cursor <? length opts) eqn:E.
    2:{ split; [reflexivity|]. exists []. rewrite app_nil_r. repeat split; auto. }
    apply Nat.ltb_lt in E.
    pose proof (uniqueize_round this flag cursor opts errs0 E) as Hr. cbv zeta in Hr.
    destruct (uniqueize_matches this opts flag (length opts - (cursor + 1)) (cursor + 1)
                cursor [cursor] errs0) as [[best matching] errs1]. simpl in Hr.
    destruct (erase_matches opts cursor best matching) as [opts1 erased]. simpl in Hr.
    destruct Hr as (Hsub & added1 & -> & Hcode1 & Hlen1 & Hnone1).
    destruct (IH (if erased then cursor else cursor + 1) opts1 (errs0 ++ added1))
      as (Hsub2 & added2 & Hs2 & Hcode2 & Hlen2 & Hnone2).
    split; [etrans; eassumption|].
    exists (added1 ++ added2). rewrite Hs2, app_assoc. split; [reflexivity|].
    split; [apply Forall_app; split; assumption|]. split.
    + intros Hf. specialize (Hlen1 Hf). specialize (Hlen2 Hf). rewrite length_app. lia.
    + intros Hf. rewrite (Hnone1 Hf), (Hnone2 Hf). reflexivity.
Qed.

(** X15. [uniqueize_options] only takes options away: what it returns are
    options of the given list, in their order. Errors are added at the back,
    all of them [error_option_duplicated_in_options_section]. When
    duplicates are errors there is one error for each option taken away;
    when they are not, the errors are as they were. *)
Theorem uniqueize_options_removes_reported this opts flag errs0 :
  let r := uniqueize_options this opts flag errs0 in
  fst r `sublist_of` opts /\
  exists added,
    snd r = errs0 ++ added /\
    Forall (fun e => code e = error_option_duplicated_in_options_section) added /\
    (flag = true -> length (fst r) + length added = length opts) /\
    (flag = false -> added = []).
Proof.
  intros r. unfold r, uniqueize_options.
  destruct (uniqueize_loop_spec this flag (length opts) 0 opts errs0)
    as (Hsub & added & Herr & Hcode & Hcount & Hnone).
  split; [exact Hsub|].
  exists added. split; [exact Herr|]. split; [exact Hcode|].
  split; [exact Hcount | exact Hnone].
Qed.

(** ** Conditions and option specs *)

(** X16. A line of a Conditions: section changes the map of conditions only
    by adding a variable that has no condition yet, and then adds no error;
    so through all the lines of a section every variable keeps the first
    condition that was recorded for it. *)
Theorem conditions_first_wins this section_end (result : condition_map_t) errs0 :
  (forall line_range,
     let r := parse_conditions_line this section_end line_range result errs0 in
     snd (fst r) = result \/
     exists k v, result !! k = None /\ snd (fst r) = <[ k := v ]> result /\
                 snd r = errs0) /\
  (forall rounds line_range k v,
     result !! k = Some v ->
     fst (parse_conditions_lines this rounds section_end line_range result errs0) !! k
     = Some v).
Proof.
  assert (Hline : forall (m : condition_map_t) e line_range,
     let r := parse_conditions_line this section_end line_range m e in
     snd (fst r) = m \/
     exists k v, m !! k = None /\ snd (fst r) = <[ k := v ]> m /\ snd r = e).
  { intros m e line_range. unfold parse_conditions_line.
    destruct (range_empty _); [left; reflexivity|].
    destruct (negb _); [left; reflexivity|].
    destruct (extend_spec _ _ _ _ _ _ _) as [spec_range lr].
    destruct (find_string _ _ _) as [sep|]; [|left; reflexivity].
    destruct (sep <? _); [|left; reflexivity].
    match goal with
    | |- context [m !! ?key] => destruct (m !! key) eqn:E
    end; [left; reflexivity|].
    right. eexists _, _. split; [exact E|]. split; reflexivity. }
  split; [apply Hline|].
  intros rounds. revert result errs0.
  induction rounds as [|rounds IH]; intros m e line_range k v Hk; simpl; [exact Hk|].
  destruct (get_next_line (source this) line_range (Some section_end)) as [lr|];
    [|exact Hk].
  pose proof (Hline m e lr) as Hl. cbv zeta in Hl.
  destruct (parse_conditions_line this section_end lr m e) as [[lr' m'] e'].
  simpl in Hl. apply IH.
  destruct Hl as [-> | (k' & v' & Hnone & -> & _)]; [exact Hk|].
  rewrite lookup_insert_ne; [exact Hk|]. intros ->. congruence.
Qed.

Lemma parse_from_string_long_name str remaining errs0 :
  corresponding_long_name (fst (fst (parse_from_string str remaining errs0))) = no_range.
Proof. unfold parse_from_string. split_scans; reflexivity. Qed.

(** The options that the loop of [parse_one_option_spec] collects all have
    the description and the default of the spec and no long name yet; when
    no value has been seen, none of them has a value. *)
Lemma parse_spec_options_shared this rounds d dv :
  forall remaining w,
    Forall (fun o => description_range o = d /\ default_value_range o = dv /\
                     corresponding_long_name o = no_range) (spec_result w) ->
    (range_empty (last_value_range w) = true ->
     Forall (fun o => range_empty (value o) = true) (spec_result w)) ->
    let w' := parse_spec_options this rounds d dv remaining w in
    Forall (fun o => description_range o = d /\ default_value_range o = dv /\
                     corresponding_long_name o = no_range) (spec_result w') /\
    (range_empty (last_value_range w') = true ->
     Forall (fun o => range_empty (value o) = true) (spec_result w')).
Proof.
  induction rounds as [|rounds IH]; intros remaining w H1 H2; simpl; [split; assumption|].
  destruct (range_empty remaining); [split; assumption|].
  destruct (negb (test_at (source this) (start remaining) (char_is "-")));
    [split; assumption|].
  pose proof (parse_from_string_long_name (source this) remaining (spec_errors w)) as Hn.
  destruct (parse_from_string (source this) remaining (spec_errors w)) as [[o rem] errs].
  simpl in Hn.
  destruct (range_empty (name o)); [split; assumption|].
  repeat match goal with
         | |- context [scan_while ?s ?r ?f] => destruct (scan_while s r f) as [? ?]
         end.
  apply IH; simpl.
  - apply Forall_app. split; [exact H1|]. constructor; [|constructor].
    simpl. auto.
  - destruct (range_empty (value o)) eqn:Ev; simpl; [|intros Hx; congruence].
    intros Hl. apply Forall_app. split; [apply H2; exact Hl|].
    constructor; [exact Ev | constructor].
Qed.

(** X17. The options of one option spec (the names of one option, as in
    "-m, --message <text>") agree: they have the same description and the
    same default value, the same corresponding long name, and either all of
    them take a value or none does. *)
Theorem option_spec_aliases_agree this r errs0 :
  let result := fst (parse_one_option_spec this r errs0) in
  forall o1 o2, o1 ∈ result -> o2 ∈ result ->
    description_range o1 = description_range o2 /\
    default_value_range o1 = default_value_range o2 /\
    corresponding_long_name o1 = corresponding_long_name o2 /\
    has_value o1 = has_value o2.
Proof.
  unfold parse_one_option_spec.
  destruct (parse_default_value _ _ _) as [dv e1].
  match goal with
  | |- context [scan_while ?s ?r ?f] => destruct (scan_while s r f) as [? rem]
  end.
  match goal with
  | |- context [parse_spec_options ?t ?n ?d ?v ?rm ?w0] =>
      destruct (parse_spec_options_shared t n d v rm w0) as [H1 H2];
      [constructor | intros _; constructor |];
      set (w := parse_spec_options t n d v rm w0) in *;
      set (D := d) in *
  end.
  cbn [fst].
  set (lname := name_range_of_last_long_option w) in *.
  set (lval := last_value_range w) in *.
  assert (Hshape : forall o,
            o ∈ map (fun o => if range_empty (value o) then set_value o lval else o)
                  (if negb (range_empty lname)
                   then map (fun o => set_corresponding_long_name o lname) (spec_result w)
                   else spec_result w) ->
            description_range o = D /\ default_value_range o = dv /\
            corresponding_long_name o
            = (if negb (range_empty lname) then lname else no_range) /\
            has_value o = negb (range_empty lval)).
  { intros o Ho. apply list_elem_of_In, in_map_iff in Ho.
    destruct Ho as (o' & <- & Ho').
    assert (Ho0 : exists o0, o0 ∈ spec_result w /\
               description_range o' = description_range o0 /\
               default_value_range o' = default_value_range o0 /\
               value o' = value o0 /\
               corresponding_long_name o'
               = (if negb (range_empty lname) then lname
                  else corresponding_long_name o0)).
    { destruct (negb (range_empty lname)).
      - apply in_map_iff in Ho'. destruct Ho' as (o0 & <- & Ho0).
        exists o0. split; [apply list_elem_of_In; exact Ho0|]. simpl. auto.
      - exists o'. split; [apply list_elem_of_In; exact Ho'|]. auto. }
    destruct Ho0 as (o0 & Hin & E1 & E2 & E3 & E4).
    rewrite Forall_forall in H1. destruct (H1 o0 Hin) as (F1 & F2 & F3).
    assert (Hv : range_empty lval = true -> range_empty (value o') = true).
    { intros Hl. rewrite E3. specialize (H2 Hl). rewrite Forall_forall in H2.
      apply H2. exact Hin. }
    destruct (range_empty (value o')) eqn:Ev; unfold has_value; simpl.
    - rewrite E1, E2, E4, F1, F2, F3.
      destruct (negb (range_empty lname)); auto.
    - rewrite E1, E2, E4, F1, F2, F3, Ev.
      destruct (range_empty lval); [specialize (Hv eq_refl); discriminate|].
      destruct (negb (range_empty lname)); auto. }
  intros o1 o2 Ho1 Ho2.
  destruct (Hshape o1 Ho1) as (A1 & A2 & A3 & A4).
  destruct (Hshape o2 Ho2) as (B1 & B2 & B3 & B4).
  repeat split; congruence.
Qed.

Lemma option_spec_aliases_agree_witness :
  fst (parse_one_option_spec ex_alias_impl (mk_range 0 33) [])
    = [ex_alias_short; ex_alias_long] /\
  description_range ex_alias_short = description_range ex_alias_long /\
  default_value_range ex_alias_short = default_value_range ex_alias_long /\
  corresponding_long_name ex_alias_short = corresponding_long_name ex_alias_long /\
  has_value ex_alias_short = has_value ex_alias_long.
Proof.
  assert (E : fst (parse_one_option_spec ex_alias_impl (mk_range 0 33) [])
               = [ex_alias_short; ex_alias_long]) by (vm_compute; reflexivity).
  split; [exact E|].
  pose proof (option_spec_aliases_agree ex_alias_impl (mk_range 0 33) []
                ex_alias_short ex_alias_long) as H.
  cbv zeta in H. rewrite E in H. apply H.
  - apply list_elem_of_here.
  - apply list_elem_of_further, list_elem_of_here.
Defined.

Lemma round_up_to_tabstop n : n + 1 <= (n + 4) / 4 * 4 <= n + 4.
Proof.
  pose proof (Nat.div_mod_eq (n + 4) 4) as H.
  pose proof (Nat.mod_upper_bound (n + 4) 4) as Hm. lia.
Qed.

Lemma compute_indent_loop_bounds src :
  forall len i result,
    let r := compute_indent_loop src i len result in
    result + len <= r <= result + 4 * len /\
    ((forall p, i <= p < i + len -> test_at src p (char_is tab) = false) ->
     r = result + len) /\
    ((forall p, i <= p < i + len -> test_at src p (char_is tab) = true) ->
     r mod 4 = result mod 4 \/ 0 < len /\ r mod 4 = 0).
Proof.
  induction len as [|len IH]; intros i result; cbn [compute_indent_loop]; cbv zeta.
  - split; [lia|]. split; [intros; lia | intros; left; reflexivity].
  - specialize (IH (i + 1)).
    destruct (test_at src i (char_is tab)) eqn:E.
    + pose proof (round_up_to_tabstop result) as Hr.
      assert (Hmod : ((result + 4) / 4 * 4) mod 4 = 0) by apply Nat.Div0.mod_mul.
      set (t := (result + 4) / 4 * 4) in *.
      destruct (IH t) as (H1 & H2 & H3).
      split; [lia|]. split.
      * intros Hno. specialize (Hno i). rewrite E in Hno. discriminate Hno. lia.
      * intros Hall. right. split; [lia|].
        destruct H3 as [H3 | [_ H3]]; [intros p Hp; apply Hall; lia | | exact H3].
        rewrite H3. exact Hmod.
    + destruct (IH (result + 1)) as (H1 & H2 & H3).
      split; [lia|]. split.
      * intros Hno. rewrite H2; [lia|]. intros p Hp. apply Hno. lia.
      * intros Hall. specialize (Hall i). rewrite E in Hall. discriminate Hall. lia.
Qed.

(** X18. The indent that [compute_indent] gives to [len] characters is at
    least [len] and at most four times [len]; it is [len] when none of the
    characters is a tab, and a multiple of four when all of them are tabs. *)
Theorem compute_indent_bounds src from len :
  len <= compute_indent src from len <= 4 * len /\
  ((forall p, from <= p < from + len -> test_at src p (char_is tab) = false) ->
   compute_indent src from len = len) /\
  ((forall p, from <= p < from + len -> test_at src p (char_is tab) = true) ->
   compute_indent src from len mod 4 = 0).
Proof.
  unfold compute_indent.
  destruct (compute_indent_loop_bounds src len from 0) as (H1 & H2 & H3).
  split; [lia|]. split; [exact H2|].
  intros Hall. destruct (H3 Hall) as [H | [_ H]]; [rewrite H; reflexivity | exact H].
Qed.

(** ** What the matcher always does *)

Lemma match_options_at_most_one this options_in_doc st ctx :
  length (match_options this options_in_doc st ctx) <= 1.
Proof.
  unfold match_options.
  destruct (if has_flag (flags ctx) flag_generate_suggestions then _ else _) as [s made].
  destruct (_ || _); simpl; lia.
Qed.

(** X19. A group in square brackets and the [options] shortcut never make
    the match fail. The match of a bracketed expression returns, and the
    last of its successors is the state it was given, with nothing
    consumed; the match of [options] returns exactly one state, whose
    progress is not behind. *)
Theorem optional_constructs_never_fail this tree argv flags pos resolved :
  let ctx := mk_context flags pos resolved argv false in
  let U := doc_names this tree in
  let rounds := ellipsis_rounds this ctx tree in
  forall node b st,
    expression_names this node ⊆ U -> state_ok ctx U st ->
    (production_of node = 2 ->
     exists result,
       match_expression this rounds node st (set_is_in_square_brackets ctx b)
       = Some (result ++ [st])) /\
    (production_of node = 3 ->
     exists st',
       match_expression this rounds node st (set_is_in_square_brackets ctx b)
       = Some [st'] /\ progress st <= progress st').
Proof.
  intros ctx U rounds node b st Hn Hst.
  assert (Hs : shortcut_names this ⊆ U) by (unfold U, doc_names; apply union_subseteq_r).
  assert (Hb : progress_bound (set_is_in_square_brackets ctx b) U < rounds).
  { unfold rounds, ellipsis_rounds, progress_bound, U, doc_names. simpl. lia. }
  split.
  - intros Hp. rewrite match_expression_repeated by lia. rewrite Hp. simpl.
    destruct (match_repeated_ok (set_is_in_square_brackets ctx b) U
                (expression_child this rounds node (set_is_in_square_brackets ctx b))
                rounds (ellipsis_of node)
                (expression_child_good this U rounds node _ Hs Hn Hb) Hb st)
      as (r & Hr & _); [exact Hst|].
    rewrite Hr. exists r. reflexivity.
  - intros Hp. destruct node as [production oe sc al]. simpl in Hp. subst production.
    simpl.
    pose proof (match_options_shortcut_ok this U (set_is_in_square_brackets ctx b) st Hs Hst)
      as Hok.
    unfold match_options_shortcut in *.
    pose proof (match_options_at_most_one this (shortcut_options this) st
                  (set_is_in_square_brackets ctx b)) as Hlen.
    destruct (match_options this (shortcut_options this) st
                (set_is_in_square_brackets ctx b)) as [|s [|s' l]].
    + eexists. split; [reflexivity|].
      inversion Hok as [|? ? [_ Hle] _]; subst. exact Hle.
    + exists s. split; [reflexivity|].
      inversion Hok as [|? ? [_ Hle] _]; subst. exact Hle.
    + simpl in Hlen. lia.
Qed.

(** "prog" against "Usage: prog [options]": the shortcut passes. *)
Lemma optional_constructs_never_fail_witness :
  exists st',
    match_expression ex_impl 7 (Expression 3 None None None) (mk_state ∅ 1 [] ∅)
      (set_is_in_square_brackets (mk_context 0%N [mk_positional 0] [] ["prog"] false) false)
    = Some [st'] /\ progress (mk_state ∅ 1 [] ∅) <= progress st'.
Proof.
  apply (optional_constructs_never_fail ex_impl ex_tree ["prog"] 0%N [mk_positional 0] []
           (Expression 3 None None None) false (mk_state ∅ 1 [] ∅)).
  - simpl. apply union_least; apply empty_subseteq.
  - split; [simpl; lia | split; [reflexivity | apply empty_subseteq]].
  - reflexivity.
Defined.

(** X20. Whatever the tree and the context, the match of the tree from the
    initial state returns, and every state that it returns satisfies what
    the source asserts of a state: its positional cursor is not beyond the
    positionals, and it has one consumed bit per resolved option. Its
    suggestions are names of the doc. *)
Theorem match_states_well_formed this tree ctx :
  exists result,
    match_usage this (ellipsis_rounds this ctx tree) tree
      (init_state (resolved_options ctx)) ctx = Some result /\
    forall st, st ∈ result ->
      next_positional_index st <= length (positionals ctx) /\
      length (consumed_options st) = length (resolved_options ctx) /\
      suggested_next_arguments st ⊆ doc_names this tree.
Proof.
  destruct (match_usage_returns this tree ctx) as (result & Hr & Hall).
  exists result. split; [exact Hr|].
  intros st Hst. rewrite Forall_forall in Hall. exact (Hall st Hst).
Qed.

Lemma unset_indexes_sorted used :
  forall base,
    StronglySorted lt (unset_indexes used base) /\
    Forall (fun i => base <= i < base + length used) (unset_indexes used base) /\
    length (unset_indexes used base) <= length used.
Proof.
  induction used as [|b used IH]; intros base; simpl.
  - split; [constructor | split; [constructor | lia]].
  - destruct (IH (base + 1)) as (H1 & H2 & H3).
    assert (H2' : Forall (fun i => base <= i < base + S (length used))
                    (unset_indexes used (base + 1))).
    { eapply Forall_impl; [exact H2|]. simpl. intros; lia. }
    destruct (negb b); simpl.
    + split; [|split; [constructor; [lia | exact H2'] | lia]].
      constructor; [exact H1|]. eapply Forall_impl; [exact H2|]. simpl. intros; lia.
    + split; [exact H1 | split; [exact H2' | lia]].
Qed.

Lemma used_indexes_of_length ctx st :
  length (used_indexes_of ctx st) = length (argv ctx).
Proof.
  unfold used_indexes_of.
  rewrite clear_unconsumed_eq, mark_consumed_eq, mark_positionals_eq.
  rewrite !mark_all_length. apply repeat_length.
Qed.

(** X21. For every state, [unused_arguments] lists indexes of argv, in
    strictly increasing order, so that none is listed twice and there are at
    most as many as argv has arguments. *)
Theorem unused_arguments_increasing ctx st :
  let unused := unused_arguments ctx st in
  (forall j k x y, j < k -> unused !! j = Some x -> unused !! k = Some y -> x < y) /\
  (forall x, x ∈ unused -> x < length (argv ctx)) /\
  length unused <= length (argv ctx).
Proof.
  unfold unused_arguments.
  destruct (unset_indexes_sorted (used_indexes_of ctx st) 0) as (H1 & H2 & H3).
  rewrite used_indexes_of_length in H2, H3.
  split; [|split; [|exact H3]].
  - intros j k x y. apply sorted_lt_lookup. exact H1.
  - intros x Hx. rewrite Forall_forall in H2. specialize (H2 x Hx). lia.
Qed.

(** The values of an entry after the first loop of [finalize_option_map]:
    as they were, or, for an entry without values, the default of an option
    that is bound under that name. *)
Lemma finalize_options_values this l :
  forall (m : option_map_t) k,
    values (map_ref (fold_left (finalize_option this) l m) k) = values (map_ref m k) \/
    (values (map_ref m k) = [] /\
     exists o, o ∈ l /\ longest_name_as_string o (source this) = k /\
       range_empty (default_value_range o) = false /\
       values (map_ref (fold_left (finalize_option this) l m) k)
       = [range_text (source this) (default_value_range o)]).
Proof.
  induction l as [|o l IH]; intros m k; simpl; [left; reflexivity|].
  destruct (decide (longest_name_as_string o (source this) = k)) as [Hk | Hne].
  - destruct (negb (range_empty (default_value_range o))
              && (length (values (map_ref m k)) =? 0)) eqn:E.
    + apply andb_true_iff in E. destruct E as [Ed El].
      apply negb_true_iff in Ed. apply Nat.eqb_eq in El.
      assert (Hnil : values (map_ref m k) = [])
        by (destruct (values (map_ref m k)); [reflexivity | discriminate]).
      assert (Hstep : values (map_ref (finalize_option this m o) k)
                      = [range_text (source this) (default_value_range o)]).
      { unfold finalize_option. rewrite Hk, map_ref_insert_eq, Ed, Hnil. reflexivity. }
      right. split; [exact Hnil|]. exists o.
      split; [apply list_elem_of_here|]. split; [exact Hk|]. split; [exact Ed|].
      rewrite finalize_options_fixed; [exact Hstep|]. rewrite Hstep. discriminate.
    + assert (Hstep : map_ref (finalize_option this m o) k = map_ref m k).
      { unfold finalize_option. rewrite Hk, map_ref_insert_eq, E. reflexivity. }
      destruct (IH (finalize_option this m o) k) as [H | (Hnil & o' & Ho' & H1 & H2 & H3)].
      * left. rewrite H, Hstep. reflexivity.
      * right. rewrite Hstep in Hnil. split; [exact Hnil|]. exists o'.
        split; [apply list_elem_of_further; exact Ho'|]. auto.
  - assert (Hstep : map_ref (finalize_option this m o) k = map_ref m k).
    { unfold finalize_option. apply map_ref_insert_ne. exact Hne. }
    destruct (IH (finalize_option this m o) k) as [H | (Hnil & o' & Ho' & H1 & H2 & H3)].
    + left. rewrite H, Hstep. reflexivity.
    + right. rewrite Hstep in Hnil. split; [exact Hnil|]. exists o'.
      split; [apply list_elem_of_further; exact Ho'|]. auto.
Qed.

Lemma finalize_options_keeps this l (m : option_map_t) k :
  is_Some (m !! k) -> is_Some (fold_left (finalize_option this) l m !! k).
Proof.
  revert m. induction l as [|o l IH]; intros m H; simpl; [exact H|].
  apply IH, finalize_option_keeps, H.
Qed.

Lemma touch_entries_keeps this l (m : option_map_t) k :
  is_Some (m !! k) -> is_Some (fold_left (touch_entry this) l m !! k).
Proof.
  revert m. induction l as [|o l IH]; intros m H; simpl; [exact H|].
  apply IH, touch_entry_keeps, H.
Qed.

(** X22. Finalization does not change what was matched, whatever the
    flags: every entry of the map is still there, the count under every
    name is what it was, and so are the values, except that a name without
    values can get one value: the default of a catalog option that is bound
    under that name. *)
Theorem finalize_keeps_matches this (map : option_map_t) all_opts all_vars fl k :
  let result := finalize_option_map this map all_opts all_vars fl in
  (is_Some (map !! k) -> is_Some (result !! k)) /\
  count (map_ref result k) = count (map_ref map k) /\
  (values (map_ref result k) = values (map_ref map k) \/
   (values (map_ref map k) = [] /\
    has_flag fl flag_generate_empty_args = true /\
    exists o, o ∈ all_opts /\ longest_name_as_string o (source this) = k /\
      range_empty (default_value_range o) = false /\
      values (map_ref result k) = [range_text (source this) (default_value_range o)])).
Proof.
  unfold finalize_option_map.
  destruct (has_flag fl flag_generate_empty_args); simpl;
    [|split; [auto | split; [reflexivity | left; reflexivity]]].
  rewrite !touch_entries_map_ref. split; [|split].
  - intros H. apply touch_entries_keeps, touch_entries_keeps, finalize_options_keeps, H.
  - apply finalize_options_count.
  - destruct (finalize_options_values this all_opts map k) as [H | (Hnil & o & H)].
    + left. exact H.
    + right. split; [exact Hnil|]. split; [reflexivity|]. exists o. exact H.
Qed.

(** X23. The first word of a usage is matched against a positional. So
    when the tokenizer finds no positional in argv (argv is empty, or every
    argument is taken as an option or as its value), nothing matches:
    [parse_arguments] returns the finalized empty map and reports every
    argument as unused. *)
Theorem no_positional_no_match this tree argv fl :
  let sep := separate_argv_into_options_and_positionals this argv (all_options this)
               fl (Some []) None in
  parse_tree this = Some tree ->
  sep_positionals sep = [] ->
  best_assignment_for_argv this argv fl
  = Some (finalize_option_map this ∅ (all_options this) (all_variables this) fl,
          seq 0 (length argv), errors_of (sep_errors sep)).
Proof.
  intros sep Ht Hp. unfold best_assignment_for_argv, match_argv. fold sep.
  rewrite Ht, Hp. destruct tree as [pn al nu]. rewrite match_usage_eq.
  reflexivity.
Qed.

(** An argv with the option only. *)
Lemma no_positional_no_match_witness :
  best_assignment_for_argv ex_v_impl ["-v"] 0%N
  = Some (finalize_option_map ex_v_impl ∅ (all_options ex_v_impl)
            (all_variables ex_v_impl) 0%N,
          seq 0 1,
          errors_of (sep_errors (separate_argv_into_options_and_positionals ex_v_impl
                                   ["-v"] (all_options ex_v_impl) 0%N (Some []) None))).
Proof.
  apply (no_positional_no_match ex_v_impl ex_v_tree ["-v"] 0%N); reflexivity.
Defined.

(** ** Where suggestions and options come from *)

Lemma suggestion_from_refl this opts s : suggestion_from this opts s s.
Proof. left. reflexivity. Qed.

Lemma suggestion_from_trans this opts s0 s1 s2 :
  suggestion_from this opts s0 s1 -> suggestion_from this opts s1 s2 ->
  suggestion_from this opts s0 s2.
Proof. intros [-> | H1] [-> | H2]; [left; reflexivity | right; exact H2 | right; exact H1 | right; exact H2]. Qed.

Lemma parse_long_resolve_suggestion this argv fl i a matches opts res errs0 sugg :
  Forall (fun o => o ∈ opts) matches ->
  suggestion_from this opts sugg
    (out_suggestion (parse_long_resolve this argv fl i a matches res errs0 sugg)).
Proof.
  intros Hm. unfold parse_long_resolve.
  destruct matches as [|m ms]; simpl; [left; reflexivity|].
  inversion Hm as [|? ? Hin _]; subst.
  destruct (has_value m), (has_value a), (i + 1 <? length argv),
    (has_flag fl flag_generate_suggestions && is_some sugg),
    (has_flag fl flag_short_options_strict_separators),
    (separator_eqb (separator a) (separator m)); simpl;
    first [left; reflexivity | right; exists m; split; [exact Hin | reflexivity]].
Qed.

Lemma filter_all_in {A} (f : A -> bool) (l : list A) :
  Forall (fun o => o ∈ l) (List.filter f l).
Proof.
  apply Forall_forall. intros o Ho. apply list_elem_of_In, filter_In in Ho.
  apply list_elem_of_In. tauto.
Qed.

Lemma parse_long_suggestion this argv ty fl i opts res errs0 sugg :
  suggestion_from this opts sugg
    (out_suggestion (parse_long this argv ty fl i opts res errs0 sugg)).
Proof.
  unfold parse_long.
  match goal with
  | |- context [let '(_, _) := ?c in _] => destruct c as [matches errs] eqn:E
  end.
  apply parse_long_resolve_suggestion.
  unfold long_matches, long_prefix_matches in E.
  repeat match type of E with
         | context [if ?b then _ else _] => destruct b
         end; injection E as <- _; apply filter_all_in.
Qed.

Lemma parse_unseparated_short_suggestion this argv fl i opts res errs0 sugg :
  out_suggestion (parse_unseparated_short this argv fl i opts res errs0 sugg) = sugg.
Proof. unfold parse_unseparated_short. repeat break_if; reflexivity. Qed.

Lemma last_in {A} (l : list A) (d : A) : l <> [] -> List.last l d ∈ l.
Proof.
  induction l as [|x l IH]; intros H; [contradiction|].
  destruct l as [|y l]; [apply list_elem_of_here|].
  apply list_elem_of_further. apply IH. discriminate.
Qed.

Lemma parse_short_suggestion this argv fl i opts res errs0 sugg :
  suggestion_from this opts sugg
    (out_suggestion (parse_short this argv fl i opts res errs0 sugg)).
Proof.
  unfold parse_short.
  pose proof (parse_short_chars_found this (argv_at argv i) i opts
                (string_size (argv_at argv i) - 1) 1 [] errs0) as Hc. cbv zeta in Hc.
  destruct (parse_short_chars this (argv_at argv i) i opts
              (string_size (argv_at argv i) - 1) 1 [] errs0) as [[ofa e1] errored].
  simpl in Hc.
  destruct errored; simpl; [left; reflexivity|].
  destruct (Hc eq_refl) as (new & -> & _ & Hall). clear Hc.
  pose proof (parse_short_values_last i (length new) new 0 e1 false eq_refl) as Hv.
  destruct (parse_short_values i (length new) 0 new e1 false) as [e2 last].
  simpl in Hv.
  destruct last; simpl; [|left; reflexivity].
  destruct (i + 1 <? length argv); simpl; [left; reflexivity|].
  destruct (has_flag fl flag_generate_suggestions && is_some sugg); simpl;
    [|left; reflexivity].
  right. eexists. split; [|reflexivity].
  assert (Hne : new <> []) by (intros ->; discriminate).
  pose proof (last_in new (new_option no_range no_range 0 sep_space) Hne) as Hin.
  apply list_elem_of_lookup in Hin. destruct Hin as (k & Hk).
  destruct (Hall k _ Hk) as (H & _). exact H.
Qed.

Lemma separate_step_suggestion this argv opts fl i st :
  suggestion_from this opts (sep_suggestion st)
    (sep_suggestion (snd (separate_step this argv opts fl i st))).
Proof.
  unfold separate_step.
  destruct (str_equals "--" (argv_at argv i)); [left; reflexivity|].
  destruct (substr_equals "--" (argv_at argv i) 2); [apply parse_long_suggestion|].
  destruct (substr_equals "-" (argv_at argv i) 1 && (1 <? string_size (argv_at argv i)));
    [|left; reflexivity].
  pose proof (parse_long_suggestion this argv single_long fl i opts
                (sep_resolved_options st) (Some []) (sep_suggestion st)) as H1.
  set (r1 := parse_long this argv single_long fl i opts (sep_resolved_options st)
               (Some []) (sep_suggestion st)) in *.
  destruct (success r1); [exact H1|].
  pose proof (parse_unseparated_short_suggestion this argv fl (idx r1) opts
                (out_result r1) (Some []) (out_suggestion r1)) as H2.
  set (r2 := parse_unseparated_short this argv fl (idx r1) opts (out_result r1)
               (Some []) (out_suggestion r1)) in *.
  destruct (success r2); [simpl; rewrite H2; exact H1|].
  pose proof (parse_short_suggestion this argv fl (idx r2) opts (out_result r2)
                (out_errors r2) (out_suggestion r2)) as H3.
  set (r3 := parse_short this argv fl (idx r2) opts (out_result r2)
               (out_errors r2) (out_suggestion r2)) in *.
  rewrite <- H2 in H1.
  destruct (success r3); simpl; exact (suggestion_from_trans _ _ _ _ _ H1 H3).
Qed.

Lemma separate_loop_suggestion this argv opts fl rounds :
  forall i st,
    suggestion_from this opts (sep_suggestion st)
      (sep_suggestion (snd (separate_loop this argv opts fl rounds i st))).
Proof.
  induction rounds as [|rounds IH]; intros i st; simpl; [left; reflexivity|].
  destruct (i <? length argv); [|left; reflexivity].
  pose proof (separate_step_suggestion this argv opts fl i st) as H.
  destruct (separate_step this argv opts fl i st) as [i' st']. simpl in H.
  eapply suggestion_from_trans; [exact H | apply IH].
Qed.

(** X24. What [suggest_next_argument] suggests comes from the doc: every
    string of its result is the name of an option, a fixed word or a
    variable of the usage, the name of an option of the Options: sections,
    or the name of the value of a catalog option. *)
Theorem suggestions_come_from_doc this tree argv fl result x :
  parse_tree this = Some tree ->
  suggest_next_argument this argv fl = Some result ->
  x ∈ result ->
  x ∈ doc_names this tree \/
  exists o, o ∈ all_options this /\ x = range_text (source this) (value o).
Proof.
  intros Ht. unfold suggest_next_argument.
  set (flags := N.lor fl flag_generate_suggestions).
  pose proof (separate_loop_suggestion this argv (all_options this) flags (length argv) 0
                (mk_separated [] [] None (Some EmptyString))) as Hs.
  fold (separate_argv_into_options_and_positionals this argv (all_options this) flags
          None (Some EmptyString)) in Hs.
  set (sep := separate_argv_into_options_and_positionals this argv (all_options this)
                flags None (Some EmptyString)) in *.
  simpl in Hs.
  destruct (string_size (default EmptyString (sep_suggestion sep)) =? 0) eqn:E; simpl.
  - rewrite Ht.
    set (ctx := mk_context flags (sep_positionals sep) (sep_resolved_options sep)
                  argv false).
    destruct (match_usage_returns this tree ctx) as (states & Hstates & Hall).
    simpl in Hstates. rewrite Hstates. intros [= <-] Hx.
    apply (proj1 (proj2 (sort_unique_spec _) x)) in Hx.
    apply (proj1 (best_suggestions_elem _ _ _)) in Hx. destruct Hx as (st & Hst & Hx & _).
    left. rewrite Forall_forall in Hall. destruct (Hall st Hst) as (_ & _ & Hsub).
    apply Hsub. exact Hx.
  - intros [= <-] Hx. apply list_elem_of_singleton in Hx. subst x.
    destruct Hs as [Hs | (o & Ho & Hs)]; rewrite Hs in *; simpl in *; [discriminate|].
    right. exists o. split; [exact Ho | reflexivity].
Qed.

(** "prog -m" against [ex_doc]: the value of -m is missing, and its name is
    suggested. *)
Lemma suggestions_come_from_doc_witness :
  "<msg>"%string ∈ doc_names ex_impl ex_tree \/
  exists o, o ∈ all_options ex_impl /\
            "<msg>"%string = range_text (source ex_impl) (value o).
Proof.
  apply (suggestions_come_from_doc ex_impl ex_tree ["prog"; "-m"] 0%N ["<msg>"%string]).
  - reflexivity.
  - vm_compute. reflexivity.
  - apply list_elem_of_here.
Defined.

Lemma filter_sublist {A} (f : A -> bool) (l : list A) : List.filter f l `sublist_of` l.
Proof.
  induction l as [|x l IH]; simpl; [constructor|].
  destruct (f x); [apply sublist_skip | apply sublist_cons]; exact IH.
Qed.

(** X25. A successful [preflight] invents no option: the shortcut options
    that it leaves are options of the Options: sections, in their order, and
    the catalog [all_options] is made of options of the usage and of the
    Options: sections, in that order. The variables and the fixed words are
    those of the tree, and the source is untouched. *)
Theorem preflight_invents_no_options parse_usage this this' :
  preflight parse_usage this = (true, this') ->
  let parsed := fst (parse_options_spec (clean_up this) (errors this)) in
  exists tree,
    parse_tree this' = Some tree /\ source this' = source this /\
    all_variables this' = variables (collect_options_and_variables tree) /\
    all_static_arguments this' = fixeds (collect_options_and_variables tree) /\
    shortcut_options this' `sublist_of` parsed /\
    all_options this' `sublist_of`
      (options (collect_options_and_variables tree) ++ parsed).
Proof.
  unfold preflight.
  destruct (length (source_ranges_for_section (clean_up this) "Usage:" false) =? 0);
    [discriminate|].
  destruct (1 <? length (source_ranges_for_section (clean_up this) "Usage:" false));
    [discriminate|].
  change (errors (clean_up this)) with (errors this).
  destruct (parse_options_spec (clean_up this) (errors this)) as [sc e1].
  pose proof (uniqueize_loop_spec (clean_up this) true (length sc) 0 sc e1) as [Hsc _].
  fold (uniqueize_options (clean_up this) sc true e1) in Hsc.
  destruct (uniqueize_options (clean_up this) sc true e1) as [sc' e2].
  destruct (parse_usage _ _ sc' e2) as [[t|] e3]; [|discriminate].
  pose proof (uniqueize_loop_spec (clean_up this) false
                (length (options (collect_options_and_variables t) ++ sc')) 0
                (options (collect_options_and_variables t) ++ sc') e3) as [Hall _].
  fold (uniqueize_options (clean_up this)
          (options (collect_options_and_variables t) ++ sc') false e3) in Hall.
  destruct (uniqueize_options (clean_up this) _ false e3) as [all e4].
  destruct (parse_conditions_spec (clean_up this) e4) as [conds e5].
  intros [= <-]. simpl in *. exists t.
  split; [reflexivity|]. split; [reflexivity|]. split; [reflexivity|].
  split; [reflexivity|]. split.
  - rewrite excise_loop_filter by lia. simpl.
    etrans; [apply filter_sublist | exact Hsc].
  - etrans; [exact Hall|]. apply sublist_app; [reflexivity | exact Hsc].
Qed.

(** The doc "prog [options] -a" with -a and -b in its Options: section. *)
Lemma preflight_invents_no_options_witness :
  exists tree,
    parse_tree ex_excise_impl = Some tree /\
    source ex_excise_impl = source ex_excise_blank /\
    all_variables ex_excise_impl = variables (collect_options_and_variables tree) /\
    all_static_arguments ex_excise_impl = fixeds (collect_options_and_variables tree) /\
    shortcut_options ex_excise_impl
      `sublist_of` fst (parse_options_spec (clean_up ex_excise_blank)
                          (errors ex_excise_blank)) /\
    all_options ex_excise_impl
      `sublist_of` (options (collect_options_and_variables tree)
                    ++ fst (parse_options_spec (clean_up ex_excise_blank)
                              (errors ex_excise_blank))).
Proof.
  apply (preflight_invents_no_options ex_excise_parse_usage ex_excise_blank ex_excise_impl).
  vm_compute. reflexivity.
Defined.

(** ** Properties that the match keeps *)

Section Keeps.

Variable this : docopt_impl.
Variable C : match_context_t -> Prop.
Variable P0 P : match_state_t -> Prop.

Hypothesis C_brackets : forall ctx b, C ctx -> C (set_is_in_square_brackets ctx b).
Hypothesis simple_clause_keeps :
  forall sc ctx st, C ctx -> P st -> Forall P (match_simple_clause this sc st ctx).
Hypothesis shortcut_keeps :
  forall ctx st, C ctx -> P st -> Forall P (match_options_shortcut this st ctx).
Hypothesis acquire_keeps :
  forall ctx st, C ctx -> P0 st -> P (snd (acquire_next_positional ctx st)).

Lemma keeps_nil : keeps P (fun _ => Some []).
Proof. intros st r _ [= <-]. constructor. Qed.

Lemma try_match_list_keeps m l b r :
  keeps P m -> Forall P l -> try_match_list m l b = Some r -> Forall P r.
Proof.
  intros Hm. revert r. induction l as [|st rest IH]; intros r Hl; simpl.
  - intros [= <-]. constructor.
  - inversion Hl as [|? ? Hst Hrest]; subst.
    destruct (m st) as [cr|] eqn:Em; [|discriminate].
    destruct (try_match_list m rest b) as [total|]; [|discriminate].
    intros [= <-]. apply Forall_app. split; [|apply IH; [exact Hrest | reflexivity]].
    pose proof (Hm st cr Hst Em) as Hcr.
    destruct b; [|exact Hcr].
    apply Forall_forall. intros s Hs. apply list_elem_of_In, filter_In in Hs.
    rewrite Forall_forall in Hcr. apply Hcr, list_elem_of_In. tauto.
Qed.

Lemma ellipsis_loop_keeps m rounds :
  keeps P m ->
  forall inter result r,
    Forall P inter -> Forall P result ->
    ellipsis_loop m rounds inter result = Some r -> Forall P r.
Proof.
  intros Hm. induction rounds as [|rounds IH]; intros inter result r Hi Hr.
  - destruct inter; simpl; [intros [= <-]; exact Hr | discriminate].
  - destruct inter as [|s inter]; [simpl; intros [= <-]; exact Hr|].
    rewrite ellipsis_loop_round.
    destruct (try_match_list m (s :: inter) true) as [next|] eqn:En; [|discriminate].
    pose proof (try_match_list_keeps m (s :: inter) true next Hm Hi En) as Hn.
    apply IH; [exact Hn | apply Forall_app; split; assumption].
Qed.

Lemma match_repeated_keeps m rounds e :
  keeps P m -> keeps P (match_repeated m rounds e).
Proof.
  intros Hm st r Hst. unfold match_repeated.
  destruct (m st) as [result|] eqn:Em; [|discriminate].
  pose proof (Hm st result Hst Em) as Hres.
  destruct e; [|intros [= <-]; exact Hres].
  apply ellipsis_loop_keeps; assumption.
Qed.

Lemma match_tree_keeps :
  (forall al, forall rounds ctx, C ctx ->
     keeps P (fun st => match_alternation_list this rounds al st ctx)) /\
  (forall oc, forall rounds ctx, C ctx ->
     keeps P (fun st => match_or_continuation this rounds oc st ctx)) /\
  (forall el, forall rounds ctx, C ctx ->
     keeps P (fun st => match_expression_list this rounds el st ctx)) /\
  (forall oel, forall rounds ctx, C ctx ->
     keeps P (fun st => match_opt_expression_list this rounds oel st ctx)) /\
  (forall e, forall rounds ctx, C ctx ->
     keeps P (fun st => match_expression this rounds e st ctx)).
Proof.
  apply (tree_mutind (fun _ => True)).
  - trivial.
  - (* alternation_list *)
    intros el IHel oc IHoc rounds ctx Hc st r Hst. simpl.
    destruct (match el with
              | Some e => match_expression_list this rounds e st ctx
              | None => Some []
              end) as [r1|] eqn:E1; [|discriminate].
    destruct (match oc with
              | Some o => match_or_continuation this rounds o st ctx
              | None => Some []
              end) as [r2|] eqn:E2; [|discriminate].
    intros [= <-]. apply Forall_app. split.
    + destruct el as [e|]; [|injection E1 as <-; constructor].
      apply option_all_Some in IHel. exact (IHel rounds ctx Hc st r1 Hst E1).
    + destruct oc as [o|]; [|injection E2 as <-; constructor].
      apply option_all_Some in IHoc. exact (IHoc rounds ctx Hc st r2 Hst E2).
  - (* or_continuation *)
    intros al IHal rounds ctx Hc st r Hst. simpl.
    destruct al as [a|]; [|intros [= <-]; constructor].
    apply option_all_Some in IHal. exact (IHal rounds ctx Hc st r Hst).
  - (* expression_list *)
    intros e IHe oel IHoel rounds ctx Hc st r Hst. simpl.
    destruct (match e with
              | Some e' => match_expression this rounds e' st ctx
              | None => Some []
              end) as [r1|] eqn:E1; [|discriminate].
    assert (H1 : Forall P r1).
    { destruct e as [e'|]; [|injection E1 as <-; constructor].
      apply option_all_Some in IHe. exact (IHe rounds ctx Hc st r1 Hst E1). }
    destruct oel as [o|]; [|intros [= <-]; constructor].
    apply option_all_Some in IHoel.
    apply try_match_list_keeps; [|exact H1].
    exact (IHoel rounds ctx Hc).
  - (* opt_expression_list *)
    intros el IHel rounds ctx Hc st r Hst. simpl.
    destruct el as [e|]; [|intros [= <-]; constructor; [exact Hst | constructor]].
    apply option_all_Some in IHel. exact (IHel rounds ctx Hc st r Hst).
  - (* expression *)
    intros production oe sc al IHal rounds ctx Hc.
    assert (Hsc : keeps P (fun s => match sc with
                                    | Some c => Some (match_simple_clause this c s ctx)
                                    | None => Some []
                                    end)).
    { destruct sc as [c|]; [|apply keeps_nil].
      intros s r Hs [= <-]. apply simple_clause_keeps; assumption. }
    assert (Hal : forall b,
               keeps P (fun s => match al with
                                 | Some a =>
                                     match_alternation_list this rounds a s
                                       (set_is_in_square_brackets ctx b)
                                 | None => Some []
                                 end)).
    { intros b. destruct al as [a|]; [|apply keeps_nil].
      apply option_all_Some in IHal. apply IHal. apply C_brackets. exact Hc. }
    intros st r Hst. simpl.
    destruct production as [|[|[|[|p]]]].
    + apply (match_repeated_keeps _ rounds _ Hsc st r Hst).
    + apply (match_repeated_keeps _ rounds _ (Hal false) st r Hst).
    + destruct (match_repeated _ rounds (has_ellipsis_of oe) st) as [res|] eqn:Er;
        [|discriminate].
      intros [= <-]. apply Forall_app. split; [|constructor; [exact Hst | constructor]].
      exact (match_repeated_keeps _ rounds _ (Hal true) st res Hst Er).
    + intros [= <-]. apply shortcut_keeps; assumption.
    + intros [= <-]. constructor.
Qed.

(** The match of a usage: the states that it returns come from the state
    behind the program name. *)
Lemma match_usage_keeps :
  forall u rounds ctx st r,
    C ctx -> P0 st -> match_usage this rounds u st ctx = Some r -> Forall P r.
Proof.
  destruct match_tree_keeps as (Hal & _).
  fix IH 1. intros [pn al nu] rounds ctx st r Hc Hst. rewrite match_usage_eq.
  destruct (negb (has_more_positionals ctx st)); [intros [= <-]; constructor|].
  destruct (token_empty pn); [intros [= <-]; constructor|].
  pose proof (acquire_keeps ctx st Hc Hst) as Hst'.
  destruct (match al with
            | Some a => match_alternation_list this rounds a
                          (snd (acquire_next_positional ctx st)) ctx
            | None => Some [snd (acquire_next_positional ctx st)]
            end) as [main|] eqn:E1; [|discriminate].
  destruct (match nu with
            | Some u' => match_usage this rounds u' st ctx
            | None => Some []
            end) as [next|] eqn:E2; [|discriminate].
  intros [= <-]. apply Forall_app. split.
  - destruct al as [a|].
    + exact (Hal a rounds ctx Hc _ main Hst' E1).
    + injection E1 as <-. constructor; [exact Hst' | constructor].
  - destruct nu as [u'|]; [|injection E2 as <-; constructor].
    exact (IH u' rounds ctx st next Hc Hst E2).
Qed.

End Keeps.

(** *** Suggestions are only made when they are asked for *)

Lemma match_one_option_suggested this ctx w o :
  suggested_next_arguments (walk_state (match_one_option this ctx w o))
  = suggested_next_arguments (walk_state w).
Proof.
  unfold match_one_option.
  repeat match goal with
         | |- context [if ?b then _ else _] => destruct b
         | |- context [match ?x with Some _ => _ | None => _ end] => destruct x
         end; reflexivity.
Qed.

Lemma match_options_walk_suggested this ctx l :
  forall w,
    suggested_next_arguments
      (walk_state (fold_left (match_one_option this ctx) l w))
    = suggested_next_arguments (walk_state w).
Proof.
  induction l as [|o l IH]; intros w; simpl; [reflexivity|].
  rewrite IH. apply match_one_option_suggested.
Qed.

Lemma match_options_no_suggestion this opts st ctx :
  has_flag (flags ctx) flag_generate_suggestions = false ->
  Forall (fun s => suggested_next_arguments s = suggested_next_arguments st)
    (match_options this opts st ctx).
Proof.
  intros Hf. unfold match_options. rewrite Hf.
  destruct (_ || _); constructor; [|constructor].
  apply (match_options_walk_suggested this ctx opts (mk_walk st [] [] false)).
Qed.

Lemma match_simple_clause_no_suggestion this sc st ctx :
  has_flag (flags ctx) flag_generate_suggestions = false ->
  Forall (fun s => suggested_next_arguments s = suggested_next_arguments st)
    (match_simple_clause this sc st ctx).
Proof.
  intros Hf. unfold match_simple_clause.
  destruct (sc_option sc) as [o|]; [|destruct (sc_fixed sc) as [f|];
    [|destruct (sc_variable sc) as [v|]; [|constructor]]].
  - unfold match_option_clause.
    pose proof (match_options_no_suggestion this [clause_option o] st ctx Hf) as H.
    destruct (match_options this [clause_option o] st ctx) as [|s l]; [|exact H].
    rewrite Hf. destruct (_ || _); repeat constructor.
  - unfold match_fixed_clause. rewrite Hf.
    repeat match goal with
           | |- context [if ?b then _ else _] => destruct b
           end; repeat constructor.
  - unfold match_variable_clause. rewrite Hf.
    repeat match goal with
           | |- context [if ?b then _ else _] => destruct b
           end; repeat constructor.
Qed.

Lemma match_options_shortcut_no_suggestion this st ctx :
  has_flag (flags ctx) flag_generate_suggestions = false ->
  Forall (fun s => suggested_next_arguments s = suggested_next_arguments st)
    (match_options_shortcut this st ctx).
Proof.
  intros Hf. unfold match_options_shortcut.
  pose proof (match_options_no_suggestion this (shortcut_options this) st ctx Hf) as H.
  destruct (match_options this (shortcut_options this) st ctx) as [|s l]; [|exact H].
  rewrite Hf. repeat constructor.
Qed.

(** X26. Suggestions are made only when they are asked for: without
    [flag_generate_suggestions] no state that the match of the tree returns
    carries a suggestion, whatever the tree, argv and the other flags. *)
Theorem no_suggestions_unless_asked this tree rounds ctx result :
  has_flag (flags ctx) flag_generate_suggestions = false ->
  match_usage this rounds tree (init_state (resolved_options ctx)) ctx = Some result ->
  forall st, st ∈ result -> suggested_next_arguments st = ∅.
Proof.
  intros Hf Hm.
  assert (H : Forall (fun st => suggested_next_arguments st = ∅) result).
  { apply (match_usage_keeps this
             (fun c => has_flag (flags c) flag_generate_suggestions = false)
             (fun st => suggested_next_arguments st = ∅)
             (fun st => suggested_next_arguments st = ∅))
      with (u := tree) (rounds := rounds) (ctx := ctx)
           (st := init_state (resolved_options ctx)).
    - intros c b Hc. exact Hc.
    - intros sc c st Hc Hst.
      eapply Forall_impl; [apply match_simple_clause_no_suggestion; exact Hc|].
      simpl. intros s Hs. rewrite Hs. exact Hst.
    - intros c st Hc Hst.
      eapply Forall_impl; [apply match_options_shortcut_no_suggestion; exact Hc|].
      simpl. intros s Hs. rewrite Hs. exact Hst.
    - intros c st _ Hst. exact Hst.
    - exact Hf.
    - reflexivity.
    - exact Hm. }
  intros st Hst. rewrite Forall_forall in H. exact (H st Hst).
Qed.

(** "prog" against "Usage: prog [options]", without flags: the state that
    passes has no suggestion. *)
Lemma no_suggestions_unless_asked_witness :
  match_usage ex_impl 7 ex_tree (init_state [])
    (mk_context 0%N [mk_positional 0] [] ["prog"] false)
  = Some [mk_state ∅ 1 [] ∅] /\
  forall st, st ∈ [mk_state ∅ 1 [] ∅] -> suggested_next_arguments st = ∅.
Proof.
  split; [vm_compute; reflexivity|].
  apply (no_suggestions_unless_asked ex_impl ex_tree 7
           (mk_context 0%N [mk_positional 0] [] ["prog"] false)).
  - reflexivity.
  - vm_compute. reflexivity.
Defined.

(** *** The match only adds *)

Lemma extends_state_refl st : extends_state st st.
Proof. repeat split; auto. Qed.

Lemma extends_state_trans st1 st2 st3 :
  extends_state st1 st2 -> extends_state st2 st3 -> extends_state st1 st3.
Proof.
  intros (A1 & A2 & A3 & A4 & A5 & A6) (B1 & B2 & B3 & B4 & B5 & B6).
  split; [lia|]. split; [congruence|]. split; [auto|].
  split; [intros k; specialize (A4 k); specialize (B4 k); lia|].
  split; [intros k; etrans; [apply A5 | apply B5]|].
  etrans; eassumption.
Qed.

Lemma extends_state_all st1 st2 l :
  extends_state st1 st2 -> Forall (extends_state st2) l -> Forall (extends_state st1) l.
Proof.
  intros H Hl. eapply Forall_impl; [exact Hl|]. simpl.
  intros s. apply extends_state_trans. exact H.
Qed.

(** An entry is replaced by one with the same or more. *)
Lemma insert_extends (m : option_map_t) key (a : arg_t) :
  count (map_ref m key) <= count a ->
  values (map_ref m key) `prefix_of` values a ->
  (forall k, count (map_ref m k) <= count (map_ref (<[ key := a ]> m) k)) /\
  (forall k, values (map_ref m k) `prefix_of` values (map_ref (<[ key := a ]> m) k)).
Proof.
  intros Hc Hv. split; intros k; destruct (decide (key = k)) as [<- | Hne].
  - rewrite map_ref_insert_eq. exact Hc.
  - rewrite map_ref_insert_ne by exact Hne. lia.
  - rewrite map_ref_insert_eq. exact Hv.
  - rewrite map_ref_insert_ne by exact Hne. reflexivity.
Qed.

Lemma consumed_insert_keeps (c : list bool) j i :
  c !! i = Some true -> <[ j := true ]> c !! i = Some true.
Proof.
  intros H. destruct (decide (j = i)) as [-> | Hne].
  - apply list_lookup_insert_eq. eapply lookup_lt_Some. exact H.
  - rewrite list_lookup_insert_ne by exact Hne. exact H.
Qed.

Lemma suggest_extends st x : extends_state st (suggest st x).
Proof.
  split; [simpl; lia|]. split; [reflexivity|]. split; [auto|].
  split; [intros; simpl; lia|]. split; [intros; reflexivity|].
  simpl. apply union_subseteq_r.
Qed.

Lemma match_one_option_extends this ctx w o :
  extends_state (walk_state w) (walk_state (match_one_option this ctx w o)).
Proof.
  unfold match_one_option.
  destruct (_ && _); [apply extends_state_refl|].
  destruct (find_resolved _ _ _ _ _) as [i|];
    [|destruct (has_flag _ _); apply extends_state_refl].
  cbn [walk_state].
  set (key := longest_name_as_string o (source this)).
  set (arg := map_ref (option_map (walk_state w)) key).
  match goal with
  | |- context [<[ key := ?a ]> _] =>
      destruct (insert_extends (option_map (walk_state w)) key a) as [Hc Hv]
  end.
  { fold arg. destruct (value_idx_in_argv _); simpl; lia. }
  { fold arg. destruct (value_idx_in_argv _); simpl;
      [apply prefix_app_r | ]; reflexivity. }
  split; [simpl; lia|]. split; [simpl; apply length_insert|].
  split; [intros j Hj; simpl; apply consumed_insert_keeps; exact Hj|].
  split; [exact Hc|]. split; [exact Hv|]. reflexivity.
Qed.

Lemma match_options_walk_extends this ctx l :
  forall w, extends_state (walk_state w)
              (walk_state (fold_left (match_one_option this ctx) l w)).
Proof.
  induction l as [|o l IH]; intros w; simpl; [apply extends_state_refl|].
  eapply extends_state_trans; [apply match_one_option_extends | apply IH].
Qed.

Lemma make_suggestions_extends this matched l :
  forall acc, extends_state (fst acc)
                (fst (fold_left (make_suggestion this matched) l acc)).
Proof.
  induction l as [|o l IH]; intros acc; simpl; [apply extends_state_refl|].
  eapply extends_state_trans; [|apply IH].
  unfold make_suggestion. destruct (_ || _); [apply suggest_extends | apply extends_state_refl].
Qed.

Lemma match_options_extends this opts st ctx :
  Forall (extends_state st) (match_options this opts st ctx).
Proof.
  unfold match_options.
  pose proof (match_options_walk_extends this ctx opts (mk_walk st [] [] false)) as Hw.
  simpl in Hw.
  set (w := fold_left (match_one_option this ctx) opts (mk_walk st [] [] false)) in *.
  pose proof (make_suggestions_extends this (matched_long_ranges w)
                (potential_suggestions w) (walk_state w, false)) as Hs.
  simpl in Hs.
  destruct (has_flag (flags ctx) flag_generate_suggestions).
  - destruct (fold_left _ (potential_suggestions w) (walk_state w, false)) as [s made].
    simpl in Hs. destruct (_ || _); constructor; [|constructor].
    eapply extends_state_trans; eassumption.
  - destruct (_ || _); constructor; [exact Hw | constructor].
Qed.

Lemma acquire_extends ctx st :
  extends_state st (snd (acquire_next_positional ctx st)) /\
  next_positional_index st < next_positional_index (snd (acquire_next_positional ctx st)).
Proof.
  split; [|simpl; lia].
  split; [simpl; lia|]. split; [reflexivity|]. split; [auto|].
  split; [intros; simpl; lia|]. split; [intros; reflexivity | reflexivity].
Qed.

Lemma match_simple_clause_extends this sc st ctx :
  Forall (extends_state st) (match_simple_clause this sc st ctx).
Proof.
  unfold match_simple_clause.
  destruct (sc_option sc) as [o|]; [|destruct (sc_fixed sc) as [f|];
    [|destruct (sc_variable sc) as [v|]; [|constructor]]].
  - unfold match_option_clause.
    pose proof (match_options_extends this [clause_option o] st ctx) as H.
    destruct (match_options this [clause_option o] st ctx) as [|s l]; [|exact H].
    destruct (_ || _); [|constructor]. constructor; [|constructor].
    destruct (has_flag _ _); [apply suggest_extends | apply extends_state_refl].
  - unfold match_fixed_clause.
    destruct (has_more_positionals ctx st).
    + destruct (_ && _); [|constructor]. constructor; [|constructor].
      match goal with
      | |- context [<[ ?key := ?a ]> _] =>
          destruct (insert_extends (option_map st) key a) as [Hc Hv];
          [simpl; lia | simpl; reflexivity |]
      end.
      split; [simpl; lia|]. split; [reflexivity|]. split; [auto|].
      split; [exact Hc|]. split; [exact Hv|]. reflexivity.
    + destruct (has_flag (flags ctx) flag_match_allow_incomplete); [|constructor].
      constructor; [|constructor].
      destruct (has_flag _ _); [apply suggest_extends | apply extends_state_refl].
  - unfold match_variable_clause.
    destruct (has_more_positionals ctx st).
    + cbn [acquire_next_positional]. constructor; [|constructor].
      match goal with
      | |- context [<[ ?key := ?a ]> _] =>
          destruct (insert_extends (option_map st) key a) as [Hc Hv];
          [simpl; lia | simpl; apply prefix_app_r; reflexivity |]
      end.
      split; [simpl; lia|]. split; [reflexivity|]. split; [auto|].
      split; [exact Hc|]. split; [exact Hv|]. reflexivity.
    + destruct (has_flag (flags ctx) flag_match_allow_incomplete); [|constructor].
      constructor; [|constructor].
      destruct (has_flag _ _); [apply suggest_extends | apply extends_state_refl].
Qed.

Lemma suggest_all_extends this (l : option_list_t) :
  forall st, extends_state st
               (fold_left (fun s o => suggest s (name_as_string o (source this))) l st).
Proof.
  induction l as [|o l IH]; intros st; simpl; [apply extends_state_refl|].
  eapply extends_state_trans; [apply suggest_extends | apply IH].
Qed.

Lemma match_options_shortcut_extends this st ctx :
  Forall (extends_state st) (match_options_shortcut this st ctx).
Proof.
  unfold match_options_shortcut.
  pose proof (match_options_extends this (shortcut_options this) st ctx) as H.
  destruct (match_options this (shortcut_options this) st ctx) as [|s l]; [|exact H].
  constructor; [|constructor].
  destruct (has_flag _ _); [apply suggest_all_extends | apply extends_state_refl].
Qed.

(** X27. The match only adds. Every state that the match of an expression
    returns has all that the given state has: its positional cursor is not
    before, the options that were consumed are still consumed, no count is
    lower, the values under every name begin with the values that were
    there, and no suggestion is lost. So it is for the match of a usage,
    whose states have moreover consumed a positional, the program name. *)
Theorem match_only_adds this rounds ctx :
  (forall node st result,
     match_expression this rounds node st ctx = Some result ->
     forall s, s ∈ result -> extends_state st s) /\
  (forall tree st result,
     match_usage this rounds tree st ctx = Some result ->
     forall s, s ∈ result ->
       extends_state st s /\ next_positional_index st < next_positional_index s).
Proof.
  split.
  - intros node st result Hm.
    assert (H : Forall (extends_state st) result).
    { destruct (match_tree_keeps this (fun _ => True) (extends_state st))
        as (_ & _ & _ & _ & He).
      - trivial.
      - intros sc c s _ Hs. eapply extends_state_all; [exact Hs|].
        apply match_simple_clause_extends.
      - intros c s _ Hs. eapply extends_state_all; [exact Hs|].
        apply match_options_shortcut_extends.
      - exact (He node rounds ctx I st result (extends_state_refl st) Hm). }
    intros s Hs. rewrite Forall_forall in H. exact (H s Hs).
  - intros tree st result Hm.
    set (P := fun s => extends_state st s /\
                       next_positional_index st < next_positional_index s).
    assert (Hstep : forall s l, P s -> Forall (extends_state s) l -> Forall P l).
    { intros s l [Hs Hlt] Hl. eapply Forall_impl; [exact Hl|]. simpl.
      intros s' Hs'. split; [eapply extends_state_trans; eassumption|].
      destruct Hs' as (Hn & _). lia. }
    assert (H : Forall P result).
    { apply (match_usage_keeps this (fun _ => True) (fun s => s = st) P)
        with (u := tree) (rounds := rounds) (ctx := ctx) (st := st).
      - trivial.
      - intros sc c s _ Hs. apply (Hstep s); [exact Hs|].
        apply match_simple_clause_extends.
      - intros c s _ Hs. apply (Hstep s); [exact Hs|].
        apply match_options_shortcut_extends.
      - intros c s _ ->. apply acquire_extends.
      - exact I.
      - reflexivity.
      - exact Hm. }
    intros s Hs. rewrite Forall_forall in H. exact (H s Hs).
Qed.

(** ** Positionals and options do not share arguments *)

Lemma appended_from_nil i res r : out_result r = res -> appended_from i res r.
Proof. intros H. exists []. rewrite app_nil_r. split; [exact H | constructor]. Qed.

Lemma appended_from_one i res r x :
  out_result r = res ++ [x] -> resolved_from i x -> appended_from i res r.
Proof. intros H Hx. exists [x]. split; [exact H | constructor; [exact Hx | constructor]]. Qed.

Lemma appended_from_trans i j res r1 r2 :
  i <= j -> appended_from i res r1 -> appended_from j (out_result r1) r2 ->
  appended_from i res r2.
Proof.
  intros Hij (n1 & H1 & F1) (n2 & H2 & F2). exists (n1 ++ n2).
  rewrite H2, H1, app_assoc. split; [reflexivity|].
  apply Forall_app. split; [exact F1|].
  eapply Forall_impl; [exact F2|]. simpl. intros x [Hn Hv].
  split; [lia|]. intros v Hx. specialize (Hv v Hx). lia.
Qed.

Lemma parse_long_resolve_from this argv fl i a matches res errs0 sugg :
  appended_from i res (parse_long_resolve this argv fl i a matches res errs0 sugg).
Proof.
  unfold parse_long_resolve.
  destruct matches as [|m ms]; simpl; [apply appended_from_nil; reflexivity|].
  destruct (has_value m), (has_value a), (i + 1 <? length argv),
    (has_flag fl flag_generate_suggestions && is_some sugg),
    (has_flag fl flag_short_options_strict_separators),
    (separator_eqb (separator a) (separator m)); simpl;
    first [ apply appended_from_nil; reflexivity
          | eapply appended_from_one; [reflexivity|];
            split; simpl; [lia | intros v Hv; try discriminate; injection Hv as <-; lia] ].
Qed.

Lemma parse_long_from this argv ty fl i opts res errs0 sugg :
  appended_from i res (parse_long this argv ty fl i opts res errs0 sugg).
Proof.
  unfold parse_long.
  match goal with
  | |- context [let '(_, _) := ?c in _] => destruct c as [matches errs]
  end.
  apply parse_long_resolve_from.
Qed.

Lemma parse_unseparated_short_from this argv fl i opts res errs0 sugg :
  appended_from i res (parse_unseparated_short this argv fl i opts res errs0 sugg).
Proof.
  unfold parse_unseparated_short.
  match goal with
  | |- context [List.filter ?f opts] => destruct (List.filter f opts) as [|m [|m' ms]]
  end; simpl; try (apply appended_from_nil; reflexivity).
  destruct (string_size (argv_at argv i) <=? 2); simpl;
    [apply appended_from_nil; reflexivity|].
  eapply appended_from_one; [reflexivity|].
  split; simpl; [lia | intros v [= <-]; lia].
Qed.

Lemma parse_short_resolved_from name_idx total k rest last v vr :
  (forall x, v = Some x -> name_idx <= x) ->
  Forall (resolved_from name_idx)
    (parse_short_resolved name_idx total k rest last v vr).
Proof.
  intros Hv. revert k. induction rest as [|o rest IH]; intros k; simpl;
    [constructor|].
  constructor; [|apply IH].
  destruct ((k + 1 =? total) && last); split; simpl; auto; discriminate.
Qed.

Lemma parse_short_from this argv fl i opts res errs0 sugg :
  appended_from i res (parse_short this argv fl i opts res errs0 sugg).
Proof.
  unfold parse_short.
  destruct (parse_short_chars this (argv_at argv i) i opts
              (string_size (argv_at argv i) - 1) 1 [] errs0) as [[ofa e1] errored].
  destruct errored; simpl; [apply appended_from_nil; reflexivity|].
  destruct (parse_short_values i (length ofa) 0 ofa e1 false) as [e2 last].
  destruct last; simpl.
  - destruct (i + 1 <? length argv); simpl.
    + eexists. split; [reflexivity|].
      apply parse_short_resolved_from. intros x [= <-]. lia.
    + destruct (has_flag fl flag_generate_suggestions && is_some sugg); simpl;
        apply appended_from_nil; reflexivity.
  - eexists. split; [reflexivity|].
    apply parse_short_resolved_from. discriminate.
Qed.

(** Adding options of arguments from [i] on, where all positionals are
    before [i]. *)
Lemma slots_disjoint_add_options i st (r : parse_out) errs' sugg' :
  Forall (fun p => idx_in_argv p < i) (sep_positionals st) ->
  slots_disjoint st ->
  appended_from i (sep_resolved_options st) r ->
  slots_disjoint (mk_separated (sep_positionals st) (out_result r) errs' sugg').
Proof.
  intros Hp Hd (new & Hr & Hnew) p x Hin Hx. simpl in *.
  rewrite Hr in Hx. apply elem_of_app in Hx. destruct Hx as [Hx | Hx].
  - apply Hd; assumption.
  - rewrite Forall_forall in Hp. rewrite Forall_forall in Hnew. specialize (Hp p Hin).
    destruct (Hnew x Hx) as [Hn Hv]. split; [lia|].
    intros Heq. specialize (Hv _ Heq). lia.
Qed.

(** Adding positionals at [i] or behind, where all options are of arguments
    before [i]. *)
Lemma slots_disjoint_add_positionals i st (l : list nat) errs' sugg' :
  Forall (resolved_below i) (sep_resolved_options st) ->
  slots_disjoint st ->
  Forall (fun k => i <= k) l ->
  slots_disjoint (mk_separated (sep_positionals st ++ map mk_positional l)
                    (sep_resolved_options st) errs' sugg').
Proof.
  intros Hr Hd Hl p x Hin Hx. simpl in *.
  apply elem_of_app in Hin. destruct Hin as [Hin | Hin].
  - apply Hd; assumption.
  - apply list_elem_of_fmap in Hin. destruct Hin as (k & -> & Hk). simpl.
    rewrite Forall_forall in Hr. rewrite Forall_forall in Hl. specialize (Hl k Hk).
    destruct (Hr x Hx) as [Hn Hv]. split; [lia|].
    intros Heq. destruct (Hv _ Heq). lia.
Qed.

Lemma separate_step_disjoint this argv opts fl i st :
  i < length argv -> separated_wf argv st -> separated_below i st ->
  slots_disjoint st ->
  slots_disjoint (snd (separate_step this argv opts fl i st)).
Proof.
  intros Hi [_ Hwr] (Hp & _ & Hr) Hd. unfold separate_step.
  destruct (str_equals "--" (argv_at argv i)).
  { simpl. apply (slots_disjoint_add_positionals i); [exact Hr | exact Hd|].
    apply Forall_forall. intros k Hk. apply list_elem_of_In, in_seq in Hk. lia. }
  destruct (substr_equals "--" (argv_at argv i) 2).
  { simpl. apply (slots_disjoint_add_options i); [exact Hp | exact Hd|].
    apply parse_long_from. }
  destruct (substr_equals "-" (argv_at argv i) 1 && (1 <? string_size (argv_at argv i))).
  2:{ simpl. apply (slots_disjoint_add_positionals i st [i]); [exact Hr | exact Hd|].
      constructor; [lia | constructor]. }
  pose proof (parse_long_ok this argv single_long fl i opts (sep_resolved_options st)
                (Some []) (sep_suggestion st) Hi Hwr) as [Hw1 Hs1].
  pose proof (parse_long_from this argv single_long fl i opts (sep_resolved_options st)
                (Some []) (sep_suggestion st)) as Hf1.
  set (r1 := parse_long this argv single_long fl i opts (sep_resolved_options st)
               (Some []) (sep_suggestion st)) in *.
  revert Hs1. destruct (success r1); intros Hs1.
  { simpl. apply (slots_disjoint_add_options i); assumption. }
  destruct Hs1 as [Hidx1 Hres1].
  assert (Hge1 : i <= idx r1) by (destruct Hidx1 as [-> | [-> H]]; lia).
  assert (Hi1 : idx r1 < length argv) by (destruct Hidx1 as [-> | [-> H]]; lia).
  pose proof (parse_unseparated_short_ok this argv fl (idx r1) opts (out_result r1)
                (Some []) (out_suggestion r1) Hi1 Hw1) as [Hw2 Hs2].
  pose proof (parse_unseparated_short_from this argv fl (idx r1) opts (out_result r1)
                (Some []) (out_suggestion r1)) as Hf2.
  set (r2 := parse_unseparated_short this argv fl (idx r1) opts (out_result r1)
               (Some []) (out_suggestion r1)) in *.
  pose proof (appended_from_trans i (idx r1) _ r1 r2 Hge1 Hf1 Hf2) as Hf12.
  revert Hs2. destruct (success r2); intros Hs2.
  { simpl. apply (slots_disjoint_add_options i); assumption. }
  destruct Hs2 as [Hidx2 Hres2].
  pose proof (parse_short_from this argv fl (idx r2) opts (out_result r2)
                (out_errors r2) (out_suggestion r2)) as Hf3.
  set (r3 := parse_short this argv fl (idx r2) opts (out_result r2)
               (out_errors r2) (out_suggestion r2)) in *.
  assert (Hf123 : appended_from i (sep_resolved_options st) r3).
  { apply (appended_from_trans i (idx r2) _ r2 r3); [lia | exact Hf12 | exact Hf3]. }
  destruct (success r3); simpl; apply (slots_disjoint_add_options i); assumption.
Qed.

Lemma separate_loop_disjoint this argv opts fl rounds :
  forall i st,
    i <= length argv -> separated_wf argv st -> separated_below i st ->
    slots_disjoint st ->
    slots_disjoint (snd (separate_loop this argv opts fl rounds i st)).
Proof.
  induction rounds as [|rounds IH]; intros i st Hle Hwf Hb Hd; simpl; [exact Hd|].
  destruct (i <? length argv) eqn:E; [|exact Hd].
  apply Nat.ltb_lt in E.
  pose proof (separate_step_ok this argv opts fl i st E Hwf) as (H1 & H2 & H3).
  pose proof (separate_step_below this argv opts fl i st E Hwf Hb) as H4.
  pose proof (separate_step_disjoint this argv opts fl i st E Hwf Hb Hd) as H5.
  destruct (separate_step this argv opts fl i st) as [i' st']. simpl in *.
  apply IH; assumption.
Qed.

(** X28. In what the tokenizer returns, no argument is both a positional
    and part of an option: the index of a positional is neither the index of
    the name nor the index of the value of a resolved option. *)
Theorem tokenizer_slots_disjoint this argv opts fl errs0 sugg :
  let sep := separate_argv_into_options_and_positionals this argv opts fl errs0 sugg in
  forall p r, p ∈ sep_positionals sep -> r ∈ sep_resolved_options sep ->
    idx_in_argv p <> name_idx_in_argv r /\
    value_idx_in_argv r <> Some (idx_in_argv p).
Proof.
  intros sep. unfold sep, separate_argv_into_options_and_positionals.
  apply (separate_loop_disjoint this argv opts fl (length argv) 0
           (mk_separated [] [] errs0 sugg)).
  - lia.
  - split; constructor.
  - split; [constructor | split; constructor].
  - intros p r Hp. apply not_elem_of_nil in Hp. contradiction.
Qed.

Lemma tokenizer_slots_disjoint_witness :
  sep_positionals
    (separate_argv_into_options_and_positionals ex_impl
       ["prog"; "-m"; "hello"; "file"] (all_options ex_impl) 0%N (Some []) None)
    = [mk_positional 0; mk_positional 3] /\
  sep_resolved_options
    (separate_argv_into_options_and_positionals ex_impl
       ["prog"; "-m"; "hello"; "file"] (all_options ex_impl) 0%N (Some []) None)
    = [mk_resolved ex_message 1 (Some 2) (mk_range 0 5)] /\
  idx_in_argv (mk_positional 3)
    <> name_idx_in_argv (mk_resolved ex_message 1 (Some 2) (mk_range 0 5)) /\
  value_idx_in_argv (mk_resolved ex_message 1 (Some 2) (mk_range 0 5))
    <> Some (idx_in_argv (mk_positional 3)).
Proof.
  assert (E : separate_argv_into_options_and_positionals ex_impl
                 ["prog"; "-m"; "hello"; "file"] (all_options ex_impl) 0%N (Some []) None
               = mk_separated [mk_positional 0; mk_positional 3]
                   [mk_resolved ex_message 1 (Some 2) (mk_range 0 5)] (Some []) None)
    by (vm_compute; reflexivity).
  pose proof (tokenizer_slots_disjoint ex_impl ["prog"; "-m"; "hello"; "file"]
                (all_options ex_impl) 0%N (Some []) None
                (mk_positional 3) (mk_resolved ex_message 1 (Some 2) (mk_range 0 5))) as H.
  cbv zeta in H. rewrite E in *. cbn [sep_positionals sep_resolved_options] in *.
  split; [reflexivity|]. split; [reflexivity|].
  apply H.
  - apply list_elem_of_further, list_elem_of_here.
  - apply list_elem_of_here.
Defined.

(** The states that the match of a usage returns have consumed a
    positional. *)
Lemma match_usage_advances this rounds ctx tree st result :
  match_usage this rounds tree st ctx = Some result ->
  forall s, s ∈ result -> next_positional_index st < next_positional_index s.
Proof.
  intros Hm.
  set (P := fun s => next_positional_index st < next_positional_index s).
  assert (Hstep : forall s l, P s -> Forall (extends_state s) l -> Forall P l).
  { intros s l Hs Hl. eapply Forall_impl; [exact Hl|]. simpl.
    intros s' (Hn & _). unfold P in *. lia. }
  assert (H : Forall P result).
  { apply (match_usage_keeps this (fun _ => True) (fun s => s = st) P)
      with (u := tree) (rounds := rounds) (ctx := ctx) (st := st).
    - trivial.
    - intros sc c s _ Hs. apply (Hstep s); [exact Hs|].
      apply match_simple_clause_extends.
    - intros c s _ Hs. apply (Hstep s); [exact Hs|].
      apply match_options_shortcut_extends.
    - intros c s _ ->. apply acquire_extends.
    - exact I.
    - reflexivity.
    - exact Hm. }
  intros s Hs. rewrite Forall_forall in H. exact (H s Hs).
Qed.

(** X29. A positional that a state of the match has consumed is never
    reported as unused: for the positionals and options that the tokenizer
    makes of argv, and every state that the match of the tree returns, the
    arguments of the positionals before the cursor of the state, the
    program name first, are not among its unused arguments. *)
Theorem consumed_positionals_are_used this tree argv fl rounds result st j p :
  let sep := separate_argv_into_options_and_positionals this argv (all_options this)
               fl (Some []) None in
  let ctx := mk_context fl (sep_positionals sep) (sep_resolved_options sep) argv false in
  match_usage this rounds tree (init_state (sep_resolved_options sep)) ctx
  = Some result ->
  st ∈ result ->
  (0 < next_positional_index st /\
   (j < next_positional_index st -> sep_positionals sep !! j = Some p ->
    idx_in_argv p ∉ unused_arguments ctx st)).
Proof.
  intros sep ctx Hm Hst.
  pose proof (match_usage_advances this rounds ctx tree _ result Hm st Hst) as Hlt.
  split; [simpl in Hlt; lia|].
  intros Hj Hp Hin. apply unused_arguments_spec in Hin.
  destruct Hin as [_ [Hname | [_ Hpos]]].
  - unfold unconsumed_name_slots in Hname.
    apply list_elem_of_In, in_flat_map in Hname.
    destruct Hname as ([b r] & Hbr & Hx). simpl in Hx.
    destruct (negb b); [|contradiction]. destruct Hx as [Hx | []].
    apply in_combine_r in Hbr. simpl in Hbr.
    pose proof (separate_loop_disjoint this argv (all_options this) fl (length argv) 0
                  (mk_separated [] [] (Some []) None)) as Hd.
    fold (separate_argv_into_options_and_positionals this argv (all_options this) fl
            (Some []) None) in Hd. fold sep in Hd.
    destruct (Hd ltac:(lia)) with (p := p) (r := r) as [Hne _].
    + split; constructor.
    + split; [constructor | split; constructor].
    + intros ? ? H. apply not_elem_of_nil in H. contradiction.
    + eapply list_elem_of_lookup_2. exact Hp.
    + apply list_elem_of_In. exact Hbr.
    + congruence.
  - apply Hpos. unfold consumed_positional_slots. simpl.
    apply list_elem_of_fmap. exists p. split; [reflexivity|].
    apply elem_of_take. exists j. split; [exact Hp | exact Hj].
Qed.

(** "prog" against "Usage: prog [options]": the program name is used. *)
Lemma consumed_positionals_are_used_witness :
  0 < next_positional_index (mk_state ∅ 1 [] ∅) /\
  idx_in_argv (mk_positional 0)
    ∉ unused_arguments (mk_context 0%N [mk_positional 0] [] ["prog"] false)
        (mk_state ∅ 1 [] ∅).
Proof.
  destruct (consumed_positionals_are_used ex_impl ex_tree ["prog"] 0%N 7
              [mk_state ∅ 1 [] ∅] (mk_state ∅ 1 [] ∅) 0 (mk_positional 0))
    as [H1 H2].
  - vm_compute. reflexivity.
  - apply list_elem_of_here.
  - split; [exact H1|]. apply H2; [simpl; lia | reflexivity].
Defined.

(** ** A state without unused arguments *)

(** What is known of the output of the tokenizer. *)
Lemma separate_argv_facts this argv opts fl errs0 sugg :
  let sep := separate_argv_into_options_and_positionals this argv opts fl errs0 sugg in
  separated_wf argv sep /\
  StronglySorted lt (map idx_in_argv (sep_positionals sep)) /\
  slots_disjoint sep.
Proof.
  intros sep. split; [apply separate_argv_wf|].
  unfold sep, separate_argv_into_options_and_positionals.
  assert (Hwf : separated_wf argv (mk_separated [] [] errs0 sugg))
    by (split; constructor).
  assert (Hb : separated_below 0 (mk_separated [] [] errs0 sugg))
    by (split; [constructor | split; constructor]).
  split.
  - destruct (separate_loop_below this argv opts fl (length argv) 0
                (mk_separated [] [] errs0 sugg)) as (_ & H & _);
      [lia | exact Hwf | exact Hb | exact H].
  - apply separate_loop_disjoint; [lia | exact Hwf | exact Hb|].
    intros p r Hp. apply not_elem_of_nil in Hp. contradiction.
Qed.

Lemma in_combine_lookup {A B} (l1 : list A) (l2 : list B) k a b :
  l1 !! k = Some a -> l2 !! k = Some b -> In (a, b) (combine l1 l2).
Proof.
  revert l2 k. induction l1 as [|x l1 IH]; intros l2 k H1 H2;
    [rewrite lookup_nil in H1; discriminate|].
  destruct l2 as [|y l2]; [rewrite lookup_nil in H2; discriminate|].
  destruct k as [|k]; simpl in *.
  - injection H1 as ->. injection H2 as ->. left. reflexivity.
  - right. eapply IH; eassumption.
Qed.

(** X30. A state of the match has no unused argument only if it has
    consumed everything that the tokenizer made of argv: its cursor is
    behind the last positional, and every resolved option is consumed. *)
Theorem no_unused_means_all_consumed this tree argv fl result st :
  let sep := separate_argv_into_options_and_positionals this argv (all_options this)
               fl (Some []) None in
  let ctx := mk_context fl (sep_positionals sep) (sep_resolved_options sep) argv false in
  match_usage this (ellipsis_rounds this ctx tree) tree
    (init_state (sep_resolved_options sep)) ctx = Some result ->
  st ∈ result ->
  unused_arguments ctx st = [] ->
  next_positional_index st = length (sep_positionals sep) /\
  length (consumed_options st) = length (sep_resolved_options sep) /\
  forall k b, consumed_options st !! k = Some b -> b = true.
Proof.
  intros sep ctx Hm Hst Hnil.
  destruct (match_usage_returns this tree ctx) as (result' & Hr & Hall).
  simpl in Hr. rewrite Hm in Hr. injection Hr as <-.
  rewrite Forall_forall in Hall. destruct (Hall st Hst) as (Hnpi & Hlen & _).
  simpl in Hnpi, Hlen.
  destruct (separate_argv_facts this argv (all_options this) fl (Some []) None)
    as ([Hwp Hwr] & Hsorted & Hd).
  fold sep in Hwp, Hwr, Hsorted, Hd.
  assert (Hno : forall i, i ∉ unused_arguments ctx st)
    by (intros i; rewrite Hnil; apply not_elem_of_nil).
  split; [|split; [exact Hlen|]].
  - destruct (decide (next_positional_index st = length (sep_positionals sep)))
      as [E | Hne]; [exact E | exfalso].
    assert (Hlt : next_positional_index st < length (sep_positionals sep)) by lia.
    destruct (lookup_lt_is_Some_2 _ _ Hlt) as (p & Hp).
    apply (Hno (idx_in_argv p)). apply unused_arguments_spec. simpl.
    assert (Hin : p ∈ sep_positionals sep) by (eapply list_elem_of_lookup_2; exact Hp).
    split; [rewrite Forall_forall in Hwp; apply Hwp; exact Hin|].
    right. split.
    + unfold consumed_option_slots. simpl. intros Hc.
      apply list_elem_of_In, in_flat_map in Hc.
      destruct Hc as ([b r] & Hbr & Hx). simpl in Hx.
      destruct b; [|contradiction].
      apply in_combine_r, list_elem_of_In in Hbr.
      destruct (Hd p r Hin Hbr) as [Hn Hv].
      destruct Hx as [Hx | Hx]; [congruence|].
      unfold value_slot in Hx. destruct (value_idx_in_argv r) as [v|]; [|contradiction].
      destruct Hx as [-> | []]. apply Hv. reflexivity.
    + unfold consumed_positional_slots. simpl. intros Hc.
      apply list_elem_of_fmap in Hc. destruct Hc as (q & Hq & Hqin).
      apply elem_of_take in Hqin. destruct Hqin as (j & Hj & Hjlt).
      assert (idx_in_argv q < idx_in_argv p); [|lia].
      apply (sorted_lt_lookup (map idx_in_argv (sep_positionals sep)) j
               (next_positional_index st)); [exact Hsorted | exact Hjlt | |].
      * change (map idx_in_argv (sep_positionals sep))
          with (idx_in_argv <$> sep_positionals sep).
        rewrite list_lookup_fmap, Hj. reflexivity.
      * change (map idx_in_argv (sep_positionals sep))
          with (idx_in_argv <$> sep_positionals sep).
        rewrite list_lookup_fmap, Hp. reflexivity.
  - intros k b Hk. destruct b; [reflexivity | exfalso].
    assert (Hkl : k < length (sep_resolved_options sep))
      by (rewrite <- Hlen; eapply lookup_lt_Some; exact Hk).
    destruct (lookup_lt_is_Some_2 _ _ Hkl) as (r & Hrk).
    apply (Hno (name_idx_in_argv r)). apply unused_arguments_spec. simpl.
    assert (Hin : r ∈ sep_resolved_options sep)
      by (eapply list_elem_of_lookup_2; exact Hrk).
    rewrite Forall_forall in Hwr. destruct (Hwr r Hin) as [Hn _].
    split; [exact Hn|]. left.
    unfold unconsumed_name_slots. simpl.
    apply list_elem_of_In, in_flat_map. exists (false, r).
    split; [eapply in_combine_lookup; eassumption | left; reflexivity].
Qed.

(** "prog" against "Usage: prog [options]": nothing is unused, and the one
    positional is consumed. *)
Lemma no_unused_means_all_consumed_witness :
  next_positional_index (mk_state ∅ 1 [] ∅)
  = length (sep_positionals
              (separate_argv_into_options_and_positionals ex_impl ["prog"]
                 (all_options ex_impl) 0%N (Some []) None)) /\
  length (consumed_options (mk_state ∅ 1 [] ∅))
  = length (sep_resolved_options
              (separate_argv_into_options_and_positionals ex_impl ["prog"]
                 (all_options ex_impl) 0%N (Some []) None)) /\
  forall k b, consumed_options (mk_state ∅ 1 [] ∅) !! k = Some b -> b = true.
Proof.
  apply (no_unused_means_all_consumed ex_impl ex_tree ["prog"] 0%N [mk_state ∅ 1 [] ∅]).
  - vm_compute. reflexivity.
  - apply list_elem_of_here.
  - vm_compute. reflexivity.
Defined.
